(** * SIMM calculator (OREAnalytics/orea/simm/simmcalculator.cpp)

    A shallow embedding of [SimmCalculator] and the properties of its
    margin calculators, additional-margin step, regulation splitting and
    winning-regulation selection.

    Conventions of the embedding.
    - [QuantLib::Real] is read as a real number ([R]); rounding is not
      modelled, the order of every loop is.
    - A [std::map<std::string, V>] is an association list kept sorted on
      its keys ([smap]); a [std::set<std::string>] a sorted list without
      repetition ([sset]).
    - [SimmNetSensitivities] (a multi-index container) is the list of its
      records; an [equal_range] on one of its indices is the sub-list of the
      records with that key.
    - [QL_REQUIRE] and [std::map::at] failures are the [Error] result. *)

From Stdlib Require Import Reals Lra Psatz Lia List String Ascii Bool Arith.
From Stdlib Require OrderedTypeEx.
Import ListNotations.

Local Open Scope string_scope.
Local Open Scope list_scope.
Local Open Scope R_scope.

Set Implicit Arguments.

(* ================================================================= *)
(** ** Enumerations of SimmConfiguration *)

Module RiskType.
Inductive t : Set :=
| Commodity | CommodityVol | CreditNonQ | CreditQ | CreditVol
| CreditVolNonQ | Equity | EquityVol | FX | FXVol | Inflation
| IRCurve | IRVol | InflationVol | BaseCorr | XCcyBasis
| ProductClassMultiplier | AddOnNotionalFactor | Notional
| AddOnFixedAmount | PV | All.

Definition eq_dec (a b : t) : {a = b} + {a <> b}.
Proof. decide equality. Defined.

Definition eqb (a b : t) : bool := if eq_dec a b then true else false.
End RiskType.

Module ProductClass.
Inductive t : Set :=
| RatesFX | Rates | FX | Credit | Equity | Commodity | Empty | Other
| AddOnNotionalFactor | AddOnFixedAmount | All.

Definition eq_dec (a b : t) : {a = b} + {a <> b}.
Proof. decide equality. Defined.

Definition eqb (a b : t) : bool := if eq_dec a b then true else false.
End ProductClass.

Module RiskClass.
Inductive t : Set :=
| InterestRate | CreditQualifying | CreditNonQualifying | Equity
| Commodity | FX | All.

Definition eq_dec (a b : t) : {a = b} + {a <> b}.
Proof. decide equality. Defined.

Definition eqb (a b : t) : bool := if eq_dec a b then true else false.
End RiskClass.

Module MarginType.
Inductive t : Set :=
| Delta | Vega | Curvature | BaseCorr | AdditionalIM | All.

Definition eq_dec (a b : t) : {a = b} + {a <> b}.
Proof. decide equality. Defined.

Definition eqb (a b : t) : bool := if eq_dec a b then true else false.
End MarginType.

Module SimmSide.
Inductive t : Set := Call | Post.

Definition eq_dec (a b : t) : {a = b} + {a <> b}.
Proof. decide equality. Defined.

Definition eqb (a b : t) : bool := if eq_dec a b then true else false.
End SimmSide.

(** [SimmVersion], ordered as the releases are. *)
Module SimmVersion.
Inductive t : Set :=
| V1_0 | V1_1 | V1_2 | V1_3 | V1_3_38 | V2_0 | V2_1 | V2_2 | V2_3
| V2_3_8 | V2_5 | V2_5A | V2_6.

Definition rank (v : t) : nat :=
  match v with
  | V1_0 => 0 | V1_1 => 1 | V1_2 => 2 | V1_3 => 3 | V1_3_38 => 4
  | V2_0 => 5 | V2_1 => 6 | V2_2 => 7 | V2_3 => 8 | V2_3_8 => 9
  | V2_5 => 10 | V2_5A => 11 | V2_6 => 12
  end%nat.

Definition gtb (a b : t) : bool := Nat.ltb (rank b) (rank a).
Definition geb (a b : t) : bool := Nat.leb (rank b) (rank a).
End SimmVersion.

(* ================================================================= *)
(** ** Results of fallible code *)

Inductive Result (A : Type) : Type :=
| OK : A -> Result A
| Error : string -> Result A.

Arguments OK {A} _.
Arguments Error {A} _.

Definition bind {A B : Type} (m : Result A) (k : A -> Result B) : Result B :=
  match m with
  | OK a => k a
  | Error e => Error e
  end.

Notation "'do' x <- m ; k" := (bind m (fun x => k))
  (at level 10, x pattern, m at level 100, k at level 200).

Definition isError {A : Type} (m : Result A) : bool :=
  match m with OK _ => false | Error _ => true end.

(* ================================================================= *)
(** ** std::map<std::string, V> and std::set<std::string> *)

Definition smap (V : Type) : Type := list (string * V).
Definition sset : Type := list string.

Fixpoint sm_find {V : Type} (k : string) (m : smap V) : option V :=
  match m with
  | [] => None
  | (k', v) :: m' => if String.eqb k k' then Some v else sm_find k m'
  end.

(** [m.count(k) > 0] *)
Definition sm_mem {V : Type} (k : string) (m : smap V) : bool :=
  match sm_find k m with Some _ => true | None => false end.

(** [m[k] = v]: the entry is written at its place in key order. *)
Fixpoint sm_set {V : Type} (k : string) (v : V) (m : smap V) : smap V :=
  match m with
  | [] => [(k, v)]
  | (k', v') :: m' =>
      match String.compare k k' with
      | Lt => (k, v) :: (k', v') :: m'
      | Eq => (k, v) :: m'
      | Gt => (k', v') :: sm_set k v m'
      end
  end.

(** Reading [m[k]] of a [map<string, Real>]: a missing entry is
    value-initialised to [0.0]. *)
Definition sm_get (k : string) (m : smap R) : R :=
  match sm_find k m with Some v => v | None => 0 end.

(** [m[k] += d] *)
Definition sm_add (k : string) (d : R) (m : smap R) : smap R :=
  sm_set k (sm_get k m + d) m.

(** [m.erase(k)] *)
Definition sm_erase {V : Type} (k : string) (m : smap V) : smap V :=
  filter (fun kv => negb (String.eqb k (fst kv))) m.

Definition sm_keys {V : Type} (m : smap V) : list string := map fst m.
Definition sm_values {V : Type} (m : smap V) : list V := map snd m.

(** [s.insert(x)] *)
Fixpoint ss_insert (x : string) (s : sset) : sset :=
  match s with
  | [] => [x]
  | y :: s' =>
      match String.compare x y with
      | Lt => x :: y :: s'
      | Eq => y :: s'
      | Gt => y :: ss_insert x s'
      end
  end.

(** Reading [m[k]] of a [map<string, set<string>>]. *)
Definition sm_getset (k : string) (m : smap sset) : sset :=
  match sm_find k m with Some s => s | None => [] end.

(** [*s.begin()] of a set known to be non-empty. *)
Definition ss_begin (s : sset) : string := hd "" s.

(* ================================================================= *)
(** ** QuantLib and boost numerics used by the calculator *)

(** [QL_EPSILON], the machine epsilon of a double. *)
Definition QL_EPSILON : R := / 2 ^ 52.

(** [std::numeric_limits<Real>::min()]: the smallest positive normalised
    double. *)
Definition Real_min : R := / 2 ^ 1022.

(** [QuantLib::close_enough(x, y)] of ql/math/comparison.hpp, with its
    default [n = 42]. *)
Definition close_enough (x y : R) : bool :=
  if Req_dec_T x y then true
  else
    let diff := Rabs (x - y) in
    let tolerance := 42 * QL_EPSILON in
    if Req_dec_T x 0 then (if Rlt_dec diff (tolerance * tolerance) then true else false)
    else if Req_dec_T y 0 then (if Rlt_dec diff (tolerance * tolerance) then true else false)
    else if Rle_dec diff (tolerance * Rabs x) then true
    else if Rle_dec diff (tolerance * Rabs y) then true
    else false.

(** [boost::math::quantile(boost::math::normal(), 0.995)], to the digits a
    double holds. *)
Definition q995 : R := 25758293035489 / 10000000000000.

(** [SimmCalculator::lambda] *)
Definition lambda (theta : R) : R :=
  (q995 * q995 - 1) * (1 + theta) - theta.

(* ================================================================= *)
(** ** CRIF records and the configuration interface *)

(** [NettingSetDetails]: the netting set identifier (a composite key with
    equality and order; its optional fields play no part here). *)
Definition NettingSetDetails : Type := string.

Record CrifRecord : Type := mkCrifRecord {
  tradeId : string;
  nettingSetDetails : NettingSetDetails;
  productClass : ProductClass.t;
  riskType : RiskType.t;
  qualifier : string;
  bucket : string;
  label1 : string;
  label2 : string;
  amountCurrency : string;
  amount : R;
  amountUsd : R;
  imModel : string;
  collectRegulations : string;
  postRegulations : string
}.

Definition SimmNetSensitivities : Type := list CrifRecord.

(** The methods of [SimmConfiguration] the calculator calls.  The
    calculation currency is the last, optional argument of [weight] and
    [correlation]; a call without it passes the empty string. *)
Record SimmConfiguration : Type := mkSimmConfiguration {
  weight : RiskType.t -> string -> string -> string -> R;
  correlation : RiskType.t -> string -> string -> string ->
                RiskType.t -> string -> string -> string -> string -> R;
  concentrationThreshold : RiskType.t -> string -> R;
  curvatureWeight : RiskType.t -> string -> R;
  sigma : RiskType.t -> string -> string -> string -> R;
  historicalVolatilityRatio : RiskType.t -> R;
  curvatureMarginScaling : R;
  correlationRiskClasses : RiskClass.t -> RiskClass.t -> R;
  version : SimmVersion.t;
  isValidRiskType : RiskType.t -> bool
}.

(** The calculator's own read-only members. *)
Record Calculator : Type := mkCalculator {
  simmConfiguration_ : SimmConfiguration;
  calculationCcy_ : string
}.

(** *** Index ranges of the multi-index container *)

Definition inRiskType (nsd : NettingSetDetails) (pc : ProductClass.t)
    (rt : RiskType.t) (r : CrifRecord) : bool :=
  String.eqb (nettingSetDetails r) nsd
  && ProductClass.eqb (productClass r) pc
  && RiskType.eqb (riskType r) rt.

(** [get<RiskTypeTag>().equal_range(make_tuple(nsd, pc, rt))] *)
Definition riskTypeRange (nsd : NettingSetDetails) (pc : ProductClass.t)
    (rt : RiskType.t) (netRecords : SimmNetSensitivities) : list CrifRecord :=
  filter (inRiskType nsd pc rt) netRecords.

(** [get<BucketTag>().equal_range(make_tuple(nsd, pc, rt, bucket))] *)
Definition bucketRange (nsd : NettingSetDetails) (pc : ProductClass.t)
    (rt : RiskType.t) (b : string) (netRecords : SimmNetSensitivities)
    : list CrifRecord :=
  filter (fun r => inRiskType nsd pc rt r && String.eqb (bucket r) b) netRecords.

(** [get<QualifierTag>().equal_range(make_tuple(nsd, pc, rt, qualifier))] *)
Definition qualifierRange (nsd : NettingSetDetails) (pc : ProductClass.t)
    (rt : RiskType.t) (q : string) (netRecords : SimmNetSensitivities)
    : list CrifRecord :=
  filter (fun r => inRiskType nsd pc rt r && String.eqb (qualifier r) q) netRecords.

(** [get<BucketQualifierTag>().equal_range(make_tuple(nsd, pc, rt, bucket, qualifier))] *)
Definition bucketQualifierRange (nsd : NettingSetDetails) (pc : ProductClass.t)
    (rt : RiskType.t) (b q : string) (netRecords : SimmNetSensitivities)
    : list CrifRecord :=
  filter (fun r => inRiskType nsd pc rt r && String.eqb (bucket r) b
                   && String.eqb (qualifier r) q) netRecords.

(** [buckets[p.first->bucket].insert(p.first->qualifier)] over a range. *)
Definition bucketsOf (range : list CrifRecord) : smap sset :=
  fold_left
    (fun buckets r =>
       sm_set (bucket r) (ss_insert (qualifier r) (sm_getset (bucket r) buckets)) buckets)
    range [].

(** [qualifiers.insert(p.first->qualifier)] over a range, onto [qualifiers]. *)
Definition qualifiersOf (range : list CrifRecord) (qualifiers : sset) : sset :=
  fold_left (fun qs r => ss_insert (qualifier r) qs) range qualifiers.

(** [S_b]: the weighted-sensitivity sum capped by the bucket margin. *)
Definition clampS (sumWs k : R) : R := Rmax (Rmin sumWs k) (- k).

(* ================================================================= *)
(** ** The margin calculators *)

Section MarginCalculators.

Variable cfg : SimmConfiguration.
Variable calculationCcy : string.

(** *** SimmCalculator::margin (Delta and Vega, all but Interest Rate) *)

Definition riskClassIsFX (rt : RiskType.t) : bool :=
  RiskType.eqb rt RiskType.FX || RiskType.eqb rt RiskType.FXVol.

(** [rt == RiskType::FX && qualifier == calculationCcy_] *)
Definition isCalcCcyFX (rt : RiskType.t) (q : string) : bool :=
  RiskType.eqb rt RiskType.FX && String.eqb q calculationCcy.

(** The first pass over the qualifiers of a bucket: the local map
    [concentrationRisk].  Each qualifier of the set is met once, so its
    entry starts from the value-initialised [0.0]. *)
Definition concentrationRiskSum (rt : RiskType.t) (hvr : R)
    (pQualifier : list CrifRecord) : R :=
  fold_left
    (fun acc it =>
       acc + amountUsd it * sigma cfg rt (qualifier it) (label1 it) calculationCcy * hvr)
    pQualifier 0.

Definition concentrationRiskOf (nsd : NettingSetDetails) (pc : ProductClass.t)
    (rt : RiskType.t) (hvr : R) (b : string) (qualifiers : sset)
    (netRecords : SimmNetSensitivities) : smap R :=
  fold_left
    (fun concentrationRisk q =>
       if isCalcCcyFX rt q then concentrationRisk
       else
         let pQualifier := bucketQualifierRange nsd pc rt b q netRecords in
         let s := concentrationRiskSum rt hvr pQualifier in
         let s := s / concentrationThreshold cfg rt q in
         sm_set q (Rmax 1 (sqrt (Rabs s))) concentrationRisk)
    qualifiers [].

(** [rw * (amountUsd * sigma * hvr) * concentrationRisk[qualifier]] *)
Definition weightedSensitivity (rt : RiskType.t) (hvr : R)
    (concentrationRisk : smap R) (it : CrifRecord) : R :=
  weight cfg rt (qualifier it) (label1 it) calculationCcy
  * (amountUsd it * sigma cfg rt (qualifier it) (label1 it) calculationCcy * hvr)
  * sm_get (qualifier it) concentrationRisk.

(** The inner loop [for (itInner = pBucket.first; itInner != itOuter; ...)]:
    [earlier] are the records of the bucket before [itOuter]. *)
Definition marginCrossTerms (rt : RiskType.t) (hvr : R)
    (concentrationRisk : smap R) (itOuter : CrifRecord) (wsOuter : R)
    (earlier : list CrifRecord) (bucketMargin : R) : R :=
  fold_left
    (fun bm itInner =>
       if isCalcCcyFX rt (qualifier itInner) then bm
       else
         let corr :=
           correlation cfg rt (qualifier itOuter) (label1 itOuter) (label2 itOuter)
                       rt (qualifier itInner) (label1 itInner) (label2 itInner)
                       calculationCcy in
         let f :=
           Rmin (sm_get (qualifier itOuter) concentrationRisk)
                (sm_get (qualifier itInner) concentrationRisk)
           / Rmax (sm_get (qualifier itOuter) concentrationRisk)
                  (sm_get (qualifier itInner) concentrationRisk) in
         let wsInner := weightedSensitivity rt hvr concentrationRisk itInner in
         bm + 2 * corr * f * wsOuter * wsInner)
    earlier bucketMargin.

(** State of the loop over the records of one bucket:
    [sumWeightedSensis[bucket]], [bucketMargin[bucket]] and the result map
    [bucketMargins] (written per qualifier for the FX risk class). *)
Record BucketState : Type := mkBucketState {
  bsSumWs : R;
  bsMargin : R;
  bsBucketMargins : smap R
}.

Fixpoint marginBucketLoop (rt : RiskType.t) (hvr : R)
    (concentrationRisk : smap R) (earlier rest : list CrifRecord)
    (st : BucketState) : BucketState :=
  match rest with
  | [] => st
  | itOuter :: rest' =>
      if isCalcCcyFX rt (qualifier itOuter)
      then marginBucketLoop rt hvr concentrationRisk (earlier ++ [itOuter]) rest' st
      else
        let wsOuter := weightedSensitivity rt hvr concentrationRisk itOuter in
        let sumWs := bsSumWs st + wsOuter in
        let bm := bsMargin st + wsOuter * wsOuter in
        let bm := marginCrossTerms rt hvr concentrationRisk itOuter wsOuter earlier bm in
        let bms := if riskClassIsFX rt
                   then sm_add (qualifier itOuter) wsOuter (bsBucketMargins st)
                   else bsBucketMargins st in
        marginBucketLoop rt hvr concentrationRisk (earlier ++ [itOuter]) rest'
                         (mkBucketState sumWs bm bms)
  end.

(** State of the loop over the buckets: the maps [bucketMargin],
    [sumWeightedSensis] and [bucketMargins]. *)
Record MarginState : Type := mkMarginState {
  msBucketMargin : smap R;
  msSumWeightedSensis : smap R;
  msBucketMargins : smap R
}.

(** One turn of [for (const auto& kv : buckets)].  The keys of a map are
    met once each, so [bucketMargin[bucket]] is first touched in this turn
    and starts, as [sumWeightedSensis[bucket]] does, from [0.0]. *)
Definition marginBucketStep (nsd : NettingSetDetails) (pc : ProductClass.t)
    (rt : RiskType.t) (hvr : R) (netRecords : SimmNetSensitivities)
    (st : MarginState) (kv : string * sset) : MarginState :=
  let b := fst kv in
  let concentrationRisk := concentrationRiskOf nsd pc rt hvr b (snd kv) netRecords in
  let pBucket := bucketRange nsd pc rt b netRecords in
  let bs := marginBucketLoop rt hvr concentrationRisk [] pBucket
              (mkBucketState 0 0 (msBucketMargins st)) in
  mkMarginState
    (sm_set b (sqrt (Rmax (bsMargin bs) 0)) (msBucketMargin st))
    (sm_set b (bsSumWs bs) (msSumWeightedSensis st))
    (bsBucketMargins bs).

(** The cross-bucket aggregation: [earlier] are the entries of
    [bucketMargin] before [itOuter]. *)
Fixpoint marginAggregate (rt : RiskType.t) (buckets : smap sset)
    (sumWeightedSensis : smap R) (earlier rest : smap R) (margin : R) : R :=
  match rest with
  | [] => margin
  | (outerBucket, kOuter) :: rest' =>
      let margin := margin + kOuter * kOuter in
      let sOuter := clampS (sm_get outerBucket sumWeightedSensis) kOuter in
      let margin :=
        fold_left
          (fun m inner =>
             let innerBucket := fst inner in
             let sInner := clampS (sm_get innerBucket sumWeightedSensis) (snd inner) in
             let innerQualifier := ss_begin (sm_getset innerBucket buckets) in
             let outerQualifier := ss_begin (sm_getset outerBucket buckets) in
             let corr := correlation cfg rt outerQualifier "" "" rt innerQualifier "" ""
                                     calculationCcy in
             m + 2 * sOuter * sInner * corr)
          earlier margin in
      marginAggregate rt buckets sumWeightedSensis
                      (earlier ++ [(outerBucket, kOuter)]) rest' margin
  end.

(** The second half of [margin], from "If there is a Residual bucket
    entry store it separately" on: [st] holds the maps the loop over the
    buckets has filled. *)
Definition marginResult (rt : RiskType.t) (buckets : smap sset)
    (st : MarginState) : smap R :=
  let residualMargin :=
    if sm_mem "Residual" (msBucketMargin st)
    then sm_get "Residual" (msBucketMargin st) else 0 in
  let bucketMargin := sm_erase "Residual" (msBucketMargin st) in
  let m := marginAggregate rt buckets (msSumWeightedSensis st) [] bucketMargin 0 in
  let m := sqrt (Rmax m 0) in
  let m := m + residualMargin in
  let bucketMargins :=
    if negb (close_enough residualMargin 0)
    then sm_set "Residual" residualMargin (msBucketMargins st)
    else msBucketMargins st in
  let bucketMargins :=
    if negb (riskClassIsFX rt)
    then fold_left (fun bms kv => sm_set (fst kv) (snd kv) bms) bucketMargin bucketMargins
    else map (fun kv => (fst kv, Rabs (snd kv))) bucketMargins in
  sm_set "All" m bucketMargins.

Definition margin (nsd : NettingSetDetails) (pc : ProductClass.t)
    (rt : RiskType.t) (netRecords : SimmNetSensitivities) : smap R * bool :=
  let buckets := bucketsOf (riskTypeRange nsd pc rt netRecords) in
  match buckets with
  | [] => (sm_set "All" 0 [], false)
  | _ :: _ =>
      let hvr := historicalVolatilityRatio cfg rt in
      let st := fold_left (marginBucketStep nsd pc rt hvr netRecords) buckets
                          (mkMarginState [] [] []) in
      (marginResult rt buckets st, true)
  end.

(** *** SimmCalculator::irDeltaMargin *)

(** The maps [concentrationRisk], [deltaMargin] (or [vegaMargin],
    [curvatureMargin]) and [sumWeightedSensis], keyed by qualifier. *)
Record IrState : Type := mkIrState {
  irConcentrationRisk : smap R;
  irMargin : smap R;
  irSumWeightedSensis : smap R
}.

(** [rw * amountUsd * concentrationRisk[qualifier]], the risk weight read
    with the calculation currency [ccy] the call passes. *)
Definition irWeightedSensitivity (rt : RiskType.t) (q ccy : string) (cr : R)
    (it : CrifRecord) : R :=
  weight cfg rt q (label1 it) ccy * amountUsd it * cr.

(** The IRCurve against IRCurve loop of one qualifier; the pair is
    [(sumWeightedSensis[qualifier], deltaMargin[qualifier])]. *)
Fixpoint irDeltaCurveLoop (q : string) (cr : R) (earlier rest : list CrifRecord)
    (st : R * R) : R * R :=
  match rest with
  | [] => st
  | itOuter :: rest' =>
      let wsOuter := irWeightedSensitivity RiskType.IRCurve q "" cr itOuter in
      let sumWs := fst st + wsOuter in
      let dm := snd st + wsOuter * wsOuter in
      let dm :=
        fold_left
          (fun dm itInner =>
             let subCurveCorr :=
               correlation cfg RiskType.IRCurve q "" (label2 itOuter)
                           RiskType.IRCurve q "" (label2 itInner) "" in
             let tenorCorr :=
               correlation cfg RiskType.IRCurve q (label1 itOuter) ""
                           RiskType.IRCurve q (label1 itInner) "" "" in
             let wsInner := irWeightedSensitivity RiskType.IRCurve q "" cr itInner in
             dm + 2 * subCurveCorr * tenorCorr * wsOuter * wsInner)
          earlier dm in
      irDeltaCurveLoop q cr (earlier ++ [itOuter]) rest' (sumWs, dm)
  end.

(** [for (it = pIrQualifier.first; ...) deltaMargin += 2 * corr * ws * wsOther],
    the IRCurve weight read with calculation currency [ccy]. *)
Definition irDeltaCrossWith (q ccy : string) (cr corr wsOther : R)
    (pIrQualifier : list CrifRecord) (dm : R) : R :=
  fold_left
    (fun dm it =>
       let ws := irWeightedSensitivity RiskType.IRCurve q ccy cr it in
       dm + 2 * corr * ws * wsOther)
    pIrQualifier dm.

(** The concentration risk of a currency: IRCurve and Inflation amounts
    over the IRCurve threshold. *)
Definition irDeltaConcentrationRisk (q : string) (pIrQualifier : list CrifRecord)
    (itInflation : option CrifRecord) : R :=
  let c := fold_left (fun acc it => acc + amountUsd it) pIrQualifier 0 in
  let c := match itInflation with Some i => c + amountUsd i | None => c end in
  let c := c / concentrationThreshold cfg RiskType.IRCurve q in
  Rmax 1 (sqrt (Rabs c)).

(** The body of the loop over qualifiers, after the two count checks:
    [(concentrationRisk[q], sumWeightedSensis[q], deltaMargin[q])]. *)
Definition irDeltaQualifier (q : string) (pIrQualifier : list CrifRecord)
    (itXccy itInflation : option CrifRecord) : R * R * R :=
  let cr := irDeltaConcentrationRisk q pIrQualifier itInflation in
  let '(sumWs, dm) := irDeltaCurveLoop q cr [] pIrQualifier (0, 0) in
  let wsInflation :=
    match itInflation with
    | Some i => irWeightedSensitivity RiskType.Inflation q "" cr i
    | None => 0
    end in
  let '(sumWs, dm) :=
    match itInflation with
    | Some i =>
        let sumWs := sumWs + wsInflation in
        let dm := dm + wsInflation * wsInflation in
        let corr := correlation cfg RiskType.IRCurve q "" "" RiskType.Inflation q "" "" "" in
        (sumWs, irDeltaCrossWith q "" cr corr wsInflation pIrQualifier dm)
    | None => (sumWs, dm)
    end in
  let '(sumWs, dm) :=
    match itXccy with
    | Some x =>
        let wsXccy := weight cfg RiskType.XCcyBasis q (label1 x) "" * amountUsd x in
        let sumWs := sumWs + wsXccy in
        let dm := dm + wsXccy * wsXccy in
        let corr := correlation cfg RiskType.IRCurve q "" "" RiskType.XCcyBasis q "" "" "" in
        let dm := irDeltaCrossWith q calculationCcy cr corr wsXccy pIrQualifier dm in
        let dm :=
          match itInflation with
          | Some _ =>
              let corr := correlation cfg RiskType.Inflation q "" ""
                                      RiskType.XCcyBasis q "" "" "" in
              dm + 2 * corr * wsInflation * wsXccy
          | None => dm
          end in
        (sumWs, dm)
    | None => (sumWs, dm)
    end in
  (cr, sumWs, sqrt (Rmax dm 0)).

Definition irDeltaQualifierStep (nsd : NettingSetDetails) (pc : ProductClass.t)
    (netRecords : SimmNetSensitivities) (st : Result IrState) (q : string)
    : Result IrState :=
  do st <- st;
  let pIrQualifier := qualifierRange nsd pc RiskType.IRCurve q netRecords in
  let pXccy := qualifierRange nsd pc RiskType.XCcyBasis q netRecords in
  if negb (Nat.ltb (List.length pXccy) 2)
  then Error "SIMM Calcuator: Expected either 0 or 1 elements for risk type XCcyBasis"
  else
    let pInflation := qualifierRange nsd pc RiskType.Inflation q netRecords in
    if negb (Nat.ltb (List.length pInflation) 2)
    then Error "SIMM Calculator: Expected either 0 or 1 elements for risk type Inflation"
    else
      let '(cr, sumWs, k) :=
        irDeltaQualifier q pIrQualifier (hd_error pXccy) (hd_error pInflation) in
      OK (mkIrState (sm_set q cr (irConcentrationRisk st))
                    (sm_set q k (irMargin st))
                    (sm_set q sumWs (irSumWeightedSensis st))).

(** The aggregation across currencies, shared by the delta and vega
    margins; [ccy] is the calculation currency the correlation call
    passes. *)
Fixpoint irAggregate (rt : RiskType.t) (ccy : string) (st : IrState)
    (earlier rest : sset) (margin : R) : R :=
  match rest with
  | [] => margin
  | outer :: rest' =>
      let kOuter := sm_get outer (irMargin st) in
      let margin := margin + kOuter * kOuter in
      let sOuter := clampS (sm_get outer (irSumWeightedSensis st)) kOuter in
      let margin :=
        fold_left
          (fun m inner =>
             let kInner := sm_get inner (irMargin st) in
             let sInner := clampS (sm_get inner (irSumWeightedSensis st)) kInner in
             let g := Rmin (sm_get outer (irConcentrationRisk st))
                           (sm_get inner (irConcentrationRisk st))
                      / Rmax (sm_get outer (irConcentrationRisk st))
                             (sm_get inner (irConcentrationRisk st)) in
             let corr := correlation cfg rt outer "" "" rt inner "" "" ccy in
             m + 2 * sOuter * sInner * corr * g)
          earlier margin in
      irAggregate rt ccy st (earlier ++ [outer]) rest' margin
  end.

(** [for (const auto& m : margins) bucketMargins[m.first] = m.second;] *)
Definition copyInto (margins bucketMargins : smap R) : smap R :=
  fold_left (fun bms kv => sm_set (fst kv) (snd kv) bms) margins bucketMargins.

Definition irDeltaMargin (nsd : NettingSetDetails) (pc : ProductClass.t)
    (netRecords : SimmNetSensitivities) : Result (smap R * bool) :=
  let qualifiers := qualifiersOf (riskTypeRange nsd pc RiskType.IRCurve netRecords) [] in
  let qualifiers := qualifiersOf (riskTypeRange nsd pc RiskType.XCcyBasis netRecords) qualifiers in
  let qualifiers := qualifiersOf (riskTypeRange nsd pc RiskType.Inflation netRecords) qualifiers in
  match qualifiers with
  | [] => OK (sm_set "All" 0 [], false)
  | _ :: _ =>
      do st <- fold_left (irDeltaQualifierStep nsd pc netRecords) qualifiers
                         (OK (mkIrState [] [] []));
      let m := irAggregate RiskType.IRCurve "" st [] qualifiers 0 in
      let m := sqrt (Rmax m 0) in
      OK (sm_set "All" m (copyInto (irMargin st) []), true)
  end.


(** *** SimmCalculator::irVegaMargin *)

(** The IRVol against IRVol loop of one qualifier. *)
Fixpoint irVegaVolLoop (q : string) (cr : R) (earlier rest : list CrifRecord)
    (st : R * R) : R * R :=
  match rest with
  | [] => st
  | itOuter :: rest' =>
      let wsOuter := irWeightedSensitivity RiskType.IRVol q "" cr itOuter in
      let sumWs := fst st + wsOuter in
      let vm := snd st + wsOuter * wsOuter in
      let vm :=
        fold_left
          (fun vm itInner =>
             let corr := correlation cfg RiskType.IRVol q (label1 itOuter) ""
                                     RiskType.IRVol q (label1 itInner) "" "" in
             let wsInner := irWeightedSensitivity RiskType.IRVol q "" cr itInner in
             vm + 2 * corr * wsOuter * wsInner)
          earlier vm in
      irVegaVolLoop q cr (earlier ++ [itOuter]) rest' (sumWs, vm)
  end.

(** The InflationVol loop of one qualifier: against every IRVol record,
    then against the InflationVol records before [itOuter]. *)
Fixpoint irVegaInflationLoop (q : string) (cr : R) (pIrQualifier : list CrifRecord)
    (earlier rest : list CrifRecord) (st : R * R) : R * R :=
  match rest with
  | [] => st
  | itOuter :: rest' =>
      let wsOuter := irWeightedSensitivity RiskType.InflationVol q "" cr itOuter in
      let sumWs := fst st + wsOuter in
      let vm := snd st + wsOuter * wsOuter in
      let vm :=
        fold_left
          (fun vm itInner =>
             let corr := correlation cfg RiskType.InflationVol q (label1 itOuter) ""
                                     RiskType.IRVol q (label1 itInner) "" "" in
             let wsInner := irWeightedSensitivity RiskType.IRVol q "" cr itInner in
             vm + 2 * corr * wsOuter * wsInner)
          pIrQualifier vm in
      let vm :=
        fold_left
          (fun vm itInner =>
             let corr := correlation cfg RiskType.InflationVol q (label1 itOuter) ""
                                     RiskType.InflationVol q (label1 itInner) "" "" in
             let wsInner := irWeightedSensitivity RiskType.InflationVol q "" cr itInner in
             vm + 2 * corr * wsOuter * wsInner)
          earlier vm in
      irVegaInflationLoop q cr pIrQualifier (earlier ++ [itOuter]) rest' (sumWs, vm)
  end.

Definition irVegaConcentrationRisk (q : string)
    (pIrQualifier pInfQualifier : list CrifRecord) : R :=
  let c := fold_left (fun acc it => acc + amountUsd it) pIrQualifier 0 in
  let c := fold_left (fun acc it => acc + amountUsd it) pInfQualifier c in
  let c := c / concentrationThreshold cfg RiskType.IRVol q in
  Rmax 1 (sqrt (Rabs c)).

Definition irVegaQualifierStep (nsd : NettingSetDetails) (pc : ProductClass.t)
    (netRecords : SimmNetSensitivities) (st : IrState) (q : string) : IrState :=
  let pIrQualifier := qualifierRange nsd pc RiskType.IRVol q netRecords in
  let pInfQualifier := qualifierRange nsd pc RiskType.InflationVol q netRecords in
  let cr := irVegaConcentrationRisk q pIrQualifier pInfQualifier in
  let acc := irVegaVolLoop q cr [] pIrQualifier (0, 0) in
  let acc := irVegaInflationLoop q cr pIrQualifier [] pInfQualifier acc in
  mkIrState (sm_set q cr (irConcentrationRisk st))
            (sm_set q (sqrt (Rmax (snd acc) 0)) (irMargin st))
            (sm_set q (fst acc) (irSumWeightedSensis st)).

Definition irVegaMargin (nsd : NettingSetDetails) (pc : ProductClass.t)
    (netRecords : SimmNetSensitivities) : smap R * bool :=
  let qualifiers := qualifiersOf (riskTypeRange nsd pc RiskType.IRVol netRecords) [] in
  let qualifiers := qualifiersOf (riskTypeRange nsd pc RiskType.InflationVol netRecords) qualifiers in
  match qualifiers with
  | [] => (sm_set "All" 0 [], false)
  | _ :: _ =>
      let st := fold_left (irVegaQualifierStep nsd pc netRecords) qualifiers
                          (mkIrState [] [] []) in
      let m := irAggregate RiskType.IRVol calculationCcy st [] qualifiers 0 in
      let m := sqrt (Rmax m 0) in
      (sm_set "All" m (copyInto (irMargin st) []), true)
  end.

(** *** SimmCalculator::irCurvatureMargin *)

(** [side == SimmSide::Call ? 1.0 : -1.0] *)
Definition sideMultiplier (side : SimmSide.t) : R :=
  match side with SimmSide.Call => 1 | SimmSide.Post => -1 end.

(** [sf * (amountUsd * multiplier)] *)
Definition irCurvatureSensitivity (rt : RiskType.t) (multiplier : R)
    (it : CrifRecord) : R :=
  curvatureWeight cfg rt (label1 it) * (amountUsd it * multiplier).

(** State of the loop over qualifiers: the maps [curvatureMargin] and
    [sumWeightedSensis], and the running [sumWs] and [sumAbsWs]. *)
Record IrCurvatureState : Type := mkIrCurvatureState {
  icMargin : smap R;
  icSumWeightedSensis : smap R;
  icSumWs : R;
  icSumAbsWs : R
}.

(** The IRVol against IRVol loop of one qualifier; [cm] is
    [curvatureMargin[qualifier]]. *)
Fixpoint irCurvatureVolLoop (q : string) (multiplier : R)
    (earlier rest : list CrifRecord) (st : IrCurvatureState) (cm : R)
    : IrCurvatureState * R :=
  match rest with
  | [] => (st, cm)
  | itOuter :: rest' =>
      let wsOuter := irCurvatureSensitivity RiskType.IRVol multiplier itOuter in
      let st := mkIrCurvatureState (icMargin st)
                  (sm_add q wsOuter (icSumWeightedSensis st))
                  (icSumWs st + wsOuter) (icSumAbsWs st + Rabs wsOuter) in
      let cm := cm + wsOuter * wsOuter in
      let cm :=
        fold_left
          (fun cm itInner =>
             let corr := correlation cfg RiskType.IRVol q (label1 itOuter) ""
                                     RiskType.IRVol q (label1 itInner) "" "" in
             let wsInner := irCurvatureSensitivity RiskType.IRVol multiplier itInner in
             cm + 2 * corr * corr * wsOuter * wsInner)
          earlier cm in
      irCurvatureVolLoop q multiplier (earlier ++ [itOuter]) rest' st cm
  end.

(** One turn of the loop over [qualifiers]; [curvatureMargin[qualifier]]
    is first touched here and starts from [0.0], while the entry of
    [sumWeightedSensis] exists only once a loop below has written it. *)
Definition irCurvatureQualifierStep (nsd : NettingSetDetails) (pc : ProductClass.t)
    (multiplier : R) (netRecords : SimmNetSensitivities)
    (st : IrCurvatureState) (q : string) : IrCurvatureState :=
  let pIrQualifier := qualifierRange nsd pc RiskType.IRVol q netRecords in
  let pInfQualifier := qualifierRange nsd pc RiskType.InflationVol q netRecords in
  let '(st, cm) := irCurvatureVolLoop q multiplier [] pIrQualifier st 0 in
  let '(st, cm) :=
    if SimmVersion.gtb (version cfg) SimmVersion.V1_0 then
      let infWs :=
        fold_left
          (fun acc infIt =>
             acc + irCurvatureSensitivity RiskType.InflationVol multiplier infIt)
          pInfQualifier 0 in
      let st := mkIrCurvatureState (icMargin st)
                  (sm_add q infWs (icSumWeightedSensis st))
                  (icSumWs st + infWs) (icSumAbsWs st + Rabs infWs) in
      let cm := cm + infWs * infWs in
      let cm :=
        fold_left
          (fun cm irIt =>
             let corr := correlation cfg RiskType.InflationVol q "" ""
                                     RiskType.IRVol q (label1 irIt) "" "" in
             let irWs := irCurvatureSensitivity RiskType.IRVol multiplier irIt in
             cm + 2 * corr * corr * infWs * irWs)
          pIrQualifier cm in
      (st, cm)
    else (st, cm) in
  mkIrCurvatureState (sm_set q (sqrt (Rmax cm 0)) (icMargin st))
                     (icSumWeightedSensis st) (icSumWs st) (icSumAbsWs st).

(** [m.at(k)] *)
Definition sm_at (k : string) (m : smap R) : Result R :=
  match sm_find k m with
  | Some v => OK v
  | None => Error "map::at"
  end.

(** The aggregation across currencies of the curvature margin. *)
Fixpoint irCurvatureAggregate (st : IrCurvatureState) (earlier rest : sset)
    (margin : R) : Result R :=
  match rest with
  | [] => OK margin
  | outer :: rest' =>
      do kOuter <- sm_at outer (icMargin st);
      let margin := margin + kOuter * kOuter in
      do sumOuter <- sm_at outer (icSumWeightedSensis st);
      let sOuter := clampS sumOuter kOuter in
      do margin <-
        fold_left
          (fun m inner =>
             do m <- m;
             do sumInner <- sm_at inner (icSumWeightedSensis st);
             do kInner <- sm_at inner (icMargin st);
             let sInner := clampS sumInner kInner in
             let corr := correlation cfg RiskType.IRVol outer "" ""
                                     RiskType.IRVol inner "" "" "" in
             OK (m + 2 * sOuter * sInner * corr * corr))
          earlier (OK margin);
      irCurvatureAggregate st (earlier ++ [outer]) rest' margin
  end.

Definition irCurvatureMargin (nsd : NettingSetDetails) (pc : ProductClass.t)
    (side : SimmSide.t) (netRecords : SimmNetSensitivities)
    : Result (smap R * bool) :=
  let multiplier := sideMultiplier side in
  let qualifiers := qualifiersOf (riskTypeRange nsd pc RiskType.IRVol netRecords) [] in
  let qualifiers := qualifiersOf (riskTypeRange nsd pc RiskType.InflationVol netRecords) qualifiers in
  match qualifiers with
  | [] => OK (sm_set "All" 0 [], false)
  | _ :: _ =>
      let st := fold_left (irCurvatureQualifierStep nsd pc multiplier netRecords)
                          qualifiers (mkIrCurvatureState [] [] 0 0) in
      if close_enough (icSumAbsWs st) 0
      then OK (sm_set "All" 0 [], true)
      else
        let theta := Rmin (icSumWs st / icSumAbsWs st) 0 in
        do m <- irCurvatureAggregate st [] qualifiers 0;
        let m := icSumWs st + lambda theta * sqrt (Rmax m 0) in
        let bucketMargins := copyInto (icMargin st) [] in
        let scaling := curvatureMarginScaling cfg in
        let totalCurvatureMargin := scaling * Rmax m 0 in
        OK (sm_set "All" totalCurvatureMargin bucketMargins, true)
  end.


(** *** SimmCalculator::curvatureMargin (all but Interest Rate) *)

(** [sf * ((amountUsd * multiplier) * sigma)] *)
Definition curvatureSensitivity (rt : RiskType.t) (multiplier : R)
    (it : CrifRecord) : R :=
  curvatureWeight cfg rt (label1 it)
  * ((amountUsd it * multiplier)
     * sigma cfg rt (qualifier it) (label1 it) calculationCcy).

(** [version >= V2_2 && bucket == "12" && rt == RiskType::EquityVol] *)
Definition isZeroedEquityBucket (rt : RiskType.t) (b : string) : bool :=
  SimmVersion.geb (version cfg) SimmVersion.V2_2
  && String.eqb b "12" && RiskType.eqb rt RiskType.EquityVol.

(** State of the loop over the records of one bucket:
    [sumWeightedSensis[bucket]], [sumAbsTemp[bucket]],
    [curvatureMargin[bucket]] and the result map [bucketMargins]. *)
Record CurvatureBucketState : Type := mkCurvatureBucketState {
  cbSumWs : R;
  cbSumAbsTemp : smap R;
  cbMargin : R;
  cbBucketMargins : smap R
}.

Fixpoint curvatureBucketLoop (rt : RiskType.t) (multiplier : R) (rfLabels : bool)
    (b : string) (earlier rest : list CrifRecord) (st : CurvatureBucketState)
    : CurvatureBucketState :=
  match rest with
  | [] => st
  | itOuter :: rest' =>
      let wsOuter := curvatureSensitivity rt multiplier itOuter in
      let wsOuter := if isZeroedEquityBucket rt b then 0 else wsOuter in
      let sumWs := cbSumWs st + wsOuter in
      let absTemp := sm_add (qualifier itOuter)
                            (if rfLabels then Rabs wsOuter else wsOuter)
                            (cbSumAbsTemp st) in
      let cm := cbMargin st + wsOuter * wsOuter in
      let cm :=
        fold_left
          (fun cm itInner =>
             let corr :=
               correlation cfg rt (qualifier itOuter) (label1 itOuter) (label2 itOuter)
                           rt (qualifier itInner) (label1 itInner) (label2 itInner)
                           calculationCcy in
             let wsInner := curvatureSensitivity rt multiplier itInner in
             cm + 2 * corr * corr * wsOuter * wsInner)
          earlier cm in
      let bms := if riskClassIsFX rt
                 then sm_add (qualifier itOuter) wsOuter (cbBucketMargins st)
                 else cbBucketMargins st in
      curvatureBucketLoop rt multiplier rfLabels b (earlier ++ [itOuter]) rest'
                          (mkCurvatureBucketState sumWs absTemp cm bms)
  end.

(** State of the loop over the buckets: the maps [curvatureMargin],
    [sumWeightedSensis], [sumAbsWeightedSensis] and [bucketMargins]. *)
Record CurvatureState : Type := mkCurvatureState {
  csMargin : smap R;
  csSumWeightedSensis : smap R;
  csSumAbsWeightedSensis : smap R;
  csBucketMargins : smap R
}.

(** One turn of the loop over [buckets]; the entries of the bucket in
    the three maps are first touched here and start from [0.0]. *)
Definition curvatureBucketStep (nsd : NettingSetDetails) (pc : ProductClass.t)
    (rt : RiskType.t) (multiplier : R) (rfLabels : bool)
    (netRecords : SimmNetSensitivities) (st : CurvatureState)
    (kv : string * sset) : CurvatureState :=
  let b := fst kv in
  let pBucket := bucketRange nsd pc rt b netRecords in
  let bs := curvatureBucketLoop rt multiplier rfLabels b [] pBucket
              (mkCurvatureBucketState 0 [] 0 (csBucketMargins st)) in
  let bucketCurvatureMargin := sqrt (Rmax (cbMargin bs) 0) in
  let sumAbs :=
    fold_left (fun acc kv => acc + Rabs (snd kv)) (cbSumAbsTemp bs) 0 in
  mkCurvatureState
    (sm_set b bucketCurvatureMargin (csMargin st))
    (sm_set b (cbSumWs bs) (csSumWeightedSensis st))
    (sm_set b sumAbs (csSumAbsWeightedSensis st))
    (cbBucketMargins bs).

(** The cross-bucket aggregation of the curvature margin. *)
Fixpoint curvatureAggregate (rt : RiskType.t) (buckets : smap sset)
    (sumWeightedSensis : smap R) (earlier rest : smap R) (margin : R) : R :=
  match rest with
  | [] => margin
  | (outerBucket, kOuter) :: rest' =>
      let margin := margin + kOuter * kOuter in
      let sOuter := clampS (sm_get outerBucket sumWeightedSensis) kOuter in
      let margin :=
        fold_left
          (fun m inner =>
             let innerBucket := fst inner in
             let sInner := clampS (sm_get innerBucket sumWeightedSensis) (snd inner) in
             let innerQualifier := ss_begin (sm_getset innerBucket buckets) in
             let outerQualifier := ss_begin (sm_getset outerBucket buckets) in
             let corr := correlation cfg rt outerQualifier "" "" rt innerQualifier "" ""
                                     calculationCcy in
             m + 2 * sOuter * sInner * corr * corr)
          earlier margin in
      curvatureAggregate rt buckets sumWeightedSensis
                         (earlier ++ [(outerBucket, kOuter)]) rest' margin
  end.

(** [accumulate(m.begin(), m.end(), 0.0, acc)] *)
Definition accumulate (m : smap R) : R :=
  fold_left (fun p kv => p + snd kv) m 0.

(** The margin over the non-residual buckets, before the residual part is
    added. *)
Definition curvatureNonResidual (rt : RiskType.t) (buckets : smap sset)
    (curvatureMargin sumWeightedSensis sumAbsWeightedSensis : smap R) : R :=
  let sumSensis := accumulate sumWeightedSensis in
  let sumAbsSensis := accumulate sumAbsWeightedSensis in
  if negb (close_enough sumAbsSensis 0) then
    let theta := Rmin (sumSensis / sumAbsSensis) 0 in
    let m := curvatureAggregate rt buckets sumWeightedSensis [] curvatureMargin 0 in
    Rmax (sumSensis + lambda theta * sqrt (Rmax m 0)) 0
  else 0.

Definition curvatureMargin (nsd : NettingSetDetails) (pc : ProductClass.t)
    (rt : RiskType.t) (side : SimmSide.t) (netRecords : SimmNetSensitivities)
    (rfLabels : bool) : smap R * bool :=
  let multiplier := sideMultiplier side in
  let buckets := bucketsOf (riskTypeRange nsd pc rt netRecords) in
  match buckets with
  | [] => (sm_set "All" 0 [], false)
  | _ :: _ =>
      let st := fold_left (curvatureBucketStep nsd pc rt multiplier rfLabels netRecords)
                          buckets (mkCurvatureState [] [] [] []) in
      let hasResidual := sm_mem "Residual" (csMargin st) in
      let residualMargin := if hasResidual then sm_get "Residual" (csMargin st) else 0 in
      let residualSum :=
        if hasResidual then sm_get "Residual" (csSumWeightedSensis st) else 0 in
      let residualAbsSum :=
        if hasResidual then sm_get "Residual" (csSumAbsWeightedSensis st) else 0 in
      let curvMargin := sm_erase "Residual" (csMargin st) in
      let sumWeightedSensis := sm_erase "Residual" (csSumWeightedSensis st) in
      let sumAbsWeightedSensis := sm_erase "Residual" (csSumAbsWeightedSensis st) in
      let m := curvatureNonResidual rt buckets curvMargin sumWeightedSensis
                                    sumAbsWeightedSensis in
      let '(curvMargin, m) :=
        if negb (close_enough residualAbsSum 0) then
          let theta := Rmin (residualSum / residualAbsSum) 0 in
          let r := Rmax (residualSum + lambda theta * residualMargin) 0 in
          (sm_set "Residual" r curvMargin, m + r)
        else (curvMargin, m) in
      let bucketMargins :=
        if negb (riskClassIsFX rt)
        then copyInto curvMargin (csBucketMargins st)
        else map (fun kv => (fst kv, Rabs (snd kv))) (csBucketMargins st) in
      (sm_set "All" m bucketMargins, true)
  end.

End MarginCalculators.

(* ================================================================= *)
(** ** SimmResults and the additional margin *)

Definition ResultKey : Type :=
  (ProductClass.t * RiskClass.t * MarginType.t * string)%type.

Definition resultKey_eqb (a b : ResultKey) : bool :=
  let '(pa, ra, ma, ba) := a in
  let '(pb, rb, mb, bb) := b in
  ProductClass.eqb pa pb && RiskClass.eqb ra rb && MarginType.eqb ma mb
  && String.eqb ba bb.

(** Modelled from the spec: the class SimmResults (orea/simm/simmresults.hpp
    is not part of the sources read here), "a sparse 4-level table keyed by
    (ProductClass, RiskClass, MarginType, Bucket) -> margin amount" that
    "supports get/has/add" and "never allows silent overwrite unless
    explicitly requested". *)
Definition SimmResults : Type := list (ResultKey * R).

Fixpoint results_find (k : ResultKey) (res : SimmResults) : option R :=
  match res with
  | [] => None
  | (k', v) :: res' => if resultKey_eqb k k' then Some v else results_find k res'
  end.

(** Modelled from the spec: SimmResults::has. *)
Definition results_has (res : SimmResults) (k : ResultKey) : bool :=
  match results_find k res with Some _ => true | None => false end.

(** Modelled from the spec: SimmResults::get, the amount held under the
    key; the calculator reads a key after [has], or the overall key that
    [populateResults] always writes. *)
Definition results_get (res : SimmResults) (k : ResultKey) : R :=
  match results_find k res with Some v => v | None => 0 end.

Fixpoint results_update (k : ResultKey) (f : option R -> R) (res : SimmResults)
    : SimmResults :=
  match res with
  | [] => [(k, f None)]
  | (k', v) :: res' =>
      if resultKey_eqb k k' then (k', f (Some v)) :: res'
      else (k', v) :: results_update k f res'
  end.

(** Modelled from the spec: SimmResults::add; without [overwrite] an
    amount is added to the one already held. *)
Definition results_add (res : SimmResults) (k : ResultKey) (im : R)
    (overwrite : bool) : SimmResults :=
  results_update k
    (fun old => match old with
                | Some v => if overwrite then im else v + im
                | None => im
                end)
    res.

Definition keyAll : ResultKey :=
  (ProductClass.All, RiskClass.All, MarginType.All, "All").

Section AdditionalMargin.

(** [parseSimmProductClass] (orea/simm/simmconfiguration.hpp), which
    throws on a string that names no product class. *)
Variable parseSimmProductClass : string -> Result ProductClass.t.

(** The four [add] calls each component of the additional margin makes:
    the product class's AdditionalIM, its total, the AdditionalIM over all
    product classes and the portfolio total. *)
Definition addAdditionalMargin (results : SimmResults) (pc : ProductClass.t)
    (m : R) : SimmResults :=
  let overwrite := false in
  let results := results_add results
                   (pc, RiskClass.All, MarginType.AdditionalIM, "All") m overwrite in
  let results := results_add results
                   (pc, RiskClass.All, MarginType.All, "All") m overwrite in
  let results := results_add results
                   (ProductClass.All, RiskClass.All, MarginType.AdditionalIM, "All")
                   m overwrite in
  results_add results keyAll m overwrite.

(** First loop: "ProductClassMultiplier". *)
Definition productClassMultiplierStep (results : Result SimmResults)
    (it : CrifRecord) : Result SimmResults :=
  do results <- results;
  do qpc <- parseSimmProductClass (qualifier it);
  if results_has results (qpc, RiskClass.All, MarginType.All, "All") then
    let im := results_get results (qpc, RiskClass.All, MarginType.All, "All") in
    let factor := amount it in
    if Rle_dec 0 factor then
      let pcmMargin := (factor - 1) * im in
      OK (addAdditionalMargin results qpc pcmMargin)
    else Error "SIMM Calculator: Amount for risk type ProductClassMultiplier must be greater than or equal to 0"
  else OK results.

(** Second loop: "AddOnFixedAmount". *)
Definition addOnFixedAmountStep (results : SimmResults) (it : CrifRecord)
    : SimmResults :=
  let fixedMargin := amountUsd it in
  addAdditionalMargin results ProductClass.AddOnFixedAmount fixedMargin.

(** The "Notional" records of the same qualifier. *)
Definition notionalRange (nsd : NettingSetDetails)
    (netRecords : SimmNetSensitivities) (it : CrifRecord) : list CrifRecord :=
  qualifierRange nsd ProductClass.Empty RiskType.Notional (qualifier it) netRecords.

(** Third loop: "AddOnNotionalFactor" against "Notional". *)
Definition addOnNotionalFactorStep (nsd : NettingSetDetails)
    (netRecords : SimmNetSensitivities) (results : Result SimmResults)
    (it : CrifRecord) : Result SimmResults :=
  do results <- results;
  let pQualifierIt := notionalRange nsd netRecords it in
  let count := List.length pQualifierIt in
  if negb (Nat.ltb count 2)
  then Error "Expected either 0 or 1 elements for risk type Notional"
  else
    match pQualifierIt with
    | [n] =>
        let notional := amountUsd n in
        let factor := amount it in
        let notionalFactorMargin := notional * factor / 100 in
        OK (addAdditionalMargin results ProductClass.AddOnNotionalFactor
                                notionalFactorMargin)
    | _ => OK results
    end.

Definition addOnNotionalFactorLoop (nsd : NettingSetDetails)
    (netRecords : SimmNetSensitivities) (results : SimmResults)
    : Result SimmResults :=
  fold_left (addOnNotionalFactorStep nsd netRecords)
    (riskTypeRange nsd ProductClass.Empty RiskType.AddOnNotionalFactor netRecords)
    (OK results).

(** [SimmCalculator::calcAddMargin] on the results of one side, netting
    set and regulation. *)
Definition calcAddMargin (nsd : NettingSetDetails)
    (netRecords : SimmNetSensitivities) (results : SimmResults)
    : Result SimmResults :=
  let pc := ProductClass.Empty in
  do results <-
    fold_left productClassMultiplierStep
      (riskTypeRange nsd pc RiskType.ProductClassMultiplier netRecords)
      (OK results);
  let results :=
    fold_left addOnFixedAmountStep
      (riskTypeRange nsd pc RiskType.AddOnFixedAmount netRecords) results in
  addOnNotionalFactorLoop nsd netRecords results.

End AdditionalMargin.

(* ================================================================= *)
(** ** Splitting the records by regulation *)

(** Modelled from the spec: the equality of two CRIF records that
    [SimmNetSensitivities::find] and the netting of [CrifLoader::add] go by
    (orea/simm/crifrecord.hpp and crifloader.hpp are not part of the sources
    read here).  Records are equal when their identifying attributes are;
    the amounts are what netting sums, and the "comparison excludes
    currency-of-amount field" unless [withAmountCcy] asks for it. *)
Definition crifRecordEqb (withAmountCcy : bool) (a b : CrifRecord) : bool :=
  String.eqb (tradeId a) (tradeId b)
  && String.eqb (nettingSetDetails a) (nettingSetDetails b)
  && ProductClass.eqb (productClass a) (productClass b)
  && RiskType.eqb (riskType a) (riskType b)
  && String.eqb (qualifier a) (qualifier b)
  && String.eqb (bucket a) (bucket b)
  && String.eqb (label1 a) (label1 b)
  && String.eqb (label2 a) (label2 b)
  && String.eqb (imModel a) (imModel b)
  && String.eqb (collectRegulations a) (collectRegulations b)
  && String.eqb (postRegulations a) (postRegulations b)
  && (negb withAmountCcy || String.eqb (amountCurrency a) (amountCurrency b)).

(** Modelled from the spec: a [CrifLoader], the "net-sensitivity
    container" of one side, netting set and regulation, as the list of its
    net records. *)
Definition CrifLoader : Type := list CrifRecord.

Definition netAmounts (cr r : CrifRecord) : CrifRecord :=
  mkCrifRecord (tradeId r) (nettingSetDetails r) (productClass r) (riskType r)
               (qualifier r) (bucket r) (label1 r) (label2 r) (amountCurrency r)
               (amount r + amount cr) (amountUsd r + amountUsd cr)
               (imModel r) (collectRegulations r) (postRegulations r).

(** Modelled from the spec: [CrifLoader::add(cr, onDiffAmountCcy)]: [cr] is
    net-summed into the record equal to it, or inserted when there is none. *)
Definition loader_add (onDiffAmountCcy : bool) (cr : CrifRecord)
    (loader : CrifLoader) : CrifLoader :=
  if existsb (crifRecordEqb (negb onDiffAmountCcy) cr) loader
  then map (fun r => if crifRecordEqb (negb onDiffAmountCcy) cr r
                     then netAmounts cr r else r) loader
  else loader ++ [cr].

(** Modelled from the spec: [netRecords.find(cr) != netRecords.end()], with
    the comparison that leaves the amount currency out. *)
Definition netRecords_has (netRecords : SimmNetSensitivities) (cr : CrifRecord)
    : bool :=
  existsb (crifRecordEqb false cr) netRecords.

(** [regSensitivities_[side]]: netting set, then regulation, to loader. *)
Definition RegSensitivities : Type := smap (smap CrifLoader).

Record SplitState : Type := mkSplitState {
  collectRegsIsEmpty_ : smap bool;
  postRegsIsEmpty_ : smap bool;
  regSensitivitiesCall : RegSensitivities;
  regSensitivitiesPost : RegSensitivities
}.

Definition regSensitivities_ (st : SplitState) (side : SimmSide.t)
    : RegSensitivities :=
  match side with
  | SimmSide.Call => regSensitivitiesCall st
  | SimmSide.Post => regSensitivitiesPost st
  end.

Definition setRegSensitivities (st : SplitState) (side : SimmSide.t)
    (rs : RegSensitivities) : SplitState :=
  match side with
  | SimmSide.Call =>
      mkSplitState (collectRegsIsEmpty_ st) (postRegsIsEmpty_ st) rs
                   (regSensitivitiesPost st)
  | SimmSide.Post =>
      mkSplitState (collectRegsIsEmpty_ st) (postRegsIsEmpty_ st)
                   (regSensitivitiesCall st) rs
  end.

(** [s.empty()] *)
Definition str_empty (s : string) : bool := String.eqb s "".

(** The update of [collectRegsIsEmpty_] (or [postRegsIsEmpty_]) for one
    record with regulation string [regs]. *)
Definition trackRegsIsEmpty (nsd : NettingSetDetails) (regs : string)
    (isEmpty : smap bool) : smap bool :=
  match sm_find nsd isEmpty with
  | None => sm_set nsd (str_empty regs) isEmpty
  | Some b => if b && negb (str_empty regs) then sm_set nsd false isEmpty
              else isEmpty
  end.

(** The first loop of the constructor: Schedule records are left out, the
    others update the two maps and go to [tmp]. *)
Definition scheduleFilterStep (st : smap bool * smap bool * SimmNetSensitivities)
    (cr : CrifRecord) : smap bool * smap bool * SimmNetSensitivities :=
  let '(collectIsEmpty, postIsEmpty, tmp) := st in
  if String.eqb (imModel cr) "Schedule" then st
  else
    (trackRegsIsEmpty (nettingSetDetails cr) (collectRegulations cr) collectIsEmpty,
     trackRegsIsEmpty (nettingSetDetails cr) (postRegulations cr) postIsEmpty,
     tmp ++ [cr]).

Definition clearRegulations (cr : CrifRecord) : CrifRecord :=
  mkCrifRecord (tradeId cr) (nettingSetDetails cr) (productClass cr) (riskType cr)
               (qualifier cr) (bucket cr) (label1 cr) (label2 cr) (amountCurrency cr)
               (amount cr) (amountUsd cr) (imModel cr) "" "".

Section RegulationSplitter.

(** [parseRegulationString] (orea/simm/utilities.hpp): the set of
    regulation tags a regulation string lists. *)
Variable parseRegulationString : string -> sset.

Variable enforceIMRegulations : bool.

(** The test of [addCrifRecord] that leaves a tag out. *)
Definition dropsRegulation (collectRegsIsEmpty postRegsIsEmpty : bool)
    (r : string) : bool :=
  String.eqb r "Excluded"
  || (String.eqb r "Unspecified" && enforceIMRegulations
      && negb (collectRegsIsEmpty && postRegsIsEmpty)).

Definition regsIsEmptyOf (nsd : NettingSetDetails) (isEmpty : smap bool) : bool :=
  match sm_find nsd isEmpty with Some b => b | None => false end.

(** The regulation string [addCrifRecord] parses. *)
Definition regsStringOf (side : SimmSide.t) (crifRecord : CrifRecord) : string :=
  if enforceIMRegulations
  then match side with
       | SimmSide.Call => collectRegulations crifRecord
       | SimmSide.Post => postRegulations crifRecord
       end
  else "".

(** [regSensitivities_[side][nsd][r]->add(newCrifRecord, true)], the
    loader made on first use. *)
Definition addToRegulation (nsd : NettingSetDetails) (r : string)
    (newCrifRecord : CrifRecord) (rs : RegSensitivities) : RegSensitivities :=
  let byReg := match sm_find nsd rs with Some m => m | None => [] end in
  let loader := match sm_find r byReg with Some l => l | None => [] end in
  let onDiffAmountCcy := true in
  sm_set nsd (sm_set r (loader_add onDiffAmountCcy newCrifRecord loader) byReg) rs.

(** [SimmCalculator::addCrifRecord] *)
Definition addCrifRecord (st : SplitState) (crifRecord : CrifRecord)
    (side : SimmSide.t) : SplitState :=
  let nsd := nettingSetDetails crifRecord in
  let collectRegsIsEmpty := regsIsEmptyOf nsd (collectRegsIsEmpty_ st) in
  let postRegsIsEmpty := regsIsEmptyOf nsd (postRegsIsEmpty_ st) in
  let regs := parseRegulationString (regsStringOf side crifRecord) in
  let newCrifRecord := clearRegulations crifRecord in
  fold_left
    (fun st r =>
       if dropsRegulation collectRegsIsEmpty postRegsIsEmpty r then st
       else if negb (String.eqb r "Excluded")
       then setRegSensitivities st side
              (addToRegulation nsd r newCrifRecord (regSensitivities_ st side))
       else st)
    regs st.

(** The body of the loop over the net CFTC records: a record with no
    equal record among [netRecordsSEC] is added to the SEC loader. *)
Definition mergeStep (netRecordsSEC : SimmNetSensitivities)
    (regs : smap CrifLoader) (cr : CrifRecord) : smap CrifLoader :=
  if negb (netRecords_has netRecordsSEC cr)
  then
    match sm_find "SEC" regs with
    | Some sec => sm_set "SEC" (loader_add false cr sec) regs
    | None => regs
    end
  else regs.

(** "Where there is SEC and CFTC in the portfolio, we add the CFTC trades
    to SEC, but still continue with CFTC calculations". *)
Definition mergeCFTCIntoSEC (regs : smap CrifLoader) : smap CrifLoader :=
  match sm_find "CFTC" regs, sm_find "SEC" regs with
  | Some netRecordsCFTC, Some netRecordsSEC =>
      fold_left (mergeStep netRecordsSEC) netRecordsCFTC regs
  | _, _ => regs
  end.

(** [if (s.second.count("Unspecified") > 0 && s.second.size() > 1)
       s.second.erase("Unspecified")] *)
Definition dropUnspecified (regs : smap CrifLoader) : smap CrifLoader :=
  if sm_mem "Unspecified" regs && Nat.ltb 1 (List.length regs)
  then sm_erase "Unspecified" regs
  else regs.

Definition postProcessRegulations (regs : smap CrifLoader) : smap CrifLoader :=
  dropUnspecified (mergeCFTCIntoSEC regs).

Definition postProcessSide (rs : RegSensitivities) : RegSensitivities :=
  map (fun s => (fst s, postProcessRegulations (snd s))) rs.

(** The constructor up to the calculation loop: the records by side,
    netting set and regulation.  With no record left after the Schedule
    filter the constructor returns at once. *)
Definition splitRegulations (simmNetSensitivities : SimmNetSensitivities)
    : SplitState :=
  let '(collectIsEmpty, postIsEmpty, tmp) :=
    fold_left scheduleFilterStep simmNetSensitivities ([], [], []) in
  let st := mkSplitState collectIsEmpty postIsEmpty [] [] in
  match tmp with
  | [] => st
  | _ :: _ =>
      let st :=
        fold_left
          (fun st crifRecord =>
             addCrifRecord (addCrifRecord st crifRecord SimmSide.Call)
                           crifRecord SimmSide.Post)
          tmp st in
      mkSplitState (collectRegsIsEmpty_ st) (postRegsIsEmpty_ st)
                   (postProcessSide (regSensitivitiesCall st))
                   (postProcessSide (regSensitivitiesPost st))
  end.

End RegulationSplitter.

(* ================================================================= *)
(** ** The winning regulation *)

Section WinningRegulation.

(** [getWinningRegulation] (orea/simm/utilities.hpp): the choice among
    several regulations by their priority, supplied from outside. *)
Variable getWinningRegulation : list string -> string.

(** The highest margin amount, from [std::numeric_limits<Real>::min()]. *)
Definition winningMarginOf (regSimmResults : smap SimmResults) : R :=
  fold_left
    (fun winningMargin kv =>
       let im := results_get (snd kv) keyAll in
       if Rlt_dec winningMargin im then im else winningMargin)
    regSimmResults Real_min.

(** [nettingSetMargins]: regulation to overall margin. *)
Definition nettingSetMarginsOf (regSimmResults : smap SimmResults) : smap R :=
  fold_left (fun m kv => sm_set (fst kv) (results_get (snd kv) keyAll) m)
            regSimmResults [].

(** The regulations whose margin is close enough to the highest. *)
Definition winningRegulationsOf (regSimmResults : smap SimmResults) : list string :=
  let winningMargin := winningMarginOf regSimmResults in
  fold_left
    (fun winners kv =>
       if close_enough (snd kv) winningMargin then winners ++ [fst kv] else winners)
    (nettingSetMarginsOf regSimmResults) [].

(** The body of the loop over netting sets in the constructor: the
    winning regulation of one side and netting set. *)
Definition winningRegulation (regSimmResults : smap SimmResults) : Result string :=
  let winningRegulations := winningRegulationsOf regSimmResults in
  if Nat.ltb 1 (List.length winningRegulations)
  then OK (getWinningRegulation winningRegulations)
  else match winningRegulations with
       | r :: _ => OK r
       | [] => Error "vector::at"
       end.

End WinningRegulation.

(* ================================================================= *)
(** ** Closed forms the calculators are compared with *)


(** The values of a result map are all non-negative. *)
Definition nonnegValues (m : smap R) : Prop := Forall (fun kv => 0 <= snd kv) m.

(** [k] is before every key of [m]. *)
Definition keysAfter {V : Type} (k : string) (m : smap V) : Prop :=
  Forall (fun kv => String.compare k (fst kv) = Lt) m.

(** The keys of [m] increase strictly, as the iteration of a [std::map]
    meets them. *)
Fixpoint smSorted {V : Type} (m : smap V) : Prop :=
  match m with
  | [] => True
  | kv :: m' => keysAfter (fst kv) m' /\ smSorted m'
  end.

(** The same for a [std::set]. *)
Definition ssSorted (s : sset) : Prop := smSorted (map (fun x => (x, tt)) s).

Definition sumR (l : list R) : R := fold_right Rplus 0 l.

(** The same for the map of a calculator that can fail: a failed call
    returns no map. *)
Definition nonnegResult (r : Result (smap R * bool)) : Prop :=
  match r with
  | OK (m, _) => nonnegValues m
  | Error _ => True
  end.

(** The sum of [f outer inner] over the pairs of elements of [l] with
    [inner] before [outer]. *)
Fixpoint sumPairs {A : Type} (f : A -> A -> R) (l : list A) : R :=
  match l with
  | [] => 0
  | inner :: l' => sumR (map (fun outer => f outer inner) l') + sumPairs f l'
  end.

(** The sum of [f outer inner] over [outer] in [rest] and [inner] in
    [earlier]. *)
Definition sumCross {A : Type} (f : A -> A -> R) (earlier rest : list A) : R :=
  sumR (map (fun outer => sumR (map (f outer) earlier)) rest).

(** *** Residual and non-residual records *)

Definition isResidual (r : CrifRecord) : bool := String.eqb (bucket r) "Residual".

Definition residualRecords (netRecords : SimmNetSensitivities) : SimmNetSensitivities :=
  filter isResidual netRecords.

Definition nonResidualRecords (netRecords : SimmNetSensitivities)
    : SimmNetSensitivities :=
  filter (fun r => negb (isResidual r)) netRecords.

(** The entry "All" of the map [margin] returns. *)
Definition totalMargin (cfg : SimmConfiguration) (calculationCcy : string)
    (nsd : NettingSetDetails) (pc : ProductClass.t) (rt : RiskType.t)
    (netRecords : SimmNetSensitivities) : R :=
  sm_get "All" (fst (margin cfg calculationCcy nsd pc rt netRecords)).

(** The state the loop over the records of bucket [fst kv] ends in, the
    result map starting as [bms]. *)
Definition bucketLoopResult (cfg : SimmConfiguration) (calculationCcy : string)
    (nsd : NettingSetDetails) (pc : ProductClass.t) (rt : RiskType.t)
    (netRecords : SimmNetSensitivities) (kv : string * sset) (bms : smap R)
    : BucketState :=
  let hvr := historicalVolatilityRatio cfg rt in
  marginBucketLoop cfg calculationCcy rt hvr
    (concentrationRiskOf cfg calculationCcy nsd pc rt hvr (fst kv) (snd kv) netRecords)
    [] (bucketRange nsd pc rt (fst kv) netRecords) (mkBucketState 0 0 bms).

(** [K_b] and the weighted-sensitivity sum of a bucket. *)
Definition bucketK (cfg : SimmConfiguration) (calculationCcy : string)
    (nsd : NettingSetDetails) (pc : ProductClass.t) (rt : RiskType.t)
    (netRecords : SimmNetSensitivities) (kv : string * sset) : R :=
  sqrt (Rmax (bsMargin (bucketLoopResult cfg calculationCcy nsd pc rt netRecords kv [])) 0).

Definition bucketSumWs (cfg : SimmConfiguration) (calculationCcy : string)
    (nsd : NettingSetDetails) (pc : ProductClass.t) (rt : RiskType.t)
    (netRecords : SimmNetSensitivities) (kv : string * sset) : R :=
  bsSumWs (bucketLoopResult cfg calculationCcy nsd pc rt netRecords kv []).

(** *** Concentration risk *)

(** [max(1, sqrt(|sum of amountUsd * sigma * HVR| / threshold))] over the
    records of qualifier [q] in bucket [b]. *)
Definition concentrationRiskFormula (cfg : SimmConfiguration) (calculationCcy : string)
    (nsd : NettingSetDetails) (pc : ProductClass.t) (rt : RiskType.t)
    (b q : string) (netRecords : SimmNetSensitivities) : R :=
  let hvr := historicalVolatilityRatio cfg rt in
  Rmax 1
    (sqrt
       (Rabs
          (sumR
             (map (fun it => amountUsd it
                             * sigma cfg rt (qualifier it) (label1 it) calculationCcy
                             * hvr)
                  (bucketQualifierRange nsd pc rt b q netRecords)))
        / concentrationThreshold cfg rt q)).

(** The record with its USD amount multiplied by [c]. *)
Definition scaleAmountUsd (c : R) (r : CrifRecord) : CrifRecord :=
  mkCrifRecord (tradeId r) (nettingSetDetails r) (productClass r) (riskType r)
               (qualifier r) (bucket r) (label1 r) (label2 r) (amountCurrency r)
               (amount r) (c * amountUsd r)
               (imModel r) (collectRegulations r) (postRegulations r).

(** The records with the USD amounts of qualifier [q] doubled. *)
Definition doubleQualifier (q : string) (netRecords : SimmNetSensitivities)
    : SimmNetSensitivities :=
  map (fun r => if String.eqb (qualifier r) q then scaleAmountUsd 2 r else r) netRecords.

(** *** Risk_FX records in the calculation currency *)

(** The record is kept unless it is a Risk_FX record whose qualifier is the
    calculation currency. *)
Definition keepsFX (calculationCcy : string) (r : CrifRecord) : bool :=
  negb (RiskType.eqb (riskType r) RiskType.FX && String.eqb (qualifier r) calculationCcy).

Definition removeCalcCcyFX (calculationCcy : string)
    (netRecords : SimmNetSensitivities) : SimmNetSensitivities :=
  filter (keepsFX calculationCcy) netRecords.

(** The qualifiers other than the calculation currency. *)
Definition otherQualifiers (calculationCcy : string) (qualifiers : sset) : sset :=
  filter (fun q => negb (String.eqb q calculationCcy)) qualifiers.

(** *** The notional-factor add-on *)

(** [notional * factor / 100] for a factor record with one matching
    "Notional" record, nothing for one with none. *)
Definition notionalFactorMargin (nsd : NettingSetDetails)
    (netRecords : SimmNetSensitivities) (it : CrifRecord) : R :=
  match notionalRange nsd netRecords it with
  | [n] => amountUsd n * amount it / 100
  | _ => 0
  end.

(** More than one "Notional" record has the qualifier of [it]. *)
Definition hasSeveralNotionals (nsd : NettingSetDetails)
    (netRecords : SimmNetSensitivities) (it : CrifRecord) : bool :=
  Nat.leb 2 (List.length (notionalRange nsd netRecords it)).

(** The "AddOnNotionalFactor" records the third loop of [calcAddMargin]
    goes through. *)
Definition notionalFactorRecords (nsd : NettingSetDetails)
    (netRecords : SimmNetSensitivities) : list CrifRecord :=
  riskTypeRange nsd ProductClass.Empty RiskType.AddOnNotionalFactor netRecords.

(** *** Regulation splitting *)

(** The record with another amount currency. *)
Definition setAmountCurrency (ccy : string) (r : CrifRecord) : CrifRecord :=
  mkCrifRecord (tradeId r) (nettingSetDetails r) (productClass r) (riskType r)
               (qualifier r) (bucket r) (label1 r) (label2 r) ccy
               (amount r) (amountUsd r)
               (imModel r) (collectRegulations r) (postRegulations r).

(** The CFTC records the merge adds to SEC: those with no equal record
    among the SEC records. *)
Definition cftcOnlyRecords (netRecordsCFTC netRecordsSEC : SimmNetSensitivities)
    : list CrifRecord :=
  filter (fun cr => negb (netRecords_has netRecordsSEC cr)) netRecordsCFTC.

(** The SEC loader after [add] has been called with each of [added]. *)
Definition secAfterMerge (added : list CrifRecord) (sec : CrifLoader) : CrifLoader :=
  fold_left (fun loader cr => loader_add false cr loader) added sec.

(** The records that are not Schedule records. *)
Definition nonSchedule (netRecords : SimmNetSensitivities) : SimmNetSensitivities :=
  filter (fun cr => negb (String.eqb (imModel cr) "Schedule")) netRecords.

(** Some record of the netting set has a non-empty collect or post
    regulation list. *)
Definition regsSpecified (nsd : NettingSetDetails)
    (netRecords : SimmNetSensitivities) : bool :=
  existsb (fun cr => String.eqb (nettingSetDetails cr) nsd
                     && (negb (str_empty (collectRegulations cr))
                         || negb (str_empty (postRegulations cr))))
          (nonSchedule netRecords).

(** The maps [collectRegsIsEmpty_] and [postRegsIsEmpty_] after the first
    loop of the constructor. *)
Definition regsIsEmptyMaps (netRecords : SimmNetSensitivities) : smap bool * smap bool :=
  let '(collectIsEmpty, postIsEmpty, _) :=
    fold_left scheduleFilterStep netRecords ([], [], []) in
  (collectIsEmpty, postIsEmpty).

(** The tags of a record that go on to a regulation bucket: not
    "Excluded", and "Unspecified" only when regulations are not enforced or
    none is specified in the netting set. *)
Definition keepsRegulation (enforceIMRegulations : bool) (nsd : NettingSetDetails)
    (netRecords : SimmNetSensitivities) (r : string) : bool :=
  negb (String.eqb r "Excluded")
  && negb (String.eqb r "Unspecified" && enforceIMRegulations
           && regsSpecified nsd netRecords).

(** "Unspecified" is not held together with another regulation. *)
Definition unspecifiedAlone (regs : smap CrifLoader) : bool :=
  negb (sm_mem "Unspecified" regs && Nat.ltb 1 (List.length regs)).

(** The loader held under netting set [nsd] and regulation [r], if any:
    [regSensitivities_[side][nsd][r]] without creating it. *)
Definition loaderAt (rs : RegSensitivities) (nsd : NettingSetDetails) (r : string)
    : option CrifLoader :=
  match sm_find nsd rs with
  | Some regs => sm_find r regs
  | None => None
  end.

(** The records of a loader, none where there is no loader. *)
Definition recordsOf (loader : option CrifLoader) : CrifLoader :=
  match loader with Some l => l | None => [] end.

(** The state after the loop of [addCrifRecord] calls over the records
    left by the Schedule filter, before the regulations of each netting set
    are post-processed. *)
Definition addedRegulations (parseRegulationString : string -> sset)
    (enforceIMRegulations : bool) (netRecords : SimmNetSensitivities) : SplitState :=
  fold_left
    (fun st crifRecord =>
       addCrifRecord parseRegulationString enforceIMRegulations
         (addCrifRecord parseRegulationString enforceIMRegulations st crifRecord
                        SimmSide.Call)
         crifRecord SimmSide.Post)
    (nonSchedule netRecords)
    (mkSplitState (fst (regsIsEmptyMaps netRecords)) (snd (regsIsEmptyMaps netRecords))
                  [] []).

(** The configuration with another curvature margin scaling. *)
Definition setCurvatureMarginScaling (scaling : R) (cfg : SimmConfiguration)
    : SimmConfiguration :=
  mkSimmConfiguration
    (weight cfg) (correlation cfg) (concentrationThreshold cfg)
    (curvatureWeight cfg) (sigma cfg) (historicalVolatilityRatio cfg)
    scaling
    (correlationRiskClasses cfg) (version cfg) (isValidRiskType cfg).

(** *** The curvature margin in closed form *)

Section CurvatureFormula.

Variable cfg : SimmConfiguration.
Variable calculationCcy : string.
Variable nsd : NettingSetDetails.
Variable pc : ProductClass.t.
Variable rt : RiskType.t.
Variable side : SimmSide.t.
Variable rfLabels : bool.
Variable netRecords : SimmNetSensitivities.

(** [CVR] of a record of bucket [b]: zero for the Equity bucket "12" from
    SIMM 2.2 on. *)
Definition cvr (b : string) (it : CrifRecord) : R :=
  if isZeroedEquityBucket cfg rt b then 0
  else curvatureSensitivity cfg calculationCcy rt (sideMultiplier side) it.

(** The sum of the [CVR] of a bucket. *)
Definition bucketCvr (kv : string * sset) : R :=
  sumR (map (cvr (fst kv)) (bucketRange nsd pc rt (fst kv) netRecords)).

(** The absolute [CVR] of a bucket: over its qualifiers, the magnitude of
    the qualifier's sum of [CVR], or of [|CVR|] with [rfLabels]. *)
Definition qualifierAbsCvr (b q : string) : R :=
  Rabs (sumR (map (fun it => if rfLabels then Rabs (cvr b it) else cvr b it)
                  (filter (fun it => String.eqb (qualifier it) q)
                          (bucketRange nsd pc rt b netRecords)))).

Definition bucketAbsCvr (kv : string * sset) : R :=
  sumR (map (qualifierAbsCvr (fst kv))
            (qualifiersOf (bucketRange nsd pc rt (fst kv) netRecords) [])).

(** The cross term of two records of a bucket, [outer] after [inner]. *)
Definition curvatureRecordCross (b : string) (outer inner : CrifRecord) : R :=
  let corr :=
    correlation cfg rt (qualifier outer) (label1 outer) (label2 outer)
                rt (qualifier inner) (label1 inner) (label2 inner) calculationCcy in
  2 * corr * corr * cvr b outer
  * curvatureSensitivity cfg calculationCcy rt (sideMultiplier side) inner.

(** [K_b] of a bucket. *)
Definition bucketCurvatureK (kv : string * sset) : R :=
  let range := bucketRange nsd pc rt (fst kv) netRecords in
  sqrt (Rmax (sumR (map (fun it => cvr (fst kv) it * cvr (fst kv) it) range)
              + sumPairs (curvatureRecordCross (fst kv)) range) 0).

(** The cross term of two buckets, [outer] after [inner]. *)
Definition curvatureBucketCross (outer inner : string * sset) : R :=
  let sOuter := clampS (bucketCvr outer) (bucketCurvatureK outer) in
  let sInner := clampS (bucketCvr inner) (bucketCurvatureK inner) in
  let corr := correlation cfg rt (ss_begin (snd outer)) "" ""
                          rt (ss_begin (snd inner)) "" "" calculationCcy in
  2 * sOuter * sInner * corr * corr.

(** [max(sum CVR + lambda(theta) * sqrt(max(sum K_b^2 + cross terms, 0)), 0)]
    over the buckets [buckets], when their absolute [CVR] is not
    negligible. *)
Definition curvatureTotalOver (buckets : smap sset) : R :=
  let sumCvr := sumR (map bucketCvr buckets) in
  let sumAbsCvr := sumR (map bucketAbsCvr buckets) in
  if close_enough sumAbsCvr 0 then 0
  else
    let theta := Rmin (sumCvr / sumAbsCvr) 0 in
    Rmax (sumCvr
          + lambda theta
            * sqrt (Rmax (sumR (map (fun kv => bucketCurvatureK kv * bucketCurvatureK kv)
                                    buckets)
                          + sumPairs curvatureBucketCross buckets) 0))
         0.

(** The part of the Residual bucket, with its own theta. *)
Definition curvatureResidualPart (buckets : smap sset) : R :=
  match sm_find "Residual" buckets with
  | Some qs =>
      let kv := ("Residual", qs) in
      if close_enough (bucketAbsCvr kv) 0 then 0
      else
        let theta := Rmin (bucketCvr kv / bucketAbsCvr kv) 0 in
        Rmax (bucketCvr kv + lambda theta * bucketCurvatureK kv) 0
  | None => 0
  end.

(** The total of the curvature margin as the code computes it: no
    scaling. *)
Definition curvatureTotalFormula : R :=
  let buckets := bucketsOf (riskTypeRange nsd pc rt netRecords) in
  curvatureTotalOver (sm_erase "Residual" buckets) + curvatureResidualPart buckets.

(** The total as the specification words it: the non-residual part scaled
    by the curvature margin scaling of the configuration. *)
Definition curvatureTotalClaimed : R :=
  let buckets := bucketsOf (riskTypeRange nsd pc rt netRecords) in
  curvatureMarginScaling cfg * curvatureTotalOver (sm_erase "Residual" buckets)
  + curvatureResidualPart buckets.

End CurvatureFormula.

(** *** The interest rate delta margin in closed form *)

Section IrDeltaFormula.

Variable cfg : SimmConfiguration.
Variable nsd : NettingSetDetails.
Variable pc : ProductClass.t.
Variable netRecords : SimmNetSensitivities.

(** The three choices on which the code and the specification differ:
    whether the cross currency basis sensitivity is scaled by the
    concentration risk, whether the aggregation across currencies carries
    the factor [g = min(CR_b, CR_c) / max(CR_b, CR_c)], and the calculation
    currency with which the IRCurve risk weight is read in the cross terms
    with the cross currency basis. *)
Variable xccyScaled : bool.
Variable withG : bool.
Variable xccyCrossCcy : string.

(** The currencies: the qualifiers of the three risk types. *)
Definition irCurrencies : sset :=
  qualifiersOf (riskTypeRange nsd pc RiskType.Inflation netRecords)
    (qualifiersOf (riskTypeRange nsd pc RiskType.XCcyBasis netRecords)
       (qualifiersOf (riskTypeRange nsd pc RiskType.IRCurve netRecords) [])).

Definition irCurveOf (q : string) : list CrifRecord :=
  qualifierRange nsd pc RiskType.IRCurve q netRecords.

Definition irInflationOf (q : string) : option CrifRecord :=
  hd_error (qualifierRange nsd pc RiskType.Inflation q netRecords).

Definition irXccyOf (q : string) : option CrifRecord :=
  hd_error (qualifierRange nsd pc RiskType.XCcyBasis q netRecords).

(** No currency has two inflation or two cross currency basis records. *)
Definition irCountsOk : bool :=
  forallb
    (fun q =>
       Nat.ltb (List.length (qualifierRange nsd pc RiskType.XCcyBasis q netRecords)) 2
       && Nat.ltb (List.length (qualifierRange nsd pc RiskType.Inflation q netRecords)) 2)
    irCurrencies.

(** [CR_b]: IRCurve and Inflation amounts over the IRCurve threshold. *)
Definition irCR (q : string) : R :=
  Rmax 1
    (sqrt (Rabs ((sumR (map amountUsd (irCurveOf q))
                  + match irInflationOf q with Some i => amountUsd i | None => 0 end)
                 / concentrationThreshold cfg RiskType.IRCurve q))).

Definition irCurveWs (ccy q : string) (r : CrifRecord) : R :=
  weight cfg RiskType.IRCurve q (label1 r) ccy * amountUsd r * irCR q.

Definition irInflationWs (q : string) : R :=
  match irInflationOf q with
  | Some i => weight cfg RiskType.Inflation q (label1 i) "" * amountUsd i * irCR q
  | None => 0
  end.

Definition irXccyWs (q : string) : R :=
  match irXccyOf q with
  | Some x =>
      weight cfg RiskType.XCcyBasis q (label1 x) "" * amountUsd x
      * (if xccyScaled then irCR q else 1)
  | None => 0
  end.

(** The sum of the weighted sensitivities of a currency. *)
Definition irSumWs (q : string) : R :=
  sumR (map (irCurveWs "" q) (irCurveOf q)) + irInflationWs q + irXccyWs q.

(** The cross term of two IRCurve records: sub curve and tenor
    correlations. *)
Definition irCurveCross (q : string) (outer inner : CrifRecord) : R :=
  2 * correlation cfg RiskType.IRCurve q "" (label2 outer)
                  RiskType.IRCurve q "" (label2 inner) ""
    * correlation cfg RiskType.IRCurve q (label1 outer) ""
                  RiskType.IRCurve q (label1 inner) "" ""
    * irCurveWs "" q outer * irCurveWs "" q inner.

(** [K_b] of a currency: the three risk types with their correlations. *)
Definition irK (q : string) : R :=
  let curve := irCurveOf q in
  sqrt (Rmax
          (sumR (map (fun r => irCurveWs "" q r * irCurveWs "" q r) curve)
           + sumPairs (irCurveCross q) curve
           + (irInflationWs q * irInflationWs q
              + 2 * correlation cfg RiskType.IRCurve q "" "" RiskType.Inflation q "" "" ""
                * sumR (map (irCurveWs "" q) curve) * irInflationWs q)
           + (irXccyWs q * irXccyWs q
              + 2 * correlation cfg RiskType.IRCurve q "" "" RiskType.XCcyBasis q "" "" ""
                * sumR (map (irCurveWs xccyCrossCcy q) curve) * irXccyWs q
              + 2 * correlation cfg RiskType.Inflation q "" "" RiskType.XCcyBasis q "" "" ""
                * irInflationWs q * irXccyWs q))
          0).

(** [S_b]. *)
Definition irS (q : string) : R := clampS (irSumWs q) (irK q).

Definition irG (b c : string) : R :=
  if withG then Rmin (irCR b) (irCR c) / Rmax (irCR b) (irCR c) else 1.

Definition irCurrencyCross (outer inner : string) : R :=
  2 * irS outer * irS inner
    * correlation cfg RiskType.IRCurve outer "" "" RiskType.IRCurve inner "" "" ""
    * irG outer inner.

(** The total across currencies. *)
Definition irDeltaTotalWith : R :=
  sqrt (Rmax (sumR (map (fun q => irK q * irK q) irCurrencies)
              + sumPairs irCurrencyCross irCurrencies)
             0).

(** The map returned: [K_b] for each currency and the total at "All". *)
Definition irDeltaMapWith : smap R :=
  sm_set "All" irDeltaTotalWith (map (fun q => (q, irK q)) irCurrencies).

End IrDeltaFormula.

(** The interest rate delta margin as the code computes it: the cross
    currency basis sensitivity is not scaled by the concentration risk and
    the cross terms between currencies carry the factor [g]. *)
Definition irDeltaMapFormula (cfg : SimmConfiguration) (calculationCcy : string)
    (nsd : NettingSetDetails) (pc : ProductClass.t) (netRecords : SimmNetSensitivities)
    : smap R :=
  irDeltaMapWith cfg nsd pc netRecords false true calculationCcy.

(** The total as the specification words it: every weighted sensitivity
    scaled by the concentration risk and the plain aggregation
    [sqrt(sum K_b^2 + sum gamma(b,c) S_b S_c)] across currencies. *)
Definition irDeltaTotalClaimed (cfg : SimmConfiguration) (nsd : NettingSetDetails)
    (pc : ProductClass.t) (netRecords : SimmNetSensitivities) : R :=
  irDeltaTotalWith cfg nsd pc netRecords true false "".

(** *** Folds and lookups the properties are stated with *)

(** A set seen as a map, to share the lemmas on sorted keys. *)
Definition asMap (s : sset) : smap unit := map (fun x => (x, tt)) s.

Definition inBucket (b : string) (r : CrifRecord) : bool := String.eqb (bucket r) b.

Section KeyedMaps.

Variables V W : Type.
Variable g : string * V -> W.

(** Writing [g kv] at every key of [l], and the map it gives from an
    empty one. *)
Definition writeAll (l : smap V) (acc : smap W) : smap W :=
  fold_left (fun m kv => sm_set (fst kv) (g kv) m) l acc.

Definition mapValues (l : smap V) : smap W := map (fun kv => (fst kv, g kv)) l.

End KeyedMaps.

(** The shape of every aggregation loop of the calculator: a diagonal
    term for each element and a cross term with each element before it. *)
Fixpoint pairLoop {A : Type} (diag : A -> R) (cross : A -> A -> R)
    (earlier rest : list A) (acc : R) : R :=
  match rest with
  | [] => acc
  | outer :: rest' =>
      pairLoop diag cross (earlier ++ [outer]) rest'
               (fold_left (fun a inner => a + cross outer inner) earlier (acc + diag outer))
  end.

Section AddedMapsDef.

Variable key : CrifRecord -> string.
Variable x : CrifRecord -> R.

(** [m[key(it)] += x(it)] over the records of a range. *)
Definition addAll (range : list CrifRecord) (m : smap R) : smap R :=
  fold_left (fun m it => sm_add (key it) (x it) m) range m.

End AddedMapsDef.

Section ResidualTotal.

Variable cfg : SimmConfiguration.
Variable calculationCcy : string.
Variable nsd : NettingSetDetails.
Variable pc : ProductClass.t.
Variable rt : RiskType.t.

(** The total of [margin] over a non-empty map of buckets, in terms of
    the bucket margins and sums. *)
Definition totalOver (recs : SimmNetSensitivities) (buckets : smap sset) : R :=
  let bucketMargin := mapValues (bucketK cfg calculationCcy nsd pc rt recs) buckets in
  let residualMargin :=
    if sm_mem "Residual" bucketMargin then sm_get "Residual" bucketMargin else 0 in
  sqrt (Rmax (marginAggregate cfg calculationCcy rt buckets
                (mapValues (bucketSumWs cfg calculationCcy nsd pc rt recs) buckets) []
                (sm_erase "Residual" bucketMargin) 0) 0)
  + residualMargin.

(** [CR_q] of a qualifier of bucket [b]. *)
Definition crValue (hvr : R) (b : string) (recs : SimmNetSensitivities) (q : string) : R :=
  Rmax 1 (sqrt (Rabs (concentrationRiskSum cfg calculationCcy rt hvr
                        (bucketQualifierRange nsd pc rt b q recs)
                      / concentrationThreshold cfg rt q))).

End ResidualTotal.

(** Every overall margin is negative. *)
Definition allNegative (rs : smap SimmResults) : Prop :=
  Forall (fun kv => results_get (snd kv) keyAll < 0) rs.

(** The isEmpty map after the records of [l], and the records of a
    netting set. *)
Definition trackAll (proj : CrifRecord -> string) (l : list CrifRecord)
    (m : smap bool) : smap bool :=
  fold_left (fun m cr => trackRegsIsEmpty (nettingSetDetails cr) (proj cr) m) l m.

Definition ofNettingSet (nsd : NettingSetDetails) (cr : CrifRecord) : bool :=
  String.eqb (nettingSetDetails cr) nsd.

(** *** The currencies of the interest rate vega and curvature margins *)

(** The qualifiers of the IRVol and InflationVol records. *)
Definition irVolCurrencies (nsd : NettingSetDetails) (pc : ProductClass.t)
    (netRecords : SimmNetSensitivities) : sset :=
  qualifiersOf (riskTypeRange nsd pc RiskType.InflationVol netRecords)
    (qualifiersOf (riskTypeRange nsd pc RiskType.IRVol netRecords) []).

(** A record of the netting set and product class with one of the risk
    types [rts]. *)
Definition inRiskTypes (nsd : NettingSetDetails) (pc : ProductClass.t)
    (rts : list RiskType.t) (r : CrifRecord) : bool :=
  existsb (fun rt => inRiskType nsd pc rt r) rts.

(** [p] keeps every record of the netting set, product class and risk
    type. *)
Definition keepsRiskType (nsd : NettingSetDetails) (pc : ProductClass.t)
    (p : CrifRecord -> bool) (rt : RiskType.t) : Prop :=
  forall r, inRiskType nsd pc rt r = true -> p r = true.

(** *** The delta and vega margin in closed form *)

Section MarginFormula.

Variable cfg : SimmConfiguration.
Variable calculationCcy : string.
Variable nsd : NettingSetDetails.
Variable pc : ProductClass.t.
Variable rt : RiskType.t.
Variable netRecords : SimmNetSensitivities.

(** The records of bucket [b] that enter the margin: a Risk_FX record in
    the calculation currency is passed over. *)
Definition marginRecords (b : string) : list CrifRecord :=
  filter (fun r => negb (isCalcCcyFX calculationCcy rt (qualifier r)))
         (bucketRange nsd pc rt b netRecords).

(** [CR_q] of qualifier [q] in bucket [b]. *)
Definition marginCR (b q : string) : R :=
  Rmax 1
    (sqrt
       (Rabs
          (sumR (map (fun it => amountUsd it
                                * sigma cfg rt (qualifier it) (label1 it) calculationCcy
                                * historicalVolatilityRatio cfg rt)
                     (bucketQualifierRange nsd pc rt b q netRecords))
           / concentrationThreshold cfg rt q))).

(** [WS_k] of a record of bucket [b]. *)
Definition marginWs (b : string) (r : CrifRecord) : R :=
  weight cfg rt (qualifier r) (label1 r) calculationCcy
  * (amountUsd r * sigma cfg rt (qualifier r) (label1 r) calculationCcy
     * historicalVolatilityRatio cfg rt)
  * marginCR b (qualifier r).

(** The cross term of two records of bucket [b]:
    [2 rho(k,l) f(k,l) WS_k WS_l]. *)
Definition marginRecordCross (b : string) (outer inner : CrifRecord) : R :=
  2 * correlation cfg rt (qualifier outer) (label1 outer) (label2 outer)
                  rt (qualifier inner) (label1 inner) (label2 inner) calculationCcy
    * (Rmin (marginCR b (qualifier outer)) (marginCR b (qualifier inner))
       / Rmax (marginCR b (qualifier outer)) (marginCR b (qualifier inner)))
    * marginWs b outer * marginWs b inner.

(** [K_b]. *)
Definition marginK (b : string) : R :=
  sqrt (Rmax (sumR (map (fun r => marginWs b r * marginWs b r) (marginRecords b))
              + sumPairs (marginRecordCross b) (marginRecords b))
             0).

(** [S_b]. *)
Definition marginS (b : string) : R :=
  clampS (sumR (map (marginWs b) (marginRecords b))) (marginK b).

(** The cross term of two buckets, the correlation read at the first
    qualifier of each. *)
Definition marginBucketCross (outer inner : string * sset) : R :=
  2 * marginS (fst outer) * marginS (fst inner)
    * correlation cfg rt (ss_begin (snd outer)) "" "" rt (ss_begin (snd inner)) "" ""
                  calculationCcy.

(** [K_residual], zero without a "Residual" bucket. *)
Definition marginResidual : R :=
  if sm_mem "Residual" (bucketsOf (riskTypeRange nsd pc rt netRecords))
  then marginK "Residual" else 0.

(** The total: the non-residual buckets aggregated, plus [K_residual]. *)
Definition marginTotalFormula : R :=
  let buckets := sm_erase "Residual" (bucketsOf (riskTypeRange nsd pc rt netRecords)) in
  sqrt (Rmax (sumR (map (fun kv => marginK (fst kv) * marginK (fst kv)) buckets)
              + sumPairs marginBucketCross buckets)
             0)
  + marginResidual.

(** The entry of the result map at [key], for a risk type outside the FX
    risk class: the total at "All", [K_residual] at "Residual" unless it is
    negligible, [K_b] at any other bucket. *)
Definition marginEntryFormula (key : string) : option R :=
  if String.eqb key "All" then Some marginTotalFormula
  else if String.eqb key "Residual"
       then (if close_enough marginResidual 0 then None else Some marginResidual)
       else if sm_mem key (bucketsOf (riskTypeRange nsd pc rt netRecords))
            then Some (marginK key) else None.

End MarginFormula.

(** The sum of the weighted sensitivities of the records of qualifier [q],
    over all buckets: what the FX risk class reports by currency. *)
Definition marginQualifierWs (cfg : SimmConfiguration) (calculationCcy : string)
    (nsd : NettingSetDetails) (pc : ProductClass.t) (rt : RiskType.t)
    (netRecords : SimmNetSensitivities) (q : string) : R :=
  sumR (map (fun kv : string * sset =>
               sumR (map (marginWs cfg calculationCcy nsd pc rt netRecords (fst kv))
                         (filter (fun r => String.eqb (qualifier r) q)
                                 (marginRecords calculationCcy nsd pc rt netRecords
                                                (fst kv)))))
            (bucketsOf (riskTypeRange nsd pc rt netRecords))).

(** *** The interest rate vega margin in closed form *)

Section IrVegaFormula.

Variable cfg : SimmConfiguration.
Variable calculationCcy : string.
Variable nsd : NettingSetDetails.
Variable pc : ProductClass.t.
Variable netRecords : SimmNetSensitivities.

Definition irVolOf (q : string) : list CrifRecord :=
  qualifierRange nsd pc RiskType.IRVol q netRecords.

Definition inflationVolOf (q : string) : list CrifRecord :=
  qualifierRange nsd pc RiskType.InflationVol q netRecords.

(** [VCR_b]: IRVol and InflationVol amounts over the IRVol threshold. *)
Definition irVegaCR (q : string) : R :=
  Rmax 1
    (sqrt (Rabs ((sumR (map amountUsd (irVolOf q))
                  + sumR (map amountUsd (inflationVolOf q)))
                 / concentrationThreshold cfg RiskType.IRVol q))).

Definition irVegaWs (rt : RiskType.t) (q : string) (r : CrifRecord) : R :=
  weight cfg rt q (label1 r) "" * amountUsd r * irVegaCR q.

(** The cross term of a record of risk type [rto] with one of risk type
    [rti], the correlation read at their tenors. *)
Definition irVegaCross (rto rti : RiskType.t) (q : string)
    (outer inner : CrifRecord) : R :=
  2 * correlation cfg rto q (label1 outer) "" rti q (label1 inner) "" ""
    * irVegaWs rto q outer * irVegaWs rti q inner.

Definition irVegaSumWs (q : string) : R :=
  sumR (map (irVegaWs RiskType.IRVol q) (irVolOf q))
  + sumR (map (irVegaWs RiskType.InflationVol q) (inflationVolOf q)).

(** [K_b] of a currency: IRVol and InflationVol records, every pair of
    them correlated. *)
Definition irVegaK (q : string) : R :=
  sqrt (Rmax
          (sumR (map (fun r => irVegaWs RiskType.IRVol q r * irVegaWs RiskType.IRVol q r)
                     (irVolOf q))
           + sumPairs (irVegaCross RiskType.IRVol RiskType.IRVol q) (irVolOf q)
           + sumR (map (fun r => irVegaWs RiskType.InflationVol q r
                                 * irVegaWs RiskType.InflationVol q r)
                       (inflationVolOf q))
           + sumCross (irVegaCross RiskType.InflationVol RiskType.IRVol q)
                      (irVolOf q) (inflationVolOf q)
           + sumPairs (irVegaCross RiskType.InflationVol RiskType.InflationVol q)
                      (inflationVolOf q))
          0).

Definition irVegaS (q : string) : R := clampS (irVegaSumWs q) (irVegaK q).

Definition irVegaCurrencyCross (outer inner : string) : R :=
  2 * irVegaS outer * irVegaS inner
    * correlation cfg RiskType.IRVol outer "" "" RiskType.IRVol inner "" ""
                  calculationCcy
    * (Rmin (irVegaCR outer) (irVegaCR inner) / Rmax (irVegaCR outer) (irVegaCR inner)).

Definition irVegaTotalFormula : R :=
  sqrt (Rmax (sumR (map (fun q => irVegaK q * irVegaK q) (irVolCurrencies nsd pc netRecords))
              + sumPairs irVegaCurrencyCross (irVolCurrencies nsd pc netRecords))
             0).

(** The map returned: [K_b] for each currency and the total at "All". *)
Definition irVegaMapFormula : smap R :=
  sm_set "All" irVegaTotalFormula
         (map (fun q => (q, irVegaK q)) (irVolCurrencies nsd pc netRecords)).

End IrVegaFormula.

(** *** The interest rate curvature margin in closed form *)

Section IrCurvatureFormula.

Variable cfg : SimmConfiguration.
Variable nsd : NettingSetDetails.
Variable pc : ProductClass.t.
Variable side : SimmSide.t.
Variable netRecords : SimmNetSensitivities.

(** Whether the InflationVol records enter: [version > V1_0]. *)
Definition withInflationVol : bool := SimmVersion.gtb (version cfg) SimmVersion.V1_0.

(** [CVR] of an IRVol record. *)
Definition irCvr (r : CrifRecord) : R :=
  curvatureWeight cfg RiskType.IRVol (label1 r) * (amountUsd r * sideMultiplier side).

(** The one curvature sensitivity of the InflationVol records of a
    currency. *)
Definition inflationCvr (q : string) : R :=
  sumR (map (fun r => curvatureWeight cfg RiskType.InflationVol (label1 r)
                      * (amountUsd r * sideMultiplier side))
            (inflationVolOf nsd pc netRecords q)).

Definition irCurvatureCross (q : string) (outer inner : CrifRecord) : R :=
  2 * correlation cfg RiskType.IRVol q (label1 outer) "" RiskType.IRVol q (label1 inner)
                  "" ""
    * correlation cfg RiskType.IRVol q (label1 outer) "" RiskType.IRVol q (label1 inner)
                  "" ""
    * irCvr outer * irCvr inner.

Definition irCurvatureInflationCross (q : string) (r : CrifRecord) : R :=
  2 * correlation cfg RiskType.InflationVol q "" "" RiskType.IRVol q (label1 r) "" ""
    * correlation cfg RiskType.InflationVol q "" "" RiskType.IRVol q (label1 r) "" ""
    * inflationCvr q * irCvr r.

(** The sum of the curvature sensitivities of a currency, and of their
    absolute values. *)
Definition irCurvatureSum (q : string) : R :=
  sumR (map irCvr (irVolOf nsd pc netRecords q))
  + (if withInflationVol then inflationCvr q else 0).

Definition irCurvatureAbsSum (q : string) : R :=
  sumR (map (fun r => Rabs (irCvr r)) (irVolOf nsd pc netRecords q))
  + (if withInflationVol then Rabs (inflationCvr q) else 0).

(** [K_b] of a currency. *)
Definition irCurvatureK (q : string) : R :=
  sqrt (Rmax
          (sumR (map (fun r => irCvr r * irCvr r) (irVolOf nsd pc netRecords q))
           + sumPairs (irCurvatureCross q) (irVolOf nsd pc netRecords q)
           + (if withInflationVol
              then inflationCvr q * inflationCvr q
                   + sumR (map (irCurvatureInflationCross q) (irVolOf nsd pc netRecords q))
              else 0))
          0).

Definition irCurvatureS (q : string) : R := clampS (irCurvatureSum q) (irCurvatureK q).

Definition irCurvatureCurrencyCross (outer inner : string) : R :=
  2 * irCurvatureS outer * irCurvatureS inner
    * correlation cfg RiskType.IRVol outer "" "" RiskType.IRVol inner "" "" ""
    * correlation cfg RiskType.IRVol outer "" "" RiskType.IRVol inner "" "" "".

(** The sums over all currencies. *)
Definition irCurvatureSumWs : R :=
  sumR (map irCurvatureSum (irVolCurrencies nsd pc netRecords)).

Definition irCurvatureSumAbsWs : R :=
  sumR (map irCurvatureAbsSum (irVolCurrencies nsd pc netRecords)).

Definition irCurvatureTheta : R := Rmin (irCurvatureSumWs / irCurvatureSumAbsWs) 0.

(** The total: scaled by the curvature margin scaling of the
    configuration. *)
Definition irCurvatureTotalFormula : R :=
  curvatureMarginScaling cfg
  * Rmax (irCurvatureSumWs
          + lambda irCurvatureTheta
            * sqrt (Rmax (sumR (map (fun q => irCurvatureK q * irCurvatureK q)
                                    (irVolCurrencies nsd pc netRecords))
                          + sumPairs irCurvatureCurrencyCross
                                     (irVolCurrencies nsd pc netRecords))
                         0))
         0.

End IrCurvatureFormula.

(** The result of [irCurvatureMargin]: nothing but a zero total when there
    is no currency (the margin then does not apply) or when the absolute
    curvature sensitivities sum to something negligible; otherwise [K_b]
    for each currency and the total. *)
Definition irCurvatureResultFormula (cfg : SimmConfiguration) (nsd : NettingSetDetails)
    (pc : ProductClass.t) (side : SimmSide.t) (netRecords : SimmNetSensitivities)
    : smap R * bool :=
  match irVolCurrencies nsd pc netRecords with
  | [] => ([("All", 0)], false)
  | qualifiers =>
      if close_enough (irCurvatureSumAbsWs cfg nsd pc side netRecords) 0
      then ([("All", 0)], true)
      else (sm_set "All" (irCurvatureTotalFormula cfg nsd pc side netRecords)
                   (map (fun q => (q, irCurvatureK cfg nsd pc side netRecords q))
                        qualifiers),
            true)
  end.

(** *** The states the curvature margins compute theta from *)

(** The maps [curvatureMargin] holds after its loop over the buckets. *)
Definition curvatureStateOf (cfg : SimmConfiguration) (calculationCcy : string)
    (nsd : NettingSetDetails) (pc : ProductClass.t) (rt : RiskType.t)
    (side : SimmSide.t) (rfLabels : bool) (netRecords : SimmNetSensitivities)
    : CurvatureState :=
  fold_left (curvatureBucketStep cfg calculationCcy nsd pc rt (sideMultiplier side)
                                 rfLabels netRecords)
            (bucketsOf (riskTypeRange nsd pc rt netRecords))
            (mkCurvatureState [] [] [] []).

(** The maps and sums [irCurvatureMargin] holds after its loop over the
    currencies. *)
Definition irCurvatureStateOf (cfg : SimmConfiguration) (nsd : NettingSetDetails)
    (pc : ProductClass.t) (side : SimmSide.t) (netRecords : SimmNetSensitivities)
    : IrCurvatureState :=
  fold_left (irCurvatureQualifierStep cfg nsd pc (sideMultiplier side) netRecords)
            (irVolCurrencies nsd pc netRecords)
            (mkIrCurvatureState [] [] 0 0).

(** The record [r] with the USD amount [f r] when it lies in bucket [b]. *)
Definition setAmountUsdIn (b : string) (f : CrifRecord -> R) (r : CrifRecord)
    : CrifRecord :=
  if String.eqb (bucket r) b
  then mkCrifRecord (tradeId r) (nettingSetDetails r) (productClass r) (riskType r)
                    (qualifier r) (bucket r) (label1 r) (label2 r) (amountCurrency r)
                    (amount r) (f r) (imModel r) (collectRegulations r)
                    (postRegulations r)
  else r.

(** *** The margin without the additional margin *)

(** The overall margin less the overall additional margin. *)
Definition simmPart (results : SimmResults) : R :=
  results_get results keyAll
  - results_get results
      (ProductClass.All, RiskClass.All, MarginType.AdditionalIM, "All").

(** *** The entries of the curvature margin *)

(** The entry of the map [curvatureMargin] returns at [key], for a risk
    type outside the FX risk class: the total at "All", the part of the
    Residual bucket at "Residual" unless the absolute [CVR] of the bucket
    is negligible, [K_b] at any other bucket. *)
Definition curvatureEntryFormula (cfg : SimmConfiguration) (calculationCcy : string)
    (nsd : NettingSetDetails) (pc : ProductClass.t) (rt : RiskType.t)
    (side : SimmSide.t) (rfLabels : bool) (netRecords : SimmNetSensitivities)
    (key : string) : option R :=
  let buckets := bucketsOf (riskTypeRange nsd pc rt netRecords) in
  if String.eqb key "All"
  then Some (curvatureTotalFormula cfg calculationCcy nsd pc rt side rfLabels netRecords)
  else if String.eqb key "Residual"
       then match sm_find "Residual" buckets with
            | Some qs =>
                if close_enough
                     (bucketAbsCvr cfg calculationCcy nsd pc rt side rfLabels netRecords
                                   ("Residual", qs)) 0
                then None
                else Some (curvatureResidualPart cfg calculationCcy nsd pc rt side
                                                 rfLabels netRecords buckets)
            | None => None
            end
       else match sm_find key buckets with
            | Some qs =>
                Some (bucketCurvatureK cfg calculationCcy nsd pc rt side netRecords
                                       (key, qs))
            | None => None
            end.

(* ================================================================= *)
(** ** Sample inputs *)


Module Samples.

(** A configuration with unit weights and thresholds and no correlation. *)
Definition unitCfg : SimmConfiguration :=
  mkSimmConfiguration
    (fun _ _ _ _ => 1)
    (fun _ _ _ _ _ _ _ _ _ => 0)
    (fun _ _ => 1)
    (fun _ _ => 1)
    (fun _ _ _ _ => 1)
    (fun _ => 1)
    1
    (fun _ _ => 0)
    SimmVersion.V2_6
    (fun _ => true).

Definition record (rt : RiskType.t) (q b l1 : string) (amt : R) : CrifRecord :=
  mkCrifRecord "" "NS1" ProductClass.RatesFX rt q b l1 "" "USD" amt amt "SIMM" "" "".

(** Two Risk_FX records, one of them in the calculation currency USD. *)
Definition fxRecords : SimmNetSensitivities :=
  [record RiskType.FX "EUR" "" "" 100; record RiskType.FX "USD" "" "" 50].

(** A fixed add-on of minus one USD, the only record of its netting set. *)
Definition fixedAddOn : CrifRecord :=
  mkCrifRecord "" "NS1" ProductClass.Empty RiskType.AddOnFixedAmount
               "" "" "" "" "USD" (-1) (-1) "" "" "".

(** What [populateResults] leaves for a netting set without sensitivities:
    the overall margin of zero. *)
Definition emptyPortfolioResults : SimmResults := [(keyAll, 0)].

(** Two net CFTC records and a SEC record equal to the first but for its
    amount currency. *)
Definition cftcA : CrifRecord := record RiskType.IRCurve "USD" "1" "2y" 10.
Definition cftcB : CrifRecord := record RiskType.IRCurve "EUR" "1" "2y" 20.
Definition secA : CrifRecord := setAmountCurrency "EUR" cftcA.

Definition cftcAndSec : smap CrifLoader :=
  [("CFTC", [cftcA; cftcB]); ("SEC", [secA])].

(** A record collected under CFTC, and a parser for regulation strings
    that name at most one regulation. *)
Definition regulated : CrifRecord :=
  mkCrifRecord "t1" "NS1" ProductClass.RatesFX RiskType.IRCurve "USD" "1" "2y" ""
               "USD" 10 10 "SIMM" "CFTC" "".

Definition parseOne (regs : string) : sset :=
  if String.eqb regs "" then ["Unspecified"] else [regs].

(** The unit configuration with a curvature margin scaling of two. *)
Definition scaledCfg : SimmConfiguration :=
  mkSimmConfiguration
    (weight unitCfg) (correlation unitCfg) (concentrationThreshold unitCfg)
    (curvatureWeight unitCfg) (sigma unitCfg) (historicalVolatilityRatio unitCfg)
    2
    (correlationRiskClasses unitCfg) (version unitCfg) (isValidRiskType unitCfg).

(** One equity volatility record of one USD in bucket "1". *)
Definition equityVolRecords : SimmNetSensitivities :=
  [record RiskType.EquityVol "ISSUER" "1" "" 1].

(** One currency with an IRCurve sensitivity of four and a cross currency
    basis sensitivity of three. *)
Definition irDeltaRecords : SimmNetSensitivities :=
  [ record RiskType.IRCurve "USD" "1" "2y" 4;
    record RiskType.XCcyBasis "USD" "" "" 3 ].

(** Equity sensitivities in bucket 1 and in the Residual bucket. *)
Definition equityRecords : SimmNetSensitivities :=
  [ record RiskType.Equity "ISSUER" "1" "" 1;
    record RiskType.Equity "OTHER" "Residual" "" 2 ].

(** Interest rate volatility sensitivities in two currencies, one of them
    with an inflation volatility sensitivity. *)
Definition irVolRecords : SimmNetSensitivities :=
  [ record RiskType.IRVol "USD" "" "2y" 3;
    record RiskType.IRVol "EUR" "" "5y" (-1);
    record RiskType.InflationVol "EUR" "" "5y" 2 ].

(** The unit configuration under SIMM version 1.0. *)
Definition v1Cfg : SimmConfiguration :=
  mkSimmConfiguration
    (fun _ _ _ _ => 1)
    (fun _ _ _ _ _ _ _ _ _ => 0)
    (fun _ _ => 1)
    (fun _ _ => 1)
    (fun _ _ _ _ => 1)
    (fun _ => 1)
    1
    (fun _ _ => 0)
    SimmVersion.V1_0
    (fun _ => true).

(** An interest rate volatility sensitivity in USD and an inflation
    volatility sensitivity in EUR, a currency without interest rate
    volatility. *)
Definition inflationVolAlone : SimmNetSensitivities :=
  [ record RiskType.IRVol "USD" "" "2y" 3;
    record RiskType.InflationVol "EUR" "" "5y" 2 ].

(** Equity volatility records in the buckets "1" and "12". *)
Definition equityVolTwoBuckets : SimmNetSensitivities :=
  [ record RiskType.EquityVol "ISSUER" "1" "" 1;
    record RiskType.EquityVol "INDEX" "12" "" 7 ].

End Samples.

(* ================================================================= *)
(** * Properties *)



(* ----------------------------------------------------------------- *)
(** ** Strings, maps and sets *)

Lemma compare_refl (s : string) : String.compare s s = Eq.
Proof. apply OrderedTypeEx.String_as_OT.cmp_eq. reflexivity. Qed.

Lemma compare_Eq_eq (a b : string) : String.compare a b = Eq <-> a = b.
Proof. apply OrderedTypeEx.String_as_OT.cmp_eq. Qed.

Lemma compare_Lt_neq (a b : string) : String.compare a b = Lt -> a <> b.
Proof. intros H E. subst. rewrite compare_refl in H. discriminate. Qed.

Lemma compare_Gt_neq (a b : string) : String.compare a b = Gt -> a <> b.
Proof. intros H E. subst. rewrite compare_refl in H. discriminate. Qed.

Lemma compare_Lt_trans (a b c : string) :
  String.compare a b = Lt -> String.compare b c = Lt -> String.compare a c = Lt.
Proof.
  intros H1 H2.
  apply OrderedTypeEx.String_as_OT.cmp_lt in H1. apply OrderedTypeEx.String_as_OT.cmp_lt in H2.
  apply OrderedTypeEx.String_as_OT.cmp_lt. eapply OrderedTypeEx.String_as_OT.lt_trans; eassumption.
Qed.

Lemma compare_Gt_Lt (a b : string) :
  String.compare a b = Gt <-> String.compare b a = Lt.
Proof.
  rewrite (String.compare_antisym b a).
  destruct (String.compare a b); simpl; split; congruence.
Qed.

Lemma eqb_false_of_neq (a b : string) : a <> b -> String.eqb a b = false.
Proof. apply String.eqb_neq. Qed.

Section MapLemmas.

Variable V : Type.

Lemma sm_find_set (k k' : string) (v : V) (m : smap V) :
  sm_find k (sm_set k' v m) = if String.eqb k k' then Some v else sm_find k m.
Proof.
  induction m as [|[k0 v0] m IH]; simpl.
  - reflexivity.
  - destruct (String.compare k' k0) eqn:C; simpl.
    + apply compare_Eq_eq in C. subst k0.
      destruct (String.eqb k k'); reflexivity.
    + destruct (String.eqb k k') eqn:E; [reflexivity|]. reflexivity.
    + destruct (String.eqb k k0) eqn:E0.
      * apply String.eqb_eq in E0. subst k0.
        apply compare_Gt_neq in C.
        rewrite eqb_false_of_neq by congruence. reflexivity.
      * exact IH.
Qed.

Lemma sm_find_set_same (k : string) (v : V) (m : smap V) :
  sm_find k (sm_set k v m) = Some v.
Proof. rewrite sm_find_set, String.eqb_refl. reflexivity. Qed.

Lemma sm_find_set_other (k k' : string) (v : V) (m : smap V) :
  k <> k' -> sm_find k (sm_set k' v m) = sm_find k m.
Proof. intros H. rewrite sm_find_set, eqb_false_of_neq by exact H. reflexivity. Qed.

Lemma sm_set_Forall (P : string * V -> Prop) (k : string) (v : V) (m : smap V) :
  Forall P m -> P (k, v) -> Forall P (sm_set k v m).
Proof.
  intros Hm Hkv. induction Hm as [|[k0 v0] m H0 Hm IH]; simpl.
  - constructor; [assumption|constructor].
  - destruct (String.compare k k0); repeat constructor; assumption.
Qed.

Lemma sm_erase_Forall (P : string * V -> Prop) (k : string) (m : smap V) :
  Forall P m -> Forall P (sm_erase k m).
Proof.
  intros Hm. unfold sm_erase. apply Forall_forall. intros x Hx.
  apply filter_In in Hx. rewrite Forall_forall in Hm. apply Hm, Hx.
Qed.

Lemma sm_find_In (k : string) (v : V) (m : smap V) :
  sm_find k m = Some v -> In (k, v) m.
Proof.
  induction m as [|[k0 v0] m IH]; simpl; [discriminate|].
  destruct (String.eqb k k0) eqn:E.
  - apply String.eqb_eq in E. subst. intros H. inversion H. subst. now left.
  - intros H. right. auto.
Qed.

Lemma sm_find_erase (k k' : string) (m : smap V) :
  sm_find k (sm_erase k' m) = if String.eqb k' k then None else sm_find k m.
Proof.
  unfold sm_erase. induction m as [|[k0 v0] m IH]; simpl.
  - destruct (String.eqb k' k); reflexivity.
  - destruct (String.eqb k' k0) eqn:E0; simpl.
    + apply String.eqb_eq in E0. subst k0. rewrite IH.
      rewrite (String.eqb_sym k k'). destruct (String.eqb k' k); reflexivity.
    + destruct (String.eqb k k0) eqn:E.
      * apply String.eqb_eq in E. subst k0. rewrite E0. reflexivity.
      * exact IH.
Qed.

End MapLemmas.

Lemma nonneg_nil : nonnegValues [].
Proof. constructor. Qed.

Lemma nonneg_set (k : string) (v : R) (m : smap R) :
  nonnegValues m -> 0 <= v -> nonnegValues (sm_set k v m).
Proof. intros. apply sm_set_Forall; assumption. Qed.

Lemma nonneg_copyInto (a b : smap R) :
  nonnegValues a -> nonnegValues b -> nonnegValues (copyInto a b).
Proof.
  unfold copyInto. revert b.
  induction a as [|[k v] a IH]; simpl; intros b Ha Hb; [assumption|].
  inversion Ha; subst. apply IH; [assumption|]. apply nonneg_set; assumption.
Qed.

Lemma nonneg_abs (m : smap R) :
  nonnegValues (map (fun kv => (fst kv, Rabs (snd kv))) m).
Proof.
  unfold nonnegValues. apply Forall_forall. intros x Hx.
  apply in_map_iff in Hx. destruct Hx as [y [<- _]]. simpl. apply Rabs_pos.
Qed.

Lemma nonneg_get (k : string) (m : smap R) : nonnegValues m -> 0 <= sm_get k m.
Proof.
  intros Hm. unfold sm_get. destruct (sm_find k m) eqn:F; [|lra].
  apply sm_find_In in F. unfold nonnegValues in Hm. rewrite Forall_forall in Hm.
  apply (Hm (k, r)). exact F.
Qed.

Lemma nonneg_erase (k : string) (m : smap R) :
  nonnegValues m -> nonnegValues (sm_erase k m).
Proof. apply sm_erase_Forall. Qed.

Lemma sqrt_nonneg (x : R) : 0 <= sqrt x.
Proof. apply sqrt_pos. Qed.

(* ----------------------------------------------------------------- *)
(** ** Signs of the margins *)

Section Signs.

Variable cfg : SimmConfiguration.
Variable calculationCcy : string.

Lemma marginBucketLoop_nonFX rt hvr cr earlier rest st :
  riskClassIsFX rt = false ->
  bsBucketMargins (marginBucketLoop cfg calculationCcy rt hvr cr earlier rest st)
  = bsBucketMargins st.
Proof.
  intros HFX. revert earlier st.
  induction rest as [|it rest IH]; intros earlier st; simpl; [reflexivity|].
  destruct (isCalcCcyFX calculationCcy rt (qualifier it)).
  - apply IH.
  - rewrite IH. simpl. rewrite HFX. reflexivity.
Qed.

Lemma marginBucketSteps_nonneg nsd pc rt hvr recs buckets st :
  nonnegValues (msBucketMargin st) ->
  nonnegValues
    (msBucketMargin (fold_left (marginBucketStep cfg calculationCcy nsd pc rt hvr recs)
                               buckets st)).
Proof.
  revert st. induction buckets as [|kv buckets IH]; intros st H; simpl; [assumption|].
  apply IH. simpl. apply nonneg_set; [assumption|apply sqrt_nonneg].
Qed.

Lemma marginBucketSteps_nonFX nsd pc rt hvr recs buckets st :
  riskClassIsFX rt = false ->
  msBucketMargins (fold_left (marginBucketStep cfg calculationCcy nsd pc rt hvr recs)
                             buckets st)
  = msBucketMargins st.
Proof.
  intros HFX. revert st.
  induction buckets as [|kv buckets IH]; intros st; simpl; [reflexivity|].
  rewrite IH. simpl. apply marginBucketLoop_nonFX. exact HFX.
Qed.

Lemma marginResult_nonneg rt buckets st :
  nonnegValues (msBucketMargin st) ->
  (riskClassIsFX rt = false -> msBucketMargins st = []) ->
  nonnegValues (marginResult cfg calculationCcy rt buckets st).
Proof.
  intros Hbm Hb. unfold marginResult.
  set (residualMargin := if sm_mem "Residual" (msBucketMargin st)
                         then sm_get "Residual" (msBucketMargin st) else 0).
  assert (Hres : 0 <= residualMargin).
  { unfold residualMargin. destruct (sm_mem _ _); [apply nonneg_get; assumption|lra]. }
  cbv zeta.
  apply nonneg_set.
  - destruct (riskClassIsFX rt) eqn:HFX; simpl.
    + apply nonneg_abs.
    + fold (copyInto (sm_erase "Residual" (msBucketMargin st))
              (if negb (close_enough residualMargin 0)
               then sm_set "Residual" residualMargin (msBucketMargins st)
               else msBucketMargins st)).
      apply nonneg_copyInto; [apply nonneg_erase; assumption|].
      rewrite Hb by reflexivity.
      destruct (negb (close_enough residualMargin 0));
        [apply nonneg_set; [apply nonneg_nil|assumption]|apply nonneg_nil].
  - pose proof (sqrt_nonneg
      (Rmax (marginAggregate cfg calculationCcy rt buckets
               (msSumWeightedSensis st) [] (sm_erase "Residual" (msBucketMargin st)) 0) 0)).
    lra.
Qed.

Lemma margin_nonneg nsd pc rt recs :
  nonnegValues (fst (margin cfg calculationCcy nsd pc rt recs)).
Proof.
  unfold margin.
  destruct (bucketsOf (riskTypeRange nsd pc rt recs)) as [|kv0 buckets] eqn:B.
  - simpl. constructor; [simpl; lra|constructor].
  - cbv zeta. unfold fst at 1. apply marginResult_nonneg.
    + apply (marginBucketSteps_nonneg nsd pc rt _ recs (kv0 :: buckets)).
      apply nonneg_nil.
    + intros HFX.
      rewrite (marginBucketSteps_nonFX nsd pc rt _ recs (kv0 :: buckets)) by exact HFX.
      reflexivity.
Qed.

End Signs.

Section SignsIR.

Variable cfg : SimmConfiguration.
Variable calculationCcy : string.

Lemma irDeltaQualifier_nonneg q pIr itXccy itInflation :
  0 <= snd (irDeltaQualifier cfg calculationCcy q pIr itXccy itInflation).
Proof.
  unfold irDeltaQualifier.
  destruct (irDeltaCurveLoop cfg q _ [] pIr (0, 0)) as [s0 d0].
  destruct itInflation as [i|]; destruct itXccy as [x|]; simpl; apply sqrt_nonneg.
Qed.

Lemma fold_irDelta_error nsd pc recs qs e :
  fold_left (irDeltaQualifierStep cfg calculationCcy nsd pc recs) qs (Error e)
  = Error e.
Proof. induction qs as [|q qs IH]; simpl; [reflexivity|exact IH]. Qed.

Lemma irDeltaSteps_nonneg nsd pc recs qs st0 st :
  nonnegValues (irMargin st0) ->
  fold_left (irDeltaQualifierStep cfg calculationCcy nsd pc recs) qs (OK st0) = OK st ->
  nonnegValues (irMargin st).
Proof.
  revert st0. induction qs as [|q qs IH]; intros st0 H0 H; simpl in H.
  - inversion H. subst. assumption.
  - destruct (Nat.ltb (List.length (qualifierRange nsd pc RiskType.XCcyBasis q recs)) 2);
      simpl in H; [|rewrite fold_irDelta_error in H; discriminate].
    destruct (Nat.ltb (List.length (qualifierRange nsd pc RiskType.Inflation q recs)) 2);
      simpl in H; [|rewrite fold_irDelta_error in H; discriminate].
    pose proof (irDeltaQualifier_nonneg q
                  (qualifierRange nsd pc RiskType.IRCurve q recs)
                  (hd_error (qualifierRange nsd pc RiskType.XCcyBasis q recs))
                  (hd_error (qualifierRange nsd pc RiskType.Inflation q recs))) as Hk.
    destruct (irDeltaQualifier cfg calculationCcy q _ _ _) as [[cr sumWs] k].
    simpl in Hk. eapply IH; [|exact H]. simpl. apply nonneg_set; assumption.
Qed.

Lemma irDeltaMargin_nonneg nsd pc recs m b :
  irDeltaMargin cfg calculationCcy nsd pc recs = OK (m, b) -> nonnegValues m.
Proof.
  unfold irDeltaMargin.
  destruct (qualifiersOf _ _) as [|q0 qs] eqn:Q.
  - intros H. inversion H. subst. simpl. constructor; [simpl; lra|constructor].
  - destruct (fold_left _ (q0 :: qs) _) as [st|e] eqn:F; simpl; [|discriminate].
    intros H. inversion H. subst. clear H.
    apply nonneg_set; [|apply sqrt_nonneg].
    apply nonneg_copyInto; [|apply nonneg_nil].
    eapply irDeltaSteps_nonneg; [|exact F]. apply nonneg_nil.
Qed.

Lemma irVegaSteps_nonneg nsd pc recs qs st0 :
  nonnegValues (irMargin st0) ->
  nonnegValues
    (irMargin (fold_left (irVegaQualifierStep cfg nsd pc recs) qs st0)).
Proof.
  revert st0. induction qs as [|q qs IH]; intros st0 H0; simpl; [assumption|].
  apply IH. simpl. apply nonneg_set; [assumption|apply sqrt_nonneg].
Qed.

Lemma irVegaMargin_nonneg nsd pc recs :
  nonnegValues (fst (irVegaMargin cfg calculationCcy nsd pc recs)).
Proof.
  unfold irVegaMargin.
  destruct (qualifiersOf _ _) as [|q0 qs] eqn:Q.
  - simpl. constructor; [simpl; lra|constructor].
  - cbv beta zeta. simpl fst. apply nonneg_set; [|apply sqrt_nonneg].
    apply nonneg_copyInto; [|apply nonneg_nil].
    apply (irVegaSteps_nonneg nsd pc recs (q0 :: qs)). apply nonneg_nil.
Qed.

Lemma irCurvatureVolLoop_margin q mult earlier rest st cm :
  icMargin (fst (irCurvatureVolLoop cfg q mult earlier rest st cm)) = icMargin st.
Proof.
  revert earlier st cm. induction rest as [|it rest IH]; intros; simpl; [reflexivity|].
  rewrite IH. reflexivity.
Qed.

Lemma irCurvatureStep_margin nsd pc mult recs st q :
  exists k, 0 <= k /\
    icMargin (irCurvatureQualifierStep cfg nsd pc mult recs st q)
    = sm_set q k (icMargin st).
Proof.
  unfold irCurvatureQualifierStep.
  pose proof (irCurvatureVolLoop_margin q mult []
                (qualifierRange nsd pc RiskType.IRVol q recs) st 0) as Hm.
  destruct (irCurvatureVolLoop cfg q mult [] _ st _) as [st1 cm1]. simpl in Hm.
  destruct (SimmVersion.gtb (version cfg) SimmVersion.V1_0); simpl;
    eexists; (split; [apply sqrt_nonneg|rewrite Hm; reflexivity]).
Qed.

Lemma irCurvatureSteps_nonneg nsd pc mult recs qs st0 :
  nonnegValues (icMargin st0) ->
  nonnegValues
    (icMargin (fold_left (irCurvatureQualifierStep cfg nsd pc mult recs) qs st0)).
Proof.
  revert st0. induction qs as [|q qs IH]; intros st0 H0; simpl; [assumption|].
  apply IH. destruct (irCurvatureStep_margin nsd pc mult recs st0 q) as [k [Hk ->]].
  apply nonneg_set; assumption.
Qed.

Lemma irCurvatureMargin_nonneg nsd pc side recs m b :
  0 <= curvatureMarginScaling cfg ->
  irCurvatureMargin cfg nsd pc side recs = OK (m, b) -> nonnegValues m.
Proof.
  intros Hs. unfold irCurvatureMargin.
  destruct (qualifiersOf _ _) as [|q0 qs] eqn:Q.
  - intros H. inversion H. subst. simpl. constructor; [simpl; lra|constructor].
  - set (st := fold_left _ (q0 :: qs) _).
    destruct (close_enough (icSumAbsWs st) 0).
    + intros H. inversion H. subst. simpl. constructor; [simpl; lra|constructor].
    + destruct (irCurvatureAggregate cfg st [] (q0 :: qs) 0) as [a|e]; simpl;
        [|discriminate].
      intros H. inversion H. subst. clear H.
      apply nonneg_set.
      * apply nonneg_copyInto; [|apply nonneg_nil].
        apply (irCurvatureSteps_nonneg nsd pc (sideMultiplier side) recs (q0 :: qs)).
        apply nonneg_nil.
      * apply Rmult_le_pos; [assumption|apply Rmax_r].
Qed.

Lemma curvatureSteps_nonneg nsd pc rt mult rf recs buckets st :
  nonnegValues (csMargin st) ->
  nonnegValues
    (csMargin (fold_left (curvatureBucketStep cfg calculationCcy nsd pc rt mult rf recs)
                         buckets st)).
Proof.
  revert st. induction buckets as [|kv buckets IH]; intros st H; simpl; [assumption|].
  apply IH. simpl. apply nonneg_set; [assumption|apply sqrt_nonneg].
Qed.

Lemma curvatureBucketLoop_nonFX rt mult rf b earlier rest st :
  riskClassIsFX rt = false ->
  cbBucketMargins (curvatureBucketLoop cfg calculationCcy rt mult rf b earlier rest st)
  = cbBucketMargins st.
Proof.
  intros HFX. revert earlier st.
  induction rest as [|it rest IH]; intros earlier st; simpl; [reflexivity|].
  rewrite IH. simpl. rewrite HFX. reflexivity.
Qed.

Lemma curvatureSteps_nonFX nsd pc rt mult rf recs buckets st :
  riskClassIsFX rt = false ->
  csBucketMargins (fold_left (curvatureBucketStep cfg calculationCcy nsd pc rt mult rf recs)
                             buckets st)
  = csBucketMargins st.
Proof.
  intros HFX. revert st.
  induction buckets as [|kv buckets IH]; intros st; simpl; [reflexivity|].
  rewrite IH. simpl. apply curvatureBucketLoop_nonFX. exact HFX.
Qed.

Lemma curvatureNonResidual_nonneg rt buckets cm sw saw :
  0 <= curvatureNonResidual cfg calculationCcy rt buckets cm sw saw.
Proof.
  unfold curvatureNonResidual.
  destruct (negb (close_enough (accumulate saw) 0)); [apply Rmax_r|lra].
Qed.

Lemma curvatureMargin_nonneg nsd pc rt side recs rf :
  nonnegValues (fst (curvatureMargin cfg calculationCcy nsd pc rt side recs rf)).
Proof.
  unfold curvatureMargin.
  destruct (bucketsOf (riskTypeRange nsd pc rt recs)) as [|kv0 buckets] eqn:B.
  - simpl. constructor; [simpl; lra|constructor].
  - set (st := fold_left _ (kv0 :: buckets) _).
    assert (Hcm : nonnegValues (csMargin st)).
    { apply curvatureSteps_nonneg. apply nonneg_nil. }
    cbv zeta.
    set (nr := curvatureNonResidual cfg calculationCcy rt (kv0 :: buckets) _ _ _).
    assert (Hnr : 0 <= nr) by apply curvatureNonResidual_nonneg.
    set (c := negb (close_enough _ 0)).
    set (r := Rmax _ 0).
    assert (Hr : 0 <= r) by apply Rmax_r.
    destruct c; simpl fst.
    + apply nonneg_set; [|lra].
      destruct (riskClassIsFX rt) eqn:HFX; simpl; [apply nonneg_abs|].
      apply nonneg_copyInto.
      * apply nonneg_set; [apply nonneg_erase; assumption|assumption].
      * unfold st. rewrite curvatureSteps_nonFX by exact HFX. apply nonneg_nil.
    + apply nonneg_set; [|lra].
      destruct (riskClassIsFX rt) eqn:HFX; simpl; [apply nonneg_abs|].
      apply nonneg_copyInto.
      * apply nonneg_erase; assumption.
      * unfold st. rewrite curvatureSteps_nonFX by exact HFX. apply nonneg_nil.
Qed.

End SignsIR.

(* ----------------------------------------------------------------- *)
(** ** Sorted maps *)

Section SortedMaps.

Variable V : Type.

Lemma keysAfter_find (k : string) (m : smap V) :
  keysAfter k m -> sm_find k m = None.
Proof.
  induction 1 as [|[k0 v0] m H _ IH]; simpl; [reflexivity|].
  simpl in H. apply compare_Lt_neq in H.
  rewrite eqb_false_of_neq by exact H. exact IH.
Qed.

Lemma keysAfter_trans (k k' : string) (m : smap V) :
  String.compare k k' = Lt -> keysAfter k' m -> keysAfter k m.
Proof.
  intros Hk Hm. unfold keysAfter in *. rewrite Forall_forall in *.
  intros x Hx. eapply compare_Lt_trans; [exact Hk|apply Hm, Hx].
Qed.

Lemma keysAfter_set (k0 k : string) (v : V) (m : smap V) :
  String.compare k0 k = Lt -> keysAfter k0 m -> keysAfter k0 (sm_set k v m).
Proof. intros Hk Hm. apply sm_set_Forall; assumption. Qed.

Lemma sm_set_sorted (k : string) (v : V) (m : smap V) :
  smSorted m -> smSorted (sm_set k v m).
Proof.
  induction m as [|[k0 v0] m IH]; simpl; intros Hs.
  - split; [constructor|exact I].
  - destruct Hs as [Ha Hs]. destruct (String.compare k k0) eqn:C; simpl.
    + apply compare_Eq_eq in C. subst k0. split; assumption.
    + split; [|split; assumption].
      constructor; [exact C|]. eapply keysAfter_trans; eassumption.
    + split; [|apply IH; exact Hs].
      apply keysAfter_set; [|exact Ha]. apply compare_Gt_Lt. exact C.
Qed.

Lemma sm_erase_sorted (k : string) (m : smap V) :
  smSorted m -> smSorted (sm_erase k m).
Proof.
  unfold sm_erase. induction m as [|[k0 v0] m IH]; simpl; intros Hs; [exact I|].
  destruct Hs as [Ha Hs]. destruct (negb (String.eqb k k0)); simpl.
  - split; [|apply IH; exact Hs].
    unfold keysAfter in *. rewrite Forall_forall in *.
    intros x Hx. apply filter_In in Hx. apply Ha, Hx.
  - apply IH; exact Hs.
Qed.

Lemma smSorted_ext (m1 m2 : smap V) :
  smSorted m1 -> smSorted m2 ->
  (forall k, sm_find k m1 = sm_find k m2) -> m1 = m2.
Proof.
  revert m2. induction m1 as [|[k1 v1] m1 IH]; intros [|[k2 v2] m2] H1 H2 E.
  - reflexivity.
  - specialize (E k2). simpl in E. rewrite String.eqb_refl in E. discriminate.
  - specialize (E k1). simpl in E. rewrite String.eqb_refl in E. discriminate.
  - destruct H1 as [A1 S1]. destruct H2 as [A2 S2]. simpl in A1, A2.
    destruct (String.compare k1 k2) eqn:C.
    + apply compare_Eq_eq in C. subst k2.
      pose proof (E k1) as E1. simpl in E1. rewrite String.eqb_refl in E1.
      inversion E1. subst v2. f_equal.
      apply IH; [assumption|assumption|].
      intros k. specialize (E k). simpl in E.
      destruct (String.eqb k k1) eqn:Ek; [|exact E].
      apply String.eqb_eq in Ek. subst k.
      rewrite (keysAfter_find A1), (keysAfter_find A2). reflexivity.
    + exfalso. specialize (E k1). simpl in E. rewrite String.eqb_refl in E.
      rewrite eqb_false_of_neq in E by (apply compare_Lt_neq; exact C).
      rewrite keysAfter_find in E; [discriminate|].
      eapply keysAfter_trans; eassumption.
    + exfalso. apply compare_Gt_Lt in C.
      specialize (E k2). simpl in E. rewrite String.eqb_refl in E.
      rewrite eqb_false_of_neq in E by (apply compare_Lt_neq; exact C).
      rewrite keysAfter_find in E; [discriminate|].
      eapply keysAfter_trans; eassumption.
Qed.

End SortedMaps.

(* ----------------------------------------------------------------- *)
(** ** Sorted sets, [qualifiersOf] and [bucketsOf] *)

Lemma asMap_insert (x : string) (s : sset) :
  asMap (ss_insert x s) = sm_set x tt (asMap s).
Proof.
  induction s as [|y s IH]; simpl; [reflexivity|].
  destruct (String.compare x y) eqn:C; simpl.
  - apply compare_Eq_eq in C. subst. reflexivity.
  - reflexivity.
  - f_equal. exact IH.
Qed.

Lemma asMap_find (x : string) (s : sset) :
  sm_find x (asMap s) = if existsb (String.eqb x) s then Some tt else None.
Proof.
  induction s as [|y s IH]; simpl; [reflexivity|].
  destruct (String.eqb x y); simpl; [reflexivity|exact IH].
Qed.

Lemma asMap_inj (s1 s2 : sset) : asMap s1 = asMap s2 -> s1 = s2.
Proof.
  revert s2. induction s1 as [|x s1 IH]; intros [|y s2] H; simpl in H;
    try discriminate; [reflexivity|].
  inversion H. f_equal. apply IH. assumption.
Qed.

Lemma ss_insert_sorted (x : string) (s : sset) :
  ssSorted s -> ssSorted (ss_insert x s).
Proof.
  unfold ssSorted. fold (asMap s). fold (asMap (ss_insert x s)).
  rewrite asMap_insert. apply sm_set_sorted.
Qed.

Lemma ss_insert_mem (y x : string) (s : sset) :
  existsb (String.eqb y) (ss_insert x s) = String.eqb y x || existsb (String.eqb y) s.
Proof.
  pose proof (asMap_find y (ss_insert x s)) as H1.
  rewrite asMap_insert, sm_find_set, asMap_find in H1.
  destruct (String.eqb y x); simpl.
  - destruct (existsb (String.eqb y) (ss_insert x s)); [reflexivity|discriminate].
  - destruct (existsb (String.eqb y) (ss_insert x s));
      destruct (existsb (String.eqb y) s); try reflexivity; discriminate.
Qed.

Lemma ssSorted_ext (s1 s2 : sset) :
  ssSorted s1 -> ssSorted s2 ->
  (forall x, existsb (String.eqb x) s1 = existsb (String.eqb x) s2) -> s1 = s2.
Proof.
  intros H1 H2 E. apply asMap_inj. apply smSorted_ext; [exact H1|exact H2|].
  intros k. rewrite !asMap_find, E. reflexivity.
Qed.

Lemma ssSorted_filter (p : string -> bool) (s : sset) :
  ssSorted s -> ssSorted (filter p s).
Proof.
  unfold ssSorted. induction s as [|x s IH]; simpl; intros Hs; [exact I|].
  destruct Hs as [Ha Hs]. destruct (p x); simpl.
  - split; [|apply IH; exact Hs].
    unfold keysAfter in *. rewrite Forall_forall in *.
    intros kv Hkv. apply in_map_iff in Hkv. destruct Hkv as [y [<- Hy]].
    apply filter_In in Hy. apply Ha. apply in_map_iff. exists y. tauto.
  - apply IH; exact Hs.
Qed.

Lemma existsb_filter_eqb (p : string -> bool) (x : string) (s : sset) :
  existsb (String.eqb x) (filter p s) = p x && existsb (String.eqb x) s.
Proof.
  induction s as [|y s IH]; simpl; [rewrite andb_false_r; reflexivity|].
  destruct (p y) eqn:Py; simpl; rewrite IH.
  - destruct (String.eqb x y) eqn:E; simpl; [|reflexivity].
    apply String.eqb_eq in E. subst. rewrite Py. reflexivity.
  - destruct (String.eqb x y) eqn:E; simpl; [|reflexivity].
    apply String.eqb_eq in E. subst. rewrite Py. reflexivity.
Qed.

Lemma qualifiersOf_sorted (range : list CrifRecord) (qs : sset) :
  ssSorted qs -> ssSorted (qualifiersOf range qs).
Proof.
  unfold qualifiersOf. revert qs.
  induction range as [|r range IH]; intros qs H; simpl; [exact H|].
  apply IH. apply ss_insert_sorted. exact H.
Qed.

Lemma qualifiersOf_mem (x : string) (range : list CrifRecord) (qs : sset) :
  existsb (String.eqb x) (qualifiersOf range qs)
  = existsb (fun r => String.eqb x (qualifier r)) range || existsb (String.eqb x) qs.
Proof.
  unfold qualifiersOf. revert qs.
  induction range as [|r range IH]; intros qs; simpl; [reflexivity|].
  rewrite IH, ss_insert_mem.
  destruct (String.eqb x (qualifier r)); simpl;
    [rewrite orb_true_r; reflexivity|reflexivity].
Qed.

Lemma sm_getset_set (k k' : string) (v : sset) (m : smap sset) :
  sm_getset k (sm_set k' v m) = if String.eqb k k' then v else sm_getset k m.
Proof.
  unfold sm_getset. rewrite sm_find_set. destruct (String.eqb k k'); reflexivity.
Qed.

Lemma bucketsOf_find_from (b : string) (range : list CrifRecord) (acc : smap sset) :
  sm_find b
    (fold_left
       (fun buckets r =>
          sm_set (bucket r) (ss_insert (qualifier r) (sm_getset (bucket r) buckets)) buckets)
       range acc)
  = match filter (inBucket b) range with
    | [] => sm_find b acc
    | l => Some (qualifiersOf l (sm_getset b acc))
    end.
Proof.
  revert acc. induction range as [|r range IH]; intros acc; simpl; [reflexivity|].
  rewrite IH. rewrite sm_getset_set, sm_find_set.
  unfold inBucket at 2. rewrite (String.eqb_sym (bucket r) b).
  destruct (String.eqb b (bucket r)) eqn:E.
  - apply String.eqb_eq in E. subst b.
    destruct (filter (inBucket (bucket r)) range); reflexivity.
  - destruct (filter (inBucket b) range); reflexivity.
Qed.

Lemma bucketsOf_find (b : string) (range : list CrifRecord) :
  sm_find b (bucketsOf range)
  = match filter (inBucket b) range with
    | [] => None
    | l => Some (qualifiersOf l [])
    end.
Proof. unfold bucketsOf. rewrite bucketsOf_find_from. reflexivity. Qed.

Lemma bucketsOf_sorted (range : list CrifRecord) : smSorted (bucketsOf range).
Proof.
  unfold bucketsOf.
  assert (H : forall acc, smSorted acc ->
            smSorted (fold_left
              (fun buckets r =>
                 sm_set (bucket r) (ss_insert (qualifier r) (sm_getset (bucket r) buckets))
                        buckets) range acc)).
  { induction range as [|r range IH]; intros acc Ha; simpl; [exact Ha|].
    apply IH. apply sm_set_sorted. exact Ha. }
  apply H. exact I.
Qed.

(* ----------------------------------------------------------------- *)
(** ** Folds that write one entry per key *)

Lemma fold_left_ext (A B : Type) (f g : A -> B -> A) (l : list B) (a : A) :
  (forall x y, f x y = g x y) -> fold_left f l a = fold_left g l a.
Proof.
  intros E. revert a. induction l as [|y l IH]; intros a; simpl; [reflexivity|].
  rewrite E. apply IH.
Qed.

Lemma fold_left_ext_in (A B : Type) (f g : A -> B -> A) (l : list B) (a : A) :
  (forall x y, In y l -> f x y = g x y) -> fold_left f l a = fold_left g l a.
Proof.
  revert a. induction l as [|y l IH]; intros a E; simpl; [reflexivity|].
  rewrite E by (left; reflexivity). apply IH. intros x z Hz. apply E. right. exact Hz.
Qed.

Lemma filter_absorb (A : Type) (f p : A -> bool) (l : list A) :
  (forall x, f x = true -> p x = true) -> filter f (filter p l) = filter f l.
Proof.
  intros H. induction l as [|x l IH]; simpl; [reflexivity|].
  destruct (p x) eqn:P; simpl.
  - rewrite IH. reflexivity.
  - destruct (f x) eqn:F; [|exact IH]. apply H in F. congruence.
Qed.

Lemma filter_none (A : Type) (f p : A -> bool) (l : list A) :
  (forall x, f x = true -> p x = false) -> filter f (filter p l) = [].
Proof.
  intros H. induction l as [|x l IH]; simpl; [reflexivity|].
  destruct (p x) eqn:P; simpl; [|exact IH].
  destruct (f x) eqn:F; [|exact IH]. apply H in F. congruence.
Qed.

Lemma filter_comm (A : Type) (f p : A -> bool) (l : list A) :
  filter f (filter p l) = filter p (filter f l).
Proof.
  induction l as [|x l IH]; simpl; [reflexivity|].
  destruct (p x) eqn:P; destruct (f x) eqn:F; simpl; rewrite ?P, ?F, IH; reflexivity.
Qed.

Section KeyedFolds.

Variables V W : Type.
Variable g : string * V -> W.

Local Abbreviation writeAll := (writeAll g).
Local Abbreviation mapValues := (mapValues g).

Lemma writeAll_sorted (l : smap V) (acc : smap W) :
  smSorted acc -> smSorted (writeAll l acc).
Proof.
  unfold writeAll. revert acc. induction l as [|kv l IH]; intros acc H; simpl;
    [exact H|]. apply IH. apply sm_set_sorted. exact H.
Qed.

Lemma writeAll_find (k : string) (l : smap V) (acc : smap W) :
  smSorted l ->
  sm_find k (writeAll l acc)
  = match sm_find k l with
    | Some x => Some (g (k, x))
    | None => sm_find k acc
    end.
Proof.
  unfold writeAll. revert acc. induction l as [|[k0 x0] l IH]; intros acc Hs; simpl;
    [reflexivity|].
  destruct Hs as [Ha Hs]. rewrite IH by exact Hs. simpl fst. simpl in Ha.
  destruct (String.eqb k k0) eqn:E.
  - apply String.eqb_eq in E. subst k0.
    rewrite (keysAfter_find Ha). rewrite sm_find_set_same. reflexivity.
  - destruct (sm_find k l); [reflexivity|].
    rewrite sm_find_set, E. reflexivity.
Qed.

Lemma mapValues_find (k : string) (l : smap V) :
  sm_find k (mapValues l)
  = match sm_find k l with Some x => Some (g (k, x)) | None => None end.
Proof.
  unfold mapValues. induction l as [|[k0 x0] l IH]; simpl; [reflexivity|].
  destruct (String.eqb k k0) eqn:E; [|exact IH].
  apply String.eqb_eq in E. subst. reflexivity.
Qed.

Lemma mapValues_keysAfter (k : string) (l : smap V) :
  keysAfter k l -> keysAfter k (mapValues l).
Proof.
  unfold keysAfter, mapValues. rewrite !Forall_forall. intros H x Hx.
  apply in_map_iff in Hx. destruct Hx as [y [<- Hy]]. simpl. apply H, Hy.
Qed.

Lemma mapValues_sorted (l : smap V) : smSorted l -> smSorted (mapValues l).
Proof.
  induction l as [|kv l IH]; simpl; intros Hs; [exact I|].
  destruct Hs as [Ha Hs]. split; [apply mapValues_keysAfter; exact Ha|apply IH; exact Hs].
Qed.

Lemma writeAll_mapValues (l : smap V) :
  smSorted l -> writeAll l [] = mapValues l.
Proof.
  intros Hs. apply smSorted_ext.
  - apply writeAll_sorted. exact I.
  - apply mapValues_sorted. exact Hs.
  - intros k. rewrite writeAll_find by exact Hs. rewrite mapValues_find.
    destruct (sm_find k l); reflexivity.
Qed.

Lemma mapValues_erase (k : string) (l : smap V) :
  sm_erase k (mapValues l) = mapValues (sm_erase k l).
Proof.
  unfold sm_erase, mapValues. induction l as [|kv l IH]; simpl; [reflexivity|].
  destruct (negb (String.eqb k (fst kv))); simpl; rewrite IH; reflexivity.
Qed.

End KeyedFolds.

Lemma mapValues_snoc (V W : Type) (g : string * V -> W) (l : smap V) (kv : string * V) :
  mapValues g (l ++ [kv]) = mapValues g l ++ [(fst kv, g kv)].
Proof. unfold mapValues. rewrite map_app. reflexivity. Qed.

Lemma mapValues_cons (V W : Type) (g : string * V -> W) (kv : string * V) (l : smap V) :
  mapValues g (kv :: l) = (fst kv, g kv) :: mapValues g l.
Proof. reflexivity. Qed.

Lemma mapValues_ext_in (V W : Type) (g h : string * V -> W) (l : smap V) :
  (forall kv, In kv l -> g kv = h kv) -> mapValues g l = mapValues h l.
Proof.
  intros E. unfold mapValues. apply map_ext_in. intros kv H. rewrite E by exact H.
  reflexivity.
Qed.

Lemma sm_erase_erase (V : Type) (k : string) (m : smap V) :
  sm_erase k (sm_erase k m) = sm_erase k m.
Proof.
  unfold sm_erase. apply filter_absorb with (p := fun kv => negb (String.eqb k (fst kv))).
  auto.
Qed.

Lemma sm_erase_In (V : Type) (k : string) (kv : string * V) (m : smap V) :
  In kv (sm_erase k m) -> In kv m /\ fst kv <> k.
Proof.
  unfold sm_erase. intros H. apply filter_In in H. destruct H as [H1 H2].
  split; [exact H1|]. intros E. subst k. rewrite String.eqb_refl in H2. discriminate.
Qed.

Lemma smSorted_In_find (V : Type) (m : smap V) (k : string) (v : V) :
  smSorted m -> In (k, v) m -> sm_find k m = Some v.
Proof.
  induction m as [|[k0 v0] m IH]; simpl; intros Hs Hin; [contradiction|].
  destruct Hs as [Ha Hs]. destruct Hin as [E|Hin].
  - inversion E. subst. rewrite String.eqb_refl. reflexivity.
  - destruct (String.eqb k k0) eqn:E.
    + apply String.eqb_eq in E. subst k0. exfalso.
      unfold keysAfter in Ha. rewrite Forall_forall in Ha.
      apply Ha in Hin. simpl in Hin. rewrite compare_refl in Hin. discriminate.
    + apply IH; assumption.
Qed.

(* ----------------------------------------------------------------- *)
(** ** The buckets of [margin] one by one *)

Section MarginBuckets.

Variable cfg : SimmConfiguration.
Variable calculationCcy : string.
Variable nsd : NettingSetDetails.
Variable pc : ProductClass.t.
Variable rt : RiskType.t.

Lemma marginBucketLoop_sums hvr cr earlier rest s m bms bms' :
  bsSumWs (marginBucketLoop cfg calculationCcy rt hvr cr earlier rest
                            (mkBucketState s m bms))
  = bsSumWs (marginBucketLoop cfg calculationCcy rt hvr cr earlier rest
                              (mkBucketState s m bms'))
  /\ bsMargin (marginBucketLoop cfg calculationCcy rt hvr cr earlier rest
                                (mkBucketState s m bms))
     = bsMargin (marginBucketLoop cfg calculationCcy rt hvr cr earlier rest
                                  (mkBucketState s m bms')).
Proof.
  revert earlier s m bms bms'.
  induction rest as [|it rest IH]; intros earlier s m bms bms'; simpl;
    [split; reflexivity|].
  destruct (isCalcCcyFX calculationCcy rt (qualifier it)); apply IH.
Qed.

Lemma marginBucketStep_margin recs st kv :
  msBucketMargin (marginBucketStep cfg calculationCcy nsd pc rt
                    (historicalVolatilityRatio cfg rt) recs st kv)
  = sm_set (fst kv) (bucketK cfg calculationCcy nsd pc rt recs kv) (msBucketMargin st).
Proof.
  unfold marginBucketStep, bucketK, bucketLoopResult. simpl.
  f_equal. f_equal. f_equal. apply marginBucketLoop_sums.
Qed.

Lemma marginBucketStep_sumWs recs st kv :
  msSumWeightedSensis (marginBucketStep cfg calculationCcy nsd pc rt
                         (historicalVolatilityRatio cfg rt) recs st kv)
  = sm_set (fst kv) (bucketSumWs cfg calculationCcy nsd pc rt recs kv)
           (msSumWeightedSensis st).
Proof.
  unfold marginBucketStep, bucketSumWs, bucketLoopResult. simpl.
  f_equal. apply marginBucketLoop_sums.
Qed.

Lemma marginSteps_margin recs buckets st :
  msBucketMargin (fold_left (marginBucketStep cfg calculationCcy nsd pc rt
                               (historicalVolatilityRatio cfg rt) recs) buckets st)
  = writeAll (bucketK cfg calculationCcy nsd pc rt recs) buckets (msBucketMargin st).
Proof.
  unfold writeAll. revert st. induction buckets as [|kv buckets IH]; intros st; simpl;
    [reflexivity|]. rewrite IH, marginBucketStep_margin. reflexivity.
Qed.

Lemma marginSteps_sumWs recs buckets st :
  msSumWeightedSensis (fold_left (marginBucketStep cfg calculationCcy nsd pc rt
                                    (historicalVolatilityRatio cfg rt) recs) buckets st)
  = writeAll (bucketSumWs cfg calculationCcy nsd pc rt recs) buckets
             (msSumWeightedSensis st).
Proof.
  unfold writeAll. revert st. induction buckets as [|kv buckets IH]; intros st; simpl;
    [reflexivity|]. rewrite IH, marginBucketStep_sumWs. reflexivity.
Qed.

(** Records outside a bucket play no part in the bucket's loop. *)
Lemma bucketLoopResult_filter (p : CrifRecord -> bool) recs b qs bms :
  (forall r, bucket r = b -> p r = true) ->
  bucketLoopResult cfg calculationCcy nsd pc rt (filter p recs) (b, qs) bms
  = bucketLoopResult cfg calculationCcy nsd pc rt recs (b, qs) bms.
Proof.
  intros Hp. unfold bucketLoopResult. simpl fst. simpl snd.
  assert (HR : bucketRange nsd pc rt b (filter p recs) = bucketRange nsd pc rt b recs).
  { unfold bucketRange. apply filter_absorb. intros r Hr.
    apply andb_true_iff in Hr. destruct Hr as [_ Hr].
    apply String.eqb_eq in Hr. apply Hp. exact Hr. }
  assert (HC : concentrationRiskOf cfg calculationCcy nsd pc rt
                 (historicalVolatilityRatio cfg rt) b qs (filter p recs)
               = concentrationRiskOf cfg calculationCcy nsd pc rt
                   (historicalVolatilityRatio cfg rt) b qs recs).
  { unfold concentrationRiskOf. apply fold_left_ext. intros cr q.
    assert (HQ : bucketQualifierRange nsd pc rt b q (filter p recs)
                 = bucketQualifierRange nsd pc rt b q recs).
    { unfold bucketQualifierRange. apply filter_absorb. intros r Hr.
      apply andb_true_iff in Hr. destruct Hr as [Hr _].
      apply andb_true_iff in Hr. destruct Hr as [_ Hr].
      apply String.eqb_eq in Hr. apply Hp. exact Hr. }
    rewrite HQ. reflexivity. }
  rewrite HR, HC. reflexivity.
Qed.

Lemma marginAggregate_ext buckets buckets' sw sw' earlier rest m :
  (forall kv, In kv (earlier ++ rest) ->
     sm_getset (fst kv) buckets = sm_getset (fst kv) buckets'
     /\ sm_get (fst kv) sw = sm_get (fst kv) sw') ->
  marginAggregate cfg calculationCcy rt buckets sw earlier rest m
  = marginAggregate cfg calculationCcy rt buckets' sw' earlier rest m.
Proof.
  revert earlier m. induction rest as [|[ob ko] rest IH]; intros earlier m H; simpl;
    [reflexivity|].
  assert (Ho := H (ob, ko)). simpl in Ho.
  destruct Ho as [Ho1 Ho2]; [apply in_or_app; right; left; reflexivity|].
  rewrite Ho1, Ho2.
  rewrite (@fold_left_ext_in R (string * R)
             (fun m0 inner =>
                m0 + 2 * clampS (sm_get ob sw') ko
                     * clampS (sm_get (fst inner) sw) (snd inner)
                     * correlation cfg rt (ss_begin (sm_getset ob buckets')) "" "" rt
                         (ss_begin (sm_getset (fst inner) buckets)) "" "" calculationCcy)
             (fun m0 inner =>
                m0 + 2 * clampS (sm_get ob sw') ko
                     * clampS (sm_get (fst inner) sw') (snd inner)
                     * correlation cfg rt (ss_begin (sm_getset ob buckets')) "" "" rt
                         (ss_begin (sm_getset (fst inner) buckets')) "" "" calculationCcy)).
  - apply IH. intros kv Hkv. apply H. rewrite <- app_assoc in Hkv. exact Hkv.
  - intros x inner Hin.
    destruct (H inner) as [Hi1 Hi2]; [apply in_or_app; left; exact Hin|].
    rewrite Hi1, Hi2. reflexivity.
Qed.

End MarginBuckets.

(* ----------------------------------------------------------------- *)
(** ** The Residual bucket of [margin] *)

Lemma riskTypeRange_filter (p : CrifRecord -> bool) nsd pc rt recs :
  riskTypeRange nsd pc rt (filter p recs) = filter p (riskTypeRange nsd pc rt recs).
Proof. unfold riskTypeRange. apply filter_comm. Qed.

Lemma bucketsOf_nonResidual (range : list CrifRecord) :
  bucketsOf (filter (fun r => negb (isResidual r)) range)
  = sm_erase "Residual" (bucketsOf range).
Proof.
  apply smSorted_ext.
  - apply bucketsOf_sorted.
  - apply sm_erase_sorted, bucketsOf_sorted.
  - intros b. rewrite sm_find_erase, !bucketsOf_find.
    destruct (String.eqb "Residual" b) eqn:E.
    + apply String.eqb_eq in E. subst b.
      rewrite filter_none; [reflexivity|].
      intros r Hr. unfold inBucket in Hr. unfold isResidual. rewrite Hr. reflexivity.
    + rewrite filter_absorb; [reflexivity|].
      intros r Hr. unfold inBucket in Hr. apply String.eqb_eq in Hr. subst b.
      unfold isResidual. rewrite String.eqb_sym, E. reflexivity.
Qed.

Lemma bucketsOf_residual (range : list CrifRecord) :
  bucketsOf (filter isResidual range)
  = match sm_find "Residual" (bucketsOf range) with
    | Some qs => [("Residual", qs)]
    | None => []
    end.
Proof.
  apply smSorted_ext.
  - apply bucketsOf_sorted.
  - destruct (sm_find "Residual" (bucketsOf range)); simpl; [split; [constructor|]|]; exact I.
  - intros b. rewrite bucketsOf_find.
    destruct (String.eqb b "Residual") eqn:E.
    + apply String.eqb_eq in E. subst b.
      rewrite filter_absorb by (intros r Hr; exact Hr).
      rewrite bucketsOf_find.
      destruct (filter (inBucket "Residual") range); reflexivity.
    + rewrite filter_none.
      * destruct (sm_find "Residual" (bucketsOf range)); simpl; [rewrite E|]; reflexivity.
      * intros r Hr. unfold inBucket in Hr. apply String.eqb_eq in Hr. subst b.
        unfold isResidual. exact E.
Qed.

Lemma sm_get_set_same (k : string) (v : R) (m : smap R) : sm_get k (sm_set k v m) = v.
Proof. unfold sm_get. rewrite sm_find_set_same. reflexivity. Qed.

Lemma sm_get_set (k k' : string) (v : R) (m : smap R) :
  sm_get k (sm_set k' v m) = if String.eqb k k' then v else sm_get k m.
Proof. unfold sm_get. rewrite sm_find_set. destruct (String.eqb k k'); reflexivity. Qed.

Lemma sqrt_Rmax_0 : sqrt (Rmax 0 0) = 0.
Proof. rewrite Rmax_left by lra. apply sqrt_0. Qed.

Section ResidualBucket.

Variable cfg : SimmConfiguration.
Variable calculationCcy : string.
Variable nsd : NettingSetDetails.
Variable pc : ProductClass.t.
Variable rt : RiskType.t.

Let K := bucketK cfg calculationCcy nsd pc rt.
Let S := bucketSumWs cfg calculationCcy nsd pc rt.

Local Abbreviation totalOver := (totalOver cfg calculationCcy nsd pc rt).

Lemma totalOver_nil recs : totalOver recs [] = 0.
Proof.
  unfold totalOver; fold K S. simpl. unfold sm_mem, sm_erase. simpl.
  rewrite sqrt_Rmax_0. lra.
Qed.

Lemma totalMargin_unfold recs :
  totalMargin cfg calculationCcy nsd pc rt recs
  = totalOver recs (bucketsOf (riskTypeRange nsd pc rt recs)).
Proof.
  unfold totalMargin, margin.
  pose proof (bucketsOf_sorted (riskTypeRange nsd pc rt recs)) as Hs.
  destruct (bucketsOf (riskTypeRange nsd pc rt recs)) as [|kv0 buckets] eqn:B.
  - rewrite totalOver_nil. simpl. unfold sm_get. simpl. reflexivity.
  - remember (kv0 :: buckets) as bk eqn:Ebk.
    cbv zeta. unfold fst at 1. unfold marginResult. rewrite sm_get_set_same.
    rewrite marginSteps_margin, marginSteps_sumWs. simpl msBucketMargin.
    simpl msSumWeightedSensis. rewrite !writeAll_mapValues by exact Hs.
    subst bk. reflexivity.
Qed.

Lemma K_filter (p : CrifRecord -> bool) recs kv :
  (forall r, bucket r = fst kv -> p r = true) ->
  K (filter p recs) kv = K recs kv.
Proof.
  intros Hp. unfold K, bucketK. destruct kv as [b qs].
  rewrite bucketLoopResult_filter by exact Hp. reflexivity.
Qed.

Lemma S_filter (p : CrifRecord -> bool) recs kv :
  (forall r, bucket r = fst kv -> p r = true) ->
  S (filter p recs) kv = S recs kv.
Proof.
  intros Hp. unfold S, bucketSumWs. destruct kv as [b qs].
  rewrite bucketLoopResult_filter by exact Hp. reflexivity.
Qed.

Lemma nonResidual_keeps b r : b <> "Residual" -> bucket r = b -> negb (isResidual r) = true.
Proof.
  intros Hb Hr. unfold isResidual. rewrite Hr.
  rewrite eqb_false_of_neq by exact Hb. reflexivity.
Qed.

(** Without a Residual bucket the total is the cross-bucket aggregate. *)
Lemma totalOver_nonResidual recs buckets :
  smSorted buckets ->
  totalOver (nonResidualRecords recs) (sm_erase "Residual" buckets)
  = sqrt (Rmax (marginAggregate cfg calculationCcy rt buckets
                  (mapValues (S recs) buckets) []
                  (sm_erase "Residual" (mapValues (K recs) buckets)) 0) 0).
Proof.
  intros Hs. unfold totalOver; fold K S.
  assert (HK : mapValues (K (nonResidualRecords recs)) (sm_erase "Residual" buckets)
               = sm_erase "Residual" (mapValues (K recs) buckets)).
  { rewrite mapValues_erase. apply mapValues_ext_in. intros kv Hkv.
    apply sm_erase_In in Hkv. unfold nonResidualRecords. apply K_filter. intros r.
    apply nonResidual_keeps. tauto. }
  rewrite HK.
  assert (Hmem : sm_mem "Residual" (sm_erase "Residual" (mapValues (K recs) buckets))
                 = false).
  { unfold sm_mem. rewrite sm_find_erase, String.eqb_refl. reflexivity. }
  rewrite Hmem, sm_erase_erase, Rplus_0_r. f_equal. f_equal.
  apply marginAggregate_ext. simpl. intros kv Hkv.
  destruct (sm_erase_In _ _ _ Hkv) as [Hin Hne].
  apply in_map_iff in Hin. destruct Hin as [[b qs] [Hb Hin]]. simpl in Hb.
  subst kv. simpl fst in *.
  split.
  - unfold sm_getset. rewrite sm_find_erase.
    rewrite eqb_false_of_neq by congruence. reflexivity.
  - unfold sm_get. rewrite !mapValues_find, sm_find_erase.
    rewrite eqb_false_of_neq by congruence.
    rewrite (smSorted_In_find _ _ _ Hs Hin).
    unfold nonResidualRecords. rewrite S_filter; [reflexivity|].
    intros r. apply nonResidual_keeps. exact Hne.
Qed.

Lemma residualMargin_of recs buckets :
  (if sm_mem "Residual" (mapValues (K recs) buckets)
   then sm_get "Residual" (mapValues (K recs) buckets) else 0)
  = match sm_find "Residual" buckets with
    | Some qs => K recs ("Residual", qs)
    | None => 0
    end.
Proof.
  unfold sm_mem, sm_get. rewrite mapValues_find.
  destruct (sm_find "Residual" buckets); reflexivity.
Qed.

Lemma totalOver_residual recs qs :
  totalOver (residualRecords recs) [("Residual", qs)] = K recs ("Residual", qs).
Proof.
  unfold totalOver; fold K S. simpl. unfold sm_mem, sm_get, sm_erase. simpl.
  rewrite sqrt_Rmax_0, Rplus_0_l.
  apply K_filter. intros r Hr. simpl in Hr. unfold isResidual. rewrite Hr. reflexivity.
Qed.

End ResidualBucket.

(** The total of [margin] over all records is the total over the records
    outside the Residual bucket plus the total of the Residual records
    standing alone, and the latter is the margin of the Residual bucket. *)
Lemma residual_bucket_additive (cfg : SimmConfiguration) (calculationCcy : string)
    (nsd : NettingSetDetails) (pc : ProductClass.t) (rt : RiskType.t)
    (recs : SimmNetSensitivities) :
  totalMargin cfg calculationCcy nsd pc rt recs
  = totalMargin cfg calculationCcy nsd pc rt (nonResidualRecords recs)
    + totalMargin cfg calculationCcy nsd pc rt (residualRecords recs)
  /\ totalMargin cfg calculationCcy nsd pc rt (residualRecords recs)
     = match sm_find "Residual" (bucketsOf (riskTypeRange nsd pc rt recs)) with
       | Some qs => bucketK cfg calculationCcy nsd pc rt recs ("Residual", qs)
       | None => 0
       end.
Proof.
  assert (Hres : totalMargin cfg calculationCcy nsd pc rt (residualRecords recs)
                 = match sm_find "Residual" (bucketsOf (riskTypeRange nsd pc rt recs)) with
                   | Some qs => bucketK cfg calculationCcy nsd pc rt recs ("Residual", qs)
                   | None => 0
                   end).
  { rewrite totalMargin_unfold. unfold residualRecords.
    rewrite riskTypeRange_filter, bucketsOf_residual.
    destruct (sm_find "Residual" (bucketsOf (riskTypeRange nsd pc rt recs))) as [qs|];
      [apply totalOver_residual|apply totalOver_nil]. }
  split; [|exact Hres].
  rewrite Hres. rewrite !totalMargin_unfold. unfold nonResidualRecords at 2.
  rewrite riskTypeRange_filter, bucketsOf_nonResidual.
  pose proof (bucketsOf_sorted (riskTypeRange nsd pc rt recs)) as Hs.
  set (B := bucketsOf (riskTypeRange nsd pc rt recs)) in *.
  rewrite totalOver_nonResidual by exact Hs.
  destruct B as [|kv0 B'] eqn:EB.
  - rewrite totalOver_nil. simpl. unfold sm_erase. simpl. rewrite sqrt_Rmax_0. lra.
  - rewrite <- EB. unfold totalOver. rewrite residualMargin_of. reflexivity.
Qed.

(* ----------------------------------------------------------------- *)
(** ** Concentration risk *)

Lemma fold_left_plus (A : Type) (f : A -> R) (l : list A) (a : R) :
  fold_left (fun acc x => acc + f x) l a = a + sumR (map f l).
Proof.
  revert a. induction l as [|x l IH]; intros a; simpl; [lra|].
  rewrite IH. lra.
Qed.

Lemma sumR_map_scale (A : Type) (f : A -> R) (c : R) (l : list A) :
  sumR (map (fun x => c * f x) l) = c * sumR (map f l).
Proof. induction l as [|x l IH]; simpl; [lra|]. rewrite IH. lra. Qed.

Lemma Rmax_le_compat_r (a x y : R) : x <= y -> Rmax a x <= Rmax a y.
Proof.
  intros H. apply Rmax_lub; [apply Rmax_l|].
  eapply Rle_trans; [exact H|apply Rmax_r].
Qed.

Section ConcentrationRisk.

Variable cfg : SimmConfiguration.
Variable calculationCcy : string.
Variable nsd : NettingSetDetails.
Variable pc : ProductClass.t.
Variable rt : RiskType.t.
Variable hvr : R.
Variable b : string.

Local Abbreviation crValue := (crValue cfg calculationCcy nsd pc rt hvr b).

Lemma concentrationRiskOf_find_from recs q qs acc :
  sm_find q
    (fold_left
       (fun concentrationRisk q0 =>
          if isCalcCcyFX calculationCcy rt q0 then concentrationRisk
          else sm_set q0 (crValue recs q0) concentrationRisk)
       qs acc)
  = if existsb (String.eqb q) qs && negb (isCalcCcyFX calculationCcy rt q)
    then Some (crValue recs q) else sm_find q acc.
Proof.
  revert acc. induction qs as [|q0 qs IH]; intros acc; simpl; [reflexivity|].
  rewrite IH.
  destruct (existsb (String.eqb q) qs && negb (isCalcCcyFX calculationCcy rt q)) eqn:C.
  - apply andb_true_iff in C. destruct C as [C1 C2]. rewrite C1, C2, orb_true_r.
    reflexivity.
  - destruct (String.eqb q q0) eqn:E; simpl.
    + apply String.eqb_eq in E. subst q0.
      destruct (isCalcCcyFX calculationCcy rt q); simpl;
        [reflexivity|apply sm_find_set_same].
    + rewrite C. destruct (isCalcCcyFX calculationCcy rt q0); [reflexivity|].
      rewrite sm_find_set, E. reflexivity.
Qed.

Lemma concentrationRiskOf_find recs q qs :
  sm_find q (concentrationRiskOf cfg calculationCcy nsd pc rt hvr b qs recs)
  = if existsb (String.eqb q) qs && negb (isCalcCcyFX calculationCcy rt q)
    then Some (crValue recs q) else None.
Proof. unfold concentrationRiskOf. apply concentrationRiskOf_find_from. Qed.

Lemma concentrationRiskOf_get_nonneg recs q qs :
  0 <= sm_get q (concentrationRiskOf cfg calculationCcy nsd pc rt hvr b qs recs).
Proof.
  unfold sm_get. rewrite concentrationRiskOf_find.
  destruct (_ && _); [|lra].
  unfold crValue. eapply Rle_trans; [|apply Rmax_l]. lra.
Qed.

Lemma bucketQualifierRange_double recs q :
  bucketQualifierRange nsd pc rt b q (doubleQualifier q recs)
  = map (scaleAmountUsd 2) (bucketQualifierRange nsd pc rt b q recs).
Proof.
  unfold bucketQualifierRange, doubleQualifier.
  set (inRange := fun r : CrifRecord =>
                    inRiskType nsd pc rt r && String.eqb (bucket r) b
                    && String.eqb (qualifier r) q).
  assert (Hs : forall r, inRange (scaleAmountUsd 2 r) = inRange r) by reflexivity.
  induction recs as [|r recs IH]; cbn [map filter]; [reflexivity|].
  destruct (String.eqb (qualifier r) q) eqn:E.
  - rewrite Hs. destruct (inRange r); cbn [map]; rewrite IH; reflexivity.
  - assert (Hr : inRange r = false).
    { unfold inRange. rewrite E. apply andb_false_r. }
    rewrite Hr. exact IH.
Qed.

Lemma concentrationRiskSum_double l :
  concentrationRiskSum cfg calculationCcy rt hvr (map (scaleAmountUsd 2) l)
  = 2 * concentrationRiskSum cfg calculationCcy rt hvr l.
Proof.
  unfold concentrationRiskSum. rewrite !fold_left_plus, map_map. simpl.
  rewrite !Rplus_0_l.
  rewrite <- (sumR_map_scale
                (fun it => amountUsd it
                           * sigma cfg rt (qualifier it) (label1 it) calculationCcy
                           * hvr)).
  f_equal. apply map_ext. intros a. lra.
Qed.

Lemma crValue_double recs q : crValue recs q <= crValue (doubleQualifier q recs) q.
Proof.
  unfold crValue. rewrite bucketQualifierRange_double, concentrationRiskSum_double.
  apply Rmax_le_compat_r. apply sqrt_le_1_alt.
  set (s := concentrationRiskSum cfg calculationCcy rt hvr _).
  replace (2 * s / concentrationThreshold cfg rt q)
    with (2 * (s / concentrationThreshold cfg rt q)) by (unfold Rdiv; ring).
  rewrite Rabs_mult, (Rabs_right 2) by lra.
  pose proof (Rabs_pos (s / concentrationThreshold cfg rt q)). lra.
Qed.

End ConcentrationRisk.

(** C9.  In [margin], doubling the USD amounts of one qualifier, with the
    threshold and everything else unchanged, lowers neither the qualifier's
    concentration risk nor the magnitude of the weighted sensitivity
    [|RW * amountUsd * sigma * HVR * CR_q|] of any of its records. *)
Theorem concentration_doubling_monotone (cfg : SimmConfiguration)
    (calculationCcy : string) (nsd : NettingSetDetails) (pc : ProductClass.t)
    (rt : RiskType.t) (b : string) (qualifiers : sset)
    (recs : SimmNetSensitivities) (it : CrifRecord) :
  let hvr := historicalVolatilityRatio cfg rt in
  let cr := concentrationRiskOf cfg calculationCcy nsd pc rt hvr b qualifiers recs in
  let cr2 := concentrationRiskOf cfg calculationCcy nsd pc rt hvr b qualifiers
               (doubleQualifier (qualifier it) recs) in
  sm_get (qualifier it) cr <= sm_get (qualifier it) cr2
  /\ Rabs (weightedSensitivity cfg calculationCcy rt hvr cr it)
     <= Rabs (weightedSensitivity cfg calculationCcy rt hvr cr2 (scaleAmountUsd 2 it)).
Proof.
  intros hvr cr cr2.
  assert (Hle : sm_get (qualifier it) cr <= sm_get (qualifier it) cr2).
  { unfold cr, cr2, sm_get. rewrite !concentrationRiskOf_find.
    destruct (_ && _); [apply crValue_double|apply Rle_refl]. }
  split; [exact Hle|].
  assert (H0 : 0 <= sm_get (qualifier it) cr) by apply concentrationRiskOf_get_nonneg.
  unfold weightedSensitivity. simpl.
  set (w := weight cfg rt (qualifier it) (label1 it) calculationCcy).
  set (sg := sigma cfg rt (qualifier it) (label1 it) calculationCcy).
  set (c := sm_get (qualifier it) cr) in *.
  set (c2 := sm_get (qualifier it) cr2) in *.
  replace (w * (2 * amountUsd it * sg * hvr) * c2)
    with (2 * c2 * (w * (amountUsd it * sg * hvr))) by ring.
  replace (w * (amountUsd it * sg * hvr) * c)
    with (c * (w * (amountUsd it * sg * hvr))) by ring.
  set (x := w * (amountUsd it * sg * hvr)).
  rewrite (Rabs_mult c x), (Rabs_mult (2 * c2) x).
  assert (Hc : Rabs c = c) by (apply Rabs_right; lra).
  assert (Hc2 : Rabs (2 * c2) = 2 * c2) by (apply Rabs_right; lra).
  rewrite Hc, Hc2.
  pose proof (Rabs_pos x). nra.
Qed.

(* ----------------------------------------------------------------- *)
(** ** Risk_FX records in the calculation currency *)

Lemma fold_left_skip (A B : Type) (skip : B -> bool) (f : A -> B -> A)
    (l : list B) (a : A) :
  fold_left (fun acc x => if skip x then acc else f acc x) l a
  = fold_left (fun acc x => if skip x then acc else f acc x)
              (filter (fun x => negb (skip x)) l) a.
Proof.
  revert a. induction l as [|x l IH]; intros a; simpl; [reflexivity|].
  destruct (skip x) eqn:E; simpl; [apply IH|]. rewrite E. apply IH.
Qed.

Lemma RiskType_eqb_refl (rt : RiskType.t) : RiskType.eqb rt rt = true.
Proof. unfold RiskType.eqb. destruct (RiskType.eq_dec rt rt); congruence. Qed.

Lemma RiskType_eqb_eq (a b : RiskType.t) : RiskType.eqb a b = true -> a = b.
Proof. unfold RiskType.eqb. destruct (RiskType.eq_dec a b); [auto|discriminate]. Qed.

Lemma inRiskType_riskType nsd pc rt r : inRiskType nsd pc rt r = true -> riskType r = rt.
Proof.
  unfold inRiskType. intros H. apply andb_true_iff in H. destruct H as [_ H].
  apply RiskType_eqb_eq. exact H.
Qed.

Section CalcCcyFX.

Variable cfg : SimmConfiguration.
Variable calculationCcy : string.
Variable nsd : NettingSetDetails.
Variable pc : ProductClass.t.

Let FX := RiskType.FX.
Let hvr := historicalVolatilityRatio cfg RiskType.FX.

Lemma isCalcCcyFX_FX q :
  isCalcCcyFX calculationCcy RiskType.FX q = String.eqb q calculationCcy.
Proof. unfold isCalcCcyFX. rewrite RiskType_eqb_refl. reflexivity. Qed.

Lemma keepsFX_FX r :
  riskType r = RiskType.FX ->
  keepsFX calculationCcy r = negb (isCalcCcyFX calculationCcy RiskType.FX (qualifier r)).
Proof. intros H. unfold keepsFX, isCalcCcyFX. rewrite H. reflexivity. Qed.

Lemma bucketRange_removeCalcCcy b recs :
  bucketRange nsd pc FX b (removeCalcCcyFX calculationCcy recs)
  = filter (fun r => negb (isCalcCcyFX calculationCcy FX (qualifier r)))
           (bucketRange nsd pc FX b recs).
Proof.
  unfold bucketRange, removeCalcCcyFX. rewrite filter_comm.
  induction recs as [|r recs IH]; simpl; [reflexivity|].
  destruct (inRiskType nsd pc FX r && String.eqb (bucket r) b) eqn:E; simpl;
    [|exact IH].
  apply andb_true_iff in E. destruct E as [E _].
  apply inRiskType_riskType in E. rewrite (keepsFX_FX _ E).
  destruct (negb _); rewrite IH; reflexivity.
Qed.

Lemma bucketQualifierRange_removeCalcCcy b q recs :
  q <> calculationCcy ->
  bucketQualifierRange nsd pc FX b q (removeCalcCcyFX calculationCcy recs)
  = bucketQualifierRange nsd pc FX b q recs.
Proof.
  intros Hq. unfold bucketQualifierRange, removeCalcCcyFX. apply filter_absorb.
  intros r Hr. apply andb_true_iff in Hr. destruct Hr as [_ Hr].
  apply String.eqb_eq in Hr. unfold keepsFX. rewrite Hr.
  rewrite (eqb_false_of_neq Hq), andb_false_r. reflexivity.
Qed.

(** The concentration risks of a bucket are those of its qualifiers
    other than the calculation currency, on the records without the
    calculation-currency ones. *)
Lemma concentrationRiskOf_removeCalcCcy b qs recs :
  concentrationRiskOf cfg calculationCcy nsd pc FX hvr b
    (otherQualifiers calculationCcy qs) (removeCalcCcyFX calculationCcy recs)
  = concentrationRiskOf cfg calculationCcy nsd pc FX hvr b qs recs.
Proof.
  unfold concentrationRiskOf at 2. rewrite fold_left_skip.
  unfold concentrationRiskOf, otherQualifiers.
  assert (Hf : filter (fun x => negb (isCalcCcyFX calculationCcy FX x)) qs
               = filter (fun q => negb (String.eqb q calculationCcy)) qs).
  { apply filter_ext. intros q. unfold FX. rewrite isCalcCcyFX_FX. reflexivity. }
  rewrite Hf. apply fold_left_ext_in. intros cr q Hq.
  apply filter_In in Hq. destruct Hq as [_ Hq].
  apply negb_true_iff in Hq. apply String.eqb_neq in Hq.
  rewrite bucketQualifierRange_removeCalcCcy by exact Hq. reflexivity.
Qed.

Lemma marginBucketLoop_skips cr earlier rest st :
  marginBucketLoop cfg calculationCcy FX hvr cr earlier rest st
  = marginBucketLoop cfg calculationCcy FX hvr cr
      (filter (fun r => negb (isCalcCcyFX calculationCcy FX (qualifier r))) earlier)
      (filter (fun r => negb (isCalcCcyFX calculationCcy FX (qualifier r))) rest) st.
Proof.
  revert earlier st. induction rest as [|it rest IH]; intros earlier st; simpl;
    [reflexivity|].
  destruct (isCalcCcyFX calculationCcy FX (qualifier it)) eqn:E; simpl.
  - rewrite IH, filter_app. simpl. rewrite E. simpl. rewrite app_nil_r. reflexivity.
  - rewrite E. rewrite IH, filter_app. simpl. rewrite E. simpl.
    unfold marginCrossTerms.
    rewrite (fold_left_skip (fun r => isCalcCcyFX calculationCcy FX (qualifier r))).
    reflexivity.
Qed.

Lemma bucketLoopResult_removeCalcCcy b qs recs bms :
  bucketLoopResult cfg calculationCcy nsd pc FX (removeCalcCcyFX calculationCcy recs)
                   (b, otherQualifiers calculationCcy qs) bms
  = bucketLoopResult cfg calculationCcy nsd pc FX recs (b, qs) bms.
Proof.
  unfold bucketLoopResult. simpl fst. simpl snd. fold hvr.
  rewrite concentrationRiskOf_removeCalcCcy, bucketRange_removeCalcCcy.
  rewrite (marginBucketLoop_skips _ [] (bucketRange nsd pc FX b recs)).
  rewrite (marginBucketLoop_skips _ []
             (filter (fun r => negb (isCalcCcyFX calculationCcy FX (qualifier r)))
                     (bucketRange nsd pc FX b recs))).
  simpl. rewrite (filter_absorb _ _ _ (fun x H => H)). reflexivity.
Qed.

End CalcCcyFX.

Lemma filter_nil_in (A : Type) (f : A -> bool) (l : list A) :
  (forall x, In x l -> f x = false) -> filter f l = [].
Proof.
  induction l as [|x l IH]; simpl; intros H; [reflexivity|].
  rewrite (H x) by (left; reflexivity). apply IH. intros y Hy. apply H. right. exact Hy.
Qed.

Lemma list_eq_dec_nil (A : Type) (l : list A) : {l = []} + {l <> []}.
Proof. destruct l; [left; reflexivity|right; discriminate]. Qed.

Lemma bucketsOf_single (range : list CrifRecord) (b0 : string) :
  (forall r, In r range -> bucket r = b0) -> range <> [] ->
  bucketsOf range = [(b0, qualifiersOf range [])].
Proof.
  intros Hb Hne. apply smSorted_ext.
  - apply bucketsOf_sorted.
  - simpl. split; [constructor|exact I].
  - intros b. rewrite bucketsOf_find. simpl.
    destruct (String.eqb b b0) eqn:E.
    + apply String.eqb_eq in E. subst b.
      assert (Hf : filter (inBucket b0) range = range).
      { apply forallb_filter_id. apply forallb_forall. intros r Hr.
        unfold inBucket. rewrite (Hb r Hr). apply String.eqb_refl. }
      rewrite Hf. destruct range; [congruence|reflexivity].
    + assert (Hf : filter (inBucket b) range = []).
      { apply filter_nil_in. intros r Hr. unfold inBucket. rewrite (Hb r Hr).
        rewrite String.eqb_sym, E. reflexivity. }
      rewrite Hf. reflexivity.
Qed.

Lemma existsb_qualifier_filter (ccy x : string) (range : list CrifRecord) :
  existsb (fun r => String.eqb x (qualifier r))
          (filter (fun r => negb (String.eqb (qualifier r) ccy)) range)
  = negb (String.eqb x ccy) && existsb (fun r => String.eqb x (qualifier r)) range.
Proof.
  induction range as [|r range IH]; simpl; [rewrite andb_false_r; reflexivity|].
  destruct (String.eqb x (qualifier r)) eqn:E.
  - apply String.eqb_eq in E. subst x.
    destruct (String.eqb (qualifier r) ccy) eqn:C; simpl.
    + rewrite IH. reflexivity.
    + rewrite String.eqb_refl. reflexivity.
  - destruct (negb (String.eqb (qualifier r) ccy)); simpl; rewrite ?E, IH; reflexivity.
Qed.

Lemma qualifiersOf_otherQualifiers (ccy : string) (range : list CrifRecord) :
  qualifiersOf (filter (fun r => negb (String.eqb (qualifier r) ccy)) range) []
  = otherQualifiers ccy (qualifiersOf range []).
Proof.
  apply ssSorted_ext.
  - apply qualifiersOf_sorted. exact I.
  - apply ssSorted_filter. apply qualifiersOf_sorted. exact I.
  - intros x. unfold otherQualifiers.
    rewrite (existsb_filter_eqb (fun q => negb (String.eqb q ccy))).
    rewrite !qualifiersOf_mem. simpl. rewrite !orb_false_r.
    apply existsb_qualifier_filter.
Qed.

Section SingleBucketFX.

Variable cfg : SimmConfiguration.
Variable calculationCcy : string.
Variable nsd : NettingSetDetails.
Variable pc : ProductClass.t.

Lemma marginAggregate_short rt B B' sw l m :
  (List.length l <= 1)%nat ->
  marginAggregate cfg calculationCcy rt B sw [] l m
  = marginAggregate cfg calculationCcy rt B' sw [] l m.
Proof.
  destruct l as [|[b k] [|y l]]; simpl; intros H; [reflexivity|reflexivity|lia].
Qed.

Lemma marginResult_short rt B B' st :
  (List.length (msBucketMargin st) <= 1)%nat ->
  marginResult cfg calculationCcy rt B st = marginResult cfg calculationCcy rt B' st.
Proof.
  intros H. unfold marginResult.
  rewrite (marginAggregate_short rt B B'); [reflexivity|].
  unfold sm_erase. eapply Nat.le_trans; [apply filter_length_le|exact H].
Qed.

Lemma riskTypeRange_removeCalcCcy recs :
  riskTypeRange nsd pc RiskType.FX (removeCalcCcyFX calculationCcy recs)
  = filter (fun r => negb (String.eqb (qualifier r) calculationCcy))
           (riskTypeRange nsd pc RiskType.FX recs).
Proof.
  unfold removeCalcCcyFX. rewrite riskTypeRange_filter. unfold riskTypeRange.
  induction recs as [|r recs IH]; simpl; [reflexivity|].
  destruct (inRiskType nsd pc RiskType.FX r) eqn:E; simpl; [|exact IH].
  apply inRiskType_riskType in E. unfold keepsFX at 1. rewrite E.
  rewrite RiskType_eqb_refl. simpl.
  destruct (negb _); rewrite IH; reflexivity.
Qed.

(** The step of the only bucket, by the bucket's loop result. *)
Lemma marginBucketStep_init rt recs kv :
  marginBucketStep cfg calculationCcy nsd pc rt (historicalVolatilityRatio cfg rt)
                   recs (mkMarginState [] [] []) kv
  = let bs := bucketLoopResult cfg calculationCcy nsd pc rt recs kv [] in
    mkMarginState [(fst kv, sqrt (Rmax (bsMargin bs) 0))] [(fst kv, bsSumWs bs)]
                  (bsBucketMargins bs).
Proof. reflexivity. Qed.

Lemma close_enough_0_0 : close_enough 0 0 = true.
Proof. unfold close_enough. destruct (Req_dec_T 0 0); [reflexivity|congruence]. Qed.

Lemma marginResult_empty_bucket b0 qs :
  marginResult cfg calculationCcy RiskType.FX [(b0, qs)]
               (mkMarginState [(b0, sqrt (Rmax 0 0))] [(b0, 0)] [])
  = sm_set "All" 0 [].
Proof.
  unfold marginResult. cbn [msBucketMargin msSumWeightedSensis msBucketMargins].
  rewrite sqrt_Rmax_0. unfold sm_mem, sm_get, sm_erase.
  cbn [sm_find filter fst snd].
  destruct (String.eqb "Residual" b0); cbn [negb marginAggregate fold_left].
  - rewrite sqrt_Rmax_0, close_enough_0_0. cbn [negb riskClassIsFX map].
    rewrite Rplus_0_l. reflexivity.
  - rewrite close_enough_0_0. cbn [negb map].
    replace (0 + 0 * 0) with 0 by ring. rewrite sqrt_Rmax_0, Rplus_0_l.
    reflexivity.
Qed.

(** With every Risk_FX record in one bucket, the records in the
    calculation currency leave the result map of [margin] as it is
    without them. *)
Lemma margin_removeCalcCcy recs b0 :
  (forall r, In r recs -> inRiskType nsd pc RiskType.FX r = true -> bucket r = b0) ->
  fst (margin cfg calculationCcy nsd pc RiskType.FX recs)
  = fst (margin cfg calculationCcy nsd pc RiskType.FX
                (removeCalcCcyFX calculationCcy recs)).
Proof.
  intros Hb. unfold margin. rewrite riskTypeRange_removeCalcCcy.
  remember (riskTypeRange nsd pc RiskType.FX recs) as range eqn:Erange.
  assert (Hrange : forall r, In r range -> bucket r = b0).
  { intros r Hr. rewrite Erange in Hr. unfold riskTypeRange in Hr.
    apply filter_In in Hr. apply Hb; tauto. }
  remember (filter (fun r => negb (String.eqb (qualifier r) calculationCcy)) range)
    as range' eqn:Erange'.
  assert (Hrange' : forall r, In r range' -> bucket r = b0).
  { intros r Hr. rewrite Erange' in Hr. apply filter_In in Hr. apply Hrange. tauto. }
  destruct (list_eq_dec_nil range) as [ER|ER].
  { rewrite Erange', ER. reflexivity. }
  rewrite (bucketsOf_single Hrange ER).
  set (qs := qualifiersOf range []).
  cbv zeta. simpl fold_left. rewrite marginBucketStep_init.
  rewrite <- (bucketLoopResult_removeCalcCcy cfg calculationCcy nsd pc b0 qs recs []).
  destruct (list_eq_dec_nil range') as [ER'|ER'].
  - (* every Risk_FX record is in the calculation currency *)
    rewrite ER'. simpl bucketsOf. cbv iota. unfold bucketLoopResult.
    simpl fst. simpl snd.
    assert (HB : bucketRange nsd pc RiskType.FX b0 (removeCalcCcyFX calculationCcy recs)
                 = []).
    { rewrite bucketRange_removeCalcCcy. apply filter_nil_in. intros r Hr.
      apply negb_false_iff. rewrite isCalcCcyFX_FX.
      assert (Hin : In r range).
      { rewrite Erange. unfold riskTypeRange. unfold bucketRange in Hr.
        apply filter_In in Hr. apply filter_In.
        destruct Hr as [Hr1 Hr2]. apply andb_true_iff in Hr2. tauto. }
      destruct (String.eqb (qualifier r) calculationCcy) eqn:N; [reflexivity|].
      exfalso. assert (Hin' : In r range').
      { rewrite Erange'. apply filter_In. split; [assumption|]. rewrite N. reflexivity. }
      rewrite ER' in Hin'. exact Hin'. }
    rewrite HB. cbn [marginBucketLoop bsMargin bsSumWs bsBucketMargins].
    apply marginResult_empty_bucket.
  - rewrite (bucketsOf_single Hrange' ER').
    simpl fold_left. rewrite marginBucketStep_init.
    rewrite Erange'. rewrite qualifiersOf_otherQualifiers. fold qs.
    simpl fst. apply marginResult_short. simpl. lia.
Qed.

End SingleBucketFX.

Lemma crValue_formula cfg calculationCcy nsd pc rt b recs q :
  0 < concentrationThreshold cfg rt q ->
  crValue cfg calculationCcy nsd pc rt (historicalVolatilityRatio cfg rt) b recs q
  = concentrationRiskFormula cfg calculationCcy nsd pc rt b q recs.
Proof.
  intros HT. unfold crValue, concentrationRiskFormula, concentrationRiskSum.
  rewrite fold_left_plus, Rplus_0_l.
  set (s := sumR _). unfold Rdiv. rewrite Rabs_mult.
  rewrite (Rabs_right (/ concentrationThreshold cfg rt q)); [reflexivity|].
  apply Rle_ge. left. apply Rinv_0_lt_compat. exact HT.
Qed.

(** C3.  In [margin] the concentration risk of a qualifier of a bucket is
    [max(1, sqrt(|sum of amountUsd * sigma * HVR| / threshold))] over the
    qualifier's records (for a positive threshold), and a Risk_FX record
    whose qualifier is the calculation currency is left out: the
    calculation currency gets no concentration risk, the loop over the
    records of any bucket ends in the same sums with or without these
    records, and, the Risk_FX records lying in one bucket, the result map
    of the FX delta margin is the same with them and without them. *)
Theorem margin_concentration_and_calc_ccy (cfg : SimmConfiguration)
    (calculationCcy : string) (nsd : NettingSetDetails) (pc : ProductClass.t)
    (rt : RiskType.t) (b b0 q : string) (qualifiers : sset)
    (recs : SimmNetSensitivities)
    (Hq : existsb (String.eqb q) qualifiers = true)
    (Hcalc : isCalcCcyFX calculationCcy rt q = false)
    (HT : 0 < concentrationThreshold cfg rt q)
    (Hb0 : forall r, In r recs -> inRiskType nsd pc RiskType.FX r = true ->
                     bucket r = b0) :
  sm_find q (concentrationRiskOf cfg calculationCcy nsd pc rt
               (historicalVolatilityRatio cfg rt) b qualifiers recs)
  = Some (concentrationRiskFormula cfg calculationCcy nsd pc rt b q recs)
  /\ sm_find calculationCcy
       (concentrationRiskOf cfg calculationCcy nsd pc RiskType.FX
          (historicalVolatilityRatio cfg RiskType.FX) b qualifiers recs)
     = None
  /\ (forall bms,
        bucketLoopResult cfg calculationCcy nsd pc RiskType.FX
          (removeCalcCcyFX calculationCcy recs)
          (b, otherQualifiers calculationCcy qualifiers) bms
        = bucketLoopResult cfg calculationCcy nsd pc RiskType.FX recs
            (b, qualifiers) bms)
  /\ fst (margin cfg calculationCcy nsd pc RiskType.FX recs)
     = fst (margin cfg calculationCcy nsd pc RiskType.FX
                   (removeCalcCcyFX calculationCcy recs)).
Proof.
  repeat split.
  - rewrite concentrationRiskOf_find, Hq, Hcalc. simpl.
    rewrite crValue_formula by exact HT. reflexivity.
  - rewrite concentrationRiskOf_find, isCalcCcyFX_FX, String.eqb_refl.
    rewrite andb_false_r. reflexivity.
  - intros bms. apply bucketLoopResult_removeCalcCcy.
  - apply margin_removeCalcCcy with (b0 := b0). exact Hb0.
Qed.

Lemma margin_concentration_and_calc_ccy_witness :
  let cfg := Samples.unitCfg in
  let recs := Samples.fxRecords in
  0 < concentrationThreshold cfg RiskType.FX "EUR"
  /\ sm_find "EUR" (concentrationRiskOf cfg "USD" "NS1" ProductClass.RatesFX RiskType.FX
                      (historicalVolatilityRatio cfg RiskType.FX) "" ["EUR"; "USD"] recs)
     = Some (concentrationRiskFormula cfg "USD" "NS1" ProductClass.RatesFX RiskType.FX
               "" "EUR" recs)
  /\ fst (margin cfg "USD" "NS1" ProductClass.RatesFX RiskType.FX recs)
     = fst (margin cfg "USD" "NS1" ProductClass.RatesFX RiskType.FX
                   (removeCalcCcyFX "USD" recs)).
Proof.
  intros cfg recs.
  assert (HT : 0 < concentrationThreshold cfg RiskType.FX "EUR") by (simpl; lra).
  split; [exact HT|].
  destruct (@margin_concentration_and_calc_ccy cfg "USD" "NS1" ProductClass.RatesFX
              RiskType.FX "" "" "EUR" ["EUR"; "USD"] recs) as [H1 [_ [_ H4]]].
  - reflexivity.
  - reflexivity.
  - exact HT.
  - intros r [<-|[<-|[]]] _; reflexivity.
  - split; [exact H1|exact H4].
Defined.

(* ----------------------------------------------------------------- *)
(** ** Every margin of every result map is non-negative *)

(** C10.  With a non-negative curvature margin scaling, every value of the
    maps that [margin], [irDeltaMargin], [irVegaMargin], [curvatureMargin]
    and [irCurvatureMargin] return (the entries by bucket or qualifier, the
    "Residual" entry and the "All" total) is non-negative. *)
Theorem margin_maps_nonnegative (cfg : SimmConfiguration) (calculationCcy : string)
    (Hscaling : 0 <= curvatureMarginScaling cfg)
    (nsd : NettingSetDetails) (pc : ProductClass.t) (rt : RiskType.t)
    (side : SimmSide.t) (rfLabels : bool) (recs : SimmNetSensitivities) :
  nonnegValues (fst (margin cfg calculationCcy nsd pc rt recs))
  /\ nonnegResult (irDeltaMargin cfg calculationCcy nsd pc recs)
  /\ nonnegValues (fst (irVegaMargin cfg calculationCcy nsd pc recs))
  /\ nonnegValues (fst (curvatureMargin cfg calculationCcy nsd pc rt side recs rfLabels))
  /\ nonnegResult (irCurvatureMargin cfg nsd pc side recs).
Proof.
  split; [apply margin_nonneg|].
  split.
  { unfold nonnegResult.
    destruct (irDeltaMargin cfg calculationCcy nsd pc recs) as [[m b]|e] eqn:E;
      [|exact I].
    eapply irDeltaMargin_nonneg. exact E. }
  split; [apply irVegaMargin_nonneg|].
  split; [apply curvatureMargin_nonneg|].
  unfold nonnegResult.
  destruct (irCurvatureMargin cfg nsd pc side recs) as [[m b]|e] eqn:E; [|exact I].
  eapply irCurvatureMargin_nonneg; [exact Hscaling|exact E].
Qed.

Lemma margin_maps_nonnegative_witness :
  0 <= curvatureMarginScaling Samples.unitCfg
  /\ nonnegValues (fst (margin Samples.unitCfg "USD" "NS1" ProductClass.RatesFX
                               RiskType.FX Samples.fxRecords))
  /\ nonnegResult (irCurvatureMargin Samples.unitCfg "NS1" ProductClass.RatesFX
                                     SimmSide.Post Samples.fxRecords).
Proof.
  assert (H : 0 <= curvatureMarginScaling Samples.unitCfg) by (simpl; lra).
  split; [exact H|].
  destruct (@margin_maps_nonnegative Samples.unitCfg "USD" H "NS1" ProductClass.RatesFX
              RiskType.FX SimmSide.Post false Samples.fxRecords)
    as [H1 [_ [_ [_ H5]]]].
  split; [exact H1|exact H5].
Defined.

(* ----------------------------------------------------------------- *)
(** ** SimmResults and the notional-factor add-on *)

Lemma ProductClass_eqb_eq (a b : ProductClass.t) : ProductClass.eqb a b = true <-> a = b.
Proof.
  unfold ProductClass.eqb. destruct (ProductClass.eq_dec a b); split; congruence.
Qed.

Lemma RiskClass_eqb_eq (a b : RiskClass.t) : RiskClass.eqb a b = true <-> a = b.
Proof.
  unfold RiskClass.eqb. destruct (RiskClass.eq_dec a b); split; congruence.
Qed.

Lemma MarginType_eqb_eq (a b : MarginType.t) : MarginType.eqb a b = true <-> a = b.
Proof.
  unfold MarginType.eqb. destruct (MarginType.eq_dec a b); split; congruence.
Qed.

Lemma resultKey_eqb_eq (a b : ResultKey) : resultKey_eqb a b = true <-> a = b.
Proof.
  destruct a as [[[pa ra] ma] ba]. destruct b as [[[pb rb] mb] bb].
  unfold resultKey_eqb. rewrite !andb_true_iff.
  rewrite ProductClass_eqb_eq, RiskClass_eqb_eq, MarginType_eqb_eq, String.eqb_eq.
  split.
  - intros [[[-> ->] ->] ->]. reflexivity.
  - intros H. inversion H. auto.
Qed.

Lemma resultKey_eqb_refl (a : ResultKey) : resultKey_eqb a a = true.
Proof. apply resultKey_eqb_eq. reflexivity. Qed.

Lemma results_find_update (k k' : ResultKey) (f : option R -> R) (res : SimmResults) :
  results_find k (results_update k' f res)
  = if resultKey_eqb k k' then Some (f (results_find k' res)) else results_find k res.
Proof.
  induction res as [|[k0 v0] res IH]; simpl.
  - destruct (resultKey_eqb k k'); reflexivity.
  - destruct (resultKey_eqb k' k0) eqn:E0; simpl.
    + apply resultKey_eqb_eq in E0. subst k0.
      destruct (resultKey_eqb k k'); reflexivity.
    + destruct (resultKey_eqb k k0) eqn:E.
      * apply resultKey_eqb_eq in E. subst k0.
        destruct (resultKey_eqb k k') eqn:E'; [|reflexivity].
        apply resultKey_eqb_eq in E'. subst k'.
        rewrite resultKey_eqb_refl in E0. discriminate.
      * exact IH.
Qed.

Lemma results_get_add (res : SimmResults) (k k' : ResultKey) (im : R) :
  results_get (results_add res k' im false) k
  = if resultKey_eqb k k' then results_get res k' + im else results_get res k.
Proof.
  unfold results_get, results_add. rewrite results_find_update.
  destruct (resultKey_eqb k k'); [|reflexivity].
  destruct (results_find k' res); lra.
Qed.

Lemma results_get_addAdditionalMargin (res : SimmResults) (m : R) :
  results_get (addAdditionalMargin res ProductClass.AddOnNotionalFactor m) keyAll
  = results_get res keyAll + m.
Proof.
  unfold addAdditionalMargin. rewrite results_get_add, resultKey_eqb_refl.
  rewrite !results_get_add. reflexivity.
Qed.

Section NotionalFactor.

Variable nsd : NettingSetDetails.
Variable recs : SimmNetSensitivities.

Lemma addOnNotionalFactorStep_cases (results : SimmResults) (it : CrifRecord) :
  addOnNotionalFactorStep nsd recs (OK results) it
  = match notionalRange nsd recs it with
    | [] => OK results
    | [n] => OK (addAdditionalMargin results ProductClass.AddOnNotionalFactor
                   (amountUsd n * amount it / 100))
    | _ :: _ :: _ => Error "Expected either 0 or 1 elements for risk type Notional"
    end.
Proof.
  unfold addOnNotionalFactorStep. simpl.
  destruct (notionalRange nsd recs it) as [|n [|n' l]]; reflexivity.
Qed.

Lemma fold_notional_error (l : list CrifRecord) (e : string) :
  fold_left (addOnNotionalFactorStep nsd recs) l (Error e) = Error e.
Proof. induction l as [|it l IH]; simpl; [reflexivity|exact IH]. Qed.

Lemma notionalLoop_isError (l : list CrifRecord) (results : SimmResults) :
  isError (fold_left (addOnNotionalFactorStep nsd recs) l (OK results))
  = existsb (hasSeveralNotionals nsd recs) l.
Proof.
  revert results. induction l as [|it l IH]; intros results; [reflexivity|].
  cbn [fold_left existsb]. rewrite addOnNotionalFactorStep_cases.
  unfold hasSeveralNotionals at 1.
  destruct (notionalRange nsd recs it) as [|n [|n' l']]; cbn [List.length Nat.leb orb].
  - apply IH.
  - apply IH.
  - rewrite fold_notional_error. reflexivity.
Qed.

Lemma notionalLoop_total (l : list CrifRecord) (results : SimmResults) :
  match fold_left (addOnNotionalFactorStep nsd recs) l (OK results) with
  | OK results' =>
      results_get results' keyAll
      = results_get results keyAll + sumR (map (notionalFactorMargin nsd recs) l)
  | Error _ => True
  end.
Proof.
  revert results. induction l as [|it l IH]; intros results.
  - simpl. lra.
  - unfold sumR in *. cbn [fold_left map fold_right].
    rewrite addOnNotionalFactorStep_cases.
    unfold notionalFactorMargin at 1.
    destruct (notionalRange nsd recs it) as [|n [|n' l']].
    + specialize (IH results).
      destruct (fold_left _ l (OK results)); [|exact I]. rewrite IH. lra.
    + specialize (IH (addAdditionalMargin results ProductClass.AddOnNotionalFactor
                        (amountUsd n * amount it / 100))).
      destruct (fold_left _ l _); [|exact I].
      rewrite IH, results_get_addAdditionalMargin. lra.
    + rewrite fold_notional_error. exact I.
Qed.

End NotionalFactor.

(** C8.  In the third loop of [calcAddMargin], an "AddOnNotionalFactor"
    record raises an error exactly when more than one "Notional" record has
    its qualifier; with exactly one the four [add] calls receive
    [notional amountUsd * factor / 100], with none the results stay as they
    are.  The loop fails exactly when some factor record has several
    notionals, and otherwise raises the portfolio total by the sum of the
    contributions. *)
Theorem addOnNotionalFactor_margin (nsd : NettingSetDetails)
    (recs : SimmNetSensitivities) (results : SimmResults) :
  (forall it,
     addOnNotionalFactorStep nsd recs (OK results) it
     = match notionalRange nsd recs it with
       | [] => OK results
       | [n] => OK (addAdditionalMargin results ProductClass.AddOnNotionalFactor
                      (amountUsd n * amount it / 100))
       | _ :: _ :: _ => Error "Expected either 0 or 1 elements for risk type Notional"
       end)
  /\ isError (addOnNotionalFactorLoop nsd recs results)
     = existsb (hasSeveralNotionals nsd recs) (notionalFactorRecords nsd recs)
  /\ match addOnNotionalFactorLoop nsd recs results with
     | OK results' =>
         results_get results' keyAll
         = results_get results keyAll
           + sumR (map (notionalFactorMargin nsd recs) (notionalFactorRecords nsd recs))
     | Error _ => True
     end.
Proof.
  split; [intros it; apply addOnNotionalFactorStep_cases|].
  split; [apply notionalLoop_isError|apply notionalLoop_total].
Qed.

(* ----------------------------------------------------------------- *)
(** ** The winning regulation *)

Lemma Real_min_pos : 0 < Real_min.
Proof. unfold Real_min. apply Rinv_0_lt_compat. apply pow_lt. lra. Qed.

Lemma tolerance_bounds : 0 < 42 * QL_EPSILON <= 1.
Proof.
  unfold QL_EPSILON.
  assert (H : 42 <= 2 ^ 52).
  { replace (2 ^ 52) with (2 ^ 6 * 2 ^ 46) by (rewrite <- pow_add; reflexivity).
    assert (1 <= 2 ^ 46) by (apply pow_R1_Rle; lra).
    assert (H6 : 2 ^ 6 = 64) by (simpl; ring). rewrite H6. lra. }
  assert (Hp : 0 < 2 ^ 52) by lra.
  split.
  - apply Rmult_lt_0_compat; [lra|apply Rinv_0_lt_compat; exact Hp].
  - apply Rmult_le_reg_r with (r := 2 ^ 52); [exact Hp|].
    rewrite Rmult_assoc, Rinv_l by lra. lra.
Qed.

Lemma close_enough_negative (v : R) : v < 0 -> close_enough v Real_min = false.
Proof.
  intros Hv. pose proof Real_min_pos as Hm. pose proof tolerance_bounds as [Ht0 Ht1].
  unfold close_enough.
  destruct (Req_dec_T v Real_min) as [E|_]; [lra|].
  destruct (Req_dec_T v 0) as [E|_]; [lra|].
  destruct (Req_dec_T Real_min 0) as [E|_]; [lra|].
  set (t := 42 * QL_EPSILON) in *.
  rewrite (Rabs_left (v - Real_min)) by lra.
  rewrite (Rabs_left v) by lra. rewrite (Rabs_right Real_min) by lra.
  destruct (Rle_dec (- (v - Real_min)) (t * - v)) as [H|_]; [exfalso; nra|].
  destruct (Rle_dec (- (v - Real_min)) (t * Real_min)) as [H|_]; [exfalso; nra|].
  reflexivity.
Qed.

Section WinningRegulationLemmas.

Variable getWinningRegulation : list string -> string.

Lemma winningMargin_negative (rs : smap SimmResults) :
  allNegative rs -> winningMarginOf rs = Real_min.
Proof.
  unfold winningMarginOf. pose proof Real_min_pos as Hm.
  induction 1 as [|kv rs Hkv _ IH]; simpl; [reflexivity|].
  destruct (Rlt_dec Real_min (results_get (snd kv) keyAll)) as [H|_]; [lra|exact IH].
Qed.

Lemma nettingSetMargins_negative (rs : smap SimmResults) :
  allNegative rs -> Forall (fun kv => snd kv < 0) (nettingSetMarginsOf rs).
Proof.
  unfold nettingSetMarginsOf.
  assert (H : forall acc, Forall (fun kv : string * R => snd kv < 0) acc ->
              allNegative rs ->
              Forall (fun kv : string * R => snd kv < 0)
                (fold_left (fun m kv => sm_set (fst kv) (results_get (snd kv) keyAll) m)
                           rs acc)).
  { induction rs as [|kv rs IH]; intros acc Ha Hn; simpl; [exact Ha|].
    inversion Hn; subst. apply IH; [|assumption].
    apply sm_set_Forall; assumption. }
  apply H. constructor.
Qed.

Lemma winners_none (w : R) (margins : smap R) (acc : list string) :
  Forall (fun kv => close_enough (snd kv) w = false) margins ->
  fold_left (fun winners kv =>
               if close_enough (snd kv) w then winners ++ [fst kv] else winners)
            margins acc
  = acc.
Proof.
  revert acc. induction margins as [|kv margins IH]; intros acc H; simpl; [reflexivity|].
  inversion H; subst. rewrite H2. apply IH. assumption.
Qed.

(** When every regulation of a netting set has a negative overall margin
    no regulation is found to win, and [winningRegulations.at(0)] throws. *)
Lemma winningRegulation_negative (rs : smap SimmResults) :
  allNegative rs -> winningRegulation getWinningRegulation rs = Error "vector::at".
Proof.
  intros Hn. unfold winningRegulation, winningRegulationsOf.
  rewrite winningMargin_negative by exact Hn.
  rewrite winners_none; [reflexivity|].
  pose proof (nettingSetMargins_negative Hn) as H.
  rewrite Forall_forall in *. intros kv Hkv. apply close_enough_negative. apply H, Hkv.
Qed.

End WinningRegulationLemmas.

(** C1.  A netting set whose only regulation ends, after the additional
    margin, with a negative overall margin: an "AddOnFixedAmount" of minus
    one USD and no sensitivities.  The highest margin is searched from
    [std::numeric_limits<Real>::min()], a positive number, so no regulation
    is close to it and the selection fails instead of choosing the
    regulation of the largest margin. *)
Theorem winning_regulation_negative_margin
    (parseSimmProductClass : string -> Result ProductClass.t)
    (getWinningRegulation : list string -> string) :
  exists results,
    calcAddMargin parseSimmProductClass "NS1" [Samples.fixedAddOn]
                  Samples.emptyPortfolioResults = OK results
    /\ results_get results keyAll = -1
    /\ winningRegulation getWinningRegulation [("Unspecified", results)]
       = Error "vector::at".
Proof.
  eexists. split; [reflexivity|].
  assert (H : results_get
                (addOnFixedAmountStep Samples.emptyPortfolioResults Samples.fixedAddOn)
                keyAll = -1).
  { unfold addOnFixedAmountStep, addAdditionalMargin. rewrite !results_get_add.
    cbn. lra. }
  split; [exact H|].
  apply winningRegulation_negative. constructor; [|constructor].
  cbn [snd].
  match goal with |- ?x < 0 => replace x with (-1) by (symmetry; exact H) end.
  lra.
Qed.

(* ----------------------------------------------------------------- *)
(** ** The winning regulation when no margin is negative *)

Lemma close_enough_refl (x : R) : close_enough x x = true.
Proof. unfold close_enough. destruct (Req_dec_T x x); [reflexivity|congruence]. Qed.

Lemma Real_min_small : Real_min < 42 * QL_EPSILON * (42 * QL_EPSILON).
Proof.
  unfold Real_min, QL_EPSILON.
  replace (2 ^ 1022) with (2 ^ 52 * 2 ^ 52 * 2 ^ 918)
    by (rewrite <- !pow_add; reflexivity).
  assert (H52 : 0 < 2 ^ 52) by (apply pow_lt; lra).
  assert (H918 : 1 <= 2 ^ 918) by (apply pow_R1_Rle; lra).
  rewrite !Rinv_mult.
  assert (He : 0 < / 2 ^ 52) by (apply Rinv_0_lt_compat; exact H52).
  assert (Hs : / 2 ^ 918 <= 1).
  { rewrite <- Rinv_1. apply Rinv_le_contravar; lra. }
  assert (Hs0 : 0 < / 2 ^ 918) by (apply Rinv_0_lt_compat; lra).
  set (e := / 2 ^ 52) in *. set (s := / 2 ^ 918) in *.
  assert (0 < e * e) by nra. nra.
Qed.

Lemma close_enough_zero_Real_min : close_enough 0 Real_min = true.
Proof.
  pose proof Real_min_pos as Hm. pose proof Real_min_small as Hs.
  unfold close_enough.
  destruct (Req_dec_T 0 Real_min) as [_|_]; [reflexivity|].
  destruct (Req_dec_T 0 0) as [_|N]; [|congruence].
  rewrite Rabs_left by lra.
  destruct (Rlt_dec (- (0 - Real_min)) (42 * QL_EPSILON * (42 * QL_EPSILON)))
    as [_|N]; [reflexivity|exfalso; apply N; lra].
Qed.

Section HighestMargin.

Let im (kv : string * SimmResults) : R := results_get (snd kv) keyAll.

Let highest (rs : smap SimmResults) (w : R) : R :=
  fold_left (fun winningMargin kv =>
               if Rlt_dec winningMargin (im kv) then im kv else winningMargin) rs w.

Lemma highest_bounds (rs : smap SimmResults) (w : R) :
  w <= highest rs w /\ Forall (fun kv => im kv <= highest rs w) rs.
Proof.
  revert w. induction rs as [|kv rs IH]; intros w; cbn [highest fold_left].
  - split; [lra|constructor].
  - destruct (Rlt_dec w (im kv)) as [H|H].
    + destruct (IH (im kv)) as [H1 H2]. fold (highest rs (im kv)) in *.
      split; [lra|constructor; assumption].
    + destruct (IH w) as [H1 H2]. fold (highest rs w) in *.
      split; [lra|constructor; [lra|assumption]].
Qed.

Lemma highest_attained (rs : smap SimmResults) (w : R) :
  highest rs w = w \/ Exists (fun kv => im kv = highest rs w) rs.
Proof.
  revert w. induction rs as [|kv rs IH]; intros w; cbn [highest fold_left].
  - left. reflexivity.
  - destruct (Rlt_dec w (im kv)) as [H|H].
    + destruct (IH (im kv)) as [E|E]; fold (highest rs (im kv)) in *.
      * right. apply Exists_cons_hd. symmetry. exact E.
      * right. apply Exists_cons_tl. exact E.
    + destruct (IH w) as [E|E]; fold (highest rs w) in *.
      * left. exact E.
      * right. apply Exists_cons_tl. exact E.
Qed.

Lemma winners_filter (w : R) (margins : smap R) (acc : list string) :
  fold_left (fun winners kv =>
               if close_enough (snd kv) w then winners ++ [fst kv] else winners)
            margins acc
  = acc ++ map fst (filter (fun kv => close_enough (snd kv) w) margins).
Proof.
  revert acc. induction margins as [|kv margins IH]; intros acc; simpl.
  - rewrite app_nil_r. reflexivity.
  - rewrite IH. destruct (close_enough (snd kv) w); simpl; [|reflexivity].
    rewrite <- app_assoc. reflexivity.
Qed.

Lemma winningRegulationsOf_sorted (rs : smap SimmResults) :
  smSorted rs ->
  winningRegulationsOf rs
  = map fst (filter (fun kv => close_enough (im kv) (winningMarginOf rs)) rs).
Proof.
  intros Hs. unfold winningRegulationsOf. cbv zeta. rewrite winners_filter.
  change (nettingSetMarginsOf rs) with (writeAll im rs []).
  rewrite writeAll_mapValues by exact Hs. unfold mapValues. cbn [app].
  induction rs as [|kv rs IH]; [reflexivity|].
  cbn [map filter fst snd].
  assert (E : forall l : smap SimmResults,
             map fst (filter (fun kv0 : string * R =>
                                close_enough (snd kv0) (winningMarginOf (kv :: rs)))
                             (map (fun kv0 => (fst kv0, im kv0)) l))
             = map fst (filter (fun kv0 => close_enough (im kv0)
                                             (winningMarginOf (kv :: rs))) l)).
  { induction l as [|x l IHl]; [reflexivity|]. cbn [map filter fst snd].
    destruct (close_enough (im x) (winningMarginOf (kv :: rs))); cbn [map];
      rewrite IHl; reflexivity. }
  destruct (close_enough (im kv) (winningMarginOf (kv :: rs))); cbn [map fst];
    rewrite E; reflexivity.
Qed.

(** With every overall margin zero or at least
    [std::numeric_limits<Real>::min()], the highest margin bounds them
    all, the regulations found are those whose margin is close to it, and
    there is one. *)
Lemma winningRegulations_regular (rs : smap SimmResults) :
  smSorted rs -> rs <> [] ->
  Forall (fun kv => im kv = 0 \/ Real_min <= im kv) rs ->
  Forall (fun kv => im kv <= winningMarginOf rs) rs
  /\ winningRegulationsOf rs
     = map fst (filter (fun kv => close_enough (im kv) (winningMarginOf rs)) rs)
  /\ winningRegulationsOf rs <> [].
Proof.
  intros Hs Hne Hreg.
  split; [apply (highest_bounds rs Real_min)|].
  split; [apply winningRegulationsOf_sorted; exact Hs|].
  rewrite winningRegulationsOf_sorted by exact Hs.
  assert (Hex : Exists (fun kv => close_enough (im kv) (winningMarginOf rs) = true) rs).
  { destruct (highest_attained rs Real_min) as [E|E];
      change (highest rs Real_min) with (winningMarginOf rs) in E.
    - destruct rs as [|kv rs]; [congruence|]. rewrite E.
      destruct (highest_bounds (kv :: rs) Real_min) as [_ Hb].
      change (highest (kv :: rs) Real_min) with (winningMarginOf (kv :: rs)) in Hb.
      rewrite E in Hb. inversion Hb; subst. inversion Hreg; subst.
      apply Exists_cons_hd.
      match goal with H : im kv = 0 \/ _ |- _ => destruct H as [Z|G] end.
      + rewrite Z. apply close_enough_zero_Real_min.
      + replace (im kv) with Real_min by lra. apply close_enough_refl.
    - apply Exists_exists in E. destruct E as [kv [Hin Hkv]].
      apply Exists_exists. exists kv. split; [exact Hin|].
      rewrite Hkv. apply close_enough_refl. }
  apply Exists_exists in Hex. destruct Hex as [kv [Hin Hkv]].
  intros C.
  assert (Hf : In kv (filter (fun kv => close_enough (im kv) (winningMarginOf rs)) rs))
    by (apply filter_In; split; assumption).
  apply (in_map fst) in Hf. rewrite C in Hf. exact Hf.
Qed.

(** The selection then returns a regulation: the only one found, or the
    choice of [getWinningRegulation] among those found. *)
Lemma winningRegulation_regular (getWinningRegulation : list string -> string)
    (rs : smap SimmResults) :
  smSorted rs -> rs <> [] ->
  Forall (fun kv => im kv = 0 \/ Real_min <= im kv) rs ->
  winningRegulation getWinningRegulation rs
  = OK (match winningRegulationsOf rs with
        | [r] => r
        | winners => getWinningRegulation winners
        end)
  /\ winningRegulationsOf rs <> [].
Proof.
  intros Hs Hne Hreg.
  destruct (winningRegulations_regular Hs Hne Hreg) as [_ [_ Hw]].
  split; [|exact Hw]. unfold winningRegulation. cbv zeta.
  destruct (winningRegulationsOf rs) as [|r [|r' l]]; [congruence| |]; reflexivity.
Qed.

End HighestMargin.

(* ----------------------------------------------------------------- *)
(** ** CFTC records merged into SEC *)


Lemma ProductClass_eqb_refl (a : ProductClass.t) : ProductClass.eqb a a = true.
Proof. apply ProductClass_eqb_eq. reflexivity. Qed.

Lemma crifRecordEqb_refl (cr : CrifRecord) : crifRecordEqb false cr cr = true.
Proof.
  unfold crifRecordEqb.
  rewrite !String.eqb_refl, ProductClass_eqb_refl, RiskType_eqb_refl. reflexivity.
Qed.

Lemma netRecords_has_add (w : bool) (cr x : CrifRecord) (loader : CrifLoader) :
  netRecords_has (loader_add w cr loader) x
  = netRecords_has loader x
    || (negb (existsb (crifRecordEqb (negb w) cr) loader) && crifRecordEqb false x cr).
Proof.
  unfold netRecords_has, loader_add.
  destruct (existsb (crifRecordEqb (negb w) cr) loader) eqn:E; simpl.
  - rewrite orb_false_r. clear E.
    induction loader as [|r loader IH]; simpl; [reflexivity|].
    rewrite IH. f_equal.
    destruct (crifRecordEqb (negb w) cr r); reflexivity.
  - rewrite existsb_app. simpl. rewrite orb_false_r. reflexivity.
Qed.




Lemma mergeLoop_find (netRecordsSEC : SimmNetSensitivities) (cs : list CrifRecord)
    (regs : smap CrifLoader) (sec : CrifLoader) (r : string) :
  sm_find "SEC" regs = Some sec ->
  sm_find r (fold_left (mergeStep netRecordsSEC) cs regs)
  = if String.eqb r "SEC"
    then Some (secAfterMerge (cftcOnlyRecords cs netRecordsSEC) sec)
    else sm_find r regs.
Proof.
  revert regs sec. induction cs as [|cr cs IH]; intros regs sec HS.
  - simpl. destruct (String.eqb r "SEC") eqn:E; [|reflexivity].
    apply String.eqb_eq in E. subst r. exact HS.
  - cbn [fold_left]. unfold cftcOnlyRecords. cbn [filter].
    unfold mergeStep at 2.
    destruct (negb (netRecords_has netRecordsSEC cr)).
    + rewrite HS.
      rewrite (IH _ (loader_add false cr sec)) by apply sm_find_set_same.
      destruct (String.eqb r "SEC") eqn:E; [reflexivity|].
      rewrite sm_find_set, E. reflexivity.
    + apply IH. exact HS.
Qed.


(* ----------------------------------------------------------------- *)
(** ** The tags "Excluded" and "Unspecified" *)

Lemma trackRegsIsEmpty_find (nsd nsd' : NettingSetDetails) (regs : string)
    (m : smap bool) :
  sm_find nsd (trackRegsIsEmpty nsd' regs m)
  = if String.eqb nsd nsd'
    then Some (match sm_find nsd' m with Some b => b | None => true end
               && str_empty regs)
    else sm_find nsd m.
Proof.
  unfold trackRegsIsEmpty.
  destruct (sm_find nsd' m) as [b|] eqn:F.
  - destruct b; simpl.
    + destruct (str_empty regs); simpl.
      * destruct (String.eqb nsd nsd') eqn:E; [|reflexivity].
        apply String.eqb_eq in E. subst. exact F.
      * rewrite sm_find_set. reflexivity.
    + destruct (String.eqb nsd nsd') eqn:E; [|reflexivity].
      apply String.eqb_eq in E. subst. exact F.
  - rewrite sm_find_set. reflexivity.
Qed.

Lemma trackAll_find (proj : CrifRecord -> string) (nsd : NettingSetDetails)
    (l : list CrifRecord) (m : smap bool) :
  sm_find nsd (trackAll proj l m)
  = match filter (ofNettingSet nsd) l with
    | [] => sm_find nsd m
    | l' => Some (match sm_find nsd m with Some b => b | None => true end
                  && forallb (fun cr => str_empty (proj cr)) l')
    end.
Proof.
  unfold trackAll. revert m. induction l as [|cr l IH]; intros m; [reflexivity|].
  cbn [fold_left filter]. rewrite IH, trackRegsIsEmpty_find.
  unfold ofNettingSet at 2. rewrite (String.eqb_sym (nettingSetDetails cr) nsd).
  destruct (String.eqb nsd (nettingSetDetails cr)) eqn:E.
  - apply String.eqb_eq in E. subst nsd.
    destruct (filter (ofNettingSet (nettingSetDetails cr)) l) as [|x l'].
    + cbn [forallb]. rewrite andb_true_r. reflexivity.
    + f_equal. symmetry. apply andb_assoc.
  - reflexivity.
Qed.

Lemma scheduleFilter_fold (recs : SimmNetSensitivities) (c p : smap bool)
    (tmp : SimmNetSensitivities) :
  fold_left scheduleFilterStep recs (c, p, tmp)
  = (trackAll collectRegulations (nonSchedule recs) c,
     trackAll postRegulations (nonSchedule recs) p,
     tmp ++ nonSchedule recs).
Proof.
  unfold nonSchedule, trackAll. revert c p tmp.
  induction recs as [|cr recs IH]; intros c p tmp.
  - simpl. rewrite app_nil_r. reflexivity.
  - cbn [fold_left filter]. unfold scheduleFilterStep at 2.
    destruct (String.eqb (imModel cr) "Schedule"); cbn [negb].
    + apply IH.
    + rewrite IH. cbn [fold_left]. rewrite <- app_assoc. reflexivity.
Qed.

Lemma forallb_and_existsb (A : Type) (f g : A -> bool) (l : list A) :
  negb (forallb f l && forallb g l) = existsb (fun x => negb (f x) || negb (g x)) l.
Proof.
  induction l as [|x l IH]; [reflexivity|].
  cbn [forallb existsb]. rewrite <- IH.
  destruct (f x), (g x), (forallb f l), (forallb g l); reflexivity.
Qed.

Lemma existsb_filter_and (A : Type) (f g : A -> bool) (l : list A) :
  existsb g (filter f l) = existsb (fun x => f x && g x) l.
Proof.
  induction l as [|x l IH]; [reflexivity|].
  cbn [filter existsb]. destruct (f x); cbn [existsb andb]; rewrite IH; reflexivity.
Qed.

(** For a netting set with a record, the two flags of [addCrifRecord] say
    whether no regulation is specified in the netting set. *)
Lemma regsIsEmpty_specified (recs : SimmNetSensitivities) (cr : CrifRecord) :
  In cr (nonSchedule recs) ->
  negb (regsIsEmptyOf (nettingSetDetails cr) (fst (regsIsEmptyMaps recs))
        && regsIsEmptyOf (nettingSetDetails cr) (snd (regsIsEmptyMaps recs)))
  = regsSpecified (nettingSetDetails cr) recs.
Proof.
  intros Hcr. unfold regsIsEmptyMaps. rewrite scheduleFilter_fold. cbn [fst snd].
  unfold regsIsEmptyOf. rewrite !trackAll_find.
  unfold regsSpecified.
  rewrite <- (existsb_filter_and (ofNettingSet (nettingSetDetails cr))
                (fun cr0 => negb (str_empty (collectRegulations cr0))
                            || negb (str_empty (postRegulations cr0)))).
  destruct (filter (ofNettingSet (nettingSetDetails cr)) (nonSchedule recs))
    as [|x l] eqn:F.
  - exfalso.
    assert (Hin : In cr (filter (ofNettingSet (nettingSetDetails cr)) (nonSchedule recs))).
    { apply filter_In. split; [exact Hcr|]. unfold ofNettingSet. apply String.eqb_refl. }
    rewrite F in Hin. exact Hin.
  - cbn [sm_find andb]. apply forallb_and_existsb.
Qed.

Lemma addCrifRecord_flags parse enf st cr side :
  collectRegsIsEmpty_ (addCrifRecord parse enf st cr side) = collectRegsIsEmpty_ st
  /\ postRegsIsEmpty_ (addCrifRecord parse enf st cr side) = postRegsIsEmpty_ st.
Proof.
  unfold addCrifRecord.
  generalize (regsIsEmptyOf (nettingSetDetails cr) (collectRegsIsEmpty_ st)).
  generalize (regsIsEmptyOf (nettingSetDetails cr) (postRegsIsEmpty_ st)).
  intros pE cE.
  generalize (parse (regsStringOf enf side cr)). intros regs. revert st.
  induction regs as [|r regs IH]; intros st; [split; reflexivity|].
  cbn [fold_left].
  destruct (dropsRegulation enf cE pE r); [apply IH|].
  destruct (negb (String.eqb r "Excluded")); [|apply IH].
  destruct (IH (setRegSensitivities st side
                  (addToRegulation (nettingSetDetails cr) r (clearRegulations cr)
                     (regSensitivities_ st side)))) as [H1 H2].
  rewrite H1, H2. destruct side; split; reflexivity.
Qed.

Lemma unspecifiedAlone_postProcess (regs : smap CrifLoader) :
  unspecifiedAlone (postProcessRegulations regs) = true.
Proof.
  unfold unspecifiedAlone, postProcessRegulations, dropUnspecified.
  destruct (sm_mem "Unspecified" (mergeCFTCIntoSEC regs)
            && Nat.ltb 1 (List.length (mergeCFTCIntoSEC regs))) eqn:E.
  - unfold sm_mem at 1. rewrite sm_find_erase, String.eqb_refl. reflexivity.
  - rewrite E. reflexivity.
Qed.

Lemma addLoop_kept (enforceIMRegulations cE pE : bool) (keep : string -> bool)
    (add : SplitState -> string -> SplitState) (regs : sset) (st : SplitState) :
  (forall r, keep r = negb (dropsRegulation enforceIMRegulations cE pE r)) ->
  fold_left
    (fun st r =>
       if dropsRegulation enforceIMRegulations cE pE r then st
       else if negb (String.eqb r "Excluded") then add st r else st)
    regs st
  = fold_left add (filter keep regs) st.
Proof.
  intros Hk. revert st. induction regs as [|r regs IH]; intros st; [reflexivity|].
  cbn [fold_left filter]. rewrite Hk.
  destruct (dropsRegulation enforceIMRegulations cE pE r) eqn:D; cbn [negb].
  - apply IH.
  - assert (HE : String.eqb r "Excluded" = false).
    { unfold dropsRegulation in D. apply orb_false_iff in D. tauto. }
    rewrite HE. cbn [negb fold_left]. apply IH.
Qed.

Section Tags.

Variable parseRegulationString : string -> sset.
Variable enforceIMRegulations : bool.

Lemma drops_Excluded cE pE :
  dropsRegulation enforceIMRegulations cE pE "Excluded" = true.
Proof. reflexivity. Qed.

Lemma drops_Unspecified cE pE :
  dropsRegulation enforceIMRegulations cE pE "Unspecified"
  = enforceIMRegulations && negb (cE && pE).
Proof. reflexivity. Qed.

Lemma splitRegulations_find (recs : SimmNetSensitivities) (side : SimmSide.t)
    (nsd : NettingSetDetails) :
  match sm_find nsd
          (regSensitivities_
             (splitRegulations parseRegulationString enforceIMRegulations recs) side) with
  | Some regs => unspecifiedAlone regs = true
  | None => True
  end.
Proof.
  unfold splitRegulations.
  destruct (fold_left scheduleFilterStep recs ([], [], [])) as [[c p] tmp].
  destruct tmp as [|cr0 tmp].
  - destruct side; exact I.
  - set (st := fold_left _ (cr0 :: tmp) _).
    assert (H : forall rs,
               match sm_find nsd (postProcessSide rs) with
               | Some regs => unspecifiedAlone regs = true
               | None => True
               end).
    { intros rs. unfold postProcessSide.
      change (map (fun s => (fst s, postProcessRegulations (snd s))) rs)
        with (mapValues (fun s : string * smap CrifLoader =>
                           postProcessRegulations (snd s)) rs).
      rewrite mapValues_find. destruct (sm_find nsd rs); [|exact I].
      apply unspecifiedAlone_postProcess. }
    destruct side; apply H.
Qed.

End Tags.

(** *** What [addCrifRecord] leaves in the loaders *)

Lemma setRegSensitivities_same (st : SplitState) (side : SimmSide.t) :
  setRegSensitivities st side (regSensitivities_ st side) = st.
Proof. destruct st, side; reflexivity. Qed.

Lemma setRegSensitivities_twice (st : SplitState) (side : SimmSide.t)
    (a b : RegSensitivities) :
  setRegSensitivities (setRegSensitivities st side a) side b
  = setRegSensitivities st side b.
Proof. destruct st, side; reflexivity. Qed.

Lemma regSensitivities_set (st : SplitState) (side : SimmSide.t) (a : RegSensitivities) :
  regSensitivities_ (setRegSensitivities st side a) side = a.
Proof. destruct st, side; reflexivity. Qed.

Lemma regSensitivities_set_other (st : SplitState) (side side' : SimmSide.t)
    (a : RegSensitivities) :
  side' <> side ->
  regSensitivities_ (setRegSensitivities st side a) side' = regSensitivities_ st side'.
Proof. destruct st, side, side'; intros H; try reflexivity; congruence. Qed.

Lemma loaderAt_addToRegulation (nsd : NettingSetDetails) (r : string) (new : CrifRecord)
    (rs : RegSensitivities) (nsd' : NettingSetDetails) (r' : string) :
  loaderAt (addToRegulation nsd r new rs) nsd' r'
  = if String.eqb nsd' nsd && String.eqb r' r
    then Some (loader_add true new (recordsOf (loaderAt rs nsd r)))
    else loaderAt rs nsd' r'.
Proof.
  unfold loaderAt, recordsOf, addToRegulation. cbv zeta. rewrite sm_find_set.
  destruct (String.eqb nsd' nsd) eqn:En; cbn [andb]; [|reflexivity].
  apply String.eqb_eq in En. subst nsd'. rewrite sm_find_set.
  destruct (String.eqb r' r); destruct (sm_find nsd rs); reflexivity.
Qed.

Lemma netRecords_has_loader_add (new : CrifRecord) (loader : CrifLoader) :
  netRecords_has (loader_add true new loader) new = true.
Proof.
  rewrite netRecords_has_add. cbn [negb]. unfold netRecords_has.
  destruct (existsb (crifRecordEqb false new) loader); [reflexivity|].
  cbn [negb andb orb]. apply crifRecordEqb_refl.
Qed.

Section AddedTags.

Variable nsd : NettingSetDetails.
Variable new : CrifRecord.
Variable side : SimmSide.t.

Let add (st : SplitState) (r : string) : SplitState :=
  setRegSensitivities st side (addToRegulation nsd r new (regSensitivities_ st side)).

Let at_ (st : SplitState) (nsd' : NettingSetDetails) (r : string) : option CrifLoader :=
  loaderAt (regSensitivities_ st side) nsd' r.

Lemma add_at (st : SplitState) (r : string) (nsd' : NettingSetDetails) (r' : string) :
  at_ (add st r) nsd' r'
  = if String.eqb nsd' nsd && String.eqb r' r
    then Some (loader_add true new (recordsOf (at_ st nsd r)))
    else at_ st nsd' r'.
Proof. unfold at_, add. rewrite regSensitivities_set. apply loaderAt_addToRegulation. Qed.

Lemma addTags_other_side (kept : list string) (st : SplitState) (side' : SimmSide.t) :
  side' <> side ->
  regSensitivities_ (fold_left add kept st) side' = regSensitivities_ st side'.
Proof.
  intros H. revert st. induction kept as [|r kept IH]; intros st; [reflexivity|].
  cbn [fold_left]. rewrite IH. unfold add. apply regSensitivities_set_other. exact H.
Qed.

Lemma addTags_unchanged (kept : list string) (st : SplitState)
    (nsd' : NettingSetDetails) (r' : string) :
  nsd' <> nsd \/ ~ In r' kept ->
  at_ (fold_left add kept st) nsd' r' = at_ st nsd' r'.
Proof.
  revert st. induction kept as [|r kept IH]; intros st H; [reflexivity|].
  cbn [fold_left]. rewrite IH.
  - rewrite add_at.
    destruct H as [H|H].
    + rewrite (eqb_false_of_neq H). reflexivity.
    + assert (N : r' <> r) by (intros E; apply H; left; symmetry; exact E).
      rewrite (eqb_false_of_neq N), andb_false_r. reflexivity.
  - destruct H as [H|H]; [left; exact H|right; intros Hin; apply H; right; exact Hin].
Qed.

Lemma addTags_once (kept : list string) (st : SplitState) (r : string) :
  NoDup kept -> In r kept ->
  at_ (fold_left add kept st) nsd r
  = Some (loader_add true new (recordsOf (at_ st nsd r))).
Proof.
  revert st. induction kept as [|r0 kept IH]; intros st Hnd Hin; [contradiction|].
  inversion Hnd as [|x l Hx Hl]; subst. cbn [fold_left].
  destruct Hin as [E|Hin].
  - subst r0. rewrite addTags_unchanged by (right; exact Hx).
    rewrite add_at, !String.eqb_refl. reflexivity.
  - rewrite IH by assumption. rewrite add_at.
    assert (N : r <> r0) by (intros E; subst; contradiction).
    rewrite (eqb_false_of_neq N), andb_false_r. reflexivity.
Qed.

Lemma addTags_keeps_held (kept : list string) (st : SplitState) (r : string) :
  (exists loader, at_ st nsd r = Some loader /\ netRecords_has loader new = true) ->
  exists loader,
    at_ (fold_left add kept st) nsd r = Some loader
    /\ netRecords_has loader new = true.
Proof.
  revert st. induction kept as [|r0 kept IH]; intros st H; [exact H|].
  cbn [fold_left]. apply IH. rewrite add_at.
  destruct (String.eqb nsd nsd && String.eqb r r0); [|exact H].
  eexists. split; [reflexivity|apply netRecords_has_loader_add].
Qed.

Lemma addTags_held (kept : list string) (st : SplitState) (r : string) :
  In r kept ->
  exists loader,
    at_ (fold_left add kept st) nsd r = Some loader
    /\ netRecords_has loader new = true.
Proof.
  revert st. induction kept as [|r0 kept IH]; intros st Hin; [contradiction|].
  cbn [fold_left]. destruct Hin as [E|Hin]; [|apply IH; exact Hin].
  subst r0. apply addTags_keeps_held. rewrite add_at, !String.eqb_refl.
  eexists. split; [reflexivity|apply netRecords_has_loader_add].
Qed.

End AddedTags.

(** *** What the post-processing leaves of the regulations *)

Lemma sm_set_length_found (V : Type) (k : string) (v v0 : V) (m : smap V) :
  smSorted m -> sm_find k m = Some v0 -> List.length (sm_set k v m) = List.length m.
Proof.
  induction m as [|[k' v'] m IH]; cbn [sm_find sm_set smSorted fst];
    intros Hs F; [discriminate F|].
  destruct Hs as [Ha Hs]. destruct (String.compare k k') eqn:C.
  - reflexivity.
  - exfalso. pose proof (compare_Lt_neq C) as N.
    rewrite (eqb_false_of_neq N) in F.
    assert (Hk : keysAfter k m) by (eapply keysAfter_trans; eassumption).
    apply keysAfter_find in Hk.
    congruence.
  - cbn [List.length]. f_equal. apply IH; [exact Hs|].
    destruct (String.eqb k k') eqn:E; [|exact F].
    apply String.eqb_eq in E. subst k'. rewrite compare_refl in C. discriminate C.
Qed.

Lemma mergeLoop_length (netRecordsSEC : SimmNetSensitivities) (cs : list CrifRecord)
    (regs : smap CrifLoader) :
  smSorted regs ->
  List.length (fold_left (mergeStep netRecordsSEC) cs regs) = List.length regs.
Proof.
  revert regs. induction cs as [|cr cs IH]; intros regs Hs; [reflexivity|].
  cbn [fold_left]. unfold mergeStep at 2.
  destruct (negb (netRecords_has netRecordsSEC cr)); [|apply IH; exact Hs].
  destruct (sm_find "SEC" regs) as [sec|] eqn:F; [|apply IH; exact Hs].
  rewrite IH by (apply sm_set_sorted; exact Hs).
  eapply sm_set_length_found; eassumption.
Qed.

Lemma mergeCFTCIntoSEC_length (regs : smap CrifLoader) :
  smSorted regs -> List.length (mergeCFTCIntoSEC regs) = List.length regs.
Proof.
  intros Hs. unfold mergeCFTCIntoSEC.
  destruct (sm_find "CFTC" regs); [|reflexivity].
  destruct (sm_find "SEC" regs); [|reflexivity].
  apply mergeLoop_length. exact Hs.
Qed.

Lemma mergeCFTCIntoSEC_other (regs : smap CrifLoader) (r : string) :
  r <> "SEC" -> sm_find r (mergeCFTCIntoSEC regs) = sm_find r regs.
Proof.
  intros N. unfold mergeCFTCIntoSEC.
  destruct (sm_find "CFTC" regs) as [cftc|]; [|reflexivity].
  destruct (sm_find "SEC" regs) as [sec|] eqn:F; [|reflexivity].
  rewrite (@mergeLoop_find sec cftc regs sec r F), (eqb_false_of_neq N). reflexivity.
Qed.

Lemma mergeCFTCIntoSEC_mem (regs : smap CrifLoader) (r : string) :
  sm_mem r (mergeCFTCIntoSEC regs) = sm_mem r regs.
Proof.
  destruct (String.eqb r "SEC") eqn:E.
  - apply String.eqb_eq in E. subst r. unfold mergeCFTCIntoSEC.
    destruct (sm_find "CFTC" regs) as [cftc|]; [|reflexivity].
    destruct (sm_find "SEC" regs) as [sec|] eqn:F; [|reflexivity].
    unfold sm_mem. rewrite (@mergeLoop_find sec cftc regs sec "SEC" F), F. reflexivity.
  - unfold sm_mem. rewrite mergeCFTCIntoSEC_other; [reflexivity|].
    apply String.eqb_neq. exact E.
Qed.

Lemma postProcessRegulations_mem (regs : smap CrifLoader) (r : string) :
  smSorted regs ->
  sm_mem r (postProcessRegulations regs)
  = sm_mem r regs && negb (String.eqb r "Unspecified" && Nat.ltb 1 (List.length regs)).
Proof.
  intros Hs. unfold postProcessRegulations, dropUnspecified.
  rewrite mergeCFTCIntoSEC_length by exact Hs. rewrite mergeCFTCIntoSEC_mem.
  destruct (String.eqb r "Unspecified") eqn:E.
  - apply String.eqb_eq in E. subst r.
    destruct (sm_mem "Unspecified" regs) eqn:M;
      destruct (Nat.ltb 1 (List.length regs)); cbn [andb negb].
    + unfold sm_mem. rewrite sm_find_erase, String.eqb_refl. reflexivity.
    + rewrite mergeCFTCIntoSEC_mem. exact M.
    + rewrite mergeCFTCIntoSEC_mem. exact M.
    + rewrite mergeCFTCIntoSEC_mem. exact M.
  - cbn [andb negb]. rewrite andb_true_r.
    destruct (sm_mem "Unspecified" regs && Nat.ltb 1 (List.length regs));
      [|apply mergeCFTCIntoSEC_mem].
    unfold sm_mem at 1. rewrite sm_find_erase, String.eqb_sym, E.
    apply mergeCFTCIntoSEC_mem.
Qed.

Lemma postProcessRegulations_find (regs : smap CrifLoader) (r : string) :
  smSorted regs -> r <> "SEC" ->
  sm_find r (postProcessRegulations regs)
  = if String.eqb r "Unspecified" && Nat.ltb 1 (List.length regs)
    then None else sm_find r regs.
Proof.
  intros Hs N. unfold postProcessRegulations, dropUnspecified.
  rewrite mergeCFTCIntoSEC_length by exact Hs. rewrite mergeCFTCIntoSEC_mem.
  destruct (String.eqb r "Unspecified") eqn:E.
  - apply String.eqb_eq in E. subst r.
    destruct (sm_mem "Unspecified" regs) eqn:M;
      destruct (Nat.ltb 1 (List.length regs)); cbn [andb].
    + rewrite sm_find_erase, String.eqb_refl. reflexivity.
    + apply mergeCFTCIntoSEC_other. exact N.
    + rewrite mergeCFTCIntoSEC_other by exact N. unfold sm_mem in M.
      destruct (sm_find "Unspecified" regs); [discriminate M|reflexivity].
    + apply mergeCFTCIntoSEC_other. exact N.
  - cbn [andb].
    destruct (sm_mem "Unspecified" regs && Nat.ltb 1 (List.length regs));
      [|apply mergeCFTCIntoSEC_other; exact N].
    rewrite sm_find_erase, String.eqb_sym, E. apply mergeCFTCIntoSEC_other. exact N.
Qed.

Lemma splitRegulations_postProcessed (parse : string -> sset) (enf : bool)
    (recs : SimmNetSensitivities) (side : SimmSide.t) (nsd : NettingSetDetails) :
  sm_find nsd (regSensitivities_ (splitRegulations parse enf recs) side)
  = option_map postProcessRegulations
      (sm_find nsd (regSensitivities_ (addedRegulations parse enf recs) side)).
Proof.
  assert (H : forall rs : RegSensitivities,
             sm_find nsd (postProcessSide rs)
             = option_map postProcessRegulations (sm_find nsd rs)).
  { intros rs. unfold postProcessSide.
    change (map (fun s => (fst s, postProcessRegulations (snd s))) rs)
      with (mapValues (fun s : string * smap CrifLoader =>
                         postProcessRegulations (snd s)) rs).
    rewrite mapValues_find. destruct (sm_find nsd rs); reflexivity. }
  unfold splitRegulations, addedRegulations, regsIsEmptyMaps.
  rewrite scheduleFilter_fold. cbn [app fst snd].
  destruct (nonSchedule recs) as [|cr0 tmp].
  - destruct side; reflexivity.
  - destruct side;
      cbn [regSensitivities_ regSensitivitiesCall regSensitivitiesPost
           collectRegsIsEmpty_ postRegsIsEmpty_]; apply H.
Qed.

(** C7.  In [addCrifRecord] the tag "Excluded" is always left out and the
    tag "Unspecified" is left out exactly when regulations are enforced and
    some record of the netting set has a non-empty collect or post
    regulation list: the record goes to the loaders of the other tags of
    its list and of no tag besides.  After the call the loader of every tag
    that is kept holds the record (added once when the tags form a set),
    while the loader of a tag that is left out, every other netting set
    and the other side are as before.  The post-processing removes the
    regulation "Unspecified", and no other, exactly where it is held with
    another regulation; this is what the splitting applies to every
    netting set, so that afterwards no netting set and side holds
    "Unspecified" together with another regulation. *)
Theorem excluded_and_unspecified_tags (parseRegulationString : string -> sset)
    (enforceIMRegulations : bool) (recs : SimmNetSensitivities)
    (st : SplitState) (cr : CrifRecord) (side : SimmSide.t)
    (Hcr : In cr (nonSchedule recs))
    (Hc : collectRegsIsEmpty_ st = fst (regsIsEmptyMaps recs))
    (Hp : postRegsIsEmpty_ st = snd (regsIsEmptyMaps recs)) :
  (forall cE pE, dropsRegulation enforceIMRegulations cE pE "Excluded" = true)
  /\ dropsRegulation enforceIMRegulations
       (regsIsEmptyOf (nettingSetDetails cr) (collectRegsIsEmpty_ st))
       (regsIsEmptyOf (nettingSetDetails cr) (postRegsIsEmpty_ st)) "Unspecified"
     = enforceIMRegulations && regsSpecified (nettingSetDetails cr) recs
  /\ addCrifRecord parseRegulationString enforceIMRegulations st cr side
     = fold_left
         (fun st r =>
            setRegSensitivities st side
              (addToRegulation (nettingSetDetails cr) r (clearRegulations cr)
                               (regSensitivities_ st side)))
         (filter (keepsRegulation enforceIMRegulations (nettingSetDetails cr) recs)
                 (parseRegulationString (regsStringOf enforceIMRegulations side cr)))
         st
  /\ (forall regs, unspecifiedAlone (postProcessRegulations regs) = true)
  /\ (forall side' nsd,
        match sm_find nsd
                (regSensitivities_
                   (splitRegulations parseRegulationString enforceIMRegulations recs)
                   side') with
        | Some regs => unspecifiedAlone regs = true
        | None => True
        end)
  /\ (forall r,
        In r (parseRegulationString (regsStringOf enforceIMRegulations side cr)) ->
        keepsRegulation enforceIMRegulations (nettingSetDetails cr) recs r = true ->
        exists loader,
          loaderAt (regSensitivities_
                      (addCrifRecord parseRegulationString enforceIMRegulations st cr side)
                      side)
                   (nettingSetDetails cr) r = Some loader
          /\ netRecords_has loader (clearRegulations cr) = true
          /\ (NoDup (parseRegulationString (regsStringOf enforceIMRegulations side cr)) ->
              loader
              = loader_add true (clearRegulations cr)
                  (recordsOf (loaderAt (regSensitivities_ st side)
                                       (nettingSetDetails cr) r))))
  /\ (forall nsd r,
        nsd <> nettingSetDetails cr
        \/ ~ In r (parseRegulationString (regsStringOf enforceIMRegulations side cr))
        \/ keepsRegulation enforceIMRegulations (nettingSetDetails cr) recs r = false ->
        loaderAt (regSensitivities_
                    (addCrifRecord parseRegulationString enforceIMRegulations st cr side)
                    side) nsd r
        = loaderAt (regSensitivities_ st side) nsd r)
  /\ (forall side',
        side' <> side ->
        regSensitivities_
          (addCrifRecord parseRegulationString enforceIMRegulations st cr side) side'
        = regSensitivities_ st side')
  /\ (forall regs r,
        smSorted regs ->
        sm_mem r (postProcessRegulations regs)
        = sm_mem r regs
          && negb (String.eqb r "Unspecified" && Nat.ltb 1 (List.length regs)))
  /\ (forall regs r,
        smSorted regs -> r <> "SEC" ->
        sm_find r (postProcessRegulations regs)
        = if String.eqb r "Unspecified" && Nat.ltb 1 (List.length regs)
          then None else sm_find r regs)
  /\ (forall side' nsd,
        sm_find nsd
          (regSensitivities_
             (splitRegulations parseRegulationString enforceIMRegulations recs) side')
        = option_map postProcessRegulations
            (sm_find nsd
               (regSensitivities_
                  (addedRegulations parseRegulationString enforceIMRegulations recs)
                  side'))).
Proof.
  pose proof (regsIsEmpty_specified recs cr Hcr) as Hs.
  rewrite <- Hc, <- Hp in Hs.
  assert (Hfold :
            addCrifRecord parseRegulationString enforceIMRegulations st cr side
            = fold_left
                (fun st r =>
                   setRegSensitivities st side
                     (addToRegulation (nettingSetDetails cr) r (clearRegulations cr)
                                      (regSensitivities_ st side)))
                (filter (keepsRegulation enforceIMRegulations (nettingSetDetails cr) recs)
                        (parseRegulationString
                           (regsStringOf enforceIMRegulations side cr)))
                st).
  { unfold addCrifRecord. cbv zeta.
    apply addLoop_kept
      with (cE := regsIsEmptyOf (nettingSetDetails cr) (collectRegsIsEmpty_ st))
           (pE := regsIsEmptyOf (nettingSetDetails cr) (postRegsIsEmpty_ st)).
    intros r.
    unfold keepsRegulation, dropsRegulation. rewrite Hs.
    rewrite negb_orb. reflexivity. }
  split; [intros; apply drops_Excluded|].
  split; [rewrite drops_Unspecified, Hs; reflexivity|].
  split; [exact Hfold|].
  split; [apply unspecifiedAlone_postProcess|].
  split; [intros side' nsd; apply splitRegulations_find|].
  split.
  { intros r Hin Hk. rewrite Hfold.
    set (kept := filter _ _).
    assert (Hkept : In r kept) by (apply filter_In; split; assumption).
    destruct (addTags_held (nettingSetDetails cr) (clearRegulations cr) side kept st r
                Hkept) as [loader [Hl Hh]].
    exists loader. split; [exact Hl|]. split; [exact Hh|].
    intros Hnd.
    assert (HndK : NoDup kept) by (apply NoDup_filter; exact Hnd).
    pose proof (@addTags_once (nettingSetDetails cr) (clearRegulations cr) side kept st r
                  HndK Hkept) as Ho.
    cbv beta in Ho. rewrite Hl in Ho. injection Ho as ->. reflexivity. }
  split.
  { intros nsd r H. rewrite Hfold.
    apply (@addTags_unchanged (nettingSetDetails cr) (clearRegulations cr) side).
    destruct H as [H|[H|H]]; [left; exact H|right|right]; intros Hin;
      apply filter_In in Hin; destruct Hin as [Hin Hk]; [exact (H Hin)|congruence]. }
  split.
  { intros side' H. rewrite Hfold.
    apply (@addTags_other_side (nettingSetDetails cr) (clearRegulations cr) side).
    exact H. }
  split; [intros regs r; apply postProcessRegulations_mem|].
  split; [intros regs r; apply postProcessRegulations_find|].
  intros side' nsd. apply splitRegulations_postProcessed.
Qed.


Lemma excluded_and_unspecified_tags_witness :
  let recs := [Samples.regulated] in
  let st := mkSplitState (fst (regsIsEmptyMaps recs)) (snd (regsIsEmptyMaps recs)) [] [] in
  dropsRegulation true
    (regsIsEmptyOf "NS1" (collectRegsIsEmpty_ st))
    (regsIsEmptyOf "NS1" (postRegsIsEmpty_ st)) "Unspecified"
  = true && regsSpecified "NS1" recs
  /\ unspecifiedAlone (postProcessRegulations Samples.cftcAndSec) = true
  /\ (exists loader,
        loaderAt (regSensitivities_
                    (addCrifRecord Samples.parseOne true st Samples.regulated
                                   SimmSide.Call)
                    SimmSide.Call) "NS1" "CFTC" = Some loader
        /\ netRecords_has loader (clearRegulations Samples.regulated) = true)
  /\ loaderAt (regSensitivities_
                 (addCrifRecord Samples.parseOne true st Samples.regulated SimmSide.Call)
                 SimmSide.Call) "NS1" "Unspecified"
     = None.
Proof.
  intros recs st.
  destruct (@excluded_and_unspecified_tags Samples.parseOne true recs st
              Samples.regulated SimmSide.Call)
    as [_ [H2 [_ [H4 [_ [H6 [H7 _]]]]]]].
  - left. reflexivity.
  - reflexivity.
  - reflexivity.
  - split; [exact H2|]. split; [apply H4|]. split.
    + destruct (H6 "CFTC") as [loader [Hl [Hh _]]];
        [left; reflexivity|reflexivity|].
      exists loader. split; assumption.
    + rewrite (H7 "NS1" "Unspecified"); [reflexivity|].
      right. left. intros [E|[]]. discriminate E.
Defined.

(* ----------------------------------------------------------------- *)
(** ** Sums over pairs *)

Lemma sumR_app (l1 l2 : list R) : sumR (l1 ++ l2) = sumR l1 + sumR l2.
Proof. induction l1 as [|x l1 IH]; simpl; [lra|]. rewrite IH. lra. Qed.

Lemma sumR_map_plus (A : Type) (f g : A -> R) (l : list A) :
  sumR (map (fun x => f x + g x) l) = sumR (map f l) + sumR (map g l).
Proof. induction l as [|x l IH]; simpl; [lra|]. rewrite IH. lra. Qed.

Lemma sumR_map_ext_in (A : Type) (f g : A -> R) (l : list A) :
  (forall x, In x l -> f x = g x) -> sumR (map f l) = sumR (map g l).
Proof. intros H. f_equal. apply map_ext_in. exact H. Qed.

Lemma sumCross_snoc (A : Type) (f : A -> A -> R) (earlier rest : list A) (x : A) :
  sumCross f (earlier ++ [x]) rest
  = sumCross f earlier rest + sumR (map (fun outer => f outer x) rest).
Proof.
  unfold sumCross. rewrite <- sumR_map_plus. apply sumR_map_ext_in.
  intros o _. rewrite map_app, sumR_app. simpl. lra.
Qed.

Lemma sumCross_nil (A : Type) (f : A -> A -> R) (rest : list A) :
  sumCross f [] rest = 0.
Proof.
  unfold sumCross, sumR. induction rest as [|x rest IH]; simpl in *; [reflexivity|].
  rewrite IH. lra.
Qed.

Lemma fold_left_map (A B C : Type) (f : A -> C -> A) (h : B -> C) (l : list B) (a : A) :
  fold_left f (map h l) a = fold_left (fun acc x => f acc (h x)) l a.
Proof. revert a. induction l as [|x l IH]; intros a; simpl; [reflexivity|apply IH]. Qed.

Lemma pairLoop_closed (A : Type) (diag : A -> R) (cross : A -> A -> R)
    (earlier rest : list A) (acc : R) :
  pairLoop diag cross earlier rest acc
  = acc + sumR (map diag rest) + sumCross cross earlier rest + sumPairs cross rest.
Proof.
  revert earlier acc. induction rest as [|x rest IH]; intros earlier acc.
  - unfold sumCross. simpl. lra.
  - cbn [pairLoop]. rewrite IH, fold_left_plus, sumCross_snoc.
    unfold sumCross. simpl. lra.
Qed.

(* ----------------------------------------------------------------- *)
(** ** The curvature margin, bucket by bucket *)

Lemma match_filter_existsb (A B : Type) (p : A -> bool) (l : list A) (x y : B) :
  match filter p l with [] => x | _ :: _ => y end = if existsb p l then y else x.
Proof.
  induction l as [|a l IH]; [reflexivity|].
  cbn [filter existsb]. destruct (p a); [reflexivity|exact IH].
Qed.

Section AddedMaps.

Variable key : CrifRecord -> string.
Variable x : CrifRecord -> R.

Local Abbreviation addAll := (addAll key x).

Lemma addAll_sorted range m : smSorted m -> smSorted (addAll range m).
Proof.
  unfold addAll. revert m. induction range as [|it range IH]; intros m H; [exact H|].
  cbn [fold_left]. apply IH. unfold sm_add. apply sm_set_sorted. exact H.
Qed.

Lemma addAll_find (q : string) range m :
  sm_find q (addAll range m)
  = match filter (fun it => String.eqb (key it) q) range with
    | [] => sm_find q m
    | l => Some (sm_get q m + sumR (map x l))
    end.
Proof.
  unfold addAll. revert m. induction range as [|it range IH]; intros m; [reflexivity|].
  cbn [fold_left filter]. rewrite IH. unfold sm_add.
  rewrite sm_find_set, sm_get_set.
  rewrite (String.eqb_sym (key it) q).
  destruct (String.eqb q (key it)) eqn:E.
  - apply String.eqb_eq in E. subst q.
    destruct (filter (fun it0 => String.eqb (key it0) (key it)) range) as [|y l].
    + simpl. f_equal. lra.
    + f_equal. simpl. lra.
  - destruct (filter (fun it0 => String.eqb (key it0) q) range); reflexivity.
Qed.

End AddedMaps.

Lemma existsb_eqb_sym (q : string) (range : list CrifRecord) :
  existsb (fun it => String.eqb (qualifier it) q) range
  = existsb (fun r => String.eqb q (qualifier r)) range.
Proof.
  induction range as [|r range IH]; [reflexivity|].
  cbn [existsb]. rewrite IH, String.eqb_sym. reflexivity.
Qed.

(** The map [sumAbsTemp[bucket]] holds, for each qualifier of the range,
    the sum of its amounts. *)
Lemma addAll_qualifiers (x : CrifRecord -> R) (range : list CrifRecord) :
  addAll qualifier x range []
  = mapValues (fun kv => sumR (map x (filter (fun it => String.eqb (qualifier it) (fst kv))
                                             range)))
              (asMap (qualifiersOf range [])).
Proof.
  apply smSorted_ext.
  - apply addAll_sorted. exact I.
  - apply mapValues_sorted. apply (qualifiersOf_sorted range []). exact I.
  - intros q. rewrite addAll_find, mapValues_find, asMap_find, qualifiersOf_mem.
    cbn [existsb]. rewrite orb_false_r. cbn [sm_find fst].
    rewrite <- existsb_eqb_sym.
    rewrite <- (match_filter_existsb (fun it => String.eqb (qualifier it) q) range
                  (@None unit) (Some tt)).
    destruct (filter (fun it => String.eqb (qualifier it) q) range) as [|y l] eqn:F;
      [reflexivity|].
    f_equal. unfold sm_get. cbn [sm_find]. lra.
Qed.

Lemma fold_abs_mapValues (V : Type) (g : string * V -> R) (l : smap V) :
  fold_left (fun acc kv => acc + Rabs (snd kv)) (mapValues g l) 0
  = sumR (map (fun kv => Rabs (g kv)) l).
Proof.
  rewrite fold_left_plus, Rplus_0_l. unfold mapValues. rewrite map_map. reflexivity.
Qed.

Section CurvatureBuckets.

Variable cfg : SimmConfiguration.
Variable calculationCcy : string.
Variable nsd : NettingSetDetails.
Variable pc : ProductClass.t.
Variable rt : RiskType.t.
Variable side : SimmSide.t.
Variable rfLabels : bool.
Variable recs : SimmNetSensitivities.

Let cvrOf := cvr cfg calculationCcy rt side.
Let absTerm (b : string) (it : CrifRecord) : R :=
  if rfLabels then Rabs (cvrOf b it) else cvrOf b it.

Lemma curvatureBucketLoop_closed b earlier rest st :
  let st' := curvatureBucketLoop cfg calculationCcy rt (sideMultiplier side) rfLabels b
               earlier rest st in
  cbSumWs st' = cbSumWs st + sumR (map (cvrOf b) rest)
  /\ cbMargin st'
     = pairLoop (fun it => cvrOf b it * cvrOf b it)
                (curvatureRecordCross cfg calculationCcy rt side b)
                earlier rest (cbMargin st)
  /\ cbSumAbsTemp st' = addAll qualifier (absTerm b) rest (cbSumAbsTemp st).
Proof.
  revert earlier st. induction rest as [|it rest IH]; intros earlier st.
  - simpl. repeat split. lra.
  - cbn [curvatureBucketLoop]. cbv zeta.
    destruct (IH (earlier ++ [it])
                (mkCurvatureBucketState
                   (cbSumWs st + cvrOf b it)
                   (sm_add (qualifier it) (absTerm b it) (cbSumAbsTemp st))
                   (fold_left
                      (fun cm itInner =>
                         cm + curvatureRecordCross cfg calculationCcy rt side b it itInner)
                      earlier (cbMargin st + cvrOf b it * cvrOf b it))
                   (if riskClassIsFX rt
                    then sm_add (qualifier it) (cvrOf b it) (cbBucketMargins st)
                    else cbBucketMargins st)))
      as [H1 [H2 H3]].
    cbn [cbSumWs cbMargin cbSumAbsTemp] in H1, H2, H3.
    repeat split.
    + etransitivity; [exact H1|]. simpl. lra.
    + exact H2.
    + exact H3.
Qed.

End CurvatureBuckets.

Section CurvatureTotal.

Variable cfg : SimmConfiguration.
Variable calculationCcy : string.
Variable nsd : NettingSetDetails.
Variable pc : ProductClass.t.
Variable rt : RiskType.t.
Variable side : SimmSide.t.
Variable rfLabels : bool.
Variable recs : SimmNetSensitivities.

Let K := bucketCurvatureK cfg calculationCcy nsd pc rt side recs.
Let CVR := bucketCvr cfg calculationCcy nsd pc rt side recs.
Let ABS := bucketAbsCvr cfg calculationCcy nsd pc rt side rfLabels recs.
Let step := curvatureBucketStep cfg calculationCcy nsd pc rt (sideMultiplier side)
              rfLabels recs.

Lemma curvatureBucketStep_fields st kv :
  csMargin (step st kv) = sm_set (fst kv) (K kv) (csMargin st)
  /\ csSumWeightedSensis (step st kv) = sm_set (fst kv) (CVR kv) (csSumWeightedSensis st)
  /\ csSumAbsWeightedSensis (step st kv)
     = sm_set (fst kv) (ABS kv) (csSumAbsWeightedSensis st).
Proof.
  unfold step, curvatureBucketStep. cbv zeta.
  destruct (curvatureBucketLoop_closed cfg calculationCcy rt side rfLabels (fst kv) []
              (bucketRange nsd pc rt (fst kv) recs)
              (mkCurvatureBucketState 0 [] 0 (csBucketMargins st)))
    as [H1 [H2 H3]].
  cbn [cbSumWs cbMargin cbSumAbsTemp] in H1, H2, H3.
  cbn [csMargin csSumWeightedSensis csSumAbsWeightedSensis].
  rewrite H1, H2, H3. repeat split.
  - f_equal. unfold K, bucketCurvatureK. cbv zeta. f_equal. f_equal.
    rewrite pairLoop_closed, sumCross_nil. lra.
  - f_equal. unfold CVR, bucketCvr. lra.
  - f_equal. unfold ABS, bucketAbsCvr.
    rewrite addAll_qualifiers, fold_abs_mapValues.
    unfold asMap. rewrite map_map. reflexivity.
Qed.

Lemma curvatureSteps_fields buckets st :
  let st' := fold_left step buckets st in
  csMargin st' = writeAll K buckets (csMargin st)
  /\ csSumWeightedSensis st' = writeAll CVR buckets (csSumWeightedSensis st)
  /\ csSumAbsWeightedSensis st' = writeAll ABS buckets (csSumAbsWeightedSensis st).
Proof.
  unfold writeAll. revert st. induction buckets as [|kv buckets IH]; intros st.
  - repeat split.
  - cbn [fold_left]. destruct (IH (step st kv)) as [H1 [H2 H3]].
    destruct (curvatureBucketStep_fields st kv) as [E1 [E2 E3]].
    rewrite E1, E2, E3 in *. repeat split; assumption.
Qed.

Lemma accumulate_mapValues (V : Type) (g : string * V -> R) (l : smap V) :
  accumulate (mapValues g l) = sumR (map g l).
Proof.
  unfold accumulate. rewrite fold_left_plus, Rplus_0_l.
  unfold mapValues. rewrite map_map. reflexivity.
Qed.

(** The cross-bucket loop over the bucket margins of [rest], the maps
    read at the buckets of [B]. *)
Lemma curvatureAggregate_closed (B : smap sset) (sw : smap R)
    (earlier rest : smap sset) (m : R) :
  (forall kv, In kv (earlier ++ rest) ->
     sm_getset (fst kv) B = snd kv /\ sm_get (fst kv) sw = CVR kv) ->
  curvatureAggregate cfg calculationCcy rt B sw (mapValues K earlier)
                     (mapValues K rest) m
  = m + sumR (map (fun kv => K kv * K kv) rest)
    + sumCross (curvatureBucketCross cfg calculationCcy nsd pc rt side recs) earlier rest
    + sumPairs (curvatureBucketCross cfg calculationCcy nsd pc rt side recs) rest.
Proof.
  rewrite <- pairLoop_closed.
  revert earlier m. induction rest as [|[ob oq] rest IH]; intros earlier m H;
    [reflexivity|].
  rewrite (mapValues_cons K (ob, oq) rest).
  cbn [curvatureAggregate pairLoop fst snd].
  change (mapValues K earlier ++ [(ob, K (ob, oq))])
    with (mapValues K earlier ++ [(fst (ob, oq), K (ob, oq))]).
  rewrite <- mapValues_snoc.
  rewrite IH by (intros kv Hkv; apply H; rewrite <- app_assoc in Hkv; exact Hkv).
  f_equal. unfold mapValues. rewrite fold_left_map.
  destruct (H (ob, oq)) as [Ho1 Ho2]; [apply in_or_app; right; left; reflexivity|].
  cbn [fst snd] in Ho1, Ho2.
  apply fold_left_ext_in. intros a inner Hin.
  destruct (H inner) as [Hi1 Hi2]; [apply in_or_app; left; exact Hin|].
  cbn [fst snd]. rewrite Ho1, Ho2, Hi1, Hi2.
  unfold curvatureBucketCross. cbn [fst snd]. reflexivity.
Qed.

End CurvatureTotal.

Lemma residual_lookup (g h : string * sset -> R) (B : smap sset) :
  (if sm_mem "Residual" (mapValues g B) then sm_get "Residual" (mapValues h B) else 0)
  = match sm_find "Residual" B with
    | Some qs => h ("Residual", qs)
    | None => 0
    end.
Proof.
  unfold sm_mem, sm_get. rewrite !mapValues_find.
  destruct (sm_find "Residual" B); reflexivity.
Qed.

Lemma erased_lookup (g : string * sset -> R) (B : smap sset) (kv : string * sset) :
  smSorted B -> In kv (sm_erase "Residual" B) ->
  sm_getset (fst kv) B = snd kv
  /\ sm_get (fst kv) (mapValues g (sm_erase "Residual" B)) = g kv.
Proof.
  intros Hs Hin. destruct kv as [b qs]. cbn [fst snd].
  pose proof (smSorted_In_find _ _ _ (sm_erase_sorted "Residual" _ Hs) Hin) as F.
  split.
  - apply sm_erase_In in Hin. destruct Hin as [Hin _].
    unfold sm_getset. rewrite (smSorted_In_find _ _ _ Hs Hin). reflexivity.
  - unfold sm_get. rewrite mapValues_find, F. reflexivity.
Qed.

(** The "All" entry of [curvatureMargin] is the closed form
    [curvatureTotalFormula]. *)
Lemma curvatureMargin_total cfg calculationCcy nsd pc rt side recs rfLabels :
  sm_get "All" (fst (curvatureMargin cfg calculationCcy nsd pc rt side recs rfLabels))
  = curvatureTotalFormula cfg calculationCcy nsd pc rt side rfLabels recs.
Proof.
  unfold curvatureMargin, curvatureTotalFormula.
  pose proof (bucketsOf_sorted (riskTypeRange nsd pc rt recs)) as Hs.
  destruct (bucketsOf (riskTypeRange nsd pc rt recs)) as [|kv0 B'] eqn:EB.
  - cbn [fst]. rewrite sm_get_set_same.
    unfold curvatureTotalOver, curvatureResidualPart, sm_erase. cbn [filter map sumR fold_right sm_find].
    rewrite close_enough_0_0. lra.
  - remember (kv0 :: B') as B eqn:EB'. clear EB. cbv zeta.
    destruct (curvatureSteps_fields cfg calculationCcy nsd pc rt side rfLabels recs B
                (mkCurvatureState [] [] [] [])) as [H1 [H2 H3]].
    cbv zeta in H1, H2, H3.
    cbn [csMargin csSumWeightedSensis csSumAbsWeightedSensis] in H1, H2, H3.
    rewrite writeAll_mapValues in H1, H2, H3 by exact Hs.
    rewrite H1, H2, H3. rewrite !mapValues_erase.
    set (K := bucketCurvatureK cfg calculationCcy nsd pc rt side recs) in *.
    set (CVR := bucketCvr cfg calculationCcy nsd pc rt side recs) in *.
    set (ABS := bucketAbsCvr cfg calculationCcy nsd pc rt side rfLabels recs) in *.
    set (NR := sm_erase "Residual" B).
    assert (HN : curvatureNonResidual cfg calculationCcy rt B (mapValues K NR)
                   (mapValues CVR NR) (mapValues ABS NR)
                 = curvatureTotalOver cfg calculationCcy nsd pc rt side rfLabels recs NR).
    { unfold curvatureNonResidual, curvatureTotalOver. rewrite !accumulate_mapValues.
      fold CVR ABS K.
      destruct (close_enough (sumR (map ABS NR)) 0); cbn [negb]; [reflexivity|].
      assert (HA := curvatureAggregate_closed cfg calculationCcy nsd pc rt side recs B
                      (mapValues CVR NR) [] NR 0).
      fold K in HA. change (mapValues K []) with (@nil (string * R)) in HA.
      rewrite HA.
      - rewrite sumCross_nil, Rplus_0_l, Rplus_0_r. reflexivity.
      - intros kv Hkv. cbn [app] in Hkv. apply erased_lookup; assumption. }
    rewrite HN.
    rewrite (residual_lookup K K B), (residual_lookup K CVR B), (residual_lookup K ABS B).
    unfold curvatureResidualPart. fold CVR ABS K.
    destruct (sm_find "Residual" B) as [qs|].
    + destruct (close_enough (ABS ("Residual", qs)) 0); cbn [negb fst].
      * rewrite sm_get_set_same. lra.
      * rewrite sm_get_set_same. reflexivity.
    + rewrite close_enough_0_0. cbn [negb fst]. rewrite sm_get_set_same. lra.
Qed.

(* ----------------------------------------------------------------- *)
(** ** The curvature margin and the scaling factor *)

Ltac evalR :=
  cbv -[Rmax Rmin Rabs sqrt Rplus Rmult Rdiv Rinv Rminus Ropp IZR close_enough lambda
        q995 Rle_dec Rlt_dec Req_dec_T Real_min QL_EPSILON].

Lemma close_enough_ge_1 (x : R) : 1 <= x -> close_enough x 0 = false.
Proof.
  intros Hx. pose proof tolerance_bounds as [Ht0 Ht1]. unfold close_enough.
  destruct (Req_dec_T x 0) as [E|_]; [lra|].
  destruct (Req_dec_T 0 0) as [_|N]; [|congruence].
  set (t := 42 * QL_EPSILON) in *.
  rewrite Rabs_right by lra.
  destruct (Rlt_dec (x - 0) (t * t)) as [H|_]; [exfalso; nra|reflexivity].
Qed.

Lemma equityVol_total :
  curvatureTotalOver Samples.scaledCfg "USD" "NS1" ProductClass.RatesFX RiskType.EquityVol
    SimmSide.Call false Samples.equityVolRecords [("1", ["ISSUER"])] = q995 * q995.
Proof.
  unfold curvatureTotalOver. evalR.
  replace (1 * (1 * 1 * 1)) with 1 by lra.
  replace (1 + 0 + 0) with 1 by lra. replace (1 + 0) with 1 by lra.
  rewrite Rabs_R1. replace (1 + 0 + 0) with 1 by lra.
  rewrite close_enough_ge_1 by lra.
  replace (1 * 1 + 0 + (0 + 0)) with 1 by lra.
  rewrite (Rmax_left 1 0) by lra. rewrite sqrt_1.
  replace (1 * 1 + 0 + (0 + 0)) with 1 by lra.
  rewrite (Rmax_left 1 0) by lra. rewrite sqrt_1.
  replace (1 / 1) with 1 by lra. rewrite (Rmin_right 1 0) by lra.
  unfold lambda.
  rewrite Rmax_left; [lra|]. unfold q995. lra.
Qed.

(** C2, as stated, fails: with a curvature margin scaling of two and one
    equity volatility record of one USD, [curvatureMargin] returns the
    total [q^2] and not the scaled [2 q^2]. *)
Lemma curvature_scaling_counterexample :
  sm_get "All" (fst (curvatureMargin Samples.scaledCfg "USD" "NS1" ProductClass.RatesFX
                       RiskType.EquityVol SimmSide.Call Samples.equityVolRecords false))
  <> curvatureTotalClaimed Samples.scaledCfg "USD" "NS1" ProductClass.RatesFX
       RiskType.EquityVol SimmSide.Call false Samples.equityVolRecords.
Proof.
  rewrite curvatureMargin_total. unfold curvatureTotalFormula, curvatureTotalClaimed.
  cbv zeta.
  assert (HB : bucketsOf (riskTypeRange "NS1" ProductClass.RatesFX RiskType.EquityVol
                            Samples.equityVolRecords) = [("1", ["ISSUER"])])
    by reflexivity.
  rewrite HB.
  repeat match goal with
         | |- context [sm_erase ?k ?m] => change (sm_erase k m) with m
         end.
  rewrite equityVol_total.
  unfold curvatureResidualPart. cbn [sm_find]. 
  assert (HS : curvatureMarginScaling Samples.scaledCfg = 2) by reflexivity.
  rewrite HS. unfold q995. 
  replace (String.eqb "Residual" "1") with false by reflexivity.
  lra.
Qed.

(** C2, amended.  The total "All" of [curvatureMargin] is
    [max(sum CVR + lambda(theta) * sqrt(sum K_b^2 + cross terms), 0)] over
    the non-residual buckets, with [theta = min(sum CVR / sum |CVR|, 0)], when
    their absolute [CVR] is not negligible, plus the part of the Residual
    bucket with its own theta; the curvature margin scaling of the
    configuration plays no part in it. *)
Theorem curvature_total_unscaled (cfg : SimmConfiguration) (calculationCcy : string)
    (nsd : NettingSetDetails) (pc : ProductClass.t) (rt : RiskType.t)
    (side : SimmSide.t) (recs : SimmNetSensitivities) (rfLabels : bool) :
  sm_get "All" (fst (curvatureMargin cfg calculationCcy nsd pc rt side recs rfLabels))
  = curvatureTotalFormula cfg calculationCcy nsd pc rt side rfLabels recs
  /\ forall scaling,
       curvatureMargin (setCurvatureMarginScaling scaling cfg) calculationCcy nsd pc rt
                       side recs rfLabels
       = curvatureMargin cfg calculationCcy nsd pc rt side recs rfLabels.
Proof.
  split; [apply curvatureMargin_total|]. intros scaling. reflexivity.
Qed.

(* ----------------------------------------------------------------- *)
(** ** The interest rate delta margin, currency by currency *)

Lemma sumR_map_scale2 (A : Type) (f : A -> R) (c d : R) (l : list A) :
  sumR (map (fun x => c * f x * d) l) = c * sumR (map f l) * d.
Proof. induction l as [|x l IH]; simpl; [lra|]. rewrite IH. lra. Qed.

Lemma fold_Error (A B : Type) (step : Result A -> B -> Result A) (l : list B) (e : string) :
  (forall x, step (Error e) x = Error e) -> fold_left step l (Error e) = Error e.
Proof. intros H. induction l as [|x l IH]; simpl; [reflexivity|]. rewrite H. exact IH. Qed.

Lemma copyInto_sorted (m : smap R) : smSorted m -> copyInto m [] = m.
Proof.
  intros Hs. change (copyInto m []) with (writeAll (fun kv : string * R => snd kv) m []).
  rewrite writeAll_mapValues by exact Hs. unfold mapValues.
  rewrite <- (map_id m) at 2. apply map_ext. intros [k v]. reflexivity.
Qed.

Lemma asMap_lookup (g : string * unit -> R) (qs : sset) (q : string) :
  In q qs -> sm_get q (mapValues g (asMap qs)) = g (q, tt).
Proof.
  intros Hin. unfold sm_get. rewrite mapValues_find, asMap_find.
  assert (E : existsb (String.eqb q) qs = true).
  { apply existsb_exists. exists q. split; [exact Hin|apply String.eqb_refl]. }
  rewrite E. reflexivity.
Qed.

Section IrDeltaClosed.

Variable cfg : SimmConfiguration.
Variable calculationCcy : string.
Variable nsd : NettingSetDetails.
Variable pc : ProductClass.t.
Variable recs : SimmNetSensitivities.

Let CR := irCR cfg nsd pc recs.
Let SW := irSumWs cfg nsd pc recs false.
Let K := irK cfg nsd pc recs false calculationCcy.
Let step := irDeltaQualifierStep cfg calculationCcy nsd pc recs.

Lemma irDeltaCurveLoop_closed (q : string) (cr : R) (earlier rest : list CrifRecord)
    (st : R * R) :
  irDeltaCurveLoop cfg q cr earlier rest st
  = (fst st + sumR (map (irWeightedSensitivity cfg RiskType.IRCurve q "" cr) rest),
     pairLoop
       (fun r => irWeightedSensitivity cfg RiskType.IRCurve q "" cr r
                 * irWeightedSensitivity cfg RiskType.IRCurve q "" cr r)
       (fun outer inner =>
          2 * correlation cfg RiskType.IRCurve q "" (label2 outer)
                          RiskType.IRCurve q "" (label2 inner) ""
            * correlation cfg RiskType.IRCurve q (label1 outer) ""
                          RiskType.IRCurve q (label1 inner) "" ""
            * irWeightedSensitivity cfg RiskType.IRCurve q "" cr outer
            * irWeightedSensitivity cfg RiskType.IRCurve q "" cr inner)
       earlier rest (snd st)).
Proof.
  revert earlier st. induction rest as [|r rest IH]; intros earlier [s d].
  - cbn [irDeltaCurveLoop pairLoop map fst snd]. unfold sumR. simpl. f_equal. lra.
  - cbn [irDeltaCurveLoop pairLoop]. rewrite IH. cbn [fst snd map].
    f_equal. unfold sumR. simpl. lra.
Qed.

Lemma irDeltaCrossWith_closed (q ccy : string) (cr corr w : R) (l : list CrifRecord)
    (dm : R) :
  irDeltaCrossWith cfg q ccy cr corr w l dm
  = dm + 2 * corr * sumR (map (irWeightedSensitivity cfg RiskType.IRCurve q ccy cr) l) * w.
Proof.
  unfold irDeltaCrossWith. cbv zeta.
  rewrite (fold_left_plus
             (fun it => 2 * corr * irWeightedSensitivity cfg RiskType.IRCurve q ccy cr it * w)).
  f_equal. apply sumR_map_scale2.
Qed.

Lemma irDeltaConcentrationRisk_closed (q : string) :
  irDeltaConcentrationRisk cfg q (irCurveOf nsd pc recs q) (irInflationOf nsd pc recs q)
  = CR q.
Proof.
  unfold irDeltaConcentrationRisk, CR, irCR. cbv zeta. rewrite fold_left_plus.
  destruct (irInflationOf nsd pc recs q); do 4 f_equal; lra.
Qed.


Lemma irDeltaQualifier_closed (q : string) :
  irDeltaQualifier cfg calculationCcy q (irCurveOf nsd pc recs q)
                   (irXccyOf nsd pc recs q) (irInflationOf nsd pc recs q)
  = (CR q, SW q, K q).
Proof.
  unfold irDeltaQualifier. cbv zeta.
  rewrite irDeltaConcentrationRisk_closed, irDeltaCurveLoop_closed.
  rewrite pairLoop_closed, sumCross_nil. cbn [fst snd].
  unfold SW, K, irSumWs, irK, irInflationWs, irXccyWs. cbv zeta.
  fold CR.
  change (irCurveWs cfg nsd pc recs) with
    (fun ccy q r => irWeightedSensitivity cfg RiskType.IRCurve q ccy (CR q) r).
  cbv beta.
  change (irCurveCross cfg nsd pc recs q) with
    (fun outer inner =>
       2 * correlation cfg RiskType.IRCurve q "" (label2 outer)
                       RiskType.IRCurve q "" (label2 inner) ""
         * correlation cfg RiskType.IRCurve q (label1 outer) ""
                       RiskType.IRCurve q (label1 inner) "" ""
         * irWeightedSensitivity cfg RiskType.IRCurve q "" (CR q) outer
         * irWeightedSensitivity cfg RiskType.IRCurve q "" (CR q) inner).
  destruct (irInflationOf nsd pc recs q) as [i|], (irXccyOf nsd pc recs q) as [x|];
    rewrite ?irDeltaCrossWith_closed; unfold irWeightedSensitivity;
    (f_equal; [f_equal; ring|do 2 f_equal; ring]).
Qed.


(** The count checks of one currency. *)
Let counts (q : string) : bool :=
  Nat.ltb (List.length (qualifierRange nsd pc RiskType.XCcyBasis q recs)) 2
  && Nat.ltb (List.length (qualifierRange nsd pc RiskType.Inflation q recs)) 2.

Lemma irDeltaQualifierStep_Error (e : string) (q : string) : step (Error e) q = Error e.
Proof. reflexivity. Qed.

Lemma irDeltaQualifierStep_OK (st : IrState) (q : string) :
  match step (OK st) q with
  | OK st' =>
      counts q = true
      /\ st' = mkIrState (sm_set q (CR q) (irConcentrationRisk st))
                         (sm_set q (K q) (irMargin st))
                         (sm_set q (SW q) (irSumWeightedSensis st))
  | Error _ => counts q = false
  end.
Proof.
  unfold step, irDeltaQualifierStep, counts. cbn [bind]. cbv zeta.
  destruct (Nat.ltb (List.length (qualifierRange nsd pc RiskType.XCcyBasis q recs)) 2);
    cbn [negb andb]; [|reflexivity].
  destruct (Nat.ltb (List.length (qualifierRange nsd pc RiskType.Inflation q recs)) 2);
    cbn [negb andb]; [|reflexivity].
  pose proof (irDeltaQualifier_closed q) as E.
  unfold irCurveOf, irXccyOf, irInflationOf in E. rewrite E.
  split; reflexivity.
Qed.

Lemma irDeltaSteps (qs : sset) (st : IrState) :
  match fold_left step qs (OK st) with
  | OK st' =>
      forallb counts qs = true
      /\ irConcentrationRisk st'
         = writeAll (fun kv : string * unit => CR (fst kv)) (asMap qs)
                    (irConcentrationRisk st)
      /\ irMargin st'
         = writeAll (fun kv : string * unit => K (fst kv)) (asMap qs) (irMargin st)
      /\ irSumWeightedSensis st'
         = writeAll (fun kv : string * unit => SW (fst kv)) (asMap qs)
                    (irSumWeightedSensis st)
  | Error _ => forallb counts qs = false
  end.
Proof.
  revert st. induction qs as [|q qs IH]; intros st.
  - cbn. repeat split.
  - cbn [fold_left forallb]. pose proof (irDeltaQualifierStep_OK st q) as H.
    destruct (step (OK st) q) as [st1|e].
    + destruct H as [Hc ->]. rewrite Hc. cbn [andb].
      specialize (IH (mkIrState (sm_set q (CR q) (irConcentrationRisk st))
                                (sm_set q (K q) (irMargin st))
                                (sm_set q (SW q) (irSumWeightedSensis st)))).
      destruct (fold_left step qs _) as [st'|e']; [|exact IH].
      exact IH.
    + rewrite H. rewrite fold_Error by apply irDeltaQualifierStep_Error. reflexivity.
Qed.

(** The loop across currencies, the maps read at the currencies met. *)
Lemma irAggregate_closed (st : IrState) (earlier rest : sset) (m : R) :
  (forall q, In q (earlier ++ rest) ->
     sm_get q (irConcentrationRisk st) = CR q
     /\ sm_get q (irMargin st) = K q
     /\ sm_get q (irSumWeightedSensis st) = SW q) ->
  irAggregate cfg RiskType.IRCurve "" st earlier rest m
  = pairLoop (fun q => K q * K q)
             (irCurrencyCross cfg nsd pc recs false true calculationCcy)
             earlier rest m.
Proof.
  revert earlier m. induction rest as [|o rest IH]; intros earlier m H; [reflexivity|].
  cbn [irAggregate pairLoop].
  rewrite IH by (intros q Hq; apply H; rewrite <- app_assoc in Hq; exact Hq).
  f_equal.
  destruct (H o) as [Ho1 [Ho2 Ho3]]; [apply in_or_app; right; left; reflexivity|].
  rewrite Ho2. apply fold_left_ext_in. intros a inner Hin.
  destruct (H inner) as [Hi1 [Hi2 Hi3]]; [apply in_or_app; left; exact Hin|].
  rewrite Ho1, Ho3, Hi1, Hi2, Hi3.
  unfold irCurrencyCross, irS, irG. reflexivity.
Qed.

End IrDeltaClosed.

Lemma irDeltaTotal_empty cfg nsd pc recs xs wg ccy :
  irCurrencies nsd pc recs = [] -> irDeltaTotalWith cfg nsd pc recs xs wg ccy = 0.
Proof.
  intros E. unfold irDeltaTotalWith. rewrite E. cbn [map sumPairs sumR fold_right].
  replace (0 + 0) with 0 by lra. apply sqrt_Rmax_0.
Qed.

Lemma irCurrencies_sorted nsd pc recs : ssSorted (irCurrencies nsd pc recs).
Proof. unfold irCurrencies. repeat apply qualifiersOf_sorted. exact I. Qed.

(** The path of [irDeltaMargin] taken when there is a currency. *)
Lemma irDeltaMargin_currencies cfg calculationCcy nsd pc recs :
  match
    (do st <- fold_left (irDeltaQualifierStep cfg calculationCcy nsd pc recs)
                        (irCurrencies nsd pc recs) (OK (mkIrState [] [] []));
     OK (sm_set "All"
                (sqrt (Rmax (irAggregate cfg RiskType.IRCurve "" st []
                                         (irCurrencies nsd pc recs) 0) 0))
                (copyInto (irMargin st) []), true))
  with
  | OK (m, applies) =>
      irCountsOk nsd pc recs = true
      /\ m = irDeltaMapFormula cfg calculationCcy nsd pc recs
      /\ applies = true
  | Error _ => irCountsOk nsd pc recs = false
  end.
Proof.
  pose proof (irCurrencies_sorted nsd pc recs) as Hs.
  pose proof (irDeltaSteps cfg calculationCcy nsd pc recs (irCurrencies nsd pc recs)
                (mkIrState [] [] [])) as H.
  cbn [irConcentrationRisk irMargin irSumWeightedSensis] in H.
  destruct (fold_left _ (irCurrencies nsd pc recs) (OK (mkIrState [] [] [])))
    as [st|e]; [|exact H].
  destruct H as [Hc [H1 [H2 H3]]]. cbn [bind]. split; [exact Hc|].
  split; [|reflexivity].
  rewrite writeAll_mapValues in H1, H2, H3 by exact Hs.
  rewrite copyInto_sorted by (rewrite H2; apply mapValues_sorted; exact Hs).
  rewrite (@irAggregate_closed cfg calculationCcy nsd pc recs st []
             (irCurrencies nsd pc recs)).
  - rewrite pairLoop_closed, sumCross_nil. rewrite H2.
    unfold irDeltaMapFormula, irDeltaMapWith, mapValues, asMap. rewrite map_map.
    cbn [fst]. unfold irDeltaTotalWith. do 3 f_equal. lra.
  - intros q Hq. cbn [app] in Hq. rewrite H1, H2, H3.
    rewrite !asMap_lookup by exact Hq. repeat split.
Qed.

(** C4, amended.  [irDeltaMargin] fails exactly when a currency has two
    inflation or two cross currency basis sensitivities.  Otherwise it
    returns [K_b] for every currency and, at "All",
    [sqrt(max(sum K_b^2 + sum_{b<>c} gamma(b,c) g(b,c) S_b S_c, 0))] with
    [g(b,c) = min(CR_b, CR_c) / max(CR_b, CR_c)] and [S_b] the clamped sum of
    the weighted sensitivities, where the IRCurve and Inflation
    sensitivities are weighted by [RW * amountUsd * CR_b] and the cross
    currency basis sensitivity by [RW * amountUsd] alone; the margin applies
    when there is a currency. *)
Theorem irDeltaMargin_formula (cfg : SimmConfiguration) (calculationCcy : string)
    (nsd : NettingSetDetails) (pc : ProductClass.t) (recs : SimmNetSensitivities) :
  match irDeltaMargin cfg calculationCcy nsd pc recs with
  | OK (m, applies) =>
      irCountsOk nsd pc recs = true
      /\ m = irDeltaMapFormula cfg calculationCcy nsd pc recs
      /\ applies = match irCurrencies nsd pc recs with [] => false | _ => true end
  | Error _ => irCountsOk nsd pc recs = false
  end.
Proof.
  pose proof (irDeltaMargin_currencies cfg calculationCcy nsd pc recs) as H.
  unfold irDeltaMargin. cbv zeta. fold (irCurrencies nsd pc recs).
  destruct (irCurrencies nsd pc recs) as [|q0 qs0] eqn:Eq.
  - unfold irCountsOk, irDeltaMapFormula, irDeltaMapWith.
    rewrite (@irDeltaTotal_empty cfg nsd pc recs false true calculationCcy Eq), Eq.
    repeat split.
  - exact H.
Qed.

(* ----------------------------------------------------------------- *)
(** ** The cross currency basis and the concentration risk *)

Lemma sample_concentration : Rmax 1 (sqrt (Rabs ((4 + 0 + 0) / 1))) = 2.
Proof.
  replace ((4 + 0 + 0) / 1) with (2 * 2) by lra.
  rewrite Rabs_right by lra. rewrite sqrt_square by lra. apply Rmax_right. lra.
Qed.

Lemma irDelta_sample_code :
  irDeltaTotalWith Samples.unitCfg "NS1" ProductClass.RatesFX Samples.irDeltaRecords
    false true "USD" = sqrt 73.
Proof.
  unfold irDeltaTotalWith. evalR. rewrite sample_concentration.
  match goal with
  | |- context [sqrt (Rmax ?x 0) * _] => replace x with 73 by lra
  end.
  rewrite (Rmax_left 73 0) by lra. rewrite sqrt_sqrt by lra.
  replace (73 + 0 + (0 + 0)) with 73 by lra.
  rewrite (Rmax_left 73 0) by lra. reflexivity.
Qed.

Lemma irDelta_sample_claimed :
  irDeltaTotalClaimed Samples.unitCfg "NS1" ProductClass.RatesFX Samples.irDeltaRecords
  = 10.
Proof.
  unfold irDeltaTotalClaimed, irDeltaTotalWith. evalR. rewrite sample_concentration.
  match goal with
  | |- context [sqrt (Rmax ?x 0) * _] => replace x with 100 by lra
  end.
  rewrite (Rmax_left 100 0) by lra. rewrite sqrt_sqrt by lra.
  replace (100 + 0 + (0 + 0)) with (10 * 10) by lra.
  rewrite (Rmax_left (10 * 10) 0) by lra. apply sqrt_square. lra.
Qed.

(** C4, as stated, fails: with an IRCurve sensitivity of four (so that the
    concentration risk of the currency is two) and a cross currency basis
    sensitivity of three, [irDeltaMargin] returns the total [sqrt 73],
    the cross currency basis entering as [3]; scaled by the concentration
    risk it would enter as [6] and give [10]. *)
Lemma irDelta_xccy_counterexample :
  match irDeltaMargin Samples.unitCfg "USD" "NS1" ProductClass.RatesFX
                      Samples.irDeltaRecords with
  | OK (m, _) =>
      sm_get "All" m
      <> irDeltaTotalClaimed Samples.unitCfg "NS1" ProductClass.RatesFX
           Samples.irDeltaRecords
  | Error _ => False
  end.
Proof.
  pose proof (irDeltaMargin_currencies Samples.unitCfg "USD" "NS1" ProductClass.RatesFX
                Samples.irDeltaRecords) as H.
  assert (E : irCurrencies "NS1" ProductClass.RatesFX Samples.irDeltaRecords = ["USD"])
    by reflexivity.
  unfold irDeltaMargin. cbv zeta.
  fold (irCurrencies "NS1" ProductClass.RatesFX Samples.irDeltaRecords).
  rewrite E in *.
  destruct (do st <- fold_left _ ["USD"] _; _) as [[m a]|e].
  - destruct H as [_ [-> _]]. unfold irDeltaMapFormula, irDeltaMapWith.
    rewrite sm_get_set_same, irDelta_sample_code, irDelta_sample_claimed.
    intros C. pose proof (sqrt_sqrt 73) as S. rewrite C in S. lra.
  - assert (T : irCountsOk "NS1" ProductClass.RatesFX Samples.irDeltaRecords = true)
      by reflexivity.
    congruence.
Qed.

(* ================================================================= *)
(** * Further properties of the calculator *)

(* ----------------------------------------------------------------- *)
(** ** [lambda] *)

Lemma q995_square_bounds : 6 < q995 * q995 < 7.
Proof. unfold q995. split; lra. Qed.

(** [lambda] grows with [theta]; over the range [-1 <= theta <= 0] that the
    curvature margins use it runs from [lambda(-1) = 1] to
    [lambda(0) = q^2 - 1], so it is never below one there. *)
Theorem lambda_increasing (theta1 theta2 : R) :
  -1 <= theta1 -> theta1 <= theta2 -> theta2 <= 0 ->
  lambda (-1) = 1
  /\ 1 <= lambda theta1
  /\ lambda theta1 <= lambda theta2
  /\ lambda theta2 <= lambda 0
  /\ lambda 0 = q995 * q995 - 1.
Proof.
  intros H1 H12 H2. pose proof q995_square_bounds as [Hq _].
  unfold lambda. set (s := q995 * q995) in *.
  repeat split; try lra; nra.
Qed.

Lemma lambda_increasing_witness :
  lambda (-1) = 1
  /\ 1 <= lambda (-1 / 2)
  /\ lambda (-1 / 2) <= lambda (-1 / 4)
  /\ lambda (-1 / 4) <= lambda 0
  /\ lambda 0 = q995 * q995 - 1.
Proof. apply (@lambda_increasing (-1 / 2) (-1 / 4)); lra. Defined.

(* ----------------------------------------------------------------- *)
(** ** When a margin applies *)

Lemma bucketsOf_nil (range : list CrifRecord) : bucketsOf range = [] -> range = [].
Proof.
  intros H. destruct range as [|r range]; [reflexivity|exfalso].
  pose proof (bucketsOf_find (bucket r) (r :: range)) as F. rewrite H in F.
  cbn [filter sm_find] in F. unfold inBucket at 1 in F. rewrite String.eqb_refl in F.
  discriminate F.
Qed.

Lemma bucketsOf_range nsd pc rt recs :
  match bucketsOf (riskTypeRange nsd pc rt recs) with
  | [] => existsb (inRiskType nsd pc rt) recs = false
  | _ :: _ => existsb (inRiskType nsd pc rt) recs = true
  end.
Proof.
  destruct (bucketsOf (riskTypeRange nsd pc rt recs)) as [|kv l] eqn:E.
  - apply bucketsOf_nil in E. unfold riskTypeRange in E.
    pose proof (match_filter_existsb (inRiskType nsd pc rt) recs false true) as M.
    rewrite E in M. destruct (existsb _ recs); [discriminate M|reflexivity].
  - pose proof (match_filter_existsb (inRiskType nsd pc rt) recs false true) as M.
    destruct (existsb _ recs); [reflexivity|].
    fold (riskTypeRange nsd pc rt recs) in M.
    destruct (riskTypeRange nsd pc rt recs); [discriminate E|discriminate M].
Qed.

(** [margin] and [curvatureMargin] always return a total under "All".
    They apply exactly when the netting set has a record of the product
    class and risk type; without one the result is the zero total alone. *)
Theorem bucket_margins_apply (cfg : SimmConfiguration) (calculationCcy : string)
    (nsd : NettingSetDetails) (pc : ProductClass.t) (rt : RiskType.t)
    (side : SimmSide.t) (rfLabels : bool) (recs : SimmNetSensitivities) :
  sm_mem "All" (fst (margin cfg calculationCcy nsd pc rt recs)) = true
  /\ sm_mem "All" (fst (curvatureMargin cfg calculationCcy nsd pc rt side recs rfLabels))
     = true
  /\ if existsb (inRiskType nsd pc rt) recs
     then snd (margin cfg calculationCcy nsd pc rt recs) = true
          /\ snd (curvatureMargin cfg calculationCcy nsd pc rt side recs rfLabels) = true
     else margin cfg calculationCcy nsd pc rt recs = ([("All", 0)], false)
          /\ curvatureMargin cfg calculationCcy nsd pc rt side recs rfLabels
             = ([("All", 0)], false).
Proof.
  pose proof (bucketsOf_range nsd pc rt recs) as H.
  unfold margin, curvatureMargin, marginResult. cbv zeta.
  destruct (bucketsOf (riskTypeRange nsd pc rt recs)) as [|kv l]; rewrite H;
    repeat match goal with
           | |- context [if negb (close_enough ?x 0) then _ else _] =>
               destruct (negb (close_enough x 0))
           end;
    cbn [fst snd]; unfold sm_mem; rewrite ?sm_find_set_same; repeat split.
Qed.

Lemma qualifiersOf_nil (range : list CrifRecord) (qs : sset) :
  qualifiersOf range qs = [] -> range = [] /\ qs = [].
Proof.
  intros H. destruct range as [|r range].
  - split; [reflexivity|exact H].
  - exfalso. pose proof (qualifiersOf_mem (qualifier r) (r :: range) qs) as M.
    rewrite H in M. cbn [existsb] in M. rewrite String.eqb_refl in M. discriminate M.
Qed.

Lemma riskTypeRange_nil nsd pc rt recs :
  riskTypeRange nsd pc rt recs = [] <-> existsb (inRiskType nsd pc rt) recs = false.
Proof.
  unfold riskTypeRange.
  pose proof (match_filter_existsb (inRiskType nsd pc rt) recs false true) as M.
  split; intros H.
  - rewrite H in M. destruct (existsb _ recs); [discriminate M|reflexivity].
  - rewrite H in M. destruct (filter _ recs); [reflexivity|discriminate M].
Qed.

Lemma existsb_inRiskTypes nsd pc rts recs :
  existsb (inRiskTypes nsd pc rts) recs
  = existsb (fun rt => existsb (inRiskType nsd pc rt) recs) rts.
Proof.
  unfold inRiskTypes. induction recs as [|r recs IH]; cbn [existsb].
  - induction rts as [|rt rts IHr]; [reflexivity|]. cbn [existsb]. exact IHr.
  - rewrite IH. clear IH. induction rts as [|rt rts IHr]; [reflexivity|].
    cbn [existsb]. rewrite <- IHr.
    destruct (inRiskType nsd pc rt r), (existsb (inRiskType nsd pc rt) recs);
      cbn [orb]; rewrite ?orb_true_r; reflexivity.
Qed.

Lemma irVolCurrencies_range nsd pc recs :
  match irVolCurrencies nsd pc recs with
  | [] => existsb (inRiskTypes nsd pc [RiskType.IRVol; RiskType.InflationVol]) recs = false
  | _ :: _ =>
      existsb (inRiskTypes nsd pc [RiskType.IRVol; RiskType.InflationVol]) recs = true
  end.
Proof.
  rewrite existsb_inRiskTypes. cbn [existsb]. rewrite orb_false_r.
  unfold irVolCurrencies.
  destruct (qualifiersOf (riskTypeRange nsd pc RiskType.InflationVol recs) _)
    as [|q qs] eqn:E.
  - apply qualifiersOf_nil in E. destruct E as [E1 E2].
    apply qualifiersOf_nil in E2. destruct E2 as [E2 _].
    apply riskTypeRange_nil in E1, E2. rewrite E1, E2. reflexivity.
  - destruct (existsb (inRiskType nsd pc RiskType.IRVol) recs) eqn:E1; [reflexivity|].
    destruct (existsb (inRiskType nsd pc RiskType.InflationVol) recs) eqn:E2;
      [reflexivity|].
    apply riskTypeRange_nil in E1, E2. rewrite E1, E2 in E. discriminate E.
Qed.

Lemma irCurrencies_range nsd pc recs :
  match irCurrencies nsd pc recs with
  | [] =>
      existsb (inRiskTypes nsd pc [RiskType.IRCurve; RiskType.XCcyBasis;
                                   RiskType.Inflation]) recs = false
  | _ :: _ =>
      existsb (inRiskTypes nsd pc [RiskType.IRCurve; RiskType.XCcyBasis;
                                   RiskType.Inflation]) recs = true
  end.
Proof.
  rewrite existsb_inRiskTypes. cbn [existsb]. rewrite orb_false_r.
  unfold irCurrencies.
  destruct (qualifiersOf (riskTypeRange nsd pc RiskType.Inflation recs) _)
    as [|q qs] eqn:E.
  - apply qualifiersOf_nil in E. destruct E as [E1 E2].
    apply qualifiersOf_nil in E2. destruct E2 as [E2 E3].
    apply qualifiersOf_nil in E3. destruct E3 as [E3 _].
    apply riskTypeRange_nil in E1, E2, E3. rewrite E1, E2, E3. reflexivity.
  - destruct (existsb (inRiskType nsd pc RiskType.IRCurve) recs) eqn:E1; [reflexivity|].
    destruct (existsb (inRiskType nsd pc RiskType.XCcyBasis) recs) eqn:E2;
      [reflexivity|].
    destruct (existsb (inRiskType nsd pc RiskType.Inflation) recs) eqn:E3;
      [reflexivity|].
    apply riskTypeRange_nil in E1, E2, E3. rewrite E1, E2, E3 in E. discriminate E.
Qed.

(** The interest rate margins without a record of their risk types
    (IRCurve, XCcyBasis and Inflation for the delta margin, IRVol and
    InflationVol for the vega and curvature margins) return the zero total
    alone and do not apply; with such a record a result they return
    applies and holds a total under "All". *)
Theorem ir_margins_apply (cfg : SimmConfiguration) (calculationCcy : string)
    (nsd : NettingSetDetails) (pc : ProductClass.t) (side : SimmSide.t)
    (recs : SimmNetSensitivities) :
  (if existsb (inRiskTypes nsd pc [RiskType.IRCurve; RiskType.XCcyBasis;
                                   RiskType.Inflation]) recs
   then match irDeltaMargin cfg calculationCcy nsd pc recs with
        | OK (m, applies) => applies = true /\ sm_mem "All" m = true
        | Error _ => True
        end
   else irDeltaMargin cfg calculationCcy nsd pc recs = OK ([("All", 0)], false))
  /\ (if existsb (inRiskTypes nsd pc [RiskType.IRVol; RiskType.InflationVol]) recs
      then snd (irVegaMargin cfg calculationCcy nsd pc recs) = true
           /\ sm_mem "All" (fst (irVegaMargin cfg calculationCcy nsd pc recs)) = true
           /\ match irCurvatureMargin cfg nsd pc side recs with
              | OK (m, applies) => applies = true /\ sm_mem "All" m = true
              | Error _ => True
              end
      else irVegaMargin cfg calculationCcy nsd pc recs = ([("All", 0)], false)
           /\ irCurvatureMargin cfg nsd pc side recs = OK ([("All", 0)], false)).
Proof.
  split.
  - pose proof (irCurrencies_range nsd pc recs) as H.
    unfold irDeltaMargin. cbv zeta. fold (irCurrencies nsd pc recs).
    destruct (irCurrencies nsd pc recs) as [|q qs]; rewrite H; [reflexivity|].
    destruct (fold_left _ (q :: qs) _) as [st|e]; cbn [bind]; [|exact I].
    unfold sm_mem. rewrite sm_find_set_same. split; reflexivity.
  - pose proof (irVolCurrencies_range nsd pc recs) as H.
    unfold irVegaMargin, irCurvatureMargin. cbv zeta. fold (irVolCurrencies nsd pc recs).
    destruct (irVolCurrencies nsd pc recs) as [|q qs]; rewrite H;
      [split; reflexivity|].
    cbn [fst snd]. unfold sm_mem. rewrite sm_find_set_same.
    split; [reflexivity|]. split; [reflexivity|].
    destruct (close_enough _ 0); [rewrite sm_find_set_same; split; reflexivity|].
    destruct (irCurvatureAggregate _ _ _ _ _) as [m|e]; cbn [bind]; [|exact I].
    rewrite sm_find_set_same. split; reflexivity.
Qed.

(* ----------------------------------------------------------------- *)
(** ** The records a margin reads *)

Section Frame.

Variable cfg : SimmConfiguration.
Variable calculationCcy : string.
Variable nsd : NettingSetDetails.
Variable pc : ProductClass.t.

(** [p] keeps the records of the risk type [rt]. *)
Variable p : CrifRecord -> bool.
Variable recs : SimmNetSensitivities.

Local Abbreviation keeps := (keepsRiskType nsd pc p).

Lemma riskTypeRange_kept rt :
  keeps rt ->
  riskTypeRange nsd pc rt (filter p recs) = riskTypeRange nsd pc rt recs.
Proof. intros H. unfold riskTypeRange. apply filter_absorb. exact H. Qed.

Lemma bucketRange_kept rt b :
  keeps rt ->
  bucketRange nsd pc rt b (filter p recs) = bucketRange nsd pc rt b recs.
Proof.
  intros H. unfold bucketRange. apply filter_absorb. intros r Hr.
  apply andb_true_iff in Hr. apply H, Hr.
Qed.

Lemma qualifierRange_kept rt q :
  keeps rt ->
  qualifierRange nsd pc rt q (filter p recs) = qualifierRange nsd pc rt q recs.
Proof.
  intros H. unfold qualifierRange. apply filter_absorb. intros r Hr.
  apply andb_true_iff in Hr. apply H, Hr.
Qed.

Lemma bucketQualifierRange_kept rt b q :
  keeps rt ->
  bucketQualifierRange nsd pc rt b q (filter p recs)
  = bucketQualifierRange nsd pc rt b q recs.
Proof.
  intros H. unfold bucketQualifierRange. apply filter_absorb. intros r Hr.
  apply andb_true_iff in Hr. destruct Hr as [Hr _].
  apply andb_true_iff in Hr. apply H, Hr.
Qed.

Lemma margin_kept rt :
  keeps rt ->
  margin cfg calculationCcy nsd pc rt (filter p recs)
  = margin cfg calculationCcy nsd pc rt recs.
Proof.
  intros H. unfold margin. cbv zeta. rewrite riskTypeRange_kept by exact H.
  destruct (bucketsOf (riskTypeRange nsd pc rt recs)) as [|kv l]; [reflexivity|].
  f_equal. f_equal. apply fold_left_ext. intros st b.
  unfold marginBucketStep. cbv zeta. rewrite bucketRange_kept by exact H.
  assert (E : concentrationRiskOf cfg calculationCcy nsd pc rt
                (historicalVolatilityRatio cfg rt) (fst b) (snd b) (filter p recs)
              = concentrationRiskOf cfg calculationCcy nsd pc rt
                  (historicalVolatilityRatio cfg rt) (fst b) (snd b) recs).
  { unfold concentrationRiskOf. apply fold_left_ext. intros cr q.
    rewrite bucketQualifierRange_kept by exact H. reflexivity. }
  rewrite E. reflexivity.
Qed.

Lemma curvatureMargin_kept rt side rfLabels :
  keeps rt ->
  curvatureMargin cfg calculationCcy nsd pc rt side (filter p recs) rfLabels
  = curvatureMargin cfg calculationCcy nsd pc rt side recs rfLabels.
Proof.
  intros H. unfold curvatureMargin. cbv zeta. rewrite riskTypeRange_kept by exact H.
  destruct (bucketsOf (riskTypeRange nsd pc rt recs)) as [|kv l]; [reflexivity|].
  assert (E : fold_left (curvatureBucketStep cfg calculationCcy nsd pc rt
                           (sideMultiplier side) rfLabels (filter p recs)) (kv :: l)
                        (mkCurvatureState [] [] [] [])
              = fold_left (curvatureBucketStep cfg calculationCcy nsd pc rt
                             (sideMultiplier side) rfLabels recs) (kv :: l)
                          (mkCurvatureState [] [] [] [])).
  { apply fold_left_ext. intros st b. unfold curvatureBucketStep. cbv zeta.
    rewrite bucketRange_kept by exact H. reflexivity. }
  rewrite E. reflexivity.
Qed.

Lemma irDeltaMargin_kept :
  keeps RiskType.IRCurve -> keeps RiskType.XCcyBasis ->
  keeps RiskType.Inflation ->
  irDeltaMargin cfg calculationCcy nsd pc (filter p recs)
  = irDeltaMargin cfg calculationCcy nsd pc recs.
Proof.
  intros H1 H2 H3. unfold irDeltaMargin. cbv zeta.
  rewrite !riskTypeRange_kept by assumption.
  destruct (qualifiersOf _ _) as [|q qs]; [reflexivity|].
  assert (E : fold_left (irDeltaQualifierStep cfg calculationCcy nsd pc (filter p recs))
                        (q :: qs) (OK (mkIrState [] [] []))
              = fold_left (irDeltaQualifierStep cfg calculationCcy nsd pc recs)
                          (q :: qs) (OK (mkIrState [] [] []))).
  { apply fold_left_ext. intros st c. unfold irDeltaQualifierStep.
    rewrite !qualifierRange_kept by assumption. reflexivity. }
  rewrite E. reflexivity.
Qed.

Lemma irVegaMargin_kept :
  keeps RiskType.IRVol -> keeps RiskType.InflationVol ->
  irVegaMargin cfg calculationCcy nsd pc (filter p recs)
  = irVegaMargin cfg calculationCcy nsd pc recs.
Proof.
  intros H1 H2. unfold irVegaMargin. cbv zeta.
  rewrite !riskTypeRange_kept by assumption.
  destruct (qualifiersOf _ _) as [|q qs]; [reflexivity|].
  assert (E : fold_left (irVegaQualifierStep cfg nsd pc (filter p recs))
                        (q :: qs) (mkIrState [] [] [])
              = fold_left (irVegaQualifierStep cfg nsd pc recs)
                          (q :: qs) (mkIrState [] [] [])).
  { apply fold_left_ext. intros st c. unfold irVegaQualifierStep. cbv zeta.
    rewrite !qualifierRange_kept by assumption. reflexivity. }
  rewrite E. reflexivity.
Qed.

Lemma irCurvatureMargin_kept side :
  keeps RiskType.IRVol -> keeps RiskType.InflationVol ->
  irCurvatureMargin cfg nsd pc side (filter p recs)
  = irCurvatureMargin cfg nsd pc side recs.
Proof.
  intros H1 H2. unfold irCurvatureMargin. cbv zeta.
  rewrite !riskTypeRange_kept by assumption.
  destruct (qualifiersOf _ _) as [|q qs]; [reflexivity|].
  assert (E : fold_left (irCurvatureQualifierStep cfg nsd pc (sideMultiplier side)
                           (filter p recs)) (q :: qs) (mkIrCurvatureState [] [] 0 0)
              = fold_left (irCurvatureQualifierStep cfg nsd pc (sideMultiplier side) recs)
                          (q :: qs) (mkIrCurvatureState [] [] 0 0)).
  { apply fold_left_ext. intros st c. unfold irCurvatureQualifierStep.
    rewrite !qualifierRange_kept by assumption. reflexivity. }
  rewrite E. reflexivity.
Qed.

End Frame.

Lemma inRiskTypes_keeps nsd pc rts rt :
  In rt rts -> keepsRiskType nsd pc (inRiskTypes nsd pc rts) rt.
Proof.
  intros Hin r Hr. unfold inRiskTypes. apply existsb_exists. exists rt. split; assumption.
Qed.

(** No calculator reads a record of another netting set, product class or
    risk type: its result is the same on the portfolio and on the records
    of its own netting set, product class and risk types alone. *)
Theorem margins_read_own_records (cfg : SimmConfiguration) (calculationCcy : string)
    (nsd : NettingSetDetails) (pc : ProductClass.t) (rt : RiskType.t)
    (side : SimmSide.t) (rfLabels : bool) (recs : SimmNetSensitivities) :
  margin cfg calculationCcy nsd pc rt (riskTypeRange nsd pc rt recs)
  = margin cfg calculationCcy nsd pc rt recs
  /\ curvatureMargin cfg calculationCcy nsd pc rt side (riskTypeRange nsd pc rt recs)
                     rfLabels
     = curvatureMargin cfg calculationCcy nsd pc rt side recs rfLabels
  /\ irDeltaMargin cfg calculationCcy nsd pc
       (filter (inRiskTypes nsd pc [RiskType.IRCurve; RiskType.XCcyBasis;
                                    RiskType.Inflation]) recs)
     = irDeltaMargin cfg calculationCcy nsd pc recs
  /\ irVegaMargin cfg calculationCcy nsd pc
       (filter (inRiskTypes nsd pc [RiskType.IRVol; RiskType.InflationVol]) recs)
     = irVegaMargin cfg calculationCcy nsd pc recs
  /\ irCurvatureMargin cfg nsd pc side
       (filter (inRiskTypes nsd pc [RiskType.IRVol; RiskType.InflationVol]) recs)
     = irCurvatureMargin cfg nsd pc side recs.
Proof.
  repeat split.
  - apply margin_kept. intros r Hr. exact Hr.
  - apply curvatureMargin_kept. intros r Hr. exact Hr.
  - apply irDeltaMargin_kept; apply inRiskTypes_keeps; simpl; tauto.
  - apply irVegaMargin_kept; apply inRiskTypes_keeps; simpl; tauto.
  - apply irCurvatureMargin_kept; apply inRiskTypes_keeps; simpl; tauto.
Qed.

(* ----------------------------------------------------------------- *)
(** ** The delta and vega margin in closed form *)

Lemma sumPairs_ext_in (A : Type) (f g : A -> A -> R) (l : list A) :
  (forall x y, In x l -> In y l -> f x y = g x y) -> sumPairs f l = sumPairs g l.
Proof.
  induction l as [|a l IH]; intros H; [reflexivity|]. cbn [sumPairs].
  rewrite IH by (intros x y Hx Hy; apply H; right; assumption).
  f_equal. apply sumR_map_ext_in. intros x Hx. apply H; [right; exact Hx|left; reflexivity].
Qed.

Section MarginClosed.

Variable cfg : SimmConfiguration.
Variable calculationCcy : string.
Variable nsd : NettingSetDetails.
Variable pc : ProductClass.t.
Variable rt : RiskType.t.
Variable recs : SimmNetSensitivities.

Let hvr := historicalVolatilityRatio cfg rt.
Let keep (r : CrifRecord) : bool := negb (isCalcCcyFX calculationCcy rt (qualifier r)).

(** The loop over the records of a bucket, as sums over the records it
    does not pass over. *)
Lemma marginBucketLoop_closed (cr : smap R) (earlier rest : list CrifRecord)
    (st : BucketState) :
  let ws := weightedSensitivity cfg calculationCcy rt hvr cr in
  let loop := marginBucketLoop cfg calculationCcy rt hvr cr earlier rest st in
  bsSumWs loop = bsSumWs st + sumR (map ws (filter keep rest))
  /\ bsMargin loop
     = pairLoop (fun r => ws r * ws r)
         (fun outer inner =>
            2 * correlation cfg rt (qualifier outer) (label1 outer) (label2 outer)
                            rt (qualifier inner) (label1 inner) (label2 inner)
                            calculationCcy
              * (Rmin (sm_get (qualifier outer) cr) (sm_get (qualifier inner) cr)
                 / Rmax (sm_get (qualifier outer) cr) (sm_get (qualifier inner) cr))
              * ws outer * ws inner)
         (filter keep earlier) (filter keep rest) (bsMargin st).
Proof.
  cbv zeta. revert earlier st.
  induction rest as [|it rest IH]; intros earlier st.
  - cbn [marginBucketLoop filter map pairLoop]. unfold sumR. simpl. split; [lra|reflexivity].
  - cbn [marginBucketLoop].
    destruct (isCalcCcyFX calculationCcy rt (qualifier it)) eqn:E.
    + assert (Hk : keep it = false) by (unfold keep; rewrite E; reflexivity).
      destruct (IH (earlier ++ [it]) st) as [H1 H2]. rewrite H1, H2.
      rewrite filter_app. cbn [filter]. rewrite Hk, app_nil_r. split; reflexivity.
    + assert (Hk : keep it = true) by (unfold keep; rewrite E; reflexivity).
      match goal with
      | |- context [marginBucketLoop _ _ _ _ _ _ _ ?s] =>
          destruct (IH (earlier ++ [it]) s) as [H1 H2]
      end.
      rewrite H1, H2. cbn [bsSumWs bsMargin].
      rewrite filter_app. cbn [filter]. rewrite Hk. cbn [map pairLoop].
      split; [unfold sumR; simpl; lra|].
      f_equal. unfold marginCrossTerms.
      rewrite (fold_left_skip (fun r => isCalcCcyFX calculationCcy rt (qualifier r))).
      apply fold_left_ext_in. intros a x Hx. apply filter_In in Hx.
      destruct Hx as [_ Hx]. apply negb_true_iff in Hx. rewrite Hx. reflexivity.
Qed.


Lemma crValue_closed (b q : string) :
  crValue cfg calculationCcy nsd pc rt hvr b recs q
  = marginCR cfg calculationCcy nsd pc rt recs b q.
Proof.
  unfold crValue, marginCR, concentrationRiskSum.
  rewrite fold_left_plus, Rplus_0_l. reflexivity.
Qed.

(** The qualifier of a record of a bucket is in the set [buckets] holds
    for the bucket. *)
Lemma bucket_holds_qualifier (kv : string * sset) (r : CrifRecord) :
  In kv (bucketsOf (riskTypeRange nsd pc rt recs)) ->
  In r (bucketRange nsd pc rt (fst kv) recs) ->
  existsb (String.eqb (qualifier r)) (snd kv) = true.
Proof.
  intros Hkv Hr. destruct kv as [b qs]. cbn [fst snd] in *.
  pose proof (smSorted_In_find _ _ _ (bucketsOf_sorted _) Hkv) as F.
  rewrite bucketsOf_find in F.
  assert (Hin : In r (filter (inBucket b) (riskTypeRange nsd pc rt recs))).
  { unfold bucketRange in Hr. apply filter_In in Hr. destruct Hr as [Hr1 Hr2].
    apply andb_true_iff in Hr2. destruct Hr2 as [Hr2 Hr3].
    apply filter_In. split; [|exact Hr3].
    unfold riskTypeRange. apply filter_In. split; assumption. }
  destruct (filter (inBucket b) (riskTypeRange nsd pc rt recs)) as [|x l] eqn:E;
    [contradiction|].
  assert (Eqs : qs = qualifiersOf (x :: l) []) by congruence.
  rewrite Eqs, qualifiersOf_mem.
  apply orb_true_iff. left. apply existsb_exists. exists r. split; [exact Hin|].
  apply String.eqb_refl.
Qed.

Lemma marginWs_closed (kv : string * sset) (r : CrifRecord) :
  In kv (bucketsOf (riskTypeRange nsd pc rt recs)) ->
  In r (marginRecords calculationCcy nsd pc rt recs (fst kv)) ->
  sm_get (qualifier r)
         (concentrationRiskOf cfg calculationCcy nsd pc rt hvr (fst kv) (snd kv) recs)
  = marginCR cfg calculationCcy nsd pc rt recs (fst kv) (qualifier r).
Proof.
  intros Hkv Hr. unfold marginRecords in Hr. apply filter_In in Hr.
  destruct Hr as [Hr Hk]. unfold sm_get. rewrite concentrationRiskOf_find.
  rewrite (bucket_holds_qualifier kv r Hkv Hr), Hk. cbn [andb].
  apply crValue_closed.
Qed.

(** [K_b] and the sum of the weighted sensitivities of a bucket, as the
    loop over its records leaves them. *)
Lemma bucketK_closed (kv : string * sset) :
  In kv (bucketsOf (riskTypeRange nsd pc rt recs)) ->
  bucketK cfg calculationCcy nsd pc rt recs kv
  = marginK cfg calculationCcy nsd pc rt recs (fst kv)
  /\ bucketSumWs cfg calculationCcy nsd pc rt recs kv
     = sumR (map (marginWs cfg calculationCcy nsd pc rt recs (fst kv))
                 (marginRecords calculationCcy nsd pc rt recs (fst kv))).
Proof.
  intros Hkv. unfold bucketK, bucketSumWs, bucketLoopResult. cbv zeta.
  destruct (marginBucketLoop_closed
              (concentrationRiskOf cfg calculationCcy nsd pc rt hvr (fst kv) (snd kv) recs)
              [] (bucketRange nsd pc rt (fst kv) recs) (mkBucketState 0 0 []))
    as [H1 H2].
  cbv zeta in H1, H2. fold hvr. rewrite H1, H2. cbn [bsSumWs bsMargin filter].
  rewrite pairLoop_closed, sumCross_nil.
  change (filter keep (bucketRange nsd pc rt (fst kv) recs))
    with (marginRecords calculationCcy nsd pc rt recs (fst kv)).
  assert (Hws : forall r,
             In r (marginRecords calculationCcy nsd pc rt recs (fst kv)) ->
             weightedSensitivity cfg calculationCcy rt hvr
               (concentrationRiskOf cfg calculationCcy nsd pc rt hvr (fst kv) (snd kv)
                                    recs) r
             = marginWs cfg calculationCcy nsd pc rt recs (fst kv) r).
  { intros r Hr. unfold weightedSensitivity, marginWs.
    rewrite (marginWs_closed kv r Hkv Hr). reflexivity. }
  split.
  - unfold marginK. f_equal. f_equal.
    rewrite (sumR_map_ext_in _
               (fun r => marginWs cfg calculationCcy nsd pc rt recs (fst kv) r
                         * marginWs cfg calculationCcy nsd pc rt recs (fst kv) r))
      by (intros r Hr; rewrite (Hws r Hr); reflexivity).
    rewrite (sumPairs_ext_in _
               (marginRecordCross cfg calculationCcy nsd pc rt recs (fst kv))).
    + lra.
    + intros x y Hx Hy. unfold marginRecordCross.
      rewrite (Hws x Hx), (Hws y Hy), (marginWs_closed kv x Hkv Hx),
        (marginWs_closed kv y Hkv Hy). reflexivity.
  - rewrite Rplus_0_l. apply sumR_map_ext_in. exact Hws.
Qed.


Let K := bucketK cfg calculationCcy nsd pc rt recs.
Let S := bucketSumWs cfg calculationCcy nsd pc rt recs.

(** The loop across buckets over the entries of [rest], the maps read at
    the buckets met. *)
Lemma marginAggregate_closed (B : smap sset) (sw : smap R)
    (earlier rest : smap sset) (m : R) :
  (forall kv, In kv (earlier ++ rest) ->
     sm_getset (fst kv) B = snd kv /\ sm_get (fst kv) sw = S kv) ->
  marginAggregate cfg calculationCcy rt B sw (mapValues K earlier) (mapValues K rest) m
  = pairLoop (fun kv => K kv * K kv)
      (fun outer inner =>
         2 * clampS (S outer) (K outer) * clampS (S inner) (K inner)
           * correlation cfg rt (ss_begin (snd outer)) "" "" rt (ss_begin (snd inner))
                         "" "" calculationCcy)
      earlier rest m.
Proof.
  revert earlier m. induction rest as [|[ob oq] rest IH]; intros earlier m H;
    [reflexivity|].
  rewrite (mapValues_cons K (ob, oq) rest).
  cbn [marginAggregate pairLoop fst snd].
  change (mapValues K earlier ++ [(ob, K (ob, oq))])
    with (mapValues K earlier ++ [(fst (ob, oq), K (ob, oq))]).
  rewrite <- mapValues_snoc.
  rewrite IH by (intros kv Hkv; apply H; rewrite <- app_assoc in Hkv; exact Hkv).
  f_equal. unfold mapValues. rewrite fold_left_map.
  destruct (H (ob, oq)) as [Ho1 Ho2]; [apply in_or_app; right; left; reflexivity|].
  cbn [fst snd] in Ho1, Ho2.
  apply fold_left_ext_in. intros a inner Hin.
  destruct (H inner) as [Hi1 Hi2]; [apply in_or_app; left; exact Hin|].
  cbn [fst snd]. rewrite Ho1, Ho2, Hi1, Hi2. reflexivity.
Qed.

Lemma marginResidual_closed :
  (if sm_mem "Residual" (mapValues K (bucketsOf (riskTypeRange nsd pc rt recs)))
   then sm_get "Residual" (mapValues K (bucketsOf (riskTypeRange nsd pc rt recs)))
   else 0)
  = marginResidual cfg calculationCcy nsd pc rt recs.
Proof.
  unfold marginResidual, sm_mem, sm_get. rewrite !mapValues_find.
  destruct (sm_find "Residual" (bucketsOf (riskTypeRange nsd pc rt recs))) as [qs|] eqn:F;
    [|reflexivity].
  apply sm_find_In in F. apply (bucketK_closed ("Residual", qs)). exact F.
Qed.

Lemma totalMargin_closed :
  totalMargin cfg calculationCcy nsd pc rt recs
  = marginTotalFormula cfg calculationCcy nsd pc rt recs.
Proof.
  rewrite totalMargin_unfold. unfold totalOver. cbv zeta.
  fold K S. rewrite marginResidual_closed. unfold marginTotalFormula. cbv zeta.
  pose proof (bucketsOf_sorted (riskTypeRange nsd pc rt recs)) as Hs.
  set (B := bucketsOf (riskTypeRange nsd pc rt recs)) in *.
  f_equal. f_equal. f_equal.
  rewrite mapValues_erase.
  rewrite (marginAggregate_closed B (mapValues S B) [] (sm_erase "Residual" B)).
  - rewrite pairLoop_closed, sumCross_nil.
    assert (HK : forall kv, In kv (sm_erase "Residual" B) ->
                 K kv = marginK cfg calculationCcy nsd pc rt recs (fst kv)
                 /\ clampS (S kv) (K kv) = marginS cfg calculationCcy nsd pc rt recs (fst kv)).
    { intros kv Hkv. apply sm_erase_In in Hkv. destruct Hkv as [Hkv _].
      destruct (bucketK_closed kv Hkv) as [E1 E2]. fold K in E1. fold S in E2.
      unfold marginS. rewrite E1, E2. split; reflexivity. }
    rewrite (sumR_map_ext_in _
               (fun kv => marginK cfg calculationCcy nsd pc rt recs (fst kv)
                          * marginK cfg calculationCcy nsd pc rt recs (fst kv)))
      by (intros kv Hkv; destruct (HK kv Hkv) as [E _]; rewrite E; reflexivity).
    rewrite (sumPairs_ext_in _ (marginBucketCross cfg calculationCcy nsd pc rt recs)).
    + lra.
    + intros x y Hx Hy. destruct (HK x Hx) as [_ Ex]. destruct (HK y Hy) as [_ Ey].
      unfold marginBucketCross. rewrite Ex, Ey. reflexivity.
  - intros kv Hkv. cbn [app] in Hkv. apply sm_erase_In in Hkv. destruct Hkv as [Hkv _].
    destruct kv as [b qs]. pose proof (smSorted_In_find _ _ _ Hs Hkv) as F.
    cbn [fst snd]. unfold sm_getset, sm_get. rewrite mapValues_find, F.
    split; reflexivity.
Qed.

End MarginClosed.

(** C5.  In [margin] the "Residual" bucket stays out of the aggregation
    across buckets: the total "All" is
    [sqrt(max(sum K_b^2 + sum_{b<>c} gamma(b,c) S_b S_c, 0))] over the buckets
    other than "Residual", plus [K_residual], the margin [K_b] of the
    Residual bucket (zero without one), added after the square root.  Hence
    for every input the total is the total of the records outside the
    Residual bucket, which is that square root, plus the total of the
    Residual records standing alone, which is [K_residual]. *)
Theorem margin_residual_additive (cfg : SimmConfiguration) (calculationCcy : string)
    (nsd : NettingSetDetails) (pc : ProductClass.t) (rt : RiskType.t)
    (recs : SimmNetSensitivities) :
  totalMargin cfg calculationCcy nsd pc rt recs
  = sqrt (Rmax
            (sumR (map (fun kv => marginK cfg calculationCcy nsd pc rt recs (fst kv)
                                  * marginK cfg calculationCcy nsd pc rt recs (fst kv))
                       (sm_erase "Residual" (bucketsOf (riskTypeRange nsd pc rt recs))))
             + sumPairs (marginBucketCross cfg calculationCcy nsd pc rt recs)
                        (sm_erase "Residual" (bucketsOf (riskTypeRange nsd pc rt recs))))
            0)
    + (if sm_mem "Residual" (bucketsOf (riskTypeRange nsd pc rt recs))
       then marginK cfg calculationCcy nsd pc rt recs "Residual" else 0)
  /\ totalMargin cfg calculationCcy nsd pc rt recs
     = totalMargin cfg calculationCcy nsd pc rt (nonResidualRecords recs)
       + totalMargin cfg calculationCcy nsd pc rt (residualRecords recs)
  /\ totalMargin cfg calculationCcy nsd pc rt (residualRecords recs)
     = match sm_find "Residual" (bucketsOf (riskTypeRange nsd pc rt recs)) with
       | Some qs => bucketK cfg calculationCcy nsd pc rt recs ("Residual", qs)
       | None => 0
       end
  /\ totalMargin cfg calculationCcy nsd pc rt (residualRecords recs)
     = (if sm_mem "Residual" (bucketsOf (riskTypeRange nsd pc rt recs))
        then marginK cfg calculationCcy nsd pc rt recs "Residual" else 0)
  /\ totalMargin cfg calculationCcy nsd pc rt (nonResidualRecords recs)
     = sqrt (Rmax
               (sumR (map (fun kv => marginK cfg calculationCcy nsd pc rt recs (fst kv)
                                     * marginK cfg calculationCcy nsd pc rt recs (fst kv))
                          (sm_erase "Residual"
                                    (bucketsOf (riskTypeRange nsd pc rt recs))))
                + sumPairs (marginBucketCross cfg calculationCcy nsd pc rt recs)
                           (sm_erase "Residual"
                                     (bucketsOf (riskTypeRange nsd pc rt recs))))
               0).
Proof.
  destruct (residual_bucket_additive cfg calculationCcy nsd pc rt recs) as [Hadd Hres].
  assert (Htot : totalMargin cfg calculationCcy nsd pc rt recs
                 = marginTotalFormula cfg calculationCcy nsd pc rt recs)
    by apply totalMargin_closed.
  unfold marginTotalFormula, marginResidual in Htot. cbv zeta in Htot.
  assert (HK : totalMargin cfg calculationCcy nsd pc rt (residualRecords recs)
               = (if sm_mem "Residual" (bucketsOf (riskTypeRange nsd pc rt recs))
                  then marginK cfg calculationCcy nsd pc rt recs "Residual" else 0)).
  { rewrite Hres. unfold sm_mem.
    destruct (sm_find "Residual" (bucketsOf (riskTypeRange nsd pc rt recs)))
      as [qs|] eqn:F; [|reflexivity].
    apply sm_find_In in F.
    destruct (@bucketK_closed cfg calculationCcy nsd pc rt recs ("Residual", qs) F)
      as [E _].
    exact E. }
  split; [exact Htot|]. split; [exact Hadd|]. split; [exact Hres|]. split; [exact HK|].
  rewrite Hadd, HK in Htot. lra.
Qed.

(** The total "All" that [margin] returns is
    [sqrt(max(sum K_b^2 + sum_{b<>c} gamma(b,c) S_b S_c, 0)) + K_residual]
    over the non-residual buckets, where [K_b] is
    [sqrt(max(sum WS_k^2 + sum_{k<>l} rho(k,l) f(k,l) WS_k WS_l, 0))] over the
    records of the bucket (Risk_FX records in the calculation currency left
    out), [WS_k = RW * amountUsd * sigma * HVR * CR_q] and [S_b] is the sum of
    the [WS_k] capped by [K_b] on both sides. *)
Theorem margin_total_formula (cfg : SimmConfiguration) (calculationCcy : string)
    (nsd : NettingSetDetails) (pc : ProductClass.t) (rt : RiskType.t)
    (recs : SimmNetSensitivities) :
  sm_find "All" (fst (margin cfg calculationCcy nsd pc rt recs))
  = Some (marginTotalFormula cfg calculationCcy nsd pc rt recs).
Proof.
  rewrite <- totalMargin_closed. unfold totalMargin, sm_get.
  assert (H : sm_mem "All" (fst (margin cfg calculationCcy nsd pc rt recs)) = true).
  { unfold margin, marginResult. cbv zeta.
    destruct (bucketsOf (riskTypeRange nsd pc rt recs)); cbn [fst]; unfold sm_mem;
      rewrite sm_find_set_same; reflexivity. }
  unfold sm_mem in H.
  destruct (sm_find "All" (fst (margin cfg calculationCcy nsd pc rt recs)));
    [reflexivity|discriminate H].
Qed.

(** For a risk type outside the FX risk class the map [margin] returns
    holds the total at "All", [K_b] at every bucket other than "Residual",
    [K_residual] at "Residual" unless it is negligible (close to zero), and
    no other entry. *)
Theorem margin_bucket_entries (cfg : SimmConfiguration) (calculationCcy : string)
    (nsd : NettingSetDetails) (pc : ProductClass.t) (rt : RiskType.t)
    (recs : SimmNetSensitivities) (key : string) :
  riskClassIsFX rt = false ->
  sm_find key (fst (margin cfg calculationCcy nsd pc rt recs))
  = marginEntryFormula cfg calculationCcy nsd pc rt recs key.
Proof.
  intros HFX. unfold marginEntryFormula.
  destruct (String.eqb key "All") eqn:EA.
  - apply String.eqb_eq in EA. subst key.
    rewrite <- totalMargin_closed. unfold totalMargin, sm_get, margin, marginResult.
    cbv zeta. destruct (bucketsOf (riskTypeRange nsd pc rt recs)); cbn [fst];
      rewrite sm_find_set_same; reflexivity.
  - pose proof (bucketsOf_sorted (riskTypeRange nsd pc rt recs)) as Hs.
    pose proof (marginResidual_closed cfg calculationCcy nsd pc rt recs) as HR.
    pose proof (fun kv => bucketK_closed cfg calculationCcy nsd pc rt recs kv) as HK.
    unfold marginResidual in *. unfold margin. cbv zeta.
    destruct (bucketsOf (riskTypeRange nsd pc rt recs)) as [|kv0 l] eqn:EB.
    + cbn [fst]. rewrite sm_find_set, EA. cbn [sm_find sm_mem].
      rewrite close_enough_0_0. destruct (String.eqb key "Residual"); reflexivity.
    + rewrite <- EB in *. clear EB kv0 l. cbn [fst]. unfold marginResult. cbv zeta.
      rewrite sm_find_set, EA.
      rewrite marginSteps_margin, marginBucketSteps_nonFX by exact HFX.
      cbn [msBucketMargin msBucketMargins]. rewrite HFX. cbn [negb].
      rewrite writeAll_mapValues by exact Hs. rewrite HR.
      set (B := bucketsOf (riskTypeRange nsd pc rt recs)) in *.
      set (K := bucketK cfg calculationCcy nsd pc rt recs) in *.
      set (res := if sm_mem "Residual" B
                  then marginK cfg calculationCcy nsd pc rt recs "Residual" else 0) in *.
      change (fold_left (fun bms kv => sm_set (fst kv) (snd kv) bms)
                (sm_erase "Residual" (mapValues K B))
                (if negb (close_enough res 0) then sm_set "Residual" res [] else []))
        with (writeAll (fun kv : string * R => snd kv)
                (sm_erase "Residual" (mapValues K B))
                (if negb (close_enough res 0) then sm_set "Residual" res [] else [])).
      rewrite writeAll_find
        by (apply sm_erase_sorted, mapValues_sorted; exact Hs).
      rewrite sm_find_erase, mapValues_find.
      destruct (String.eqb key "Residual") eqn:ER.
      * apply String.eqb_eq in ER. subst key. rewrite String.eqb_refl.
        destruct (close_enough res 0); cbn [negb]; [reflexivity|].
        apply sm_find_set_same.
      * rewrite String.eqb_sym, ER. unfold sm_mem.
        destruct (sm_find key B) as [qs|] eqn:F.
        -- cbn [snd]. f_equal. apply sm_find_In in F.
           destruct (HK (key, qs) F) as [E _]. exact E.
        -- destruct (close_enough res 0); cbn [negb]; [reflexivity|].
           rewrite sm_find_set, ER. reflexivity.
Qed.

Lemma margin_bucket_entries_witness :
  riskClassIsFX RiskType.Equity = false
  /\ sm_find "1" (fst (margin Samples.unitCfg "USD" "NS1" ProductClass.RatesFX
                              RiskType.Equity Samples.equityRecords))
     = marginEntryFormula Samples.unitCfg "USD" "NS1" ProductClass.RatesFX
         RiskType.Equity Samples.equityRecords "1".
Proof.
  split; [reflexivity|].
  apply (@margin_bucket_entries Samples.unitCfg "USD" "NS1" ProductClass.RatesFX
           RiskType.Equity Samples.equityRecords "1").
  reflexivity.
Defined.

(* ----------------------------------------------------------------- *)
(** ** The FX risk class, by currency *)

Lemma addAll_get (key : CrifRecord -> string) (x : CrifRecord -> R)
    (range : list CrifRecord) (m : smap R) (q : string) :
  sm_get q (addAll key x range m)
  = sm_get q m + sumR (map x (filter (fun it => String.eqb (key it) q) range)).
Proof.
  unfold sm_get at 1. rewrite addAll_find.
  destruct (filter (fun it => String.eqb (key it) q) range) as [|a l].
  - unfold sumR. simpl. unfold sm_get. destruct (sm_find q m); lra.
  - reflexivity.
Qed.

Lemma sm_get_abs (m : smap R) (q : string) :
  sm_get q (map (fun kv => (fst kv, Rabs (snd kv))) m) = Rabs (sm_get q m).
Proof.
  change (map (fun kv : string * R => (fst kv, Rabs (snd kv))) m)
    with (mapValues (fun kv : string * R => Rabs (snd kv)) m).
  unfold sm_get. rewrite mapValues_find.
  destruct (sm_find q m); [reflexivity|]. rewrite Rabs_R0. reflexivity.
Qed.

Section MarginFX.

Variable cfg : SimmConfiguration.
Variable calculationCcy : string.
Variable nsd : NettingSetDetails.
Variable pc : ProductClass.t.
Variable rt : RiskType.t.
Variable recs : SimmNetSensitivities.
Hypothesis HFX : riskClassIsFX rt = true.

Let hvr := historicalVolatilityRatio cfg rt.

Lemma marginBucketLoop_FX (cr : smap R) (earlier rest : list CrifRecord)
    (st : BucketState) :
  bsBucketMargins (marginBucketLoop cfg calculationCcy rt hvr cr earlier rest st)
  = addAll qualifier (weightedSensitivity cfg calculationCcy rt hvr cr)
           (filter (fun r => negb (isCalcCcyFX calculationCcy rt (qualifier r))) rest)
           (bsBucketMargins st).
Proof.
  revert earlier st. induction rest as [|it rest IH]; intros earlier st;
    [reflexivity|].
  cbn [marginBucketLoop filter].
  destruct (isCalcCcyFX calculationCcy rt (qualifier it)); cbn [negb].
  - apply IH.
  - cbv zeta. rewrite IH. cbn [bsBucketMargins]. rewrite HFX. reflexivity.
Qed.

Lemma marginSteps_FX (q : string) (buckets : smap sset) (st : MarginState) :
  (forall kv, In kv buckets -> In kv (bucketsOf (riskTypeRange nsd pc rt recs))) ->
  sm_get q (msBucketMargins
              (fold_left (marginBucketStep cfg calculationCcy nsd pc rt hvr recs)
                         buckets st))
  = sm_get q (msBucketMargins st)
    + sumR (map (fun kv : string * sset =>
                   sumR (map (marginWs cfg calculationCcy nsd pc rt recs (fst kv))
                             (filter (fun r => String.eqb (qualifier r) q)
                                     (marginRecords calculationCcy nsd pc rt recs
                                                    (fst kv)))))
                buckets).
Proof.
  revert st. induction buckets as [|kv buckets IH]; intros st Hin.
  - unfold sumR. simpl. lra.
  - cbn [fold_left map]. rewrite IH by (intros kv' H'; apply Hin; right; exact H').
    unfold marginBucketStep. cbv zeta. cbn [msBucketMargins].
    rewrite marginBucketLoop_FX. cbn [bsBucketMargins]. rewrite addAll_get.
    fold (marginRecords calculationCcy nsd pc rt recs (fst kv)).
    rewrite (sumR_map_ext_in _ (marginWs cfg calculationCcy nsd pc rt recs (fst kv))).
    + unfold sumR. simpl. lra.
    + intros r Hr. apply filter_In in Hr. destruct Hr as [Hr _].
      unfold weightedSensitivity, marginWs, hvr.
      rewrite (marginWs_closed cfg calculationCcy nsd pc rt recs kv r); [reflexivity| |].
      * apply Hin. left. reflexivity.
      * exact Hr.
Qed.

End MarginFX.

(** For the FX risk class (Risk_FX and Risk_FXVol) the map [margin] returns
    is broken down by currency: at a qualifier (other than the keys "All"
    and "Residual") it holds the absolute value of the sum of the weighted
    sensitivities of the qualifier's records, zero for the calculation
    currency of Risk_FX, whose records are passed over. *)
Theorem margin_fx_by_currency (cfg : SimmConfiguration) (calculationCcy : string)
    (nsd : NettingSetDetails) (pc : ProductClass.t) (rt : RiskType.t)
    (recs : SimmNetSensitivities) (q : string) :
  riskClassIsFX rt = true -> q <> "All" -> q <> "Residual" ->
  sm_get q (fst (margin cfg calculationCcy nsd pc rt recs))
  = Rabs (marginQualifierWs cfg calculationCcy nsd pc rt recs q)
  /\ (isCalcCcyFX calculationCcy rt q = true ->
      sm_get q (fst (margin cfg calculationCcy nsd pc rt recs)) = 0).
Proof.
  intros HFX HA HR.
  assert (H : sm_get q (fst (margin cfg calculationCcy nsd pc rt recs))
              = Rabs (marginQualifierWs cfg calculationCcy nsd pc rt recs q)).
  { unfold margin, marginQualifierWs. cbv zeta.
    destruct (bucketsOf (riskTypeRange nsd pc rt recs)) as [|kv0 l] eqn:EB.
    - cbn [fst map]. rewrite sm_get_set, (eqb_false_of_neq HA).
      unfold sm_get, sumR. simpl. rewrite Rabs_R0. reflexivity.
    - rewrite <- EB. cbn [fst]. unfold marginResult. cbv zeta.
      rewrite sm_get_set, (eqb_false_of_neq HA). rewrite HFX. cbn [negb].
      rewrite sm_get_abs. f_equal.
      match goal with
      | |- sm_get q (if ?c then _ else _) = _ => destruct c
      end;
        rewrite ?sm_get_set, ?(eqb_false_of_neq HR);
        rewrite (marginSteps_FX cfg calculationCcy nsd pc rt recs HFX)
          by (intros kv Hkv; exact Hkv);
        cbn [msBucketMargins]; unfold sm_get at 1; cbn [sm_find]; lra. }
  split; [exact H|].
  intros Hc. rewrite H. unfold marginQualifierWs.
  assert (Z : forall kv : string * sset,
             In kv (bucketsOf (riskTypeRange nsd pc rt recs)) ->
             sumR (map (marginWs cfg calculationCcy nsd pc rt recs (fst kv))
                       (filter (fun r => String.eqb (qualifier r) q)
                               (marginRecords calculationCcy nsd pc rt recs (fst kv))))
             = 0).
  { intros kv _. unfold marginRecords. rewrite filter_none; [reflexivity|].
    intros r Hr. apply String.eqb_eq in Hr. rewrite Hr, Hc. reflexivity. }
  rewrite (sumR_map_ext_in _ (fun _ => 0) _ Z).
  clear Z. induction (bucketsOf (riskTypeRange nsd pc rt recs)) as [|kv l IH].
  - unfold sumR. simpl. apply Rabs_R0.
  - cbn [map sumR fold_right] in *. rewrite Rplus_0_l. exact IH.
Qed.

Lemma margin_fx_by_currency_witness :
  riskClassIsFX RiskType.FX = true
  /\ sm_get "EUR" (fst (margin Samples.unitCfg "USD" "NS1" ProductClass.RatesFX
                               RiskType.FX Samples.fxRecords))
     = Rabs (marginQualifierWs Samples.unitCfg "USD" "NS1" ProductClass.RatesFX
               RiskType.FX Samples.fxRecords "EUR").
Proof.
  split; [reflexivity|].
  apply (@margin_fx_by_currency Samples.unitCfg "USD" "NS1" ProductClass.RatesFX
           RiskType.FX Samples.fxRecords "EUR"); [reflexivity|discriminate|discriminate].
Defined.

(* ----------------------------------------------------------------- *)
(** ** The interest rate vega margin, currency by currency *)

Lemma pairLoop_start (A : Type) (diag : A -> R) (cross : A -> A -> R)
    (earlier rest : list A) (a b : R) :
  a = b -> pairLoop diag cross earlier rest a = pairLoop diag cross earlier rest b.
Proof. intros ->. reflexivity. Qed.

Lemma fold_left_start (A : Type) (f : R -> A -> R) (l : list A) (a b : R) :
  a = b -> fold_left f l a = fold_left f l b.
Proof. intros ->. reflexivity. Qed.

(** The aggregation across currencies, for maps that hold the values of
    [CR], [K] and [SW] at the currencies met. *)
Lemma irAggregate_pairs (cfg : SimmConfiguration) (rt : RiskType.t) (ccy : string)
    (CR K SW : string -> R) (st : IrState) (earlier rest : sset) (m : R) :
  (forall q, In q (earlier ++ rest) ->
     sm_get q (irConcentrationRisk st) = CR q
     /\ sm_get q (irMargin st) = K q
     /\ sm_get q (irSumWeightedSensis st) = SW q) ->
  irAggregate cfg rt ccy st earlier rest m
  = pairLoop (fun q => K q * K q)
      (fun outer inner =>
         2 * clampS (SW outer) (K outer) * clampS (SW inner) (K inner)
           * correlation cfg rt outer "" "" rt inner "" "" ccy
           * (Rmin (CR outer) (CR inner) / Rmax (CR outer) (CR inner)))
      earlier rest m.
Proof.
  revert earlier m. induction rest as [|o rest IH]; intros earlier m H; [reflexivity|].
  cbn [irAggregate pairLoop].
  rewrite IH by (intros q Hq; apply H; rewrite <- app_assoc in Hq; exact Hq).
  f_equal.
  destruct (H o) as [Ho1 [Ho2 Ho3]]; [apply in_or_app; right; left; reflexivity|].
  rewrite Ho2. apply fold_left_ext_in. intros a inner Hin.
  destruct (H inner) as [Hi1 [Hi2 Hi3]]; [apply in_or_app; left; exact Hin|].
  rewrite Ho1, Ho3, Hi1, Hi2, Hi3. reflexivity.
Qed.

Section IrVegaClosed.

Variable cfg : SimmConfiguration.
Variable calculationCcy : string.
Variable nsd : NettingSetDetails.
Variable pc : ProductClass.t.
Variable recs : SimmNetSensitivities.

Lemma irVegaVolLoop_closed (q : string) (cr : R) (earlier rest : list CrifRecord)
    (st : R * R) :
  irVegaVolLoop cfg q cr earlier rest st
  = (fst st + sumR (map (irWeightedSensitivity cfg RiskType.IRVol q "" cr) rest),
     pairLoop
       (fun r => irWeightedSensitivity cfg RiskType.IRVol q "" cr r
                 * irWeightedSensitivity cfg RiskType.IRVol q "" cr r)
       (fun outer inner =>
          2 * correlation cfg RiskType.IRVol q (label1 outer) ""
                          RiskType.IRVol q (label1 inner) "" ""
            * irWeightedSensitivity cfg RiskType.IRVol q "" cr outer
            * irWeightedSensitivity cfg RiskType.IRVol q "" cr inner)
       earlier rest (snd st)).
Proof.
  revert earlier st. induction rest as [|r rest IH]; intros earlier [s d].
  - cbn [irVegaVolLoop pairLoop map fst snd]. unfold sumR. simpl. f_equal. lra.
  - cbn [irVegaVolLoop pairLoop]. rewrite IH. cbn [fst snd map].
    f_equal. unfold sumR. simpl. lra.
Qed.

Lemma irVegaInflationLoop_closed (q : string) (cr : R) (ir earlier rest : list CrifRecord)
    (st : R * R) :
  irVegaInflationLoop cfg q cr ir earlier rest st
  = (fst st + sumR (map (irWeightedSensitivity cfg RiskType.InflationVol q "" cr) rest),
     pairLoop
       (fun r =>
          irWeightedSensitivity cfg RiskType.InflationVol q "" cr r
          * irWeightedSensitivity cfg RiskType.InflationVol q "" cr r
          + sumR (map (fun inner =>
                         2 * correlation cfg RiskType.InflationVol q (label1 r) ""
                                         RiskType.IRVol q (label1 inner) "" ""
                           * irWeightedSensitivity cfg RiskType.InflationVol q "" cr r
                           * irWeightedSensitivity cfg RiskType.IRVol q "" cr inner)
                      ir))
       (fun outer inner =>
          2 * correlation cfg RiskType.InflationVol q (label1 outer) ""
                          RiskType.InflationVol q (label1 inner) "" ""
            * irWeightedSensitivity cfg RiskType.InflationVol q "" cr outer
            * irWeightedSensitivity cfg RiskType.InflationVol q "" cr inner)
       earlier rest (snd st)).
Proof.
  revert earlier st. induction rest as [|r rest IH]; intros earlier [s d].
  - cbn [irVegaInflationLoop pairLoop map fst snd]. unfold sumR. simpl. f_equal. lra.
  - cbn [irVegaInflationLoop pairLoop]. rewrite IH. cbn [fst snd map].
    f_equal; [unfold sumR; simpl; lra|].
    apply pairLoop_start. apply fold_left_start.
    rewrite (fold_left_plus
               (fun inner =>
                  2 * correlation cfg RiskType.InflationVol q (label1 r) ""
                                  RiskType.IRVol q (label1 inner) "" ""
                    * irWeightedSensitivity cfg RiskType.InflationVol q "" cr r
                    * irWeightedSensitivity cfg RiskType.IRVol q "" cr inner)).
    lra.
Qed.


Let CR := irVegaCR cfg nsd pc recs.
Let SW := irVegaSumWs cfg nsd pc recs.
Let K := irVegaK cfg nsd pc recs.

Lemma irVegaConcentrationRisk_closed (q : string) :
  irVegaConcentrationRisk cfg q (irVolOf nsd pc recs q) (inflationVolOf nsd pc recs q)
  = CR q.
Proof.
  unfold irVegaConcentrationRisk, CR, irVegaCR. cbv zeta. rewrite !fold_left_plus.
  do 4 f_equal. lra.
Qed.

Lemma irVegaQualifierStep_fields (st : IrState) (q : string) :
  irVegaQualifierStep cfg nsd pc recs st q
  = mkIrState (sm_set q (CR q) (irConcentrationRisk st))
              (sm_set q (K q) (irMargin st))
              (sm_set q (SW q) (irSumWeightedSensis st)).
Proof.
  unfold irVegaQualifierStep. cbv zeta.
  fold (irVolOf nsd pc recs q). fold (inflationVolOf nsd pc recs q).
  rewrite irVegaConcentrationRisk_closed.
  rewrite irVegaVolLoop_closed, irVegaInflationLoop_closed. cbn [fst snd].
  rewrite !pairLoop_closed, !sumCross_nil.
  change (irWeightedSensitivity cfg RiskType.IRVol q "" (CR q))
    with (irVegaWs cfg nsd pc recs RiskType.IRVol q).
  change (irWeightedSensitivity cfg RiskType.InflationVol q "" (CR q))
    with (irVegaWs cfg nsd pc recs RiskType.InflationVol q).
  f_equal.
  - f_equal. unfold K, irVegaK. f_equal. f_equal.
    rewrite sumR_map_plus. unfold sumCross, irVegaCross. lra.
  - f_equal. unfold SW, irVegaSumWs. lra.
Qed.

Lemma irVegaSteps_fields (qs : sset) (st : IrState) :
  let st' := fold_left (irVegaQualifierStep cfg nsd pc recs) qs st in
  irConcentrationRisk st'
  = writeAll (fun kv : string * unit => CR (fst kv)) (asMap qs) (irConcentrationRisk st)
  /\ irMargin st'
     = writeAll (fun kv : string * unit => K (fst kv)) (asMap qs) (irMargin st)
  /\ irSumWeightedSensis st'
     = writeAll (fun kv : string * unit => SW (fst kv)) (asMap qs)
                (irSumWeightedSensis st).
Proof.
  cbv zeta. revert st. induction qs as [|q qs IH]; intros st.
  - repeat split.
  - cbn [fold_left]. rewrite irVegaQualifierStep_fields.
    destruct (IH (mkIrState (sm_set q (CR q) (irConcentrationRisk st))
                            (sm_set q (K q) (irMargin st))
                            (sm_set q (SW q) (irSumWeightedSensis st))))
      as [H1 [H2 H3]].
    rewrite H1, H2, H3. repeat split.
Qed.

End IrVegaClosed.

Lemma irVolCurrencies_sorted nsd pc recs : ssSorted (irVolCurrencies nsd pc recs).
Proof. unfold irVolCurrencies. repeat apply qualifiersOf_sorted. exact I. Qed.

(** The result of [irVegaMargin] in closed form. *)
Lemma irVegaMargin_closed (cfg : SimmConfiguration) (calculationCcy : string)
    (nsd : NettingSetDetails) (pc : ProductClass.t) (recs : SimmNetSensitivities) :
  irVegaMargin cfg calculationCcy nsd pc recs
  = (irVegaMapFormula cfg calculationCcy nsd pc recs,
     match irVolCurrencies nsd pc recs with [] => false | _ :: _ => true end).
Proof.
  pose proof (irVolCurrencies_sorted nsd pc recs) as Hs.
  unfold irVegaMargin, irVegaMapFormula, irVegaTotalFormula. cbv zeta.
  fold (irVolCurrencies nsd pc recs).
  destruct (irVolCurrencies nsd pc recs) as [|q0 qs0] eqn:Eq.
  - cbn [map sumPairs sumR fold_right]. replace (0 + 0) with 0 by lra.
    rewrite sqrt_Rmax_0. reflexivity.
  - rewrite <- Eq in *. clear Eq q0 qs0.
    destruct (irVegaSteps_fields cfg nsd pc recs (irVolCurrencies nsd pc recs)
                (mkIrState [] [] [])) as [H1 [H2 H3]].
    cbn [irConcentrationRisk irMargin irSumWeightedSensis] in H1, H2, H3.
    rewrite writeAll_mapValues in H1, H2, H3 by exact Hs.
    set (st := fold_left _ (irVolCurrencies nsd pc recs) _) in *.
    rewrite copyInto_sorted by (rewrite H2; apply mapValues_sorted; exact Hs).
    rewrite (irAggregate_pairs cfg RiskType.IRVol calculationCcy
               (irVegaCR cfg nsd pc recs) (irVegaK cfg nsd pc recs)
               (irVegaSumWs cfg nsd pc recs) st []).
    + rewrite pairLoop_closed, sumCross_nil, H2.
      unfold mapValues, asMap. rewrite map_map. cbn [fst].
      f_equal. f_equal. do 2 f_equal. unfold irVegaCurrencyCross, irVegaS. lra.
    + intros q Hq. cbn [app] in Hq. rewrite H1, H2, H3.
      rewrite !asMap_lookup by exact Hq. repeat split.
Qed.

(** [irVegaMargin] never fails.  It returns [K_b] for every currency that
    has an IRVol or InflationVol record, where [K_b^2] sums the squares and
    the correlated pairs of the weighted sensitivities
    [RW * amountUsd * VCR_b] of the records of both risk types, and at "All"
    [sqrt(max(sum K_b^2 + sum_{b<>c} gamma(b,c) g(b,c) S_b S_c, 0))] with
    [g(b,c) = min(VCR_b, VCR_c) / max(VCR_b, VCR_c)]; the margin applies when
    there is such a currency. *)
Theorem irVegaMargin_formula (cfg : SimmConfiguration) (calculationCcy : string)
    (nsd : NettingSetDetails) (pc : ProductClass.t) (recs : SimmNetSensitivities) :
  irVegaMargin cfg calculationCcy nsd pc recs
  = (irVegaMapFormula cfg calculationCcy nsd pc recs,
     match irVolCurrencies nsd pc recs with [] => false | _ :: _ => true end).
Proof. apply irVegaMargin_closed. Qed.

(* ----------------------------------------------------------------- *)
(** ** The interest rate curvature margin, currency by currency *)

Lemma ssSorted_NoDup (s : sset) : ssSorted s -> NoDup s.
Proof.
  unfold ssSorted. induction s as [|x s IH]; intros H; constructor.
  - cbn [map smSorted fst] in H. destruct H as [Ha _]. intros Hin.
    unfold keysAfter in Ha. rewrite Forall_forall in Ha.
    specialize (Ha (x, tt)). cbn [fst] in Ha.
    rewrite compare_refl in Ha. discriminate Ha.
    apply in_map_iff. exists x. split; [reflexivity|exact Hin].
  - apply IH. cbn [map smSorted] in H. apply H.
Qed.

Lemma addAll_const_find (q k : string) (x : CrifRecord -> R) (range : list CrifRecord)
    (m : smap R) :
  sm_find k (addAll (fun _ => q) x range m)
  = if String.eqb k q
    then match range with
         | [] => sm_find k m
         | _ :: _ => Some (sm_get k m + sumR (map x range))
         end
    else sm_find k m.
Proof.
  rewrite addAll_find. rewrite (String.eqb_sym k q).
  destruct (String.eqb q k).
  - rewrite forallb_filter_id by (apply forallb_forall; intros; reflexivity).
    destruct range; reflexivity.
  - rewrite filter_nil_in by (intros; reflexivity). reflexivity.
Qed.

Lemma addAll_const_get (q : string) (x : CrifRecord -> R) (range : list CrifRecord)
    (m : smap R) :
  sm_get q (addAll (fun _ => q) x range m) = sm_get q m + sumR (map x range).
Proof.
  unfold sm_get at 1. rewrite addAll_const_find, String.eqb_refl.
  destruct range; [|reflexivity]. unfold sm_get, sumR. simpl. destruct (sm_find q m); lra.
Qed.

Lemma sm_at_found (k : string) (m : smap R) (v : R) :
  sm_find k m = Some v -> sm_at k m = OK v.
Proof. unfold sm_at. intros ->. reflexivity. Qed.

Section IrCurvatureClosed.

Variable cfg : SimmConfiguration.
Variable nsd : NettingSetDetails.
Variable pc : ProductClass.t.
Variable side : SimmSide.t.
Variable recs : SimmNetSensitivities.

Let mult := sideMultiplier side.
Let cvr := irCvr cfg side.
Let K := irCurvatureK cfg nsd pc side recs.
Let SUM := irCurvatureSum cfg nsd pc side recs.
Let ABS := irCurvatureAbsSum cfg nsd pc side recs.
Let step := irCurvatureQualifierStep cfg nsd pc mult recs.

Lemma irCurvatureVolLoop_closed (q : string) (earlier rest : list CrifRecord)
    (st : IrCurvatureState) (cm : R) :
  irCurvatureVolLoop cfg q mult earlier rest st cm
  = (mkIrCurvatureState
       (icMargin st)
       (addAll (fun _ => q) cvr rest (icSumWeightedSensis st))
       (icSumWs st + sumR (map cvr rest))
       (icSumAbsWs st + sumR (map (fun r => Rabs (cvr r)) rest)),
     pairLoop (fun r => cvr r * cvr r) (irCurvatureCross cfg side q) earlier rest cm).
Proof.
  revert earlier st cm. induction rest as [|it rest IH]; intros earlier st cm.
  - destruct st as [m s w a]. cbn. unfold sumR. cbn. do 2 f_equal; lra.
  - cbn [irCurvatureVolLoop]. cbv zeta. rewrite IH.
    cbn [icMargin icSumWeightedSensis icSumWs icSumAbsWs pairLoop map].
    f_equal. f_equal; try reflexivity; unfold sumR; cbn [map fold_right];
      unfold cvr, irCvr, irCurvatureSensitivity, mult; lra.
Qed.


Let INF := inflationCvr cfg nsd pc side recs.

Lemma irCurvatureStep_closed (st : IrCurvatureState) (q : string) :
  step st q
  = mkIrCurvatureState
      (sm_set q (K q) (icMargin st))
      (if withInflationVol cfg
       then sm_add q (INF q)
                   (addAll (fun _ => q) cvr (irVolOf nsd pc recs q)
                           (icSumWeightedSensis st))
       else addAll (fun _ => q) cvr (irVolOf nsd pc recs q) (icSumWeightedSensis st))
      (icSumWs st + SUM q) (icSumAbsWs st + ABS q).
Proof.
  unfold step, irCurvatureQualifierStep.
  fold (irVolOf nsd pc recs q). fold (inflationVolOf nsd pc recs q).
  rewrite irCurvatureVolLoop_closed.
  unfold K, SUM, ABS, irCurvatureK, irCurvatureSum, irCurvatureAbsSum, withInflationVol.
  destruct (SimmVersion.gtb (version cfg) SimmVersion.V1_0).
  - rewrite (fold_left_plus (irCurvatureSensitivity cfg RiskType.InflationVol mult)),
      Rplus_0_l.
    change (sumR (map (irCurvatureSensitivity cfg RiskType.InflationVol mult)
                      (inflationVolOf nsd pc recs q)))
      with (INF q).
    rewrite (fold_left_plus
               (fun irIt =>
                  2 * correlation cfg RiskType.InflationVol q "" "" RiskType.IRVol q
                                  (label1 irIt) "" ""
                    * correlation cfg RiskType.InflationVol q "" "" RiskType.IRVol q
                                  (label1 irIt) "" ""
                    * INF q * irCurvatureSensitivity cfg RiskType.IRVol mult irIt)).
    rewrite pairLoop_closed, sumCross_nil.
    cbn [icMargin icSumWeightedSensis icSumWs icSumAbsWs].
    unfold irCurvatureInflationCross.
    change (inflationCvr cfg nsd pc side recs) with INF.
    change (irCvr cfg side) with cvr.
    change (irCurvatureSensitivity cfg RiskType.IRVol mult) with cvr.
    f_equal; [|lra|lra].
    f_equal. f_equal. f_equal. lra.
  - rewrite pairLoop_closed, sumCross_nil.
    cbn [icMargin icSumWeightedSensis icSumWs icSumAbsWs].
    change (irCvr cfg side) with cvr.
    f_equal; [|lra|lra].
    f_equal. f_equal. f_equal. lra.
Qed.


Lemma irCurvatureStep_sums (st : IrCurvatureState) (q k : string) :
  withInflationVol cfg = true ->
  sm_find k (icSumWeightedSensis (step st q))
  = if String.eqb k q then Some (sm_get q (icSumWeightedSensis st) + SUM q)
    else sm_find k (icSumWeightedSensis st).
Proof.
  intros Hv. rewrite irCurvatureStep_closed, Hv. cbn [icSumWeightedSensis].
  unfold sm_add. rewrite sm_find_set, addAll_const_get, addAll_const_find.
  destruct (String.eqb k q); [|reflexivity].
  f_equal. unfold SUM, irCurvatureSum. rewrite Hv. fold cvr. fold INF. lra.
Qed.

Lemma irCurvatureSteps_closed (qs : sset) (st : IrCurvatureState) :
  let st' := fold_left step qs st in
  icMargin st' = writeAll (fun kv : string * unit => K (fst kv)) (asMap qs) (icMargin st)
  /\ icSumWs st' = icSumWs st + sumR (map SUM qs)
  /\ icSumAbsWs st' = icSumAbsWs st + sumR (map ABS qs).
Proof.
  cbv zeta. revert st. induction qs as [|q qs IH]; intros st.
  - unfold sumR. cbn. repeat split; lra.
  - cbn [fold_left]. destruct (IH (step st q)) as [H1 [H2 H3]].
    rewrite H1, H2, H3, irCurvatureStep_closed.
    cbn [icMargin icSumWs icSumAbsWs map]. unfold sumR. cbn [fold_right].
    repeat split; lra.
Qed.

Lemma irCurvatureSteps_sums (qs : sset) (st : IrCurvatureState) (k : string) :
  withInflationVol cfg = true -> NoDup qs ->
  sm_find k (icSumWeightedSensis (fold_left step qs st))
  = if existsb (String.eqb k) qs
    then Some (sm_get k (icSumWeightedSensis st) + SUM k)
    else sm_find k (icSumWeightedSensis st).
Proof.
  intros Hv. revert st. induction qs as [|q qs IH]; intros st Hn; [reflexivity|].
  inversion Hn as [|q' qs' Hq Hn']; subst.
  cbn [fold_left existsb]. rewrite IH by exact Hn'.
  destruct (String.eqb k q) eqn:E.
  - apply String.eqb_eq in E. subst k. cbn [orb].
    assert (Ex : existsb (String.eqb q) qs = false).
    { destruct (existsb (String.eqb q) qs) eqn:Ex; [|reflexivity].
      apply existsb_exists in Ex. destruct Ex as [x [Hx Ex]].
      apply String.eqb_eq in Ex. subst x. contradiction. }
    rewrite Ex, irCurvatureStep_sums, String.eqb_refl by exact Hv. reflexivity.
  - cbn [orb]. unfold sm_get. rewrite irCurvatureStep_sums, E by exact Hv. reflexivity.
Qed.

Lemma irCurvatureInner_closed (st : IrCurvatureState) (outer : string) (sOuter : R)
    (earlier : sset) (a : R) :
  (forall q, In q earlier ->
     sm_find q (icMargin st) = Some (K q)
     /\ sm_find q (icSumWeightedSensis st) = Some (SUM q)) ->
  fold_left
    (fun m inner =>
       do m <- m;
       do sumInner <- sm_at inner (icSumWeightedSensis st);
       do kInner <- sm_at inner (icMargin st);
       let sInner := clampS sumInner kInner in
       let corr := correlation cfg RiskType.IRVol outer "" ""
                               RiskType.IRVol inner "" "" "" in
       OK (m + 2 * sOuter * sInner * corr * corr))
    earlier (OK a)
  = OK (fold_left
          (fun m inner =>
             m + 2 * sOuter * clampS (SUM inner) (K inner)
                 * correlation cfg RiskType.IRVol outer "" "" RiskType.IRVol inner "" "" ""
                 * correlation cfg RiskType.IRVol outer "" "" RiskType.IRVol inner "" "" "")
          earlier a).
Proof.
  revert a. induction earlier as [|q earlier IH]; intros a H; [reflexivity|].
  cbn [fold_left]. destruct (H q) as [H1 H2]; [left; reflexivity|].
  cbn [bind]. rewrite (sm_at_found _ _ H1), (sm_at_found _ _ H2). cbn [bind].
  apply IH. intros q' Hq'. apply H. right. exact Hq'.
Qed.

Lemma irCurvatureAggregate_closed (st : IrCurvatureState) (earlier rest : sset) (m : R) :
  (forall q, In q (earlier ++ rest) ->
     sm_find q (icMargin st) = Some (K q)
     /\ sm_find q (icSumWeightedSensis st) = Some (SUM q)) ->
  irCurvatureAggregate cfg st earlier rest m
  = OK (pairLoop (fun q => K q * K q)
                 (irCurvatureCurrencyCross cfg nsd pc side recs) earlier rest m).
Proof.
  revert earlier m. induction rest as [|o rest IH]; intros earlier m H; [reflexivity|].
  cbn [irCurvatureAggregate pairLoop].
  destruct (H o) as [Ho1 Ho2]; [apply in_or_app; right; left; reflexivity|].
  rewrite (sm_at_found _ _ Ho1), (sm_at_found _ _ Ho2). cbn [bind].
  rewrite irCurvatureInner_closed
    by (intros q Hq; apply H; apply in_or_app; left; exact Hq).
  cbn [bind].
  rewrite IH by (intros q Hq; apply H; rewrite <- app_assoc in Hq; exact Hq).
  reflexivity.
Qed.

End IrCurvatureClosed.

(** With the InflationVol records taken in (a version after 1.0)
    [irCurvatureMargin] never fails.  When the absolute curvature
    sensitivities sum to something negligible it returns the zero total and
    no currency entry; otherwise [K_b] for every currency and the total
    [scaling * max(sum CVR + lambda(theta) sqrt(max(sum K_b^2
      + sum_{b<>c} gamma(b,c)^2 S_b S_c, 0)), 0)]
    with [theta = min(sum CVR / sum |CVR|, 0)], the InflationVol records of
    a currency counting as one sensitivity. *)
Theorem irCurvatureMargin_formula (cfg : SimmConfiguration) (nsd : NettingSetDetails)
    (pc : ProductClass.t) (side : SimmSide.t) (recs : SimmNetSensitivities) :
  withInflationVol cfg = true ->
  irCurvatureMargin cfg nsd pc side recs
  = OK (irCurvatureResultFormula cfg nsd pc side recs).
Proof.
  intros Hv. pose proof (irVolCurrencies_sorted nsd pc recs) as Hs.
  unfold irCurvatureMargin, irCurvatureResultFormula. cbv zeta.
  fold (irVolCurrencies nsd pc recs).
  destruct (irVolCurrencies nsd pc recs) as [|q0 qs0] eqn:Eq; [reflexivity|].
  cbv iota. rewrite <- Eq in *. clear Eq q0 qs0.
  destruct (irCurvatureSteps_closed cfg nsd pc side recs (irVolCurrencies nsd pc recs)
              (mkIrCurvatureState [] [] 0 0)) as [H1 [H2 H3]].
  pose proof (fun k => @irCurvatureSteps_sums cfg nsd pc side recs
                         (irVolCurrencies nsd pc recs) (mkIrCurvatureState [] [] 0 0) k
                         Hv (ssSorted_NoDup _ Hs)) as H4.
  cbn [icMargin icSumWeightedSensis icSumWs icSumAbsWs] in H1, H2, H3, H4.
  rewrite writeAll_mapValues in H1 by exact Hs. rewrite Rplus_0_l in H2, H3.
  set (st := fold_left _ (irVolCurrencies nsd pc recs) _) in *.
  rewrite H3.
  change (sumR (map (irCurvatureAbsSum cfg nsd pc side recs) (irVolCurrencies nsd pc recs)))
    with (irCurvatureSumAbsWs cfg nsd pc side recs).
  destruct (close_enough (irCurvatureSumAbsWs cfg nsd pc side recs) 0); [reflexivity|].
  rewrite (@irCurvatureAggregate_closed cfg nsd pc side recs st []
             (irVolCurrencies nsd pc recs)).
  - cbn [bind]. rewrite pairLoop_closed, sumCross_nil.
    rewrite copyInto_sorted by (rewrite H1; apply mapValues_sorted; exact Hs).
    rewrite H1, H2. unfold mapValues, asMap. rewrite map_map. cbn [fst].
    unfold irCurvatureTotalFormula, irCurvatureTheta.
    change (sumR (map (irCurvatureSum cfg nsd pc side recs) (irVolCurrencies nsd pc recs)))
      with (irCurvatureSumWs cfg nsd pc side recs).
    match goal with
    | |- context [Rmax (0 + ?a + 0 + ?b) 0] =>
        replace (0 + a + 0 + b) with (a + b) by lra
    end.
    reflexivity.
  - intros q Hq. cbn [app] in Hq.
    assert (E : existsb (String.eqb q) (irVolCurrencies nsd pc recs) = true).
    { apply existsb_exists. exists q. split; [exact Hq|apply String.eqb_refl]. }
    split.
    + rewrite H1, mapValues_find, asMap_find, E. reflexivity.
    + rewrite H4, E. f_equal. unfold sm_get. cbn [sm_find]. lra.
Qed.

Lemma irCurvatureMargin_formula_witness :
  withInflationVol Samples.unitCfg = true
  /\ irCurvatureMargin Samples.unitCfg "NS1" ProductClass.RatesFX SimmSide.Post
                       Samples.irVolRecords
     = OK (irCurvatureResultFormula Samples.unitCfg "NS1" ProductClass.RatesFX
             SimmSide.Post Samples.irVolRecords).
Proof.
  split; [reflexivity|].
  apply (@irCurvatureMargin_formula Samples.unitCfg "NS1" ProductClass.RatesFX
           SimmSide.Post Samples.irVolRecords).
  reflexivity.
Defined.

(* ----------------------------------------------------------------- *)
(** ** The interest rate curvature margin without the InflationVol records *)

Section IrCurvatureWithout.

Variable cfg : SimmConfiguration.
Variable nsd : NettingSetDetails.
Variable pc : ProductClass.t.
Variable side : SimmSide.t.
Variable recs : SimmNetSensitivities.
Hypothesis Hv : withInflationVol cfg = false.

Let step := irCurvatureQualifierStep cfg nsd pc (sideMultiplier side) recs.

Lemma irCurvatureSteps_missing (qs : sset) (st : IrCurvatureState) (k : string) :
  irVolOf nsd pc recs k = [] ->
  sm_find k (icSumWeightedSensis st) = None ->
  sm_find k (icSumWeightedSensis (fold_left step qs st)) = None.
Proof.
  intros Hk. revert st. induction qs as [|q qs IH]; intros st Hst; [exact Hst|].
  cbn [fold_left]. apply IH. unfold step. rewrite irCurvatureStep_closed, Hv.
  cbn [icSumWeightedSensis]. rewrite addAll_const_find.
  destruct (String.eqb k q) eqn:E; [|exact Hst].
  apply String.eqb_eq in E. subst q. rewrite Hk. exact Hst.
Qed.

Lemma irCurvatureAggregate_missing (st : IrCurvatureState) (earlier rest : sset)
    (m : R) (k : string) :
  In k rest -> sm_find k (icSumWeightedSensis st) = None ->
  isError (irCurvatureAggregate cfg st earlier rest m) = true.
Proof.
  intros Hin Hk. revert earlier m.
  induction rest as [|o rest IH]; intros earlier m; [contradiction|].
  cbn [irCurvatureAggregate]. unfold sm_at at 1.
  destruct (sm_find o (icMargin st)) as [kOuter|]; [|reflexivity]. cbn [bind].
  unfold sm_at at 1.
  destruct (sm_find o (icSumWeightedSensis st)) as [sumOuter|] eqn:Eo; [|reflexivity].
  cbn [bind].
  destruct (fold_left _ earlier _) as [m'|e]; [|reflexivity]. cbn [bind].
  apply IH. destruct Hin as [E|Hin]; [|exact Hin]. subst o. congruence.
Qed.

End IrCurvatureWithout.

(** Under a version that leaves the InflationVol records out (version 1.0)
    [irCurvatureMargin] fails on a portfolio with a currency that has
    InflationVol but no IRVol records, unless the absolute curvature
    sensitivities are negligible: the currency is aggregated but has no
    sum of weighted sensitivities to look up. *)
Theorem irCurvatureMargin_inflation_alone (cfg : SimmConfiguration)
    (nsd : NettingSetDetails) (pc : ProductClass.t) (side : SimmSide.t)
    (recs : SimmNetSensitivities) (q : string) :
  withInflationVol cfg = false ->
  In q (irVolCurrencies nsd pc recs) ->
  irVolOf nsd pc recs q = [] ->
  close_enough (irCurvatureSumAbsWs cfg nsd pc side recs) 0 = false ->
  isError (irCurvatureMargin cfg nsd pc side recs) = true.
Proof.
  intros Hv Hq Hir Hc. unfold irCurvatureMargin. cbv zeta.
  fold (irVolCurrencies nsd pc recs).
  destruct (irVolCurrencies nsd pc recs) as [|q0 qs0] eqn:Eq; [contradiction|].
  rewrite <- Eq in *. clear Eq q0 qs0.
  destruct (irCurvatureSteps_closed cfg nsd pc side recs (irVolCurrencies nsd pc recs)
              (mkIrCurvatureState [] [] 0 0)) as [_ [_ H3]].
  cbn [icSumAbsWs] in H3. rewrite Rplus_0_l in H3. rewrite H3.
  change (sumR (map (irCurvatureAbsSum cfg nsd pc side recs) (irVolCurrencies nsd pc recs)))
    with (irCurvatureSumAbsWs cfg nsd pc side recs).
  rewrite Hc.
  pose proof (@irCurvatureAggregate_missing cfg
                (fold_left (irCurvatureQualifierStep cfg nsd pc (sideMultiplier side) recs)
                           (irVolCurrencies nsd pc recs) (mkIrCurvatureState [] [] 0 0))
                [] (irVolCurrencies nsd pc recs) 0 q Hq) as HA.
  destruct (irCurvatureAggregate _ _ _ _ _) as [m|e]; [|reflexivity].
  cbn [isError] in HA. cbn [bind isError]. exfalso. assert (F : false = true); [|discriminate F]. apply HA.
  apply irCurvatureSteps_missing; [exact Hv|exact Hir|reflexivity].
Qed.

Lemma irCurvatureMargin_inflation_alone_witness :
  withInflationVol Samples.v1Cfg = false
  /\ irVolOf "NS1" ProductClass.RatesFX Samples.inflationVolAlone "EUR" = []
  /\ isError (irCurvatureMargin Samples.v1Cfg "NS1" ProductClass.RatesFX SimmSide.Call
                                Samples.inflationVolAlone) = true.
Proof.
  split; [reflexivity|]. split; [reflexivity|].
  apply (@irCurvatureMargin_inflation_alone Samples.v1Cfg "NS1" ProductClass.RatesFX
           SimmSide.Call Samples.inflationVolAlone "EUR").
  - reflexivity.
  - assert (E : irVolCurrencies "NS1" ProductClass.RatesFX Samples.inflationVolAlone
                = ["EUR"; "USD"]) by reflexivity.
    rewrite E. left. reflexivity.
  - reflexivity.
  - unfold irCurvatureSumAbsWs. evalR. apply close_enough_ge_1.
    replace (1 * (3 * 1)) with 3 by lra. rewrite Rabs_right by lra. lra.
Defined.

(* ----------------------------------------------------------------- *)
(** ** The range of theta *)

Lemma Rabs_sumR (l : list R) : Rabs (sumR l) <= sumR (map Rabs l).
Proof.
  induction l as [|x l IH]; cbn [map sumR fold_right].
  - rewrite Rabs_R0. lra.
  - eapply Rle_trans; [apply Rabs_triang|]. fold (sumR l). fold (sumR (map Rabs l)). lra.
Qed.

Lemma sumR_le (A : Type) (f g : A -> R) (l : list A) :
  (forall x, In x l -> f x <= g x) -> sumR (map f l) <= sumR (map g l).
Proof.
  induction l as [|a l IH]; intros H; cbn [map sumR fold_right]; [lra|].
  fold (sumR (map f l)). fold (sumR (map g l)).
  assert (f a <= g a) by (apply H; left; reflexivity).
  assert (sumR (map f l) <= sumR (map g l)) by (apply IH; intros x Hx; apply H; right; exact Hx).
  lra.
Qed.

Lemma sumR_nonneg (A : Type) (f : A -> R) (l : list A) :
  (forall x, In x l -> 0 <= f x) -> 0 <= sumR (map f l).
Proof.
  intros H. induction l as [|a l IH]; cbn [map sumR fold_right]; [lra|].
  fold (sumR (map f l)).
  assert (0 <= f a) by (apply H; left; reflexivity).
  assert (0 <= sumR (map f l)) by (apply IH; intros x Hx; apply H; right; exact Hx).
  lra.
Qed.

(** A sum over the elements of [Q] that counts [v] at [k] only. *)
Lemma sumR_indicator (k : string) (v : R) (Q : list string) :
  NoDup Q -> In k Q ->
  sumR (map (fun q => if String.eqb k q then v else 0) Q) = v.
Proof.
  induction Q as [|q Q IH]; intros Hn Hin; [contradiction|].
  inversion Hn as [|q' Q' Hq Hn']; subst. cbn [map sumR fold_right].
  fold (sumR (map (fun q0 => if String.eqb k q0 then v else 0) Q)).
  destruct (String.eqb k q) eqn:E.
  - apply String.eqb_eq in E. subst q.
    assert (Z : sumR (map (fun q0 => if String.eqb k q0 then v else 0) Q) = 0).
    { clear IH Hn Hn' Hin. induction Q as [|a Q IHQ]; [reflexivity|].
      cbn [map sumR fold_right].
      fold (sumR (map (fun q0 => if String.eqb k q0 then v else 0) Q)).
      destruct (String.eqb k a) eqn:Ea.
      - apply String.eqb_eq in Ea. subst a. exfalso. apply Hq. left. reflexivity.
      - rewrite IHQ by (intros H; apply Hq; right; exact H). lra. }
    rewrite Z. lra.
  - destruct Hin as [Hin|Hin]; [subst q; rewrite String.eqb_refl in E; discriminate E|].
    rewrite IH by assumption. lra.
Qed.

(** A sum over records, taken qualifier by qualifier. *)
Lemma sumR_by_qualifier (x : CrifRecord -> R) (range : list CrifRecord) (Q : list string) :
  NoDup Q -> (forall r, In r range -> In (qualifier r) Q) ->
  sumR (map (fun q => sumR (map x (filter (fun it => String.eqb (qualifier it) q) range)))
            Q)
  = sumR (map x range).
Proof.
  intros Hn. induction range as [|a range IH]; intros Hin.
  - unfold sumR. cbn [filter map fold_right]. clear Hn Hin.
    induction Q as [|q Q IHQ]; cbn [map fold_right]; [reflexivity|].
    rewrite IHQ. lra.
  - rewrite (sumR_map_ext_in _
               (fun q => (if String.eqb (qualifier a) q then x a else 0)
                         + sumR (map x (filter (fun it => String.eqb (qualifier it) q)
                                               range)))).
    + rewrite sumR_map_plus, sumR_indicator, IH.
      * reflexivity.
      * intros r Hr. apply Hin. right. exact Hr.
      * exact Hn.
      * apply Hin. left. reflexivity.
    + intros q _. cbn [filter]. destruct (String.eqb (qualifier a) q).
      * reflexivity.
      * lra.
Qed.

Lemma qualifiersOf_In (range : list CrifRecord) (r : CrifRecord) :
  In r range -> In (qualifier r) (qualifiersOf range []).
Proof.
  intros Hr.
  assert (E : existsb (String.eqb (qualifier r)) (qualifiersOf range []) = true).
  { rewrite qualifiersOf_mem. apply orb_true_iff. left. apply existsb_exists.
    exists r. split; [exact Hr|apply String.eqb_refl]. }
  apply existsb_exists in E. destruct E as [q [Hq E]].
  apply String.eqb_eq in E. subst q. exact Hq.
Qed.

(** The guard [close_enough(sumAbs, 0)] passed, theta lies between minus
    one and zero. *)
Lemma theta_range (s a : R) :
  Rabs s <= a -> close_enough a 0 = false -> -1 <= Rmin (s / a) 0 <= 0.
Proof.
  intros Hs Hc.
  assert (Ha : 0 < a).
  { pose proof (Rabs_pos s). destruct (Req_dec_T a 0) as [E|N]; [|lra].
    subst a. rewrite close_enough_refl in Hc. discriminate Hc. }
  split; [|apply Rmin_r].
  apply Rmin_glb; [|lra].
  apply Rmult_le_reg_r with (r := a); [exact Ha|].
  unfold Rdiv. rewrite Rmult_assoc, Rinv_l by lra.
  pose proof (Rle_abs (- s)) as H. rewrite Rabs_Ropp in H. lra.
Qed.

Section CurvatureTheta.

Variable cfg : SimmConfiguration.
Variable calculationCcy : string.
Variable nsd : NettingSetDetails.
Variable pc : ProductClass.t.
Variable rt : RiskType.t.
Variable side : SimmSide.t.
Variable rfLabels : bool.
Variable recs : SimmNetSensitivities.

Lemma bucketCvr_bound (kv : string * sset) :
  Rabs (bucketCvr cfg calculationCcy nsd pc rt side recs kv)
  <= bucketAbsCvr cfg calculationCcy nsd pc rt side rfLabels recs kv.
Proof.
  unfold bucketCvr, bucketAbsCvr.
  set (range := bucketRange nsd pc rt (fst kv) recs).
  set (x := cvr cfg calculationCcy rt side (fst kv)).
  rewrite <- (@sumR_by_qualifier x range (qualifiersOf range []))
    by (first [apply ssSorted_NoDup, qualifiersOf_sorted; exact I
              |intros r Hr; apply qualifiersOf_In; exact Hr]).
  eapply Rle_trans; [apply Rabs_sumR|]. rewrite map_map.
  apply sumR_le. intros q _. unfold qualifierAbsCvr. fold range. fold x.
  destruct rfLabels; [|apply Req_le; reflexivity].
  set (l := filter _ range).
  eapply Rle_trans; [apply Rabs_sumR|]. rewrite map_map.
  apply Rle_abs.
Qed.

End CurvatureTheta.

Lemma lambda_ge_1 (theta : R) : -1 <= theta <= 0 -> 1 <= lambda theta.
Proof.
  intros [H1 H2]. pose proof q995_square_bounds as [Hq _]. unfold lambda.
  set (s := q995 * q995) in *. nra.
Qed.

Lemma irCurvatureSum_bound cfg nsd pc side recs (q : string) :
  Rabs (irCurvatureSum cfg nsd pc side recs q)
  <= irCurvatureAbsSum cfg nsd pc side recs q.
Proof.
  unfold irCurvatureSum, irCurvatureAbsSum.
  eapply Rle_trans; [apply Rabs_triang|].
  pose proof (Rabs_sumR (map (irCvr cfg side) (irVolOf nsd pc recs q))) as H.
  rewrite map_map in H.
  destruct (withInflationVol cfg); [lra|]. rewrite Rabs_R0. lra.
Qed.

(** In [curvatureMargin] the sum of the curvature sensitivities never
    exceeds, in magnitude, the sum of their absolute values, over the
    non-residual buckets as in the Residual bucket; so whenever a theta is
    computed (the absolute sum is not negligible) it lies between minus one
    and zero, where [lambda] is at least one. *)
Theorem curvature_theta_range (cfg : SimmConfiguration) (calculationCcy : string)
    (nsd : NettingSetDetails) (pc : ProductClass.t) (rt : RiskType.t)
    (side : SimmSide.t) (rfLabels : bool) (recs : SimmNetSensitivities) :
  let st := curvatureStateOf cfg calculationCcy nsd pc rt side rfLabels recs in
  let sumSensis := accumulate (sm_erase "Residual" (csSumWeightedSensis st)) in
  let sumAbsSensis := accumulate (sm_erase "Residual" (csSumAbsWeightedSensis st)) in
  let residualSum := sm_get "Residual" (csSumWeightedSensis st) in
  let residualAbsSum := sm_get "Residual" (csSumAbsWeightedSensis st) in
  Rabs sumSensis <= sumAbsSensis
  /\ Rabs residualSum <= residualAbsSum
  /\ (close_enough sumAbsSensis 0 = false ->
      -1 <= Rmin (sumSensis / sumAbsSensis) 0 <= 0
      /\ 1 <= lambda (Rmin (sumSensis / sumAbsSensis) 0))
  /\ (close_enough residualAbsSum 0 = false ->
      -1 <= Rmin (residualSum / residualAbsSum) 0 <= 0
      /\ 1 <= lambda (Rmin (residualSum / residualAbsSum) 0)).
Proof.
  cbv zeta. unfold curvatureStateOf.
  pose proof (bucketsOf_sorted (riskTypeRange nsd pc rt recs)) as Hs.
  destruct (curvatureSteps_fields cfg calculationCcy nsd pc rt side rfLabels recs
              (bucketsOf (riskTypeRange nsd pc rt recs)) (mkCurvatureState [] [] [] []))
    as [_ [H2 H3]].
  cbn [csSumWeightedSensis csSumAbsWeightedSensis] in H2, H3.
  rewrite writeAll_mapValues in H2, H3 by exact Hs. rewrite H2, H3.
  set (B := bucketsOf (riskTypeRange nsd pc rt recs)) in *.
  rewrite !mapValues_erase, !accumulate_mapValues.
  assert (A1 : Rabs (sumR (map (bucketCvr cfg calculationCcy nsd pc rt side recs)
                               (sm_erase "Residual" B)))
               <= sumR (map (bucketAbsCvr cfg calculationCcy nsd pc rt side rfLabels recs)
                            (sm_erase "Residual" B))).
  { eapply Rle_trans; [apply Rabs_sumR|]. rewrite map_map. apply sumR_le.
    intros kv _. apply bucketCvr_bound. }
  assert (A2 : Rabs (sm_get "Residual"
                       (mapValues (bucketCvr cfg calculationCcy nsd pc rt side recs) B))
               <= sm_get "Residual"
                    (mapValues (bucketAbsCvr cfg calculationCcy nsd pc rt side rfLabels
                                             recs) B)).
  { unfold sm_get. rewrite !mapValues_find.
    destruct (sm_find "Residual" B); [apply bucketCvr_bound|]. rewrite Rabs_R0. lra. }
  split; [exact A1|]. split; [exact A2|].
  split; intros Hc.
  - pose proof (@theta_range _ _ A1 Hc) as T. split; [exact T|apply lambda_ge_1, T].
  - pose proof (@theta_range _ _ A2 Hc) as T. split; [exact T|apply lambda_ge_1, T].
Qed.

(** The same in [irCurvatureMargin]: [|sumWs| <= sumAbsWs] after the loop
    over the currencies, and the theta computed from them lies between
    minus one and zero. *)
Theorem irCurvature_theta_range (cfg : SimmConfiguration) (nsd : NettingSetDetails)
    (pc : ProductClass.t) (side : SimmSide.t) (recs : SimmNetSensitivities) :
  let st := irCurvatureStateOf cfg nsd pc side recs in
  Rabs (icSumWs st) <= icSumAbsWs st
  /\ (close_enough (icSumAbsWs st) 0 = false ->
      -1 <= Rmin (icSumWs st / icSumAbsWs st) 0 <= 0
      /\ 1 <= lambda (Rmin (icSumWs st / icSumAbsWs st) 0)).
Proof.
  cbv zeta. unfold irCurvatureStateOf.
  destruct (irCurvatureSteps_closed cfg nsd pc side recs (irVolCurrencies nsd pc recs)
              (mkIrCurvatureState [] [] 0 0)) as [_ [H2 H3]].
  cbn [icSumWs icSumAbsWs] in H2, H3. rewrite Rplus_0_l in H2, H3. rewrite H2, H3.
  assert (A : Rabs (sumR (map (irCurvatureSum cfg nsd pc side recs)
                              (irVolCurrencies nsd pc recs)))
              <= sumR (map (irCurvatureAbsSum cfg nsd pc side recs)
                           (irVolCurrencies nsd pc recs))).
  { eapply Rle_trans; [apply Rabs_sumR|]. rewrite map_map. apply sumR_le.
    intros q _. apply irCurvatureSum_bound. }
  split; [exact A|]. intros Hc.
  pose proof (@theta_range _ _ A Hc) as T. split; [exact T|apply lambda_ge_1, T].
Qed.

(* ----------------------------------------------------------------- *)
(** ** The Equity bucket 12 in the curvature margin *)

Lemma sumR_zero (A : Type) (l : list A) : sumR (map (fun _ => 0) l) = 0.
Proof.
  unfold sumR. induction l as [|x l IH]; cbn [map fold_right]; [reflexivity|].
  rewrite IH. lra.
Qed.

Lemma sumPairs_zero (A : Type) (l : list A) : sumPairs (fun _ _ : A => 0) l = 0.
Proof.
  induction l as [|x l IH]; cbn [sumPairs]; [reflexivity|]. rewrite IH, sumR_zero. lra.
Qed.

Lemma filter_map_same (A : Type) (p : A -> bool) (g : A -> A) (l : list A) :
  (forall x, p (g x) = p x) -> filter p (map g l) = map g (filter p l).
Proof.
  intros H. induction l as [|x l IH]; [reflexivity|]. cbn [map filter].
  rewrite H. destruct (p x); cbn [map]; rewrite IH; reflexivity.
Qed.

Lemma bucketsOf_map (g : CrifRecord -> CrifRecord) (range : list CrifRecord) :
  (forall r, bucket (g r) = bucket r /\ qualifier (g r) = qualifier r) ->
  bucketsOf (map g range) = bucketsOf range.
Proof.
  intros H. unfold bucketsOf. rewrite fold_left_map. apply fold_left_ext.
  intros B r. destruct (H r) as [-> ->]. reflexivity.
Qed.

Section CurvatureStates.

Variable cfg : SimmConfiguration.
Variable calculationCcy : string.
Variable nsd : NettingSetDetails.
Variable pc : ProductClass.t.
Variable rt : RiskType.t.
Variable side : SimmSide.t.
Variable rfLabels : bool.
Variable recs : SimmNetSensitivities.

(** Outside the FX risk class the state after the loop over the buckets
    holds [K_b], the sum and the absolute sum of each bucket and no entry
    by currency. *)
Lemma curvatureState_nonFX :
  riskClassIsFX rt = false ->
  curvatureStateOf cfg calculationCcy nsd pc rt side rfLabels recs
  = mkCurvatureState
      (mapValues (bucketCurvatureK cfg calculationCcy nsd pc rt side recs)
                 (bucketsOf (riskTypeRange nsd pc rt recs)))
      (mapValues (bucketCvr cfg calculationCcy nsd pc rt side recs)
                 (bucketsOf (riskTypeRange nsd pc rt recs)))
      (mapValues (bucketAbsCvr cfg calculationCcy nsd pc rt side rfLabels recs)
                 (bucketsOf (riskTypeRange nsd pc rt recs)))
      [].
Proof.
  intros HFX. unfold curvatureStateOf.
  pose proof (bucketsOf_sorted (riskTypeRange nsd pc rt recs)) as Hs.
  destruct (curvatureSteps_fields cfg calculationCcy nsd pc rt side rfLabels recs
              (bucketsOf (riskTypeRange nsd pc rt recs)) (mkCurvatureState [] [] [] []))
    as [H1 [H2 H3]].
  pose proof (curvatureSteps_nonFX cfg calculationCcy nsd pc rt (sideMultiplier side)
                rfLabels recs (bucketsOf (riskTypeRange nsd pc rt recs))
                (mkCurvatureState [] [] [] []) HFX) as H4.
  cbn [csMargin csSumWeightedSensis csSumAbsWeightedSensis csBucketMargins]
    in H1, H2, H3, H4.
  rewrite writeAll_mapValues in H1, H2, H3 by exact Hs.
  destruct (fold_left _ _ _) as [m s a b].
  cbn [csMargin csSumWeightedSensis csSumAbsWeightedSensis csBucketMargins]
    in H1, H2, H3, H4.
  subst. reflexivity.
Qed.

(** A bucket whose curvature sensitivities are set to zero has neither
    sums nor margin. *)
Lemma zeroed_bucket (kv : string * sset) :
  isZeroedEquityBucket cfg rt (fst kv) = true ->
  bucketCurvatureK cfg calculationCcy nsd pc rt side recs kv = 0
  /\ bucketCvr cfg calculationCcy nsd pc rt side recs kv = 0
  /\ bucketAbsCvr cfg calculationCcy nsd pc rt side rfLabels recs kv = 0.
Proof.
  intros Hz.
  assert (Hc : forall it, cvr cfg calculationCcy rt side (fst kv) it = 0)
    by (intros it; unfold cvr; rewrite Hz; reflexivity).
  repeat split.
  - unfold bucketCurvatureK. cbv zeta.
    rewrite (sumR_map_ext_in _ (fun _ => 0))
      by (intros it _; rewrite Hc; lra).
    rewrite (sumPairs_ext_in _ (fun _ _ => 0))
      by (intros x y _ _; unfold curvatureRecordCross; cbv zeta; rewrite Hc; lra).
    rewrite sumR_zero, sumPairs_zero. replace (0 + 0) with 0 by lra. apply sqrt_Rmax_0.
  - unfold bucketCvr. rewrite (sumR_map_ext_in _ (fun _ => 0)) by (intros it _; apply Hc).
    apply sumR_zero.
  - unfold bucketAbsCvr. rewrite (sumR_map_ext_in _ (fun _ => 0)); [apply sumR_zero|].
    intros q _. unfold qualifierAbsCvr.
    rewrite (sumR_map_ext_in _ (fun _ => 0)).
    + rewrite sumR_zero. apply Rabs_R0.
    + intros it _. rewrite Hc. destruct rfLabels; [apply Rabs_R0|reflexivity].
Qed.

End CurvatureStates.

Section EquityBucket12.

Variable cfg : SimmConfiguration.
Variable calculationCcy : string.
Variable nsd : NettingSetDetails.
Variable pc : ProductClass.t.
Variable side : SimmSide.t.
Variable rfLabels : bool.
Variable recs : SimmNetSensitivities.
Variable f : CrifRecord -> R.
Hypothesis Hv : SimmVersion.geb (version cfg) SimmVersion.V2_2 = true.

Let rt := RiskType.EquityVol.
Let g := setAmountUsdIn "12" f.

Lemma setAmountUsdIn_keeps (r : CrifRecord) :
  inRiskType nsd pc rt (g r) = inRiskType nsd pc rt r
  /\ bucket (g r) = bucket r /\ qualifier (g r) = qualifier r.
Proof.
  unfold g, setAmountUsdIn. destruct (String.eqb (bucket r) "12"); repeat split.
Qed.

Lemma bucketsOf_setAmountUsdIn :
  bucketsOf (riskTypeRange nsd pc rt (map g recs))
  = bucketsOf (riskTypeRange nsd pc rt recs).
Proof.
  unfold riskTypeRange. rewrite filter_map_same by (intros r; apply setAmountUsdIn_keeps).
  apply bucketsOf_map. intros r. apply setAmountUsdIn_keeps.
Qed.

Lemma bucketRange_setAmountUsdIn (b : string) :
  String.eqb b "12" = false ->
  bucketRange nsd pc rt b (map g recs) = bucketRange nsd pc rt b recs.
Proof.
  intros Hb. unfold bucketRange. rewrite filter_map_same.
  - rewrite <- (map_id (filter _ recs)) at 2. apply map_ext_in. intros r Hr.
    apply filter_In in Hr. destruct Hr as [_ Hr]. apply andb_true_iff in Hr.
    destruct Hr as [_ Hr]. apply String.eqb_eq in Hr.
    unfold g, setAmountUsdIn. rewrite Hr, Hb. reflexivity.
  - intros r. destruct (setAmountUsdIn_keeps r) as [-> [-> _]]. reflexivity.
Qed.

Lemma curvatureState_setAmountUsdIn :
  curvatureStateOf cfg calculationCcy nsd pc rt side rfLabels (map g recs)
  = curvatureStateOf cfg calculationCcy nsd pc rt side rfLabels recs.
Proof.
  rewrite !curvatureState_nonFX by reflexivity. rewrite bucketsOf_setAmountUsdIn.
  assert (H : forall kv,
             bucketCurvatureK cfg calculationCcy nsd pc rt side (map g recs) kv
             = bucketCurvatureK cfg calculationCcy nsd pc rt side recs kv
             /\ bucketCvr cfg calculationCcy nsd pc rt side (map g recs) kv
                = bucketCvr cfg calculationCcy nsd pc rt side recs kv
             /\ bucketAbsCvr cfg calculationCcy nsd pc rt side rfLabels (map g recs) kv
                = bucketAbsCvr cfg calculationCcy nsd pc rt side rfLabels recs kv).
  { intros kv. destruct (String.eqb (fst kv) "12") eqn:Eb.
    - assert (Hz : isZeroedEquityBucket cfg rt (fst kv) = true)
        by (unfold isZeroedEquityBucket; rewrite Hv, Eb; reflexivity).
      destruct (zeroed_bucket cfg calculationCcy nsd pc rt side rfLabels (map g recs) kv Hz)
        as [-> [-> ->]].
      destruct (zeroed_bucket cfg calculationCcy nsd pc rt side rfLabels recs kv Hz)
        as [-> [-> ->]].
      repeat split.
    - unfold bucketCurvatureK, bucketCvr, bucketAbsCvr, qualifierAbsCvr. cbv zeta.
      rewrite (bucketRange_setAmountUsdIn (fst kv) Eb). repeat split. }
  f_equal; apply mapValues_ext_in; intros kv _; apply H.
Qed.

Lemma curvatureMargin_setAmountUsdIn :
  curvatureMargin cfg calculationCcy nsd pc rt side (map g recs) rfLabels
  = curvatureMargin cfg calculationCcy nsd pc rt side recs rfLabels.
Proof.
  unfold curvatureMargin. cbv zeta.
  fold (curvatureStateOf cfg calculationCcy nsd pc rt side rfLabels (map g recs)).
  fold (curvatureStateOf cfg calculationCcy nsd pc rt side rfLabels recs).
  rewrite curvatureState_setAmountUsdIn, bucketsOf_setAmountUsdIn. reflexivity.
Qed.

Lemma curvatureMargin_bucket12 :
  sm_get "12" (fst (curvatureMargin cfg calculationCcy nsd pc rt side recs rfLabels)) = 0.
Proof.
  unfold curvatureMargin. cbv zeta.
  fold (curvatureStateOf cfg calculationCcy nsd pc rt side rfLabels recs).
  rewrite curvatureState_nonFX by reflexivity.
  pose proof (bucketsOf_sorted (riskTypeRange nsd pc rt recs)) as Hs.
  set (B := bucketsOf (riskTypeRange nsd pc rt recs)) in *.
  set (K := bucketCurvatureK cfg calculationCcy nsd pc rt side recs).
  destruct B as [|kv0 l] eqn:EB; [reflexivity|]. rewrite <- EB in *.
  cbn [csMargin csSumWeightedSensis csSumAbsWeightedSensis csBucketMargins].
  assert (H12 : sm_get "12" (sm_erase "Residual" (mapValues K B)) = 0).
  { unfold sm_get. rewrite sm_find_erase, mapValues_find. cbn [String.eqb Ascii.eqb Bool.eqb].
    destruct (sm_find "12" B) as [qs|]; [|reflexivity].
    apply (zeroed_bucket cfg calculationCcy nsd pc rt side rfLabels recs ("12", qs)).
    unfold isZeroedEquityBucket. rewrite Hv. reflexivity. }
  assert (Hsorted : smSorted (sm_erase "Residual" (mapValues K B)))
    by (apply sm_erase_sorted, mapValues_sorted; exact Hs).
  destruct (negb (close_enough _ 0)); cbv beta iota;
    change (negb (riskClassIsFX rt)) with true; cbv iota; cbn [fst];
    rewrite sm_get_set; cbn [String.eqb Ascii.eqb Bool.eqb].
  - rewrite copyInto_sorted by (apply sm_set_sorted; exact Hsorted).
    rewrite sm_get_set. cbn [String.eqb Ascii.eqb Bool.eqb]. exact H12.
  - rewrite copyInto_sorted by exact Hsorted. exact H12.
Qed.

End EquityBucket12.

(** From SIMM 2.2 on the Equity bucket "12" carries no curvature margin:
    the USD amounts of its records can be changed at will without changing
    what [curvatureMargin] returns for EquityVol, and the entry of the
    bucket in the result is zero. *)
Theorem equity_bucket_12_ignored (cfg : SimmConfiguration) (calculationCcy : string)
    (nsd : NettingSetDetails) (pc : ProductClass.t) (side : SimmSide.t)
    (rfLabels : bool) (recs : SimmNetSensitivities) (f : CrifRecord -> R) :
  SimmVersion.geb (version cfg) SimmVersion.V2_2 = true ->
  curvatureMargin cfg calculationCcy nsd pc RiskType.EquityVol side
                  (map (setAmountUsdIn "12" f) recs) rfLabels
  = curvatureMargin cfg calculationCcy nsd pc RiskType.EquityVol side recs rfLabels
  /\ sm_get "12" (fst (curvatureMargin cfg calculationCcy nsd pc RiskType.EquityVol side
                                       recs rfLabels)) = 0.
Proof.
  intros Hv. split.
  - apply curvatureMargin_setAmountUsdIn. exact Hv.
  - apply curvatureMargin_bucket12. exact Hv.
Qed.

Lemma equity_bucket_12_ignored_witness :
  SimmVersion.geb (version Samples.unitCfg) SimmVersion.V2_2 = true
  /\ curvatureMargin Samples.unitCfg "USD" "NS1" ProductClass.RatesFX RiskType.EquityVol
                     SimmSide.Call
                     (map (setAmountUsdIn "12" (fun _ => 100)) Samples.equityVolTwoBuckets)
                     false
     = curvatureMargin Samples.unitCfg "USD" "NS1" ProductClass.RatesFX RiskType.EquityVol
                       SimmSide.Call Samples.equityVolTwoBuckets false
  /\ sm_get "12" (fst (curvatureMargin Samples.unitCfg "USD" "NS1" ProductClass.RatesFX
                                       RiskType.EquityVol SimmSide.Call
                                       Samples.equityVolTwoBuckets false)) = 0.
Proof.
  split; [reflexivity|].
  apply (@equity_bucket_12_ignored Samples.unitCfg "USD" "NS1" ProductClass.RatesFX
           SimmSide.Call false Samples.equityVolTwoBuckets (fun _ => 100)).
  reflexivity.
Defined.

(* ----------------------------------------------------------------- *)
(** ** The Post side of the curvature margins *)

Lemma qualifiersOf_map (g : CrifRecord -> CrifRecord) (range : list CrifRecord)
    (qs : sset) :
  (forall r, qualifier (g r) = qualifier r) ->
  qualifiersOf (map g range) qs = qualifiersOf range qs.
Proof.
  intros H. unfold qualifiersOf. rewrite fold_left_map. apply fold_left_ext.
  intros acc r. rewrite H. reflexivity.
Qed.

Section Mirrored.

Variable cfg : SimmConfiguration.
Variable calculationCcy : string.
Variable nsd : NettingSetDetails.
Variable pc : ProductClass.t.

Let g := scaleAmountUsd (-1).

Lemma mirrored_inRiskType (rt : RiskType.t) (r : CrifRecord) :
  inRiskType nsd pc rt (g r) = inRiskType nsd pc rt r.
Proof. reflexivity. Qed.

Lemma mirrored_riskTypeRange (rt : RiskType.t) (recs : SimmNetSensitivities) :
  riskTypeRange nsd pc rt (map g recs) = map g (riskTypeRange nsd pc rt recs).
Proof. unfold riskTypeRange. apply filter_map_same. reflexivity. Qed.

Lemma mirrored_bucketRange (rt : RiskType.t) (b : string) (recs : SimmNetSensitivities) :
  bucketRange nsd pc rt b (map g recs) = map g (bucketRange nsd pc rt b recs).
Proof. unfold bucketRange. apply filter_map_same. reflexivity. Qed.

Lemma mirrored_qualifierRange (rt : RiskType.t) (q : string)
    (recs : SimmNetSensitivities) :
  qualifierRange nsd pc rt q (map g recs) = map g (qualifierRange nsd pc rt q recs).
Proof. unfold qualifierRange. apply filter_map_same. reflexivity. Qed.

Lemma mirrored_bucketsOf (rt : RiskType.t) (recs : SimmNetSensitivities) :
  bucketsOf (riskTypeRange nsd pc rt (map g recs))
  = bucketsOf (riskTypeRange nsd pc rt recs).
Proof.
  rewrite mirrored_riskTypeRange. apply bucketsOf_map. intros r. split; reflexivity.
Qed.

Lemma mirrored_irVolCurrencies (recs : SimmNetSensitivities) :
  irVolCurrencies nsd pc (map g recs) = irVolCurrencies nsd pc recs.
Proof.
  unfold irVolCurrencies. rewrite !mirrored_riskTypeRange.
  rewrite !qualifiersOf_map by reflexivity. reflexivity.
Qed.

Lemma mirrored_curvatureSensitivity (rt : RiskType.t) (r : CrifRecord) :
  curvatureSensitivity cfg calculationCcy rt 1 (g r)
  = curvatureSensitivity cfg calculationCcy rt (-1) r.
Proof. unfold curvatureSensitivity, g, scaleAmountUsd. cbn. ring. Qed.

Lemma mirrored_irCurvatureSensitivity (rt : RiskType.t) (r : CrifRecord) :
  irCurvatureSensitivity cfg rt 1 (g r) = irCurvatureSensitivity cfg rt (-1) r.
Proof. unfold irCurvatureSensitivity, g, scaleAmountUsd. cbn. ring. Qed.

Lemma mirrored_curvatureBucketLoop (rt : RiskType.t) (rfLabels : bool) (b : string)
    (earlier rest : list CrifRecord) (st : CurvatureBucketState) :
  curvatureBucketLoop cfg calculationCcy rt 1 rfLabels b (map g earlier) (map g rest) st
  = curvatureBucketLoop cfg calculationCcy rt (-1) rfLabels b earlier rest st.
Proof.
  revert earlier st. induction rest as [|it rest IH]; intros earlier st; [reflexivity|].
  cbn [map curvatureBucketLoop]. cbv zeta.
  rewrite mirrored_curvatureSensitivity, fold_left_map.
  replace (map g earlier ++ [g it]) with (map g (earlier ++ [it]))
    by (rewrite map_app; reflexivity).
  rewrite IH. f_equal. f_equal. apply fold_left_ext. intros cm itInner.
  rewrite mirrored_curvatureSensitivity. reflexivity.
Qed.

Lemma mirrored_curvatureState (rt : RiskType.t) (rfLabels : bool)
    (recs : SimmNetSensitivities) :
  curvatureStateOf cfg calculationCcy nsd pc rt SimmSide.Call rfLabels (map g recs)
  = curvatureStateOf cfg calculationCcy nsd pc rt SimmSide.Post rfLabels recs.
Proof.
  unfold curvatureStateOf. rewrite mirrored_bucketsOf. apply fold_left_ext.
  intros st kv. unfold curvatureBucketStep. cbv zeta. cbn [sideMultiplier].
  rewrite mirrored_bucketRange.
  rewrite (mirrored_curvatureBucketLoop rt rfLabels (fst kv) []). reflexivity.
Qed.

Lemma mirrored_curvatureMargin (rt : RiskType.t) (rfLabels : bool)
    (recs : SimmNetSensitivities) :
  curvatureMargin cfg calculationCcy nsd pc rt SimmSide.Call (map g recs) rfLabels
  = curvatureMargin cfg calculationCcy nsd pc rt SimmSide.Post recs rfLabels.
Proof.
  unfold curvatureMargin. cbv zeta.
  fold (curvatureStateOf cfg calculationCcy nsd pc rt SimmSide.Call rfLabels (map g recs)).
  fold (curvatureStateOf cfg calculationCcy nsd pc rt SimmSide.Post rfLabels recs).
  rewrite mirrored_curvatureState, mirrored_bucketsOf. reflexivity.
Qed.

Lemma mirrored_irCurvatureVolLoop (q : string) (earlier rest : list CrifRecord)
    (st : IrCurvatureState) (cm : R) :
  irCurvatureVolLoop cfg q 1 (map g earlier) (map g rest) st cm
  = irCurvatureVolLoop cfg q (-1) earlier rest st cm.
Proof.
  revert earlier st cm. induction rest as [|it rest IH]; intros earlier st cm;
    [reflexivity|].
  cbn [map irCurvatureVolLoop]. cbv zeta.
  rewrite mirrored_irCurvatureSensitivity, fold_left_map.
  replace (map g earlier ++ [g it]) with (map g (earlier ++ [it]))
    by (rewrite map_app; reflexivity).
  rewrite IH. f_equal. apply fold_left_ext. intros c itInner.
  rewrite mirrored_irCurvatureSensitivity. reflexivity.
Qed.

Lemma mirrored_irCurvatureState (recs : SimmNetSensitivities) :
  irCurvatureStateOf cfg nsd pc SimmSide.Call (map g recs)
  = irCurvatureStateOf cfg nsd pc SimmSide.Post recs.
Proof.
  unfold irCurvatureStateOf. rewrite mirrored_irVolCurrencies. apply fold_left_ext.
  intros st q. unfold irCurvatureQualifierStep. cbv zeta. cbn [sideMultiplier].
  rewrite !mirrored_qualifierRange.
  rewrite (mirrored_irCurvatureVolLoop q []).
  rewrite !fold_left_map.
  assert (E1 : forall l a,
             fold_left (fun acc x =>
                          acc + irCurvatureSensitivity cfg RiskType.InflationVol 1 (g x))
                       l a
             = fold_left (fun acc infIt =>
                            acc + irCurvatureSensitivity cfg RiskType.InflationVol (-1)
                                                         infIt) l a).
  { intros l a. apply fold_left_ext. intros acc x.
    rewrite mirrored_irCurvatureSensitivity. reflexivity. }
  rewrite E1.
  destruct (irCurvatureVolLoop cfg q (-1) []
              (qualifierRange nsd pc RiskType.IRVol q recs) st 0) as [st1 cm1].
  destruct (SimmVersion.gtb (version cfg) SimmVersion.V1_0); [|reflexivity].
  rewrite fold_left_map. f_equal. f_equal. f_equal. f_equal.
  apply fold_left_ext. intros c irIt.
  rewrite mirrored_irCurvatureSensitivity. reflexivity.
Qed.

Lemma mirrored_irCurvatureMargin (recs : SimmNetSensitivities) :
  irCurvatureMargin cfg nsd pc SimmSide.Call (map g recs)
  = irCurvatureMargin cfg nsd pc SimmSide.Post recs.
Proof.
  unfold irCurvatureMargin. cbv zeta.
  fold (irVolCurrencies nsd pc (map g recs)). fold (irVolCurrencies nsd pc recs).
  fold (irCurvatureStateOf cfg nsd pc SimmSide.Call (map g recs)).
  fold (irCurvatureStateOf cfg nsd pc SimmSide.Post recs).
  rewrite mirrored_irCurvatureState, mirrored_irVolCurrencies. reflexivity.
Qed.

End Mirrored.

(** The Post side of a curvature margin is the Call side of the mirrored
    portfolio: [curvatureMargin] for [SimmSide::Post] returns what it
    returns for [SimmSide::Call] on the records with the opposite USD
    amounts. *)
Theorem curvature_post_is_call_mirrored (cfg : SimmConfiguration)
    (calculationCcy : string) (nsd : NettingSetDetails) (pc : ProductClass.t)
    (rt : RiskType.t) (rfLabels : bool) (recs : SimmNetSensitivities) :
  curvatureMargin cfg calculationCcy nsd pc rt SimmSide.Post recs rfLabels
  = curvatureMargin cfg calculationCcy nsd pc rt SimmSide.Call
                    (map (scaleAmountUsd (-1)) recs) rfLabels.
Proof. symmetry. apply mirrored_curvatureMargin. Qed.

(** The same for the interest rate curvature margin: [irCurvatureMargin]
    for [SimmSide::Post] returns, or fails as, it does for [SimmSide::Call]
    on the records with the opposite USD amounts. *)
Theorem irCurvature_post_is_call_mirrored (cfg : SimmConfiguration)
    (nsd : NettingSetDetails) (pc : ProductClass.t) (recs : SimmNetSensitivities) :
  irCurvatureMargin cfg nsd pc SimmSide.Post recs
  = irCurvatureMargin cfg nsd pc SimmSide.Call (map (scaleAmountUsd (-1)) recs).
Proof. symmetry. apply mirrored_irCurvatureMargin. Qed.

(* ----------------------------------------------------------------- *)
(** ** The delta and vega margin of the mirrored portfolio *)

Lemma sumPairs_map (A B : Type) (f : B -> B -> R) (h : A -> B) (l : list A) :
  sumPairs f (map h l) = sumPairs (fun x y => f (h x) (h y)) l.
Proof.
  induction l as [|a l IH]; [reflexivity|]. cbn [map sumPairs].
  rewrite IH, map_map. reflexivity.
Qed.

Lemma clampS_opp (s k : R) : 0 <= k -> clampS (- s) k = - clampS s k.
Proof.
  intros Hk. unfold clampS.
  destruct (Rle_dec s k), (Rle_dec (-s) k), (Rle_dec s (-k)), (Rle_dec (-s) (-k));
    repeat first [rewrite Rmin_left by lra | rewrite Rmin_right by lra
                 | rewrite Rmax_left by lra | rewrite Rmax_right by lra]; lra.
Qed.

Section MirroredMargin.

Variable cfg : SimmConfiguration.
Variable calculationCcy : string.
Variable nsd : NettingSetDetails.
Variable pc : ProductClass.t.
Variable rt : RiskType.t.
Variable recs : SimmNetSensitivities.

Let g := scaleAmountUsd (-1).
Let recs' := map g recs.

Lemma mirrored_marginRecords (b : string) :
  marginRecords calculationCcy nsd pc rt recs' b
  = map g (marginRecords calculationCcy nsd pc rt recs b).
Proof.
  unfold marginRecords, recs', bucketRange.
  rewrite !filter_map_same by reflexivity. reflexivity.
Qed.

Lemma mirrored_marginCR (b q : string) :
  marginCR cfg calculationCcy nsd pc rt recs' b q
  = marginCR cfg calculationCcy nsd pc rt recs b q.
Proof.
  unfold marginCR, recs', bucketQualifierRange.
  rewrite filter_map_same by reflexivity. rewrite map_map.
  cbn [g scaleAmountUsd amountUsd qualifier label1].
  set (l := filter _ recs).
  set (h := historicalVolatilityRatio cfg rt).
  assert (E : sumR (map (fun x => -1 * amountUsd x
                                  * sigma cfg rt (qualifier x) (label1 x) calculationCcy
                                  * h) l)
              = - sumR (map (fun x => amountUsd x
                                      * sigma cfg rt (qualifier x) (label1 x)
                                              calculationCcy * h) l)).
  { induction l as [|x l IH]; cbn [map sumR fold_right]; [lra|].
    fold (sumR (map (fun x => -1 * amountUsd x
                              * sigma cfg rt (qualifier x) (label1 x) calculationCcy * h) l)).
    rewrite IH. unfold sumR. lra. }
  rewrite E.
  replace (- sumR (map (fun x => amountUsd x
                                 * sigma cfg rt (qualifier x) (label1 x) calculationCcy
                                 * h) l) / concentrationThreshold cfg rt q)
    with (- (sumR (map (fun x => amountUsd x
                                 * sigma cfg rt (qualifier x) (label1 x) calculationCcy
                                 * h) l) / concentrationThreshold cfg rt q))
    by (unfold Rdiv; ring).
  rewrite Rabs_Ropp. reflexivity.
Qed.

Lemma mirrored_marginWs (b : string) (r : CrifRecord) :
  marginWs cfg calculationCcy nsd pc rt recs' b (g r)
  = - marginWs cfg calculationCcy nsd pc rt recs b r.
Proof.
  unfold marginWs. rewrite mirrored_marginCR.
  cbn [g scaleAmountUsd amountUsd qualifier label1]. ring.
Qed.

Lemma mirrored_marginK (b : string) :
  marginK cfg calculationCcy nsd pc rt recs' b
  = marginK cfg calculationCcy nsd pc rt recs b.
Proof.
  unfold marginK. rewrite mirrored_marginRecords, map_map, sumPairs_map.
  f_equal. f_equal. f_equal.
  - apply sumR_map_ext_in. intros r _. rewrite mirrored_marginWs. ring.
  - apply sumPairs_ext_in. intros x y _ _. unfold marginRecordCross.
    rewrite !mirrored_marginWs, !mirrored_marginCR.
    cbn [g scaleAmountUsd qualifier label1 label2]. ring.
Qed.

Lemma marginK_nonneg (b : string) : 0 <= marginK cfg calculationCcy nsd pc rt recs b.
Proof. unfold marginK. apply sqrt_pos. Qed.

Lemma mirrored_marginS (b : string) :
  marginS cfg calculationCcy nsd pc rt recs' b
  = - marginS cfg calculationCcy nsd pc rt recs b.
Proof.
  unfold marginS. rewrite mirrored_marginK, mirrored_marginRecords, map_map.
  rewrite <- clampS_opp by apply marginK_nonneg. f_equal.
  rewrite (sumR_map_ext_in _ (fun r => -1 * marginWs cfg calculationCcy nsd pc rt recs b r))
    by (intros r _; rewrite mirrored_marginWs; ring).
  rewrite sumR_map_scale. ring.
Qed.

Lemma mirrored_marginTotalFormula :
  marginTotalFormula cfg calculationCcy nsd pc rt recs'
  = marginTotalFormula cfg calculationCcy nsd pc rt recs.
Proof.
  pose proof (@mirrored_bucketsOf nsd pc rt recs) as HB.
  change (map (scaleAmountUsd (-1)) recs) with recs' in HB.
  unfold marginTotalFormula, marginResidual. cbv zeta. rewrite HB.
  rewrite mirrored_marginK. f_equal. f_equal. f_equal. f_equal.
  - apply sumR_map_ext_in. intros kv _. rewrite mirrored_marginK. reflexivity.
  - apply sumPairs_ext_in. intros x y _ _. unfold marginBucketCross.
    rewrite !mirrored_marginS. ring.
Qed.

End MirroredMargin.

(** The delta and vega margin does not depend on the direction of the
    portfolio: the total "All" that [margin] returns for the records with
    the opposite USD amounts is the total it returns for the records
    themselves, which is why [margin] takes no side. *)
Theorem margin_total_mirror_symmetric (cfg : SimmConfiguration) (calculationCcy : string)
    (nsd : NettingSetDetails) (pc : ProductClass.t) (rt : RiskType.t)
    (recs : SimmNetSensitivities) :
  totalMargin cfg calculationCcy nsd pc rt (map (scaleAmountUsd (-1)) recs)
  = totalMargin cfg calculationCcy nsd pc rt recs.
Proof. rewrite !totalMargin_closed. apply mirrored_marginTotalFormula. Qed.

(* ----------------------------------------------------------------- *)
(** ** The two sides when the regulations are not enforced *)

(** [addCrifRecord] changes the map of its side, by the tags it keeps. *)
Lemma addCrifRecord_fold parse enf st cr side :
  addCrifRecord parse enf st cr side
  = setRegSensitivities st side
      (fold_left
         (fun rs r =>
            if dropsRegulation enf
                 (regsIsEmptyOf (nettingSetDetails cr) (collectRegsIsEmpty_ st))
                 (regsIsEmptyOf (nettingSetDetails cr) (postRegsIsEmpty_ st)) r
            then rs
            else if negb (String.eqb r "Excluded")
                 then addToRegulation (nettingSetDetails cr) r (clearRegulations cr) rs
                 else rs)
         (parse (regsStringOf enf side cr)) (regSensitivities_ st side)).
Proof.
  unfold addCrifRecord. cbv zeta.
  generalize (regsIsEmptyOf (nettingSetDetails cr) (collectRegsIsEmpty_ st)).
  generalize (regsIsEmptyOf (nettingSetDetails cr) (postRegsIsEmpty_ st)).
  intros pE cE.
  generalize (parse (regsStringOf enf side cr)). intros regs.
  rewrite <- (setRegSensitivities_same st side) at 1.
  generalize (regSensitivities_ st side). intros rs. revert rs.
  induction regs as [|r regs IH]; intros rs; [reflexivity|].
  cbn [fold_left].
  destruct (dropsRegulation enf cE pE r); [apply IH|].
  destruct (negb (String.eqb r "Excluded")); [|apply IH].
  rewrite regSensitivities_set, setRegSensitivities_twice. apply IH.
Qed.

Lemma addCrifRecord_sides_agree parse (recs : list CrifRecord) (st : SplitState) :
  regSensitivitiesCall st = regSensitivitiesPost st ->
  let st' :=
    fold_left (fun st crifRecord =>
                 addCrifRecord parse false
                   (addCrifRecord parse false st crifRecord SimmSide.Call)
                   crifRecord SimmSide.Post)
              recs st in
  regSensitivitiesCall st' = regSensitivitiesPost st'.
Proof.
  revert st. induction recs as [|cr recs IH]; intros st H; [exact H|].
  cbn [fold_left]. apply IH.
  destruct (addCrifRecord_flags parse false st cr SimmSide.Call) as [Hc Hp].
  rewrite (addCrifRecord_fold parse false (addCrifRecord parse false st cr SimmSide.Call)
             cr SimmSide.Post).
  rewrite Hc, Hp.
  rewrite (addCrifRecord_fold parse false st cr SimmSide.Call).
  destruct st as [c p call post]. cbn in H. subst post. reflexivity.
Qed.

(** With [enforceIMRegulations] off the collect and post regulations of the
    records are not read, and the two sides are split alike: after the
    splitting the Call side and the Post side hold the same records under
    the same netting sets and regulations. *)
Theorem sides_agree_without_enforcement (parseRegulationString : string -> sset)
    (recs : SimmNetSensitivities) :
  regSensitivities_ (splitRegulations parseRegulationString false recs) SimmSide.Call
  = regSensitivities_ (splitRegulations parseRegulationString false recs) SimmSide.Post.
Proof.
  unfold splitRegulations.
  destruct (fold_left scheduleFilterStep recs ([], [], [])) as [[c p] tmp].
  destruct tmp as [|cr0 tmp]; [reflexivity|].
  cbn [regSensitivities_ regSensitivitiesCall regSensitivitiesPost].
  f_equal.
  apply (addCrifRecord_sides_agree parseRegulationString (cr0 :: tmp)
           (mkSplitState c p [] [])).
  reflexivity.
Qed.

(* ----------------------------------------------------------------- *)
(** ** Schedule records *)

Lemma nonSchedule_idempotent (recs : SimmNetSensitivities) :
  nonSchedule (nonSchedule recs) = nonSchedule recs.
Proof.
  unfold nonSchedule. induction recs as [|cr recs IH]; [reflexivity|].
  cbn [filter]. destruct (negb (String.eqb (imModel cr) "Schedule")) eqn:E;
    [cbn [filter]; rewrite E, IH; reflexivity|exact IH].
Qed.

(** The records with [imModel == "Schedule"] are passed over by the first
    loop of the constructor and change nothing: neither the maps
    [collectRegsIsEmpty_] and [postRegsIsEmpty_] nor the records held by
    side, netting set and regulation. *)
Theorem schedule_records_ignored (parseRegulationString : string -> sset)
    (enforceIMRegulations : bool) (recs : SimmNetSensitivities) :
  splitRegulations parseRegulationString enforceIMRegulations recs
  = splitRegulations parseRegulationString enforceIMRegulations (nonSchedule recs).
Proof.
  unfold splitRegulations. rewrite !scheduleFilter_fold, nonSchedule_idempotent.
  reflexivity.
Qed.

(* ----------------------------------------------------------------- *)
(** ** The records held after the splitting *)

Lemma loader_add_In (b : bool) (new cr : CrifRecord) (loader : CrifLoader) :
  In cr (loader_add b new loader) ->
  cr = new \/ exists r, In r loader /\ (cr = r \/ cr = netAmounts new r).
Proof.
  unfold loader_add. destruct (existsb _ loader); intros H.
  - apply in_map_iff in H. destruct H as [r [E Hr]]. right. exists r.
    split; [exact Hr|]. destruct (crifRecordEqb (negb b) new r); [right|left];
      symmetry; exact E.
  - apply in_app_or in H. destruct H as [H|[H|[]]].
    + right. exists cr. split; [exact H|left; reflexivity].
    + left. symmetry. exact H.
Qed.

Section HeldRecords.

(** What holds of a record filed under the netting set [nsd]. *)
Let held (nsd : NettingSetDetails) (cr : CrifRecord) : Prop :=
  nettingSetDetails cr = nsd
  /\ collectRegulations cr = "" /\ postRegulations cr = ""
  /\ imModel cr <> "Schedule".

Let heldIn (nsd : NettingSetDetails) (regs : smap CrifLoader) : Prop :=
  forall r loader cr, sm_find r regs = Some loader -> In cr loader -> held nsd cr.

Let allHeld (rs : RegSensitivities) : Prop :=
  forall nsd regs, sm_find nsd rs = Some regs -> heldIn nsd regs.

Lemma held_netAmounts (nsd : NettingSetDetails) (new r : CrifRecord) :
  held nsd r -> held nsd (netAmounts new r).
Proof. intros H. exact H. Qed.

Lemma held_loader_add (nsd : NettingSetDetails) (b : bool) (new : CrifRecord)
    (loader : CrifLoader) :
  held nsd new -> (forall cr, In cr loader -> held nsd cr) ->
  forall cr, In cr (loader_add b new loader) -> held nsd cr.
Proof.
  intros Hn Hl cr H. apply loader_add_In in H.
  destruct H as [-> | [r [Hr [-> | ->] ] ] ]; [exact Hn|apply Hl, Hr|].
  apply held_netAmounts, Hl, Hr.
Qed.

Lemma allHeld_addToRegulation (r : string) (cr : CrifRecord) (rs : RegSensitivities) :
  imModel cr <> "Schedule" -> allHeld rs ->
  allHeld (addToRegulation (nettingSetDetails cr) r (clearRegulations cr) rs).
Proof.
  intros Hs Hrs nsd regs F. unfold addToRegulation in F. cbv zeta in F.
  rewrite sm_find_set in F. destruct (String.eqb nsd (nettingSetDetails cr)) eqn:E.
  - apply String.eqb_eq in E. subst nsd. injection F as <-.
    intros r' loader cr' F' Hin. rewrite sm_find_set in F'.
    assert (Hby : heldIn (nettingSetDetails cr)
                    match sm_find (nettingSetDetails cr) rs with
                    | Some m => m
                    | None => []
                    end).
    { destruct (sm_find (nettingSetDetails cr) rs) eqn:Fm; [apply Hrs, Fm|].
      intros ? ? ? C. discriminate C. }
    destruct (String.eqb r' r) eqn:Er.
    + injection F' as <-. revert cr' Hin. apply held_loader_add.
      * repeat split. exact Hs.
      * intros cr' Hin.
        destruct (sm_find r _) as [l|] eqn:Fl; [exact (Hby r l cr' Fl Hin)|destruct Hin].
    + exact (Hby r' loader cr' F' Hin).
  - apply Hrs, F.
Qed.

Lemma allHeld_addCrifRecord parse enf (st : SplitState) (cr : CrifRecord)
    (side : SimmSide.t) :
  imModel cr <> "Schedule" ->
  allHeld (regSensitivitiesCall st) /\ allHeld (regSensitivitiesPost st) ->
  allHeld (regSensitivitiesCall (addCrifRecord parse enf st cr side))
  /\ allHeld (regSensitivitiesPost (addCrifRecord parse enf st cr side)).
Proof.
  intros Hs H. rewrite addCrifRecord_fold.
  set (f := fun (rs : RegSensitivities) (r : string) => _).
  assert (Hf : forall regs rs, allHeld rs -> allHeld (fold_left f regs rs)).
  { induction regs as [|r regs IH]; intros rs Hrs; [exact Hrs|].
    cbn [fold_left]. apply IH. unfold f.
    destruct (dropsRegulation _ _ _ r); [exact Hrs|].
    destruct (negb (String.eqb r "Excluded")); [|exact Hrs].
    apply allHeld_addToRegulation; assumption. }
  destruct H as [Hc Hp]. destruct st as [c p call post], side;
    cbn [setRegSensitivities regSensitivities_ regSensitivitiesCall regSensitivitiesPost]
      in *; split; try assumption; apply Hf; assumption.
Qed.

Lemma heldIn_mergeCFTCIntoSEC (nsd : NettingSetDetails) (regs : smap CrifLoader) :
  heldIn nsd regs -> heldIn nsd (mergeCFTCIntoSEC regs).
Proof.
  intros H. unfold mergeCFTCIntoSEC.
  destruct (sm_find "CFTC" regs) as [cftc|] eqn:FC; [|exact H].
  destruct (sm_find "SEC" regs) as [sec|] eqn:FS; [|exact H].
  assert (Hc : forall cr, In cr cftc -> held nsd cr) by (intros cr; apply (H "CFTC"), FC).
  clear FC. generalize sec at 1. intros sec0. clear FS.
  revert regs H. induction cftc as [|cr cftc IH]; intros regs H; [exact H|].
  cbn [fold_left]. apply IH; [intros x Hx; apply Hc; right; exact Hx|].
  unfold mergeStep. destruct (negb (netRecords_has sec0 cr)); [|exact H].
  destruct (sm_find "SEC" regs) as [sec1|] eqn:F1; [|exact H].
  intros r loader cr' F Hin. rewrite sm_find_set in F.
  destruct (String.eqb r "SEC"); [|exact (H r loader cr' F Hin)].
  injection F as <-. revert cr' Hin. apply held_loader_add.
  - apply Hc. left. reflexivity.
  - intros cr' Hin. exact (H "SEC" sec1 cr' F1 Hin).
Qed.

Lemma heldIn_postProcess (nsd : NettingSetDetails) (regs : smap CrifLoader) :
  heldIn nsd regs -> heldIn nsd (postProcessRegulations regs).
Proof.
  intros H. unfold postProcessRegulations, dropUnspecified.
  apply heldIn_mergeCFTCIntoSEC in H.
  destruct (sm_mem "Unspecified" _ && _); [|exact H].
  intros r loader cr F Hin. rewrite sm_find_erase in F.
  destruct (String.eqb "Unspecified" r); [discriminate F|].
  exact (H r loader cr F Hin).
Qed.

Lemma allHeld_postProcessSide (rs : RegSensitivities) :
  allHeld rs -> allHeld (postProcessSide rs).
Proof.
  intros H nsd regs F. unfold postProcessSide in F.
  change (map (fun s => (fst s, postProcessRegulations (snd s))) rs)
    with (mapValues (fun s : string * smap CrifLoader =>
                       postProcessRegulations (snd s)) rs) in F.
  rewrite mapValues_find in F. destruct (sm_find nsd rs) as [regs0|] eqn:F0;
    [|discriminate F].
  injection F as <-. apply heldIn_postProcess. apply H, F0.
Qed.

Lemma allHeld_splitRegulations parse enf (recs : SimmNetSensitivities)
    (side : SimmSide.t) :
  allHeld (regSensitivities_ (splitRegulations parse enf recs) side).
Proof.
  assert (He : allHeld []) by (intros nsd regs F; discriminate F).
  unfold splitRegulations. rewrite scheduleFilter_fold. cbn [app].
  assert (Hn : Forall (fun cr => imModel cr <> "Schedule") (nonSchedule recs)).
  { apply Forall_forall. intros cr Hcr. unfold nonSchedule in Hcr.
    apply filter_In in Hcr. destruct Hcr as [_ Hcr]. apply negb_true_iff in Hcr.
    apply String.eqb_neq. exact Hcr. }
  destruct (nonSchedule recs) as [|cr0 tmp] eqn:En; [destruct side; exact He|].
  rewrite <- En in *. clear En cr0 tmp.
  set (st0 := mkSplitState _ _ [] []).
  assert (H : allHeld (regSensitivitiesCall st0) /\ allHeld (regSensitivitiesPost st0))
    by (split; exact He).
  revert H. generalize st0. clear st0.
  induction (nonSchedule recs) as [|cr tmp IH]; intros st H.
  - cbn [fold_left]. destruct H as [Hc Hp].
    destruct side; cbn [regSensitivities_ regSensitivitiesCall regSensitivitiesPost];
      apply allHeld_postProcessSide; assumption.
  - cbn [fold_left]. inversion Hn; subst. apply IH; [assumption|].
    repeat apply allHeld_addCrifRecord; assumption.
Qed.

End HeldRecords.

(** Every record held after the splitting, on either side, is filed under
    its own netting set, has its collect and post regulations cleared and
    is no Schedule record; this holds also for the CFTC records merged
    into SEC and for the records netted in a loader. *)
Theorem split_records_invariant (parseRegulationString : string -> sset)
    (enforceIMRegulations : bool) (recs : SimmNetSensitivities) (side : SimmSide.t)
    (nsd : NettingSetDetails) (regs : smap CrifLoader) (r : string)
    (loader : CrifLoader) (cr : CrifRecord) :
  sm_find nsd (regSensitivities_
                 (splitRegulations parseRegulationString enforceIMRegulations recs) side)
  = Some regs ->
  sm_find r regs = Some loader ->
  In cr loader ->
  nettingSetDetails cr = nsd
  /\ collectRegulations cr = "" /\ postRegulations cr = ""
  /\ imModel cr <> "Schedule".
Proof.
  intros H1 H2 H3.
  eapply allHeld_splitRegulations; eassumption.
Qed.

Lemma split_records_invariant_witness :
  sm_find "NS1" (regSensitivities_
                   (splitRegulations Samples.parseOne true [Samples.regulated])
                   SimmSide.Call)
  = Some [("CFTC", [clearRegulations Samples.regulated])]
  /\ nettingSetDetails (clearRegulations Samples.regulated) = "NS1"
  /\ collectRegulations (clearRegulations Samples.regulated) = ""
  /\ postRegulations (clearRegulations Samples.regulated) = ""
  /\ imModel (clearRegulations Samples.regulated) <> "Schedule".
Proof.
  split; [reflexivity|].
  apply (@split_records_invariant Samples.parseOne true [Samples.regulated] SimmSide.Call
           "NS1" [("CFTC", [clearRegulations Samples.regulated])] "CFTC"
           [clearRegulations Samples.regulated] (clearRegulations Samples.regulated)).
  - reflexivity.
  - reflexivity.
  - left. reflexivity.
Defined.

(* ----------------------------------------------------------------- *)
(** ** The winning regulation is one of the highest margin *)

(** When the overall margin of every regulation is zero or at least
    [std::numeric_limits<Real>::min()], and [getWinningRegulation] picks
    one of the regulations it is given, the selection succeeds: it returns
    a regulation of the netting set whose overall margin is close to the
    highest margin, and no regulation has a margin above the highest. *)
Theorem winning_regulation_highest (getWinningRegulation : list string -> string)
    (rs : smap SimmResults) :
  smSorted rs -> rs <> [] ->
  (forall ws, (1 < List.length ws)%nat -> In (getWinningRegulation ws) ws) ->
  Forall (fun kv => results_get (snd kv) keyAll = 0
                    \/ Real_min <= results_get (snd kv) keyAll) rs ->
  exists r res,
    winningRegulation getWinningRegulation rs = OK r
    /\ In (r, res) rs
    /\ close_enough (results_get res keyAll) (winningMarginOf rs) = true
    /\ Forall (fun kv => results_get (snd kv) keyAll <= winningMarginOf rs) rs.
Proof.
  intros Hs Hne Hg Hreg.
  destruct (winningRegulations_regular Hs Hne Hreg) as [Hb [Hw Hn]].
  destruct (winningRegulation_regular getWinningRegulation Hs Hne Hreg) as [Hr _].
  cbv beta in *.
  set (r := match winningRegulationsOf rs with
            | [r] => r
            | winners => getWinningRegulation winners
            end) in *.
  assert (Hin : In r (winningRegulationsOf rs)).
  { unfold r. destruct (winningRegulationsOf rs) as [|r1 [|r2 l]];
      [congruence|left; reflexivity|].
    apply Hg. cbn [List.length]. lia. }
  rewrite Hw in Hin. apply in_map_iff in Hin. destruct Hin as [[r' res] [E Hin]].
  cbn [fst] in E. subst r'. apply filter_In in Hin. destruct Hin as [Hin Hc].
  exists r, res. repeat split; assumption.
Qed.

Lemma winning_regulation_highest_witness :
  exists r res,
    winningRegulation (hd "")
      [("CFTC", Samples.emptyPortfolioResults); ("SEC", Samples.emptyPortfolioResults)]
    = OK r
    /\ In (r, res)
          [("CFTC", Samples.emptyPortfolioResults); ("SEC", Samples.emptyPortfolioResults)]
    /\ close_enough (results_get res keyAll)
         (winningMarginOf
            [("CFTC", Samples.emptyPortfolioResults);
             ("SEC", Samples.emptyPortfolioResults)]) = true
    /\ Forall (fun kv => results_get (snd kv) keyAll
                         <= winningMarginOf
                              [("CFTC", Samples.emptyPortfolioResults);
                               ("SEC", Samples.emptyPortfolioResults)])
         [("CFTC", Samples.emptyPortfolioResults); ("SEC", Samples.emptyPortfolioResults)].
Proof.
  apply (@winning_regulation_highest (hd "")
           [("CFTC", Samples.emptyPortfolioResults);
            ("SEC", Samples.emptyPortfolioResults)]).
  - repeat split; repeat constructor.
  - discriminate.
  - intros ws H. destruct ws; [simpl in H; lia|left; reflexivity].
  - repeat constructor.
Defined.

(* ----------------------------------------------------------------- *)
(** ** The additional margin and the overall margin *)

Lemma fold_Result_invariant (A B : Type) (P : A -> Prop)
    (step : Result A -> B -> Result A) (l : list B) :
  (forall e x, step (Error e) x = Error e) ->
  (forall a x a', step (OK a) x = OK a' -> P a -> P a') ->
  forall a a', P a -> fold_left step l (OK a) = OK a' -> P a'.
Proof.
  intros He Hs. induction l as [|x l IH]; intros a a' Ha H; cbn [fold_left] in H.
  - injection H as <-. exact Ha.
  - destruct (step (OK a) x) as [a1|e] eqn:E.
    + apply (IH a1 a'); [apply (Hs a x a1 E Ha)|exact H].
    + rewrite (@fold_Error _ _ step l e (He e)) in H. discriminate H.
Qed.

Lemma simmPart_addAdditionalMargin (results : SimmResults) (pc : ProductClass.t) (m : R) :
  simmPart (addAdditionalMargin results pc m) = simmPart results.
Proof.
  unfold simmPart, addAdditionalMargin. cbv zeta. rewrite !results_get_add.
  unfold keyAll.
  destruct pc; cbn [resultKey_eqb ProductClass.eqb RiskClass.eqb MarginType.eqb
                    String.eqb Ascii.eqb Bool.eqb andb];
    repeat match goal with
           | |- context [ProductClass.eqb ?a ?b] =>
               let c := eval vm_compute in (ProductClass.eqb a b) in
               change (ProductClass.eqb a b) with c
           | |- context [RiskClass.eqb ?a ?b] =>
               let c := eval vm_compute in (RiskClass.eqb a b) in
               change (RiskClass.eqb a b) with c
           | |- context [MarginType.eqb ?a ?b] =>
               let c := eval vm_compute in (MarginType.eqb a b) in
               change (MarginType.eqb a b) with c
           end;
    cbn [andb String.eqb Ascii.eqb Bool.eqb]; lra.
Qed.

(** The additional margin leaves the rest of the margin alone: when
    [calcAddMargin] returns, the overall margin and the overall additional
    margin (All, All, AdditionalIM, "All") have grown by the same amount,
    whichever multipliers, fixed amounts and notional factors were added. *)
Theorem additional_margin_keeps_simm
    (parseSimmProductClass : string -> Result ProductClass.t)
    (nsd : NettingSetDetails) (netRecords : SimmNetSensitivities)
    (results results' : SimmResults) :
  calcAddMargin parseSimmProductClass nsd netRecords results = OK results' ->
  simmPart results' = simmPart results.
Proof.
  unfold calcAddMargin, addOnNotionalFactorLoop. cbv zeta. intros H.
  destruct (fold_left (productClassMultiplierStep parseSimmProductClass) _ (OK results))
    as [r1|e] eqn:E1; [|discriminate H].
  cbn [bind] in H.
  assert (H1 : simmPart r1 = simmPart results).
  { revert E1.
    apply (@fold_Result_invariant _ _ (fun r => simmPart r = simmPart results));
      [reflexivity| |reflexivity].
    intros a x a' Hx Ha. unfold productClassMultiplierStep in Hx. cbn [bind] in Hx.
    destruct (parseSimmProductClass (qualifier x)) as [qpc|]; [|discriminate Hx].
    cbn [bind] in Hx. cbv zeta in Hx.
    destruct (results_has a _); [|injection Hx as <-; exact Ha].
    destruct (Rle_dec 0 (amount x)); [|discriminate Hx].
    injection Hx as <-. rewrite simmPart_addAdditionalMargin. exact Ha. }
  set (r2 := fold_left addOnFixedAmountStep _ r1) in H.
  assert (H2 : simmPart r2 = simmPart results).
  { unfold r2. clear H r2. rewrite <- H1. clear.
    generalize (riskTypeRange nsd ProductClass.Empty RiskType.AddOnFixedAmount netRecords).
    intros l. revert r1. induction l as [|x l IH]; intros r1; [reflexivity|].
    cbn [fold_left]. rewrite IH. apply simmPart_addAdditionalMargin. }
  revert H.
  apply (@fold_Result_invariant _ _ (fun r => simmPart r = simmPart results));
    [reflexivity| |exact H2].
  intros a x a' Hx Ha. unfold addOnNotionalFactorStep in Hx. cbn [bind] in Hx.
  cbv zeta in Hx.
  destruct (negb _); [discriminate Hx|].
  destruct (notionalRange nsd netRecords x) as [|n [|n' l]];
    injection Hx as <-; rewrite ?simmPart_addAdditionalMargin; exact Ha.
Qed.

Lemma additional_margin_keeps_simm_witness :
  exists results',
    calcAddMargin (fun _ => OK ProductClass.RatesFX) "NS1" [Samples.fixedAddOn]
                  Samples.emptyPortfolioResults = OK results'
    /\ simmPart results' = simmPart Samples.emptyPortfolioResults.
Proof.
  eexists. split; [reflexivity|].
  apply (@additional_margin_keeps_simm (fun _ => OK ProductClass.RatesFX) "NS1"
           [Samples.fixedAddOn] Samples.emptyPortfolioResults).
  reflexivity.
Defined.

(* ----------------------------------------------------------------- *)
(** ** The interest rate vega margin of the mirrored portfolio *)

Lemma sumCross_map (A B : Type) (f : B -> B -> R) (h : A -> B) (earlier rest : list A) :
  sumCross f (map h earlier) (map h rest)
  = sumCross (fun x y => f (h x) (h y)) earlier rest.
Proof. unfold sumCross. rewrite map_map. f_equal. apply map_ext. intros x.
  rewrite map_map. reflexivity. Qed.

Lemma sumCross_ext (A : Type) (f h : A -> A -> R) (earlier rest : list A) :
  (forall x y, f x y = h x y) -> sumCross f earlier rest = sumCross h earlier rest.
Proof.
  intros E. unfold sumCross. f_equal. apply map_ext. intros x. f_equal.
  apply map_ext. intros y. apply E.
Qed.

Lemma sumR_mirrored (l : list CrifRecord) :
  sumR (map amountUsd (map (scaleAmountUsd (-1)) l)) = - sumR (map amountUsd l).
Proof.
  induction l as [|x l IH]; cbn [map sumR fold_right]; [lra|].
  fold (sumR (map amountUsd (map (scaleAmountUsd (-1)) l))).
  fold (sumR (map amountUsd l)). rewrite IH. cbn [scaleAmountUsd amountUsd]. lra.
Qed.

Lemma sumR_map_opp (A : Type) (f h : A -> R) (l : list A) :
  (forall x, f x = - h x) -> sumR (map f l) = - sumR (map h l).
Proof.
  intros E. rewrite (sumR_map_ext_in f (fun x => -1 * h x))
    by (intros x _; rewrite E; ring).
  rewrite sumR_map_scale. ring.
Qed.

Section MirroredIrVega.

Variable cfg : SimmConfiguration.
Variable calculationCcy : string.
Variable nsd : NettingSetDetails.
Variable pc : ProductClass.t.
Variable recs : SimmNetSensitivities.

Let g := scaleAmountUsd (-1).
Let recs' := map g recs.

Lemma mirrored_irVolOf (q : string) : irVolOf nsd pc recs' q = map g (irVolOf nsd pc recs q).
Proof. apply mirrored_qualifierRange. Qed.

Lemma mirrored_inflationVolOf (q : string) :
  inflationVolOf nsd pc recs' q = map g (inflationVolOf nsd pc recs q).
Proof. apply mirrored_qualifierRange. Qed.

Lemma mirrored_irVegaCR (q : string) :
  irVegaCR cfg nsd pc recs' q = irVegaCR cfg nsd pc recs q.
Proof.
  unfold irVegaCR. rewrite mirrored_irVolOf, mirrored_inflationVolOf.
  unfold g. rewrite !sumR_mirrored.
  set (a := sumR (map amountUsd (irVolOf nsd pc recs q))).
  set (b := sumR (map amountUsd (inflationVolOf nsd pc recs q))).
  replace ((- a + - b) / concentrationThreshold cfg RiskType.IRVol q)
    with (- ((a + b) / concentrationThreshold cfg RiskType.IRVol q))
    by (unfold Rdiv; ring).
  rewrite Rabs_Ropp. reflexivity.
Qed.

Lemma mirrored_irVegaWs (rt : RiskType.t) (q : string) (r : CrifRecord) :
  irVegaWs cfg nsd pc recs' rt q (g r) = - irVegaWs cfg nsd pc recs rt q r.
Proof.
  unfold irVegaWs. rewrite mirrored_irVegaCR.
  cbn [g scaleAmountUsd amountUsd label1]. ring.
Qed.

Lemma mirrored_irVegaCross (rto rti : RiskType.t) (q : string) (x y : CrifRecord) :
  irVegaCross cfg nsd pc recs' rto rti q (g x) (g y)
  = irVegaCross cfg nsd pc recs rto rti q x y.
Proof.
  unfold irVegaCross. rewrite !mirrored_irVegaWs.
  cbn [g scaleAmountUsd label1]. ring.
Qed.

Lemma mirrored_irVegaK (q : string) :
  irVegaK cfg nsd pc recs' q = irVegaK cfg nsd pc recs q.
Proof.
  unfold irVegaK. rewrite mirrored_irVolOf, mirrored_inflationVolOf.
  rewrite !map_map, !sumPairs_map, sumCross_map.
  f_equal. f_equal. f_equal; [f_equal; [f_equal; [f_equal|]|]|].
  - apply sumR_map_ext_in. intros r _. rewrite mirrored_irVegaWs. ring.
  - apply sumPairs_ext_in. intros x y _ _. apply mirrored_irVegaCross.
  - apply sumR_map_ext_in. intros r _. rewrite mirrored_irVegaWs. ring.
  - apply sumCross_ext. intros x y. apply mirrored_irVegaCross.
  - apply sumPairs_ext_in. intros x y _ _. apply mirrored_irVegaCross.
Qed.

Lemma mirrored_irVegaS (q : string) :
  irVegaS cfg nsd pc recs' q = - irVegaS cfg nsd pc recs q.
Proof.
  unfold irVegaS. rewrite mirrored_irVegaK.
  rewrite <- clampS_opp by (unfold irVegaK; apply sqrt_pos). f_equal.
  unfold irVegaSumWs. rewrite mirrored_irVolOf, mirrored_inflationVolOf, !map_map.
  rewrite (sumR_map_opp (fun x => irVegaWs cfg nsd pc recs' RiskType.IRVol q (g x))
             (irVegaWs cfg nsd pc recs RiskType.IRVol q))
    by (intros r; apply mirrored_irVegaWs).
  rewrite (sumR_map_opp (fun x => irVegaWs cfg nsd pc recs' RiskType.InflationVol q (g x))
             (irVegaWs cfg nsd pc recs RiskType.InflationVol q))
    by (intros r; apply mirrored_irVegaWs).
  ring.
Qed.

Lemma mirrored_irVegaMapFormula :
  irVegaMapFormula cfg calculationCcy nsd pc recs'
  = irVegaMapFormula cfg calculationCcy nsd pc recs.
Proof.
  pose proof (mirrored_irVolCurrencies nsd pc recs) as HQ.
  change (map (scaleAmountUsd (-1)) recs) with recs' in HQ.
  unfold irVegaMapFormula, irVegaTotalFormula. rewrite HQ. f_equal.
  - f_equal. f_equal. f_equal.
    + apply sumR_map_ext_in. intros q _. rewrite mirrored_irVegaK. reflexivity.
    + apply sumPairs_ext_in. intros x y _ _. unfold irVegaCurrencyCross.
      rewrite !mirrored_irVegaS, !mirrored_irVegaCR. ring.
  - apply map_ext. intros q. rewrite mirrored_irVegaK. reflexivity.
Qed.

End MirroredIrVega.

(** The interest rate vega margin does not depend on the direction of the
    portfolio either: [irVegaMargin] returns the same map, currency by
    currency and in total, for the records with the opposite USD amounts. *)
Theorem irVegaMargin_mirror_symmetric (cfg : SimmConfiguration) (calculationCcy : string)
    (nsd : NettingSetDetails) (pc : ProductClass.t) (recs : SimmNetSensitivities) :
  irVegaMargin cfg calculationCcy nsd pc (map (scaleAmountUsd (-1)) recs)
  = irVegaMargin cfg calculationCcy nsd pc recs.
Proof.
  rewrite !irVegaMargin_closed, mirrored_irVegaMapFormula, mirrored_irVolCurrencies.
  reflexivity.
Qed.

(* ----------------------------------------------------------------- *)
(** ** The interest rate delta margin of the mirrored portfolio *)

(** The result of [irDeltaMargin] in closed form. *)
Lemma irDeltaMargin_closed (cfg : SimmConfiguration) (calculationCcy : string)
    (nsd : NettingSetDetails) (pc : ProductClass.t) (recs : SimmNetSensitivities) :
  match irDeltaMargin cfg calculationCcy nsd pc recs with
  | OK (m, applies) =>
      irCountsOk nsd pc recs = true
      /\ m = irDeltaMapFormula cfg calculationCcy nsd pc recs
      /\ applies = match irCurrencies nsd pc recs with [] => false | _ => true end
  | Error _ => irCountsOk nsd pc recs = false
  end.
Proof.
  pose proof (irDeltaMargin_currencies cfg calculationCcy nsd pc recs) as H.
  unfold irDeltaMargin. cbv zeta. fold (irCurrencies nsd pc recs).
  destruct (irCurrencies nsd pc recs) as [|q0 qs0] eqn:Eq.
  - unfold irCountsOk, irDeltaMapFormula, irDeltaMapWith.
    rewrite (@irDeltaTotal_empty cfg nsd pc recs false true calculationCcy Eq), Eq.
    repeat split.
  - exact H.
Qed.

Lemma hd_error_map (A B : Type) (h : A -> B) (l : list A) :
  hd_error (map h l) = option_map h (hd_error l).
Proof. destruct l; reflexivity. Qed.

Lemma forallb_pointwise (A : Type) (f h : A -> bool) (l : list A) :
  (forall x, f x = h x) -> forallb f l = forallb h l.
Proof.
  intros E. induction l as [|x l IH]; [reflexivity|]. cbn [forallb].
  rewrite E, IH. reflexivity.
Qed.

Section MirroredIrDelta.

Variable cfg : SimmConfiguration.
Variable nsd : NettingSetDetails.
Variable pc : ProductClass.t.
Variable recs : SimmNetSensitivities.
Variable xccyScaled : bool.
Variable withG : bool.
Variable xccyCrossCcy : string.

Let g := scaleAmountUsd (-1).
Let recs' := map g recs.

Lemma mirrored_irCurrencies : irCurrencies nsd pc recs' = irCurrencies nsd pc recs.
Proof.
  unfold irCurrencies, recs', g. rewrite !mirrored_riskTypeRange.
  rewrite !qualifiersOf_map by reflexivity. reflexivity.
Qed.

Lemma mirrored_irCurveOf (q : string) :
  irCurveOf nsd pc recs' q = map g (irCurveOf nsd pc recs q).
Proof. apply mirrored_qualifierRange. Qed.

Lemma mirrored_irInflationOf (q : string) :
  irInflationOf nsd pc recs' q = option_map g (irInflationOf nsd pc recs q).
Proof.
  unfold irInflationOf, recs', g. rewrite mirrored_qualifierRange. apply hd_error_map.
Qed.

Lemma mirrored_irXccyOf (q : string) :
  irXccyOf nsd pc recs' q = option_map g (irXccyOf nsd pc recs q).
Proof.
  unfold irXccyOf, recs', g. rewrite mirrored_qualifierRange. apply hd_error_map.
Qed.

Lemma mirrored_irCountsOk : irCountsOk nsd pc recs' = irCountsOk nsd pc recs.
Proof.
  unfold irCountsOk. rewrite mirrored_irCurrencies. apply forallb_pointwise. intros q.
  unfold recs', g. rewrite !mirrored_qualifierRange, !length_map. reflexivity.
Qed.

Lemma mirrored_irCR (q : string) : irCR cfg nsd pc recs' q = irCR cfg nsd pc recs q.
Proof.
  unfold irCR. rewrite mirrored_irCurveOf, mirrored_irInflationOf.
  unfold g. rewrite sumR_mirrored.
  set (a := sumR (map amountUsd (irCurveOf nsd pc recs q))).
  set (T := concentrationThreshold cfg RiskType.IRCurve q).
  destruct (irInflationOf nsd pc recs q) as [i|]; cbn [option_map scaleAmountUsd amountUsd].
  - replace ((- a + -1 * amountUsd i) / T) with (- ((a + amountUsd i) / T))
      by (unfold Rdiv; ring).
    rewrite Rabs_Ropp. reflexivity.
  - replace ((- a + 0) / T) with (- ((a + 0) / T)) by (unfold Rdiv; ring).
    rewrite Rabs_Ropp. reflexivity.
Qed.

Lemma mirrored_irCurveWs (ccy q : string) (r : CrifRecord) :
  irCurveWs cfg nsd pc recs' ccy q (g r) = - irCurveWs cfg nsd pc recs ccy q r.
Proof.
  unfold irCurveWs. rewrite mirrored_irCR. cbn [g scaleAmountUsd amountUsd label1]. ring.
Qed.

Lemma mirrored_irInflationWs (q : string) :
  irInflationWs cfg nsd pc recs' q = - irInflationWs cfg nsd pc recs q.
Proof.
  unfold irInflationWs. rewrite mirrored_irInflationOf, mirrored_irCR.
  destruct (irInflationOf nsd pc recs q) as [i|];
    cbn [option_map g scaleAmountUsd amountUsd label1]; ring.
Qed.

Lemma mirrored_irXccyWs (q : string) :
  irXccyWs cfg nsd pc recs' xccyScaled q = - irXccyWs cfg nsd pc recs xccyScaled q.
Proof.
  unfold irXccyWs. rewrite mirrored_irXccyOf, mirrored_irCR.
  destruct (irXccyOf nsd pc recs q) as [x|];
    cbn [option_map g scaleAmountUsd amountUsd label1]; ring.
Qed.

Lemma mirrored_irCurveSum (ccy q : string) :
  sumR (map (irCurveWs cfg nsd pc recs' ccy q) (irCurveOf nsd pc recs' q))
  = - sumR (map (irCurveWs cfg nsd pc recs ccy q) (irCurveOf nsd pc recs q)).
Proof.
  rewrite mirrored_irCurveOf, map_map.
  apply sumR_map_opp. intros r. apply mirrored_irCurveWs.
Qed.

Lemma mirrored_irSumWs (q : string) :
  irSumWs cfg nsd pc recs' xccyScaled q = - irSumWs cfg nsd pc recs xccyScaled q.
Proof.
  unfold irSumWs. rewrite mirrored_irCurveSum, mirrored_irInflationWs, mirrored_irXccyWs.
  ring.
Qed.

Lemma mirrored_irK (q : string) :
  irK cfg nsd pc recs' xccyScaled xccyCrossCcy q
  = irK cfg nsd pc recs xccyScaled xccyCrossCcy q.
Proof.
  unfold irK. cbv zeta.
  rewrite !mirrored_irCurveSum, mirrored_irInflationWs, mirrored_irXccyWs.
  rewrite mirrored_irCurveOf, map_map, sumPairs_map.
  rewrite (sumR_map_ext_in
             (fun x => irCurveWs cfg nsd pc recs' "" q (g x)
                       * irCurveWs cfg nsd pc recs' "" q (g x))
             (fun r => irCurveWs cfg nsd pc recs "" q r * irCurveWs cfg nsd pc recs "" q r))
    by (intros r _; rewrite mirrored_irCurveWs; ring).
  rewrite (sumPairs_ext_in
             (fun x y => irCurveCross cfg nsd pc recs' q (g x) (g y))
             (irCurveCross cfg nsd pc recs q))
    by (intros x y _ _; unfold irCurveCross; rewrite !mirrored_irCurveWs;
        cbn [g scaleAmountUsd label1 label2]; ring).
  f_equal. f_equal. ring.
Qed.

Lemma mirrored_irS (q : string) :
  irS cfg nsd pc recs' xccyScaled xccyCrossCcy q
  = - irS cfg nsd pc recs xccyScaled xccyCrossCcy q.
Proof.
  unfold irS. rewrite mirrored_irK, mirrored_irSumWs.
  apply clampS_opp. unfold irK. apply sqrt_pos.
Qed.

Lemma mirrored_irDeltaMapWith :
  irDeltaMapWith cfg nsd pc recs' xccyScaled withG xccyCrossCcy
  = irDeltaMapWith cfg nsd pc recs xccyScaled withG xccyCrossCcy.
Proof.
  unfold irDeltaMapWith, irDeltaTotalWith. rewrite mirrored_irCurrencies. f_equal.
  - f_equal. f_equal. f_equal.
    + apply sumR_map_ext_in. intros q _. rewrite mirrored_irK. reflexivity.
    + apply sumPairs_ext_in. intros x y _ _. unfold irCurrencyCross, irG.
      rewrite !mirrored_irS, !mirrored_irCR. ring.
  - apply map_ext. intros q. rewrite mirrored_irK. reflexivity.
Qed.

End MirroredIrDelta.

(** The interest rate delta margin does not depend on the direction of
    the portfolio: for the records with the opposite USD amounts
    [irDeltaMargin] fails when it fails for the records themselves, and
    otherwise returns the same map, currency by currency and in total. *)
Theorem irDeltaMargin_mirror_symmetric (cfg : SimmConfiguration) (calculationCcy : string)
    (nsd : NettingSetDetails) (pc : ProductClass.t) (recs : SimmNetSensitivities) :
  match irDeltaMargin cfg calculationCcy nsd pc (map (scaleAmountUsd (-1)) recs),
        irDeltaMargin cfg calculationCcy nsd pc recs with
  | OK mirrored, OK result => mirrored = result
  | Error _, Error _ => True
  | _, _ => False
  end.
Proof.
  pose proof (irDeltaMargin_closed cfg calculationCcy nsd pc recs) as H.
  pose proof (irDeltaMargin_closed cfg calculationCcy nsd pc
                (map (scaleAmountUsd (-1)) recs)) as H'.
  unfold irDeltaMapFormula in *.
  rewrite mirrored_irCountsOk, mirrored_irDeltaMapWith, mirrored_irCurrencies in H'.
  destruct (irDeltaMargin cfg calculationCcy nsd pc (map (scaleAmountUsd (-1)) recs))
    as [[m' a']|e'];
    destruct (irDeltaMargin cfg calculationCcy nsd pc recs) as [[m a]|e].
  - destruct H as [_ [-> ->]], H' as [_ [-> ->]]. reflexivity.
  - destruct H' as [H' _]. congruence.
  - destruct H as [H _]. congruence.
  - exact I.
Qed.

(* ----------------------------------------------------------------- *)
(** ** The curvature margin, entry by entry *)

Lemma curvatureMargin_has_total cfg calculationCcy nsd pc rt side recs rfLabels :
  sm_find "All" (fst (curvatureMargin cfg calculationCcy nsd pc rt side recs rfLabels))
  = Some (sm_get "All"
            (fst (curvatureMargin cfg calculationCcy nsd pc rt side recs rfLabels))).
Proof.
  unfold sm_get, curvatureMargin. cbv zeta.
  destruct (bucketsOf (riskTypeRange nsd pc rt recs)).
  - cbn [fst]. rewrite sm_find_set_same. reflexivity.
  - destruct (negb (close_enough _ 0)); cbv beta iota; cbn [fst];
      rewrite sm_find_set_same; reflexivity.
Qed.

(** For a risk type outside the FX risk class the map [curvatureMargin]
    returns holds the total at "All", [K_b] at every bucket other than
    "Residual", the margin of the Residual bucket with its own theta at
    "Residual" unless the absolute [CVR] of that bucket is negligible
    (close to zero), and no other entry. *)
Theorem curvature_bucket_entries (cfg : SimmConfiguration) (calculationCcy : string)
    (nsd : NettingSetDetails) (pc : ProductClass.t) (rt : RiskType.t)
    (side : SimmSide.t) (recs : SimmNetSensitivities) (rfLabels : bool)
    (key : string) :
  riskClassIsFX rt = false ->
  sm_find key (fst (curvatureMargin cfg calculationCcy nsd pc rt side recs rfLabels))
  = curvatureEntryFormula cfg calculationCcy nsd pc rt side rfLabels recs key.
Proof.
  intros HFX. unfold curvatureEntryFormula. cbv zeta.
  destruct (String.eqb key "All") eqn:EA.
  { apply String.eqb_eq in EA. subst key.
    rewrite curvatureMargin_has_total, curvatureMargin_total. reflexivity. }
  pose proof (bucketsOf_sorted (riskTypeRange nsd pc rt recs)) as Hs.
  unfold curvatureMargin. cbv zeta.
  fold (curvatureStateOf cfg calculationCcy nsd pc rt side rfLabels recs).
  rewrite curvatureState_nonFX by exact HFX.
  cbn [csMargin csSumWeightedSensis csSumAbsWeightedSensis csBucketMargins].
  set (B := bucketsOf (riskTypeRange nsd pc rt recs)) in *.
  set (K := bucketCurvatureK cfg calculationCcy nsd pc rt side recs) in *.
  set (CVR := bucketCvr cfg calculationCcy nsd pc rt side recs) in *.
  set (ABS := bucketAbsCvr cfg calculationCcy nsd pc rt side rfLabels recs) in *.
  destruct B as [|kv0 l] eqn:EB.
  { cbn [fst sm_find]. rewrite sm_find_set, EA.
    destruct (String.eqb key "Residual"); reflexivity. }
  rewrite <- EB in *. clear EB kv0 l.
  rewrite (residual_lookup K K B), (residual_lookup K CVR B), (residual_lookup K ABS B).
  assert (Hsorted : smSorted (sm_erase "Residual" (mapValues K B)))
    by (apply sm_erase_sorted, mapValues_sorted; exact Hs).
  unfold curvatureResidualPart. fold K CVR ABS.
  destruct (sm_find "Residual" B) as [qs|] eqn:FR.
  - destruct (close_enough (ABS ("Residual", qs)) 0) eqn:EC; cbn [negb];
      cbv beta iota; rewrite HFX; cbn [negb fst]; rewrite sm_find_set, EA.
    + rewrite copyInto_sorted by exact Hsorted.
      rewrite sm_find_erase, mapValues_find.
      destruct (String.eqb key "Residual") eqn:ER.
      * rewrite String.eqb_sym, ER. reflexivity.
      * rewrite String.eqb_sym, ER. destruct (sm_find key B); reflexivity.
    + rewrite copyInto_sorted by (apply sm_set_sorted; exact Hsorted).
      rewrite sm_find_set. destruct (String.eqb key "Residual") eqn:ER; [reflexivity|].
      rewrite sm_find_erase, mapValues_find, String.eqb_sym, ER.
      destruct (sm_find key B); reflexivity.
  - rewrite close_enough_0_0. cbn [negb]. cbv beta iota. rewrite HFX. cbn [negb fst].
    rewrite sm_find_set, EA. rewrite copyInto_sorted by exact Hsorted.
    rewrite sm_find_erase, mapValues_find.
    destruct (String.eqb key "Residual") eqn:ER.
    + rewrite String.eqb_sym, ER. reflexivity.
    + rewrite String.eqb_sym, ER. destruct (sm_find key B); reflexivity.
Qed.

Lemma curvature_bucket_entries_witness :
  riskClassIsFX RiskType.EquityVol = false
  /\ sm_find "1" (fst (curvatureMargin Samples.unitCfg "USD" "NS1" ProductClass.RatesFX
                                       RiskType.EquityVol SimmSide.Call
                                       Samples.equityVolTwoBuckets false))
     = curvatureEntryFormula Samples.unitCfg "USD" "NS1" ProductClass.RatesFX
         RiskType.EquityVol SimmSide.Call false Samples.equityVolTwoBuckets "1".
Proof.
  split; [reflexivity|].
  apply (@curvature_bucket_entries Samples.unitCfg "USD" "NS1" ProductClass.RatesFX
           RiskType.EquityVol SimmSide.Call Samples.equityVolTwoBuckets false "1").
  reflexivity.
Defined.
